(** * HHOA-FSSP: a shallow embedding of the Horse Herd optimiser for the
      permutation flow shop, and the properties of its specification.

    The C++ sources are embedded function by function:
      - [core/ProblemInstance.cpp]  -> [ProblemInstance], [getProcessingTime], ...
      - [core/Solution.cpp]         -> [Solution], [calculateMakespan], [swapJobs], ...
      - [algorithm/Horse.cpp]       -> [Horse], [graze], [roam], [mutate], ...
      - [algorithm/HorseHerd.cpp]   -> [HorseHerd], [updateLeader], [performMutation], ...
      - [algorithm/HHOA.cpp]        -> [HHOAParameters], [HHOA], [optimize], ...
      - [utils/Random.cpp]          -> [Random], [randInt], [randDouble], ...

    Conventions.
      - [int] is [Z].  The sums of processing times, the only [int]
        arithmetic of the code whose value grows with the data, are
        taken in 32 bits with two's-complement wrap-around ([int_add]),
        which is what the compiled code computes; the counters and
        indices of the code stay far below [INT_MAX].
      - [double] is [Q]: a double is the rational it denotes.  A product
        or quotient of doubles that the code converts to [int] is
        rounded to the nearest double, ties to even, as IEEE 754
        binary64 does ([round_double], [dmul], [ddiv]); the conversion
        itself truncates ([trunc]).  A rational that is not a double
        stands there for the double nearest to it, as a decimal literal
        does in the source: [dmul] and [ddiv] round their arguments
        first.  The comparisons of the code are taken on the rationals.
      - [std::vector] is [list], indexed by [Z.to_nat] of the C++ index.
      - C++ exceptions are the [Throw] outcome of [result]; a statement
        whose behaviour is undefined in C++ is [Undefined]; a [while]
        loop of the source that has no bound of its own runs on fuel and
        yields [OutOfFuel] when it is exhausted.
      - The process-wide random source is a tape of raw draws that is
        threaded through every function that consumes randomness. *)

From Stdlib Require Import ZArith QArith Qround Qpower Lia Lqa Bool Sorted.
From stdpp Require Import base tactics option list.

#[local] Open Scope Z_scope.

(** ** Outcomes of a call *)

Inductive exn : Type :=
| invalid_argument
| out_of_range
| runtime_error.

Inductive result (A : Type) : Type :=
| Ok (a : A)
| Throw (e : exn)
| Undefined
| OutOfFuel.

Arguments Ok {A} a.
Arguments Throw {A} e.
Arguments Undefined {A}.
Arguments OutOfFuel {A}.

(** Sequencing of calls that may throw. *)
Definition result_bind {A B : Type} (r : result A) (f : A -> result B) : result B :=
  match r with
  | Ok a => f a
  | Throw e => Throw e
  | Undefined => Undefined
  | OutOfFuel => OutOfFuel
  end.

Notation "x <- m ; k" := (result_bind m (fun x => k))
  (at level 20, m at level 100, k at level 200, only parsing).
Notation "' pat <- m ; k" := (result_bind m (fun x => match x with pat => k end))
  (at level 20, pat pattern, m at level 100, k at level 200, only parsing).

(** [for (int i = lo; i < hi; ++i) body] over a state [S]. *)
Fixpoint foldR {S I : Type} (body : I -> S -> result S) (l : list I) (s : S) : result S :=
  match l with
  | [] => Ok s
  | i :: l' => s' <- body i s; foldR body l' s'
  end.

Definition forZ {S : Type} (lo hi : Z) (body : Z -> S -> result S) (s : S) : result S :=
  foldR body (seqZ lo (hi - lo)) s.

(** ** core/ProblemInstance *)

Record ProblemInstance : Type := mkInstance {
  num_jobs_ : Z;
  num_machines_ : Z;
  processing_times_ : list (list Z)
}.

Definition vec_at {A : Type} (d : A) (v : list A) (i : Z) : A := nth (Z.to_nat i) v d.

(** [ProblemInstance(const vector<vector<int>>&)] *)
Definition ProblemInstance_of_matrix (pt : list (list Z)) : ProblemInstance :=
  {| num_jobs_ := Z.of_nat (length pt);
     num_machines_ := match pt with [] => 0 | r :: _ => Z.of_nat (length r) end;
     processing_times_ := pt |}.

Definition getNumJobs (inst : ProblemInstance) : Z := num_jobs_ inst.
Definition getNumMachines (inst : ProblemInstance) : Z := num_machines_ inst.

Definition getProcessingTime (inst : ProblemInstance) (job machine : Z) : result Z :=
  if (job <? 0) || (job >=? num_jobs_ inst) || (machine <? 0) || (machine >=? num_machines_ inst)
  then Throw out_of_range
  else Ok (vec_at 0 (vec_at [] (processing_times_ inst) job) machine).

(** [ProblemInstance::isValid] *)
Definition ProblemInstance_isValid (inst : ProblemInstance) : bool :=
  if (num_jobs_ inst <=? 0) || (num_machines_ inst <=? 0) then false
  else if negb (Z.of_nat (length (processing_times_ inst)) =? num_jobs_ inst) then false
  else forallb (fun job_times =>
                  (Z.of_nat (length job_times) =? num_machines_ inst)
                  && forallb (fun time => negb (time <? 0)) job_times)
               (processing_times_ inst).

(** ** core/Solution *)

Record Solution : Type := mkSolution {
  job_sequence_ : list Z;
  instance_ : ProblemInstance;
  makespan_ : Z;
  makespan_calculated_ : bool;
  completion_times_ : list (list Z)
}.

Definition set_job_sequence (v : list Z) (s : Solution) : Solution :=
  {| job_sequence_ := v; instance_ := instance_ s; makespan_ := makespan_ s;
     makespan_calculated_ := makespan_calculated_ s;
     completion_times_ := completion_times_ s |}.

(** [Solution::invalidateCache] *)
Definition invalidateCache (s : Solution) : Solution :=
  {| job_sequence_ := job_sequence_ s; instance_ := instance_ s; makespan_ := -1;
     makespan_calculated_ := false; completion_times_ := [] |}.

(** [Solution(shared_ptr<ProblemInstance>)]: the identity order. *)
Definition Solution_new (inst : ProblemInstance) : result Solution :=
  if negb (ProblemInstance_isValid inst) then Throw invalid_argument
  else Ok {| job_sequence_ := seqZ 0 (getNumJobs inst); instance_ := inst; makespan_ := -1;
             makespan_calculated_ := false; completion_times_ := [] |}.

(** [Solution(const vector<int>&, shared_ptr<ProblemInstance>)] *)
Definition Solution_of_sequence (job_sequence : list Z) (inst : ProblemInstance) : result Solution :=
  if negb (ProblemInstance_isValid inst) then Throw invalid_argument
  else if negb (Z.of_nat (length job_sequence) =? getNumJobs inst) then Throw invalid_argument
  else Ok {| job_sequence_ := job_sequence; instance_ := inst; makespan_ := -1;
             makespan_calculated_ := false; completion_times_ := [] |}.

Definition Solution_getNumJobs (s : Solution) : Z := Z.of_nat (length (job_sequence_ s)).

(** [Solution::getJobAt] *)
Definition getJobAt (s : Solution) (position : Z) : result Z :=
  if (position <? 0) || (position >=? Z.of_nat (length (job_sequence_ s)))
  then Throw out_of_range
  else Ok (vec_at 0 (job_sequence_ s) position).

(** [int]: 32 bits, two's complement. *)
Definition INT_MAX : Z := 2147483647.

Definition wrap_int (z : Z) : Z := (z + 2147483648) mod 4294967296 - 2147483648.

(** [a + b] on [int]s. *)
Definition int_add (a b : Z) : Z := wrap_int (a + b).

(** The completion-time matrix, [completion_times_[pos][machine]]. *)
Definition mat_get (C : list (list Z)) (pos machine : Z) : Z := vec_at 0 (vec_at [] C pos) machine.

Definition mat_set (C : list (list Z)) (pos machine : Z) (v : Z) : list (list Z) :=
  <[Z.to_nat pos := <[Z.to_nat machine := v]> (vec_at [] C pos)]> C.

(** The body of the inner loop of [Solution::calculateMakespan]. *)
Definition calculateMakespan_cell (inst : ProblemInstance) (job pos machine : Z)
    (C : list (list Z)) : result (list (list Z)) :=
  processing_time <- getProcessingTime inst job machine;
  if (pos =? 0) && (machine =? 0) then
    Ok (mat_set C pos machine processing_time)
  else if pos =? 0 then
    Ok (mat_set C pos machine (int_add (mat_get C pos (machine - 1)) processing_time))
  else if machine =? 0 then
    Ok (mat_set C pos machine (int_add (mat_get C (pos - 1) machine) processing_time))
  else
    Ok (mat_set C pos machine
          (int_add (Z.max (mat_get C (pos - 1) machine) (mat_get C pos (machine - 1)))
                   processing_time)).

(** The body of the outer loop of [Solution::calculateMakespan]. *)
Definition calculateMakespan_row (inst : ProblemInstance) (job_sequence : list Z)
    (num_machines : Z) (pos : Z) (C : list (list Z)) : result (list (list Z)) :=
  let job := vec_at 0 job_sequence pos in
  forZ 0 num_machines (fun machine C => calculateMakespan_cell inst job pos machine C) C.

(** [Solution::calculateMakespan]: fills the cache of a solution. *)
Definition calculateMakespan (s : Solution) : result Solution :=
  let num_jobs := Z.of_nat (length (job_sequence_ s)) in
  let num_machines := getNumMachines (instance_ s) in
  let C0 := replicate (Z.to_nat num_jobs) (replicate (Z.to_nat num_machines) 0) in
  C <- forZ 0 num_jobs (calculateMakespan_row (instance_ s) (job_sequence_ s) num_machines) C0;
  Ok {| job_sequence_ := job_sequence_ s; instance_ := instance_ s;
        makespan_ := if 0 <? num_jobs then mat_get C (num_jobs - 1) (num_machines - 1) else 0;
        makespan_calculated_ := true;
        completion_times_ := C |}.

(** [Solution::getMakespan]: the value, and the solution with its cache
    filled ([makespan_] and [completion_times_] are [mutable]). *)
Definition getMakespan (s : Solution) : result (Z * Solution) :=
  if negb (makespan_calculated_ s) then
    s' <- calculateMakespan s; Ok (makespan_ s', s')
  else Ok (makespan_ s, s).

(** ** utils/Random: the random source

    The generator is a tape of raw draws; [cursor] is the number of
    draws consumed so far.  Every distribution of the source reads the
    tape, so a statement quantified over all tapes covers every outcome
    the generator can produce. *)

Record Random : Type := mkRandom {
  tape : nat -> Z;
  cursor : nat
}.

(** Computations that consume randomness and may throw. *)
Definition M (A : Type) : Type := Random -> result (A * Random).

Definition M_ret {A : Type} (a : A) : M A := fun g => Ok (a, g).

Definition M_bind {A B : Type} (m : M A) (f : A -> M B) : M B := fun g =>
  match m g with
  | Ok (a, g') => f a g'
  | Throw e => Throw e
  | Undefined => Undefined
  | OutOfFuel => OutOfFuel
  end.

Notation "x <~ m ; k" := (M_bind m (fun x => k))
  (at level 20, m at level 100, k at level 200, only parsing).
Notation "' pat <~ m ; k" := (M_bind m (fun x => match x with pat => k end))
  (at level 20, pat pattern, m at level 100, k at level 200, only parsing).

Definition liftR {A : Type} (r : result A) : M A := fun g =>
  match r with
  | Ok a => Ok (a, g)
  | Throw e => Throw e
  | Undefined => Undefined
  | OutOfFuel => OutOfFuel
  end.

Definition throwM {A : Type} (e : exn) : M A := fun _ => Throw e.

Fixpoint foldM {S I : Type} (body : I -> S -> M S) (l : list I) (s : S) : M S :=
  match l with
  | [] => M_ret s
  | i :: l' => s' <~ body i s; foldM body l' s'
  end.

Definition forM {S : Type} (lo hi : Z) (body : Z -> S -> M S) (s : S) : M S :=
  foldM body (seqZ lo (hi - lo)) s.

Definition raw_draw : M Z := fun g =>
  Ok (tape g (cursor g), {| tape := tape g; cursor := S (cursor g) |}).

(** [Random::randInt(min, max)]: uniform on [[min, max]]. *)
Definition randInt (min max : Z) : M Z :=
  if min >? max then throwM invalid_argument
  else r <~ raw_draw; M_ret (min + r mod (max - min + 1)).

(** [Random::randDouble()]: uniform on [[0, 1)], with 53 random bits. *)
Definition randDouble : M Q :=
  r <~ raw_draw; M_ret (Qmake (r mod 2 ^ 53) (2 ^ 53)%positive).

(** Comparisons of [double]s: [a < b] and [a <= b]. *)
Definition Qltb (a b : Q) : bool := negb (Qle_bool b a).
Definition Qleb (a b : Q) : bool := Qle_bool a b.

(** [std::max(a, b)] and [std::min(a, b)] on [double]s. *)
Definition Qmax (a b : Q) : Q := if Qltb a b then b else a.
Definition Qmin (a b : Q) : Q := if Qltb b a then b else a.

(** [static_cast<int>(x)]: truncation towards zero. *)
Definition trunc (x : Q) : Z := Z.quot (Qnum x) (Zpos (Qden x)).

(** IEEE 754 binary64 rounding.  [Qlog2 x] is the exponent of the
    leading bit of [x > 0]; a double has 53 significant bits and no bit
    below [2^-1074]; the real is rounded to the nearest multiple of its
    last bit, a tie to the even one.  The range of the exponent is not
    bounded above: no product of the code comes near [2^1024]. *)
Definition pow2 (e : Z) : Q := (2 ^ e)%Q.

Definition Qlog2 (x : Q) : Z :=
  let k := Z.log2 (Qnum x) - Z.log2 (Zpos (Qden x)) in
  if Qle_bool (pow2 k) x then k else k - 1.

Definition round_half_even (x : Q) : Z :=
  let f := Qfloor x in
  match Qcompare (x - inject_Z f) (1 # 2) with
  | Lt => f
  | Gt => f + 1
  | Eq => if Z.even f then f else f + 1
  end.

Definition last_bit (x : Q) : Z := Z.max (-1074) (Qlog2 x - 52).

Definition round_double_pos (x : Q) : Q :=
  (inject_Z (round_half_even (x / pow2 (last_bit x))) * pow2 (last_bit x))%Q.

Definition round_double (x : Q) : Q :=
  match Qcompare x 0 with
  | Eq => 0%Q
  | Gt => round_double_pos x
  | Lt => (- round_double_pos (- x))%Q
  end.

(** [a * b] and [a / b] on [double]s. *)
Definition dmul (a b : Q) : Q := round_double (round_double a * round_double b).
Definition ddiv (a b : Q) : Q := round_double (round_double a / round_double b).

(** [Random::randBool(probability)] *)
Definition randBool (probability : Q) : M bool :=
  if Qltb probability 0 || Qltb 1 probability then throwM invalid_argument
  else u <~ randDouble; M_ret (Qltb u probability).

Definition vec_swap {A : Type} (d : A) (v : list A) (i j : Z) : list A :=
  <[Z.to_nat j := vec_at d v i]> (<[Z.to_nat i := vec_at d v j]> v).

(** [Random::shuffle]: [std::shuffle], position [i] is exchanged with a
    uniformly drawn position of [[0, i]]. *)
Definition shuffle {A : Type} (d : A) (vec : list A) : M (list A) :=
  forM 1 (Z.of_nat (length vec))
       (fun i v => k <~ randInt 0 i; M_ret (vec_swap d v i k)) vec.

(** [Random::sample(population_size, sample_size)] *)
Definition sample (population_size sample_size : Z) : M (list Z) :=
  if (population_size <? 0) || (sample_size <? 0) then throwM invalid_argument
  else if sample_size >? population_size then throwM invalid_argument
  else population <~ shuffle 0 (seqZ 0 population_size);
       M_ret (take (Z.to_nat sample_size) population).

(** ** core/Solution, continued *)

(** [Solution::setJobSequence] *)
Definition setJobSequence (s : Solution) (sequence : list Z) : result Solution :=
  if negb (Z.of_nat (length sequence) =? getNumJobs (instance_ s)) then Throw invalid_argument
  else Ok (invalidateCache (set_job_sequence sequence s)).

(** [Solution::setJobAt] *)
Definition setJobAt (s : Solution) (position job : Z) : result Solution :=
  if (position <? 0) || (position >=? Z.of_nat (length (job_sequence_ s)))
  then Throw out_of_range
  else Ok (invalidateCache (set_job_sequence (<[Z.to_nat position := job]> (job_sequence_ s)) s)).

(** [Solution::swapJobs] *)
Definition swapJobs (s : Solution) (pos1 pos2 : Z) : result Solution :=
  if (pos1 <? 0) || (pos1 >=? Z.of_nat (length (job_sequence_ s)))
     || (pos2 <? 0) || (pos2 >=? Z.of_nat (length (job_sequence_ s)))
  then Throw out_of_range
  else Ok (invalidateCache (set_job_sequence (vec_swap 0 (job_sequence_ s) pos1 pos2) s)).

(** [v.erase(v.begin() + i)] and [v.insert(v.begin() + i, x)] *)
Definition vec_erase {A : Type} (v : list A) (i : Z) : list A :=
  take (Z.to_nat i) v ++ drop (S (Z.to_nat i)) v.

Definition vec_insert {A : Type} (v : list A) (i : Z) (x : A) : list A :=
  take (Z.to_nat i) v ++ x :: drop (Z.to_nat i) v.

(** Remove the job at [i] and insert it again at [j > i ? j - 1 : j]. *)
Definition relocate (v : list Z) (i j : Z) : list Z :=
  let job := vec_at 0 v i in
  vec_insert (vec_erase v i) (if j >? i then j - 1 else j) job.

(** [Solution::initializeRandom] *)
Definition Solution_initializeRandom (s : Solution) : M Solution :=
  v <~ shuffle 0 (job_sequence_ s);
  M_ret (invalidateCache (set_job_sequence v s)).

(** The loop of [Solution::isValid] over the jobs, with its [used] vector. *)
Fixpoint isValid_loop (n : Z) (jobs : list Z) (used : list bool) : bool :=
  match jobs with
  | [] => true
  | job :: rest =>
      if (job <? 0) || (job >=? n) || vec_at false used job then false
      else isValid_loop n rest (<[Z.to_nat job := true]> used)
  end.

(** [Solution::isValid] *)
Definition Solution_isValid (s : Solution) : bool :=
  if negb (Z.of_nat (length (job_sequence_ s)) =? getNumJobs (instance_ s)) then false
  else isValid_loop (getNumJobs (instance_ s)) (job_sequence_ s)
         (replicate (Z.to_nat (getNumJobs (instance_ s))) false).

(** [Solution::createSwapNeighbor] *)
Definition createSwapNeighbor (s : Solution) : M Solution :=
  pos1 <~ randInt 0 (Z.of_nat (length (job_sequence_ s)) - 1);
  pos2 <~ randInt 0 (Z.of_nat (length (job_sequence_ s)) - 1);
  liftR (swapJobs s pos1 pos2).

(** [Solution::createInsertNeighbor] *)
Definition createInsertNeighbor (s : Solution) : M Solution :=
  from_pos <~ randInt 0 (Z.of_nat (length (job_sequence_ s)) - 1);
  to_pos <~ randInt 0 (Z.of_nat (length (job_sequence_ s)) - 1);
  if negb (from_pos =? to_pos) then
    M_ret (invalidateCache (set_job_sequence (relocate (job_sequence_ s) from_pos to_pos) s))
  else M_ret s.

(** [Solution::distanceTo]; [INT_MAX] when the lengths differ. *)
Fixpoint count_differ (a b : list Z) : Z :=
  match a, b with
  | x :: a', y :: b' => (if x =? y then 0 else 1) + count_differ a' b'
  | _, _ => 0
  end.

Definition distanceTo (s other : Solution) : Z :=
  if negb (Nat.eqb (length (job_sequence_ s)) (length (job_sequence_ other))) then INT_MAX
  else count_differ (job_sequence_ s) (job_sequence_ other).

(** ** Notions used to state the properties of the evaluator *)

(** The processing time read by [getProcessingTime] when it does not throw. *)
Definition ptime (inst : ProblemInstance) (job machine : Z) : Z :=
  vec_at 0 (vec_at [] (processing_times_ inst) job) machine.

(** A matrix of [n] rows of [m] entries. *)
Definition mat_dims (n m : Z) (C : list (list Z)) : Prop :=
  Z.of_nat (length C) = n /\ Forall (fun row => Z.of_nat (length row) = m) C.

(** The flow-shop recurrence at one cell of a completion-time matrix. *)
Definition recurrence_at (inst : ProblemInstance) (job_sequence : list Z)
    (C : list (list Z)) (p k : Z) : Prop :=
  mat_get C p k =
    ptime inst (vec_at 0 job_sequence p) k
    + Z.max (if 0 <? p then mat_get C (p - 1) k else 0)
            (if 0 <? k then mat_get C p (k - 1) else 0).

(** The cells before [(P, K)] in row-major order are final. *)
Definition filled (inst : ProblemInstance) (job_sequence : list Z) (P K : Z)
    (C : list (list Z)) : Prop :=
  mat_dims (num_jobs_ inst) (num_machines_ inst) C /\
  forall p k, 0 <= p < num_jobs_ inst -> 0 <= k < num_machines_ inst ->
    p < P \/ (p = P /\ k < K) ->
    0 <= mat_get C p k /\ recurrence_at inst job_sequence C p k.

Definition example_instance : ProblemInstance :=
  ProblemInstance_of_matrix [[5;3;4]; [4;5;3]; [3;4;5]; [5;4;3]].

(** Two jobs on one machine whose times do not add up in an [int]. *)
Definition long_jobs_instance : ProblemInstance :=
  ProblemInstance_of_matrix [[2000000000]; [2000000000]].

(** [for] loops that may be left early: the body returns the state and
    whether the loop is left ([break], or a [return] from inside). *)
Fixpoint foldR_break {S I : Type} (body : I -> S -> result (S * bool)) (l : list I) (s : S)
    : result S :=
  match l with
  | [] => Ok s
  | i :: l' => '(s', brk) <- body i s; if brk then Ok s' else foldR_break body l' s'
  end.

Definition forZ_break {S : Type} (lo hi : Z) (body : Z -> S -> result (S * bool)) (s : S)
    : result S :=
  foldR_break body (seqZ lo (hi - lo)) s.

(** One candidate move of [Solution::apply2Opt]; the state is the
    solution, [current_makespan] and [improved]. *)
Definition apply2Opt_step (i j : Z) (st : Solution * Z * bool) : result (Solution * Z * bool) :=
  let '(s, current_makespan, improved) := st in
  s1 <- swapJobs s i j;
  '(new_makespan, s2) <- getMakespan s1;
  if new_makespan <? current_makespan then Ok (s2, new_makespan, true)
  else s3 <- swapJobs s2 i j; Ok (s3, current_makespan, improved).

(** [Solution::apply2Opt]: the result and the solution it leaves. *)
Definition apply2Opt (s : Solution) : result (bool * Solution) :=
  '(current_makespan, s0) <- getMakespan s;
  let size := Z.of_nat (length (job_sequence_ s)) in
  st <- forZ 0 (size - 1)
         (fun i st => forZ (i + 1) size (fun j st => apply2Opt_step i j st) st)
         (s0, current_makespan, false);
  let '(s', _, improved) := st in
  Ok (improved, s').

(** One candidate move of [Solution::applyInsertionSearch].  The move
    edits [job_sequence_] in place and leaves the cache as it is; only
    the revert invalidates it. *)
Definition applyInsertionSearch_step (i j : Z) (st : Solution * Z * bool)
    : result (Solution * Z * bool) :=
  let '(s, current_makespan, improved) := st in
  if i =? j then Ok st
  else
    let job := vec_at 0 (job_sequence_ s) i in
    let at_pos := if j >? i then j - 1 else j in
    let s1 := set_job_sequence (vec_insert (vec_erase (job_sequence_ s) i) at_pos job) s in
    '(new_makespan, s2) <- getMakespan s1;
    if new_makespan <? current_makespan then Ok (s2, new_makespan, true)
    else
      let s3 := set_job_sequence (vec_insert (vec_erase (job_sequence_ s2) at_pos) i job) s2 in
      Ok (invalidateCache s3, current_makespan, improved).

(** [Solution::applyInsertionSearch] *)
Definition Solution_applyInsertionSearch (s : Solution) : result (bool * Solution) :=
  '(current_makespan, s0) <- getMakespan s;
  let size := Z.of_nat (length (job_sequence_ s)) in
  st <- forZ 0 size
         (fun i st => forZ 0 size (fun j st => applyInsertionSearch_step i j st) st)
         (s0, current_makespan, false);
  let '(s', _, improved) := st in
  Ok (improved, s').

(** [std::sort], as a stable insertion sort.  The order in which
    [std::sort] leaves equivalent elements is unspecified; the searches
    and selections below that sort pairs with distinct second components
    do not depend on it. *)
Fixpoint sort_insert {A : Type} (ltb : A -> A -> bool) (x : A) (l : list A) : list A :=
  match l with
  | [] => [x]
  | y :: l' => if ltb y x then y :: sort_insert ltb x l' else x :: l
  end.

Definition sort_by {A : Type} (ltb : A -> A -> bool) (l : list A) : list A :=
  foldr (sort_insert ltb) [] l.

(** [operator<] of [pair<int, int>] and of [pair<double, int>]. *)
Definition pair_ltb (a b : Z * Z) : bool :=
  (a.1 <? b.1) || (negb (b.1 <? a.1) && (a.2 <? b.2)).

Definition fitness_pair_ltb (a b : Q * Z) : bool :=
  Qltb a.1 b.1 || (negb (Qltb b.1 a.1) && (a.2 <? b.2)).

(** [Solution::initializeGreedy]: jobs by ascending total processing time. *)
Definition Solution_initializeGreedy (s : Solution) : result Solution :=
  let inst := instance_ s in
  job_total_times <-
    forZ 0 (getNumJobs inst)
      (fun job acc =>
         total_time <- forZ 0 (getNumMachines inst)
                        (fun machine total =>
                           t <- getProcessingTime inst job machine; Ok (int_add total t)) 0;
         Ok (acc ++ [(total_time, job)])) [];
  let sorted := sort_by pair_ltb job_total_times in
  v <- forZ 0 (Z.of_nat (length sorted))
        (fun i v => Ok (<[Z.to_nat i := (vec_at (0, 0) sorted i).2]> v)) (job_sequence_ s);
  Ok (invalidateCache (set_job_sequence v s)).

(** ** algorithm/Horse *)

Record Horse : Type := mkHorse {
  solution_ : Solution;
  best_solution_ : Solution;
  fitness_ : Q;
  best_fitness_ : Q;
  age_ : Q;
  grazing_ability_ : Q;
  stamina_ : Q;
  is_leader_ : bool;
  stagnation_counter_ : Z
}.

Definition with_solution (s : Solution) (h : Horse) : Horse :=
  mkHorse s (best_solution_ h) (fitness_ h) (best_fitness_ h) (age_ h)
          (grazing_ability_ h) (stamina_ h) (is_leader_ h) (stagnation_counter_ h).
Definition with_best_solution (s : Solution) (h : Horse) : Horse :=
  mkHorse (solution_ h) s (fitness_ h) (best_fitness_ h) (age_ h)
          (grazing_ability_ h) (stamina_ h) (is_leader_ h) (stagnation_counter_ h).
Definition with_fitness (f : Q) (h : Horse) : Horse :=
  mkHorse (solution_ h) (best_solution_ h) f (best_fitness_ h) (age_ h)
          (grazing_ability_ h) (stamina_ h) (is_leader_ h) (stagnation_counter_ h).
Definition with_best_fitness (f : Q) (h : Horse) : Horse :=
  mkHorse (solution_ h) (best_solution_ h) (fitness_ h) f (age_ h)
          (grazing_ability_ h) (stamina_ h) (is_leader_ h) (stagnation_counter_ h).
Definition with_stagnation_counter (c : Z) (h : Horse) : Horse :=
  mkHorse (solution_ h) (best_solution_ h) (fitness_ h) (best_fitness_ h) (age_ h)
          (grazing_ability_ h) (stamina_ h) (is_leader_ h) c.

(** [Horse::setLeader] *)
Definition setLeader (is_leader : bool) (h : Horse) : Horse :=
  mkHorse (solution_ h) (best_solution_ h) (fitness_ h) (best_fitness_ h) (age_ h)
          (grazing_ability_ h) (stamina_ h) is_leader (stagnation_counter_ h).

(** [Horse::calculateFitness]: [makespan > 0 ? -makespan : -1000000.0] *)
Definition calculateFitness (makespan : Z) : Q :=
  if makespan >? 0 then inject_Z (- makespan) else inject_Z (-1000000).

(** [Horse::updateFitness] *)
Definition updateFitness (h : Horse) : result Horse :=
  '(makespan, s) <- getMakespan (solution_ h);
  Ok (with_fitness (calculateFitness makespan) (with_solution s h)).

(** [Horse::updateBest]: the flag it returns and the horse it leaves. *)
Definition updateBest (h : Horse) : bool * Horse :=
  if Qltb (best_fitness_ h) (fitness_ h)
  then (true, with_best_fitness (fitness_ h) (with_best_solution (solution_ h) h))
  else (false, h).

(** [Horse::getMakespan], [Horse::getBestMakespan] *)
Definition Horse_getMakespan (h : Horse) : result (Z * Horse) :=
  '(makespan, s) <- getMakespan (solution_ h); Ok (makespan, with_solution s h).
Definition getBestMakespan (h : Horse) : result (Z * Horse) :=
  '(makespan, s) <- getMakespan (best_solution_ h); Ok (makespan, with_best_solution s h).

(** [Horse::setSolution] *)
Definition setSolution (solution : Solution) (h : Horse) : result Horse :=
  h1 <- updateFitness (with_solution solution h);
  let '(updated, h2) := updateBest h1 in
  if updated then Ok (with_stagnation_counter 0 h2)
  else Ok (with_stagnation_counter (stagnation_counter_ h2 + 1) h2).

(** [Horse::initializeRandom] *)
Definition Horse_initializeRandom (h : Horse) : M Horse :=
  s <~ Solution_initializeRandom (solution_ h);
  h1 <~ liftR (updateFitness (with_solution s h));
  M_ret (with_best_fitness (fitness_ h1) (with_best_solution (solution_ h1) h1)).

(** [Horse::initializeGreedy] *)
Definition Horse_initializeGreedy (h : Horse) : result Horse :=
  s <- Solution_initializeGreedy (solution_ h);
  h1 <- updateFitness (with_solution s h);
  Ok (with_best_fitness (fitness_ h1) (with_best_solution (solution_ h1) h1)).

(** [Horse(shared_ptr<ProblemInstance>)] *)
Definition Horse_new (inst : ProblemInstance) : M Horse :=
  solution <~ liftR (Solution_new inst);
  best_solution <~ liftR (Solution_new inst);
  Horse_initializeRandom
    (mkHorse solution best_solution 0 0 0 (4 # 5) 1 false 0).

(** One candidate move of [Horse::apply2OptSearch]; the inner loop is
    left on the first improvement. *)
Definition apply2OptSearch_step (i j : Z) (st : Solution * Z * bool)
    : result (Solution * Z * bool * bool) :=
  let '(s, current_makespan, improved) := st in
  s1 <- swapJobs s i j;
  '(new_makespan, s2) <- getMakespan s1;
  if new_makespan <? current_makespan then Ok (s2, new_makespan, true, true)
  else s3 <- swapJobs s2 i j; Ok (s3, current_makespan, improved, false).

(** [Horse::apply2OptSearch] on [solution_]: the flag it returns and the
    solution it leaves. *)
Definition apply2OptSearch (solution : Solution) : result (bool * Solution) :=
  '(current_makespan, s0) <- getMakespan solution;
  let size := Solution_getNumJobs solution in
  st <- forZ_break 0 (size - 1)
         (fun i st =>
            st' <- forZ_break (i + 1) size (fun j st => apply2OptSearch_step i j st) st;
            Ok (st', st'.2))
         (s0, current_makespan, false);
  let '(s', _, improved) := st in
  Ok (improved, s').

(** One candidate move of [Horse::applyInsertionSearch], tried on a copy
    [job_sequence] of the order the search started from. *)
Definition Horse_applyInsertionSearch_step (job_sequence : list Z) (current_makespan : Z)
    (i j : Z) (st : Solution * bool) : result (Solution * bool * bool) :=
  if i =? j then Ok (st, false)
  else
    temp_solution <- Solution_of_sequence (relocate job_sequence i j) (instance_ st.1);
    '(new_makespan, temp_solution') <- getMakespan temp_solution;
    if new_makespan <? current_makespan then Ok (temp_solution', true, true)
    else Ok (st, false).

(** [Horse::applyInsertionSearch] on [solution_] *)
Definition Horse_applyInsertionSearch (solution : Solution) : result (bool * Solution) :=
  '(current_makespan, s0) <- getMakespan solution;
  let job_sequence := job_sequence_ s0 in
  let size := Z.of_nat (length job_sequence) in
  st <- forZ_break 0 size
         (fun i st =>
            st' <- forZ_break 0 size
                     (fun j st => Horse_applyInsertionSearch_step job_sequence current_makespan i j st)
                     st;
            Ok (st', st'.2))
         (s0, false);
  Ok (st.2, st.1).

(** [Horse::graze] *)
Definition graze (intensity : Q) (h : Horse) : M (bool * Horse) :=
  if Qleb intensity 0 || Qltb 1 intensity then throwM invalid_argument
  else
    let effective_intensity := (intensity * grazing_ability_ h * stamina_ h)%Q in
    u1 <~ randDouble;
    '(improved1, h1) <~
      (if Qltb u1 effective_intensity then
         '(found, s) <~ liftR (apply2OptSearch (solution_ h));
         M_ret (found, with_solution s h)
       else M_ret (false, h));
    u2 <~ randDouble;
    '(improved2, h2) <~
      (if Qltb u2 (effective_intensity * (7 # 10))%Q then
         '(found, s) <~ liftR (Horse_applyInsertionSearch (solution_ h1));
         M_ret (found || improved1, with_solution s h1)
       else M_ret (improved1, h1));
    if improved2 then
      h3 <~ liftR (updateFitness h2);
      M_ret (improved2, (updateBest h3).2)
    else M_ret (improved2, h2).

(** The number of moves of [Horse::roam]:
    [max(1, static_cast<int>(exploration_rate * getNumJobs() * 0.5))]. *)
Definition roam_num_moves (exploration_rate : Q) (num_jobs : Z) : Z :=
  Z.max 1 (trunc (dmul (dmul exploration_rate (inject_Z num_jobs)) (1 # 2))).

(** One move of [Horse::roam]. *)
Definition roam_move (new_solution : Solution) : M Solution :=
  b <~ randBool (1 # 2);
  if b then createSwapNeighbor new_solution else createInsertNeighbor new_solution.

(** [Horse::roam] *)
Definition roam (exploration_rate : Q) (h : Horse) : M Solution :=
  if Qltb exploration_rate 0 || Qltb 1 exploration_rate then throwM invalid_argument
  else
    let num_moves := roam_num_moves exploration_rate (Solution_getNumJobs (solution_ h)) in
    forM 0 num_moves (fun _ new_solution => roam_move new_solution) (solution_ h).

(** [while (current_pos < size && offspring[current_pos] != -1) current_pos++]:
    at most [fuel = size - current_pos] steps. *)
Fixpoint skip_filled (fuel : nat) (offspring : list Z) (size current_pos : Z) : Z :=
  match fuel with
  | O => current_pos
  | S fuel' =>
      if (current_pos <? size) && negb (vec_at 0 offspring current_pos =? -1)
      then skip_filled fuel' offspring size (current_pos + 1)
      else current_pos
  end.

Definition next_empty (offspring : list Z) (size current_pos : Z) : Z :=
  skip_filled (Z.to_nat (size - current_pos)) offspring size current_pos.

(** The three loops of [Horse::orderCrossover]. *)
Definition orderCrossover_copy (parent1 : Solution) (size : Z) (i : Z)
    (st : list Z * list bool) : result (list Z * list bool) :=
  job <- getJobAt parent1 i;
  if (job >=? 0) && (job <? size)
  then Ok (<[Z.to_nat i := job]> st.1, <[Z.to_nat job := true]> st.2)
  else Ok st.

Definition orderCrossover_fill (parent2 : Solution) (size : Z) (i : Z)
    (st : list Z * list bool * Z) : result (list Z * list bool * Z * bool) :=
  let '(offspring, used, current_pos) := st in
  if negb (current_pos <? size) then Ok (st, true)
  else
    job <- getJobAt parent2 i;
    if (job >=? 0) && (job <? size) && negb (vec_at false used job) then
      let offspring' := <[Z.to_nat current_pos := job]> offspring in
      Ok (offspring', <[Z.to_nat job := true]> used,
          next_empty offspring' size (current_pos + 1), false)
    else Ok (st, false).

Definition orderCrossover_gap (size : Z) (i : Z) (st : list Z * list bool)
    : result (list Z * list bool) :=
  if negb (vec_at false st.2 i) then
    forZ_break 0 size
      (fun j st =>
         if vec_at 0 st.1 j =? -1
         then Ok ((<[Z.to_nat j := i]> st.1, <[Z.to_nat i := true]> st.2), true)
         else Ok (st, false))
      st
  else Ok st.

(** [Horse::orderCrossover], after its two draws of [randInt(0, size - 1)]. *)
Definition orderCrossover_at (parent1 parent2 : Solution) (point1 point2 : Z)
    : result Solution :=
  let size := Solution_getNumJobs parent1 in
  let '(point1, point2) := if point1 >? point2 then (point2, point1) else (point1, point2) in
  let offspring := replicate (Z.to_nat size) (-1) in
  let used := replicate (Z.to_nat size) false in
  st1 <- forZ point1 (point2 + 1) (orderCrossover_copy parent1 size) (offspring, used);
  let current_pos := next_empty st1.1 size 0 in
  st2 <- forZ_break 0 size (orderCrossover_fill parent2 size) (st1, current_pos);
  st3 <- forZ 0 size (orderCrossover_gap size) st2.1;
  Solution_of_sequence st3.1 (instance_ parent1).

Definition orderCrossover (parent1 parent2 : Solution) : M Solution :=
  let size := Solution_getNumJobs parent1 in
  point1 <~ randInt 0 (size - 1);
  point2 <~ randInt 0 (size - 1);
  liftR (orderCrossover_at parent1 parent2 point1 point2).

(** The position of the first [j] with [offspring[j] == job], if any. *)
Fixpoint find_job (offspring : list Z) (job : Z) (j : Z) : option Z :=
  match offspring with
  | [] => None
  | x :: rest => if x =? job then Some j else find_job rest job (j + 1)
  end.

(** One "swap towards parent 2" of [Horse::partiallyMappedCrossover]. *)
Definition partiallyMappedCrossover_swap (parent2 : Solution) (size : Z)
    (offspring : list Z) : M (list Z) :=
  pos1 <~ randInt 0 (size - 1);
  pos2 <~ randInt 0 (size - 1);
  job_from_parent2 <~ liftR (getJobAt parent2 pos1);
  match find_job offspring job_from_parent2 0 with
  | Some j => M_ret (vec_swap 0 offspring j pos2)
  | None => M_ret offspring
  end.

(** [Horse::partiallyMappedCrossover] *)
Definition partiallyMappedCrossover (parent1 parent2 : Solution) : M Solution :=
  let size := Solution_getNumJobs parent1 in
  num_swaps <~ randInt 1 (Z.min 3 (Z.quot size 2));
  offspring <~ forM 0 num_swaps
                 (fun _ offspring => partiallyMappedCrossover_swap parent2 size offspring)
                 (job_sequence_ parent1);
  liftR (Solution_of_sequence offspring (instance_ parent1)).

(** [Horse::followLeader] *)
Definition followLeader (leader : Horse) (following_rate : Q) (h : Horse) : M Solution :=
  if Qltb following_rate 0 || Qltb 1 following_rate then throwM invalid_argument
  else
    u <~ randDouble;
    if Qltb u following_rate then orderCrossover (solution_ h) (best_solution_ leader)
    else partiallyMappedCrossover (solution_ h) (best_solution_ leader).

(** [Horse::mateWith] *)
Definition mateWith (mate : Horse) (crossover_rate : Q) (h : Horse) : M Solution :=
  if Qltb crossover_rate 0 || Qltb 1 crossover_rate then throwM invalid_argument
  else
    u <~ randDouble;
    if Qltb u crossover_rate then
      b <~ randBool (1 # 2);
      if b then orderCrossover (best_solution_ h) (best_solution_ mate)
      else partiallyMappedCrossover (best_solution_ h) (best_solution_ mate)
    else
      b <~ randBool (1 # 2);
      M_ret (if b then best_solution_ h else best_solution_ mate).

(** [Horse::mutate] *)
Definition mutate (mutation_rate : Q) (h : Horse) : M Horse :=
  if Qltb mutation_rate 0 || Qltb 1 mutation_rate then throwM invalid_argument
  else
    u <~ randDouble;
    if Qltb u mutation_rate then
      b <~ randBool (1 # 2);
      s <~ (if b then createSwapNeighbor (solution_ h) else createInsertNeighbor (solution_ h));
      h1 <~ liftR (updateFitness (with_solution s h));
      M_ret (updateBest h1).2
    else M_ret h.

(** [Horse::increaseAge] *)
Definition increaseAge (h : Horse) : Horse :=
  mkHorse (solution_ h) (best_solution_ h) (fitness_ h) (best_fitness_ h)
          (age_ h + 1)%Q
          (Qmax (1 # 10) (grazing_ability_ h * (199 # 200)))%Q
          (Qmax (1 # 10) (stamina_ h * (499 # 500)))%Q
          (is_leader_ h) (stagnation_counter_ h).

(** [Horse::rejuvenate] *)
Definition rejuvenate (h : Horse) : M Horse :=
  u1 <~ randDouble;
  u2 <~ randDouble;
  M_ret (mkHorse (solution_ h) (best_solution_ h) (fitness_ h) (best_fitness_ h)
           0 ((4 # 5) + u1 * (1 # 5))%Q ((4 # 5) + u2 * (1 # 5))%Q
           (is_leader_ h) 0).

(** [Horse::isStagnant] *)
Definition isStagnant (max_stagnation : Z) (h : Horse) : bool :=
  stagnation_counter_ h >=? max_stagnation.

(** ** algorithm/HorseHerd *)

Record HorseHerd : Type := mkHerd {
  horses_ : list Horse;
  herd_instance_ : ProblemInstance;
  leader_ : Horse;
  herd_size_ : Z;
  diversity_ : Q;
  generation_ : Z
}.

Definition with_horses (hs : list Horse) (herd : HorseHerd) : HorseHerd :=
  mkHerd hs (herd_instance_ herd) (leader_ herd) (herd_size_ herd) (diversity_ herd)
         (generation_ herd).
Definition with_leader (l : Horse) (herd : HorseHerd) : HorseHerd :=
  mkHerd (horses_ herd) (herd_instance_ herd) l (herd_size_ herd) (diversity_ herd)
         (generation_ herd).
Definition with_diversity (d : Q) (herd : HorseHerd) : HorseHerd :=
  mkHerd (horses_ herd) (herd_instance_ herd) (leader_ herd) (herd_size_ herd) d
         (generation_ herd).

(** [HorseHerd::nextGeneration] *)
Definition nextGeneration (herd : HorseHerd) : HorseHerd :=
  mkHerd (horses_ herd) (herd_instance_ herd) (leader_ herd) (herd_size_ herd)
         (diversity_ herd) (generation_ herd + 1).

(** [HorseHerd(instance, herd_size)]: the members are initialised in the
    order of their declaration, the leader as a fresh random horse. *)
Definition HorseHerd_new (inst : ProblemInstance) (herd_size : Z) : M HorseHerd :=
  leader <~ Horse_new inst;
  if herd_size <=? 0 then throwM invalid_argument
  else M_ret (mkHerd [] inst leader herd_size 0 0).

(** [std::max_element] with the comparison of the best fitness: the
    first horse of greatest [best_fitness_]. *)
Fixpoint max_element_from (largest : Horse) (rest : list Horse) : Horse :=
  match rest with
  | [] => largest
  | h :: rest' =>
      if Qltb (best_fitness_ largest) (best_fitness_ h) then max_element_from h rest'
      else max_element_from largest rest'
  end.

(** [HorseHerd::getBestHorse] *)
Definition getBestHorse (herd : HorseHerd) : result Horse :=
  match horses_ herd with
  | [] => Throw runtime_error
  | h :: rest => Ok (max_element_from h rest)
  end.

(** [HorseHerd::getBestSolution] *)
Definition getBestSolution (herd : HorseHerd) : result Solution :=
  best <- getBestHorse herd; Ok (best_solution_ best).

(** The last loop of [HorseHerd::updateLeader]: flag the first horse
    whose best makespan is the leader's. *)
Fixpoint mark_leader (hs : list Horse) (leader : Horse) : result (list Horse * Horse) :=
  match hs with
  | [] => Ok ([], leader)
  | horse :: rest =>
      '(horse_makespan, horse') <- getBestMakespan horse;
      '(leader_makespan, leader') <- getBestMakespan leader;
      if horse_makespan =? leader_makespan then Ok (setLeader true horse' :: rest, leader')
      else '(rest', leader'') <- mark_leader rest leader'; Ok (horse' :: rest', leader'')
  end.

(** [HorseHerd::updateLeader] *)
Definition updateLeader (herd : HorseHerd) : result (bool * HorseHerd) :=
  match horses_ herd with
  | [] => Ok (false, herd)
  | _ =>
      best_horse <- getBestHorse herd;
      let '(leader_changed, leader) :=
        if Qltb (best_fitness_ (leader_ herd)) (best_fitness_ best_horse)
        then (true, setLeader true best_horse)
        else (false, leader_ herd) in
      let hs := map (setLeader false) (horses_ herd) in
      '(hs', leader') <- mark_leader hs leader;
      Ok (leader_changed, with_leader leader' (with_horses hs' herd))
  end.

(** [HorseHerd::calculateDistance] *)
Definition calculateDistance (sol1 sol2 : Solution) : Q :=
  (inject_Z (distanceTo sol1 sol2) / inject_Z (Solution_getNumJobs sol1))%Q.

(** The pairs [(i, j)], [i < j], of [HorseHerd::calculateDiversity]. *)
Fixpoint pairwise_distance (hs : list Horse) (acc : Q * Z) : Q * Z :=
  match hs with
  | [] => acc
  | h :: rest =>
      pairwise_distance rest
        (fold_left (fun acc h' =>
                      ((acc.1 + calculateDistance (solution_ h) (solution_ h'))%Q, acc.2 + 1))
                   rest acc)
  end.

(** [HorseHerd::calculateDiversity] *)
Definition calculateDiversity (herd : HorseHerd) : Q * HorseHerd :=
  if Z.of_nat (length (horses_ herd)) <? 2 then (0%Q, with_diversity 0 herd)
  else
    let '(total_distance, comparisons) := pairwise_distance (horses_ herd) (0%Q, 0) in
    let d := if comparisons >? 0 then (total_distance / inject_Z comparisons)%Q else 0%Q in
    (d, with_diversity d herd).

(** [for (auto& horse : horses_)] with a counter. *)
Fixpoint for_each_horse (body : Horse -> Z -> M (Horse * Z)) (hs : list Horse) (count : Z)
    : M (list Horse * Z) :=
  match hs with
  | [] => M_ret ([], count)
  | horse :: rest =>
      '(horse', count') <~ body horse count;
      '(rest', count'') <~ for_each_horse body rest count';
      M_ret (horse' :: rest', count'')
  end.

(** [if (count > 0) updateLeader();] then [return count;] *)
Definition refresh_leader (count : Z) (herd : HorseHerd) : M (Z * HorseHerd) :=
  if count >? 0 then
    '(_, herd') <~ liftR (updateLeader herd); M_ret (count, herd')
  else M_ret (count, herd).

(** [HorseHerd::performGrazing] *)
Definition performGrazing (intensity : Q) (herd : HorseHerd) : M (Z * HorseHerd) :=
  '(hs, improved_count) <~
    for_each_horse
      (fun horse count =>
         '(improved, horse') <~ graze intensity horse;
         M_ret (horse', if improved then count + 1 else count))
      (horses_ herd) 0;
  refresh_leader improved_count (with_horses hs herd).

(** [if (new_solution.getMakespan() < horse.getSolution().getMakespan())
      { horse.setSolution(new_solution); count++; }] *)
Definition accept_if_better (new_solution : Solution) (horse : Horse) (count : Z)
    : result (Horse * Z) :=
  '(new_makespan, new_solution') <- getMakespan new_solution;
  '(makespan, horse') <- Horse_getMakespan horse;
  if new_makespan <? makespan then
    horse'' <- setSolution new_solution' horse'; Ok (horse'', count + 1)
  else Ok (horse', count).

(** [HorseHerd::performRoaming] *)
Definition performRoaming (roaming_rate exploration_rate : Q) (herd : HorseHerd)
    : M (Z * HorseHerd) :=
  '(hs, roamed_count) <~
    for_each_horse
      (fun horse count =>
         u <~ randDouble;
         if Qltb u roaming_rate then
           new_solution <~ roam exploration_rate horse;
           liftR (accept_if_better new_solution horse count)
         else M_ret (horse, count))
      (horses_ herd) 0;
  refresh_leader roamed_count (with_horses hs herd).

(** [HorseHerd::performFollowing] *)
Definition performFollowing (following_rate : Q) (herd : HorseHerd) : M (Z * HorseHerd) :=
  '(hs, followed_count) <~
    for_each_horse
      (fun horse count =>
         if negb (is_leader_ horse) then
           new_solution <~ followLeader (leader_ herd) following_rate horse;
           liftR (accept_if_better new_solution horse count)
         else M_ret (horse, count))
      (horses_ herd) 0;
  refresh_leader followed_count (with_horses hs herd).

(** [HorseHerd::performMutation] *)
Definition performMutation (mutation_rate : Q) (herd : HorseHerd) : M (Z * HorseHerd) :=
  '(hs, mutated_count) <~
    for_each_horse
      (fun horse count =>
         '(old_makespan, horse1) <~ liftR (Horse_getMakespan horse);
         horse2 <~ mutate mutation_rate horse1;
         '(makespan, horse3) <~ liftR (Horse_getMakespan horse2);
         M_ret (horse3, if makespan <? old_makespan then count + 1 else count))
      (horses_ herd) 0;
  refresh_leader mutated_count (with_horses hs herd).

(** [HorseHerd::ageHorses] *)
Definition ageHorses (herd : HorseHerd) : HorseHerd :=
  with_horses (map increaseAge (horses_ herd)) herd.

(** [HorseHerd::tournamentSelection]; [candidates[0]] of an empty sample
    is undefined. *)
Definition tournamentSelection (tournament_size : Z) (herd : HorseHerd) : M Z :=
  let size := Z.of_nat (length (horses_ herd)) in
  let tournament_size := Z.min tournament_size size in
  candidates <~ sample size tournament_size;
  match candidates with
  | [] => fun _ => Undefined
  | first :: _ =>
      let horse_at idx := vec_at (leader_ herd) (horses_ herd) idx in
      M_ret (fold_left
               (fun best idx =>
                  if Qltb best.2 (best_fitness_ (horse_at idx))
                  then (idx, best_fitness_ (horse_at idx)) else best)
               candidates (first, best_fitness_ (horse_at first))).1
  end.

(** [HorseHerd::selectForReplacement]: the indices of the horses of
    least [best_fitness_], worst first. *)
Definition selectForReplacement (num_horses : Z) (herd : HorseHerd) : list Z :=
  let fitness_indices :=
    imap (fun i h => (best_fitness_ h, Z.of_nat i)) (horses_ herd) in
  let sorted := sort_by fitness_pair_ltb fitness_indices in
  map snd (take (Z.to_nat (Z.min num_horses (Z.of_nat (length sorted)))) sorted).

(** [HorseHerd::createRandomHorse] *)
Definition createRandomHorse (herd : HorseHerd) : M Horse :=
  horse <~ Horse_new (herd_instance_ herd);
  Horse_initializeRandom horse.

(** [HorseHerd::replaceWeakHorses] *)
Definition replaceWeakHorses (replacement_rate : Q) (herd : HorseHerd) : M (Z * HorseHerd) :=
  let num_replacements :=
    trunc (dmul (inject_Z (Z.of_nat (length (horses_ herd)))) replacement_rate) in
  if num_replacements =? 0 then M_ret (0, herd)
  else
    let weak_indices := selectForReplacement num_replacements herd in
    hs <~ foldM (fun idx hs =>
                   horse <~ createRandomHorse herd;
                   M_ret (<[Z.to_nat idx := horse]> hs))
                weak_indices (horses_ herd);
    '(_, herd') <~ liftR (updateLeader (with_horses hs herd));
    M_ret (num_replacements, herd').

(** [HorseHerd::rejuvenateStagnantHorses] *)
Definition rejuvenateStagnantHorses (max_stagnation : Z) (herd : HorseHerd)
    : M (Z * HorseHerd) :=
  '(hs, rejuvenated_count) <~
    for_each_horse
      (fun horse count =>
         if isStagnant max_stagnation horse then
           horse1 <~ rejuvenate horse;
           horse2 <~ Horse_initializeRandom horse1;
           M_ret (horse2, count + 1)
         else M_ret (horse, count))
      (horses_ herd) 0;
  refresh_leader rejuvenated_count (with_horses hs herd).

(** [HorseHerd::sortByFitness]: [std::sort] with [std::greater<Horse>],
    which compares the current [fitness_]. *)
Definition sortByFitness (herd : HorseHerd) : HorseHerd :=
  with_horses (sort_by (fun a b => Qltb (fitness_ b) (fitness_ a)) (horses_ herd)) herd.

(** [HorseHerd::improveElite] *)
Definition improveElite (num_horses : Z) (herd : HorseHerd) : M (Z * HorseHerd) :=
  let herd := sortByFitness herd in
  let elite_count := Z.min num_horses (Z.of_nat (length (horses_ herd))) in
  '(elite, improved_count) <~
    for_each_horse
      (fun horse count =>
         '(old_makespan, horse1) <~ liftR (getBestMakespan horse);
         '(_, horse2) <~ graze (9 # 10) horse1;
         '(makespan, horse3) <~ liftR (getBestMakespan horse2);
         M_ret (horse3, if makespan <? old_makespan then count + 1 else count))
      (take (Z.to_nat elite_count) (horses_ herd)) 0;
  refresh_leader improved_count
    (with_horses (elite ++ drop (Z.to_nat elite_count) (horses_ herd)) herd).

(** [while (parent2_idx == parent1_idx && horses_.size() > 1)
      parent2_idx = tournamentSelection();]
    The source puts no bound on this loop. *)
Fixpoint distinct_parent (fuel : nat) (parent1_idx parent2_idx : Z) (herd : HorseHerd) : M Z :=
  if (parent2_idx =? parent1_idx) && (Z.of_nat (length (horses_ herd)) >? 1) then
    match fuel with
    | O => fun _ => OutOfFuel
    | S fuel' =>
        parent2_idx' <~ tournamentSelection 3 herd;
        distinct_parent fuel' parent1_idx parent2_idx' herd
    end
  else M_ret parent2_idx.

(** One mating event of [HorseHerd::performMating]. *)
Definition performMating_event (fuel : nat) (crossover_rate : Q) (st : HorseHerd * Z)
    : M (HorseHerd * Z) :=
  let '(herd, offspring_count) := st in
  parent1_idx <~ tournamentSelection 3 herd;
  parent2_idx <~ tournamentSelection 3 herd;
  parent2_idx <~ distinct_parent fuel parent1_idx parent2_idx herd;
  let horse_at idx := vec_at (leader_ herd) (horses_ herd) idx in
  offspring <~ mateWith (horse_at parent2_idx) crossover_rate (horse_at parent1_idx);
  match selectForReplacement 1 herd with
  | [] => M_ret st
  | weak_idx :: _ =>
      '(weak, count) <~ liftR (accept_if_better offspring (horse_at weak_idx) offspring_count);
      M_ret (with_horses (<[Z.to_nat weak_idx := weak]> (horses_ herd)) herd, count)
  end.

(** [HorseHerd::performMating] *)
Definition performMating (fuel : nat) (mating_rate crossover_rate : Q) (herd : HorseHerd)
    : M (Z * HorseHerd) :=
  let num_matings :=
    trunc (ddiv (dmul (inject_Z (Z.of_nat (length (horses_ herd)))) mating_rate) 2) in
  '(herd', offspring_count) <~
    forM 0 num_matings (fun _ st => performMating_event fuel crossover_rate st) (herd, 0);
  refresh_leader offspring_count herd'.

(** [HorseHerd::getAverageFitness] *)
Definition getAverageFitness (herd : HorseHerd) : Q :=
  match horses_ herd with
  | [] => 0%Q
  | _ => (fold_left (fun acc h => acc + best_fitness_ h) (horses_ herd) 0
          / inject_Z (Z.of_nat (length (horses_ herd))))%Q
  end.

(** [HorseHerd::initialize] *)
Definition HorseHerd_initialize (random_ratio : Q) (herd : HorseHerd) : M HorseHerd :=
  if Qltb random_ratio 0 || Qltb 1 random_ratio then throwM invalid_argument
  else
    let num_random := trunc (dmul (inject_Z (herd_size_ herd)) random_ratio) in
    let num_greedy := herd_size_ herd - num_random in
    hs1 <~ forM 0 num_random
             (fun _ hs =>
                horse <~ Horse_new (herd_instance_ herd);
                horse' <~ Horse_initializeRandom horse;
                M_ret (hs ++ [horse']))
             [];
    hs2 <~ forM 0 num_greedy
             (fun i hs =>
                horse <~ Horse_new (herd_instance_ herd);
                horse1 <~ liftR (Horse_initializeGreedy horse);
                horse2 <~ (if i >? 0 then mutate (dmul (1 # 10) (inject_Z i)) horse1
                           else M_ret horse1);
                M_ret (hs ++ [horse2]))
             hs1;
    '(_, herd1) <~ liftR (updateLeader (with_horses hs2 herd));
    M_ret (calculateDiversity herd1).2.

(** ** algorithm/HHOA *)

Record HHOAParameters : Type := mkParameters {
  population_size : Z;
  max_iterations : Z;
  grazing_intensity : Q;
  roaming_rate : Q;
  exploration_rate : Q;
  following_rate : Q;
  mating_rate : Q;
  crossover_rate : Q;
  mutation_rate : Q;
  replacement_rate : Q;
  max_stagnation : Z;
  elite_improvement_freq : Z;
  elite_count : Z;
  diversity_threshold : Q;
  adaptive_parameters : bool;
  termination_patience : Z
}.

(** The default member initialisers of [struct HHOAParameters]. *)
Definition default_parameters : HHOAParameters :=
  {| population_size := 30; max_iterations := 1000;
     grazing_intensity := 1 # 2; roaming_rate := 3 # 10; exploration_rate := 3 # 10;
     following_rate := 7 # 10; mating_rate := 2 # 5; crossover_rate := 4 # 5;
     mutation_rate := 1 # 10; replacement_rate := 1 # 10;
     max_stagnation := 20; elite_improvement_freq := 10; elite_count := 3;
     diversity_threshold := 1 # 100; adaptive_parameters := true;
     termination_patience := 100 |}.

(** [HHOAParameters::isValid] *)
Definition HHOAParameters_isValid (p : HHOAParameters) : bool :=
  (population_size p >? 0) && (max_iterations p >? 0) &&
  Qleb 0 (grazing_intensity p) && Qleb (grazing_intensity p) 1 &&
  Qleb 0 (roaming_rate p) && Qleb (roaming_rate p) 1 &&
  Qleb 0 (exploration_rate p) && Qleb (exploration_rate p) 1 &&
  Qleb 0 (following_rate p) && Qleb (following_rate p) 1 &&
  Qleb 0 (mating_rate p) && Qleb (mating_rate p) 1 &&
  Qleb 0 (crossover_rate p) && Qleb (crossover_rate p) 1 &&
  Qleb 0 (mutation_rate p) && Qleb (mutation_rate p) 1 &&
  Qleb 0 (replacement_rate p) && Qleb (replacement_rate p) 1 &&
  (max_stagnation p >? 0) && (elite_count p >=? 0) &&
  (termination_patience p >? 0).

Record HHOAStatistics : Type := mkStatistics {
  iterations_executed : Z;
  total_improvements : Z;
  leader_changes : Z;
  rejuvenations : Z;
  replacements : Z;
  best_makespan_history : list Z;
  diversity_history : list Q;
  average_fitness_history : list Q
}.

Definition empty_statistics : HHOAStatistics := mkStatistics 0 0 0 0 0 [] [] [].

(** The optimiser.  The timer, the log and the console output have no
    effect on the search and are left out; so is the progress observer,
    which may not change the optimiser.  [mating_fuel] bounds the parent
    re-selection loop of [performMating]. *)
Record HHOA : Type := mkHHOA {
  hhoa_instance_ : ProblemInstance;
  parameters_ : HHOAParameters;
  statistics_ : HHOAStatistics;
  herd_ : HorseHerd;
  termination_callback_ : option (Z -> Solution -> bool);
  mating_fuel : nat
}.

Definition with_parameters (p : HHOAParameters) (a : HHOA) : HHOA :=
  mkHHOA (hhoa_instance_ a) p (statistics_ a) (herd_ a) (termination_callback_ a)
         (mating_fuel a).
Definition with_statistics (st : HHOAStatistics) (a : HHOA) : HHOA :=
  mkHHOA (hhoa_instance_ a) (parameters_ a) st (herd_ a) (termination_callback_ a)
         (mating_fuel a).
Definition with_herd (herd : HorseHerd) (a : HHOA) : HHOA :=
  mkHHOA (hhoa_instance_ a) (parameters_ a) (statistics_ a) herd (termination_callback_ a)
         (mating_fuel a).


(** [HHOA(instance, parameters)]; a null [instance] is [None]. *)
Definition HHOA_new (fuel : nat) (instance : option ProblemInstance)
    (parameters : HHOAParameters) : M HHOA :=
  match instance with
  | None => throwM invalid_argument
  | Some inst =>
      if negb (ProblemInstance_isValid inst) then throwM invalid_argument
      else if negb (HHOAParameters_isValid parameters) then throwM invalid_argument
      else
        herd <~ HorseHerd_new inst (population_size parameters);
        M_ret (mkHHOA inst parameters empty_statistics herd None fuel)
  end.

(** [a % b] on [int]s; the behaviour is undefined when [b] is zero. *)
Definition int_rem (a b : Z) : result Z :=
  if b =? 0 then Undefined else Ok (Z.rem a b).

Definition set_mutation_rate (r : Q) (p : HHOAParameters) : HHOAParameters :=
  mkParameters (population_size p) (max_iterations p) (grazing_intensity p) (roaming_rate p)
    (exploration_rate p) (following_rate p) (mating_rate p) (crossover_rate p) r
    (replacement_rate p) (max_stagnation p) (elite_improvement_freq p) (elite_count p)
    (diversity_threshold p) (adaptive_parameters p) (termination_patience p).
Definition set_replacement_rate (r : Q) (p : HHOAParameters) : HHOAParameters :=
  mkParameters (population_size p) (max_iterations p) (grazing_intensity p) (roaming_rate p)
    (exploration_rate p) (following_rate p) (mating_rate p) (crossover_rate p)
    (mutation_rate p) r (max_stagnation p) (elite_improvement_freq p) (elite_count p)
    (diversity_threshold p) (adaptive_parameters p) (termination_patience p).
Definition set_roaming_rate (r : Q) (p : HHOAParameters) : HHOAParameters :=
  mkParameters (population_size p) (max_iterations p) (grazing_intensity p) r
    (exploration_rate p) (following_rate p) (mating_rate p) (crossover_rate p)
    (mutation_rate p) (replacement_rate p) (max_stagnation p) (elite_improvement_freq p)
    (elite_count p) (diversity_threshold p) (adaptive_parameters p) (termination_patience p).
Definition set_exploration_rate (r : Q) (p : HHOAParameters) : HHOAParameters :=
  mkParameters (population_size p) (max_iterations p) (grazing_intensity p) (roaming_rate p)
    r (following_rate p) (mating_rate p) (crossover_rate p)
    (mutation_rate p) (replacement_rate p) (max_stagnation p) (elite_improvement_freq p)
    (elite_count p) (diversity_threshold p) (adaptive_parameters p) (termination_patience p).
Definition set_grazing_intensity (r : Q) (p : HHOAParameters) : HHOAParameters :=
  mkParameters (population_size p) (max_iterations p) r (roaming_rate p)
    (exploration_rate p) (following_rate p) (mating_rate p) (crossover_rate p)
    (mutation_rate p) (replacement_rate p) (max_stagnation p) (elite_improvement_freq p)
    (elite_count p) (diversity_threshold p) (adaptive_parameters p) (termination_patience p).
Definition set_following_rate (r : Q) (p : HHOAParameters) : HHOAParameters :=
  mkParameters (population_size p) (max_iterations p) (grazing_intensity p) (roaming_rate p)
    (exploration_rate p) r (mating_rate p) (crossover_rate p)
    (mutation_rate p) (replacement_rate p) (max_stagnation p) (elite_improvement_freq p)
    (elite_count p) (diversity_threshold p) (adaptive_parameters p) (termination_patience p).

(** [HHOA::applyDiversityPreservation] *)
Definition applyDiversityPreservation (diversity : Q) (a : HHOA) : M (bool * HHOA) :=
  let p := parameters_ a in
  if Qleb (diversity_threshold p) diversity then M_ret (false, a)
  else
    let num_replacements := Z.max 1 (trunc (dmul (inject_Z (population_size p)) (1 # 5))) in
    '(_, herd) <~ replaceWeakHorses
                    (ddiv (inject_Z num_replacements) (inject_Z (population_size p))) (herd_ a);
    M_ret (true,
           with_parameters
             (set_mutation_rate (Qmin (2 # 5) (mutation_rate p * (3 # 2))%Q) p)
             (with_herd herd a)).

(** [HHOA::executeIteration] *)
Definition executeIteration (iteration : Z) (a : HHOA) : M (bool * HHOA) :=
  let p := parameters_ a in
  '(grazing_improvements, herd) <~ performGrazing (grazing_intensity p) (herd_ a);
  '(roaming_improvements, herd) <~ performRoaming (roaming_rate p) (exploration_rate p) herd;
  '(following_improvements, herd) <~ performFollowing (following_rate p) herd;
  '(mating_improvements, herd) <~
    performMating (mating_fuel a) (mating_rate p) (crossover_rate p) herd;
  '(mutation_improvements, herd) <~ performMutation (mutation_rate p) herd;
  let improved :=
    (grazing_improvements >? 0) || (roaming_improvements >? 0)
    || (following_improvements >? 0) || (mating_improvements >? 0)
    || (mutation_improvements >? 0) in
  let herd := ageHorses herd in
  let st := statistics_ a in
  '(herd, st) <~
    (if Z.rem iteration 10 =? 0 then
       '(n, herd) <~ replaceWeakHorses (replacement_rate p) herd;
       M_ret (herd, mkStatistics (iterations_executed st) (total_improvements st)
                      (leader_changes st) (rejuvenations st) (replacements st + n)
                      (best_makespan_history st) (diversity_history st)
                      (average_fitness_history st))
     else M_ret (herd, st));
  r8 <~ liftR (int_rem iteration (max_stagnation p));
  '(herd, st) <~
    (if r8 =? 0 then
       '(n, herd) <~ rejuvenateStagnantHorses (max_stagnation p) herd;
       M_ret (herd, mkStatistics (iterations_executed st) (total_improvements st)
                      (leader_changes st) (rejuvenations st + n) (replacements st)
                      (best_makespan_history st) (diversity_history st)
                      (average_fitness_history st))
     else M_ret (herd, st));
  r9 <~ liftR (int_rem iteration (elite_improvement_freq p));
  '(improved, herd) <~
    (if r9 =? 0 then
       '(elite_improvements, herd) <~ improveElite (elite_count p) herd;
       M_ret (improved || (elite_improvements >? 0), herd)
     else M_ret (improved, herd));
  '(leader_changed, herd) <~ liftR (updateLeader herd);
  let st :=
    if leader_changed : bool
    then mkStatistics (iterations_executed st) (total_improvements st)
           (leader_changes st + 1) (rejuvenations st) (replacements st)
           (best_makespan_history st) (diversity_history st) (average_fitness_history st)
    else st in
  let '(diversity, herd) := calculateDiversity herd in
  let a := with_statistics st (with_herd herd a) in
  if Qltb diversity (diversity_threshold p) then
    '(_, a) <~ applyDiversityPreservation diversity a; M_ret (improved, a)
  else M_ret (improved, a).

(** [HHOA::shouldTerminate] *)
Definition shouldTerminate (iteration stagnation_count : Z) (a : HHOA) : result bool :=
  match termination_callback_ a with
  | Some callback =>
      best <- getBestSolution (herd_ a); Ok (callback iteration best)
  | None =>
      if iteration >=? max_iterations (parameters_ a) - 1 then Ok true
      else if stagnation_count >=? termination_patience (parameters_ a) then Ok true
      else Ok false
  end.

(** [HHOA::updateAdaptiveParameters] *)
Definition updateAdaptiveParameters (iteration : Z) (diversity : Q) (stagnation_count : Z)
    (p : HHOAParameters) : HHOAParameters :=
  let progress := (inject_Z iteration / inject_Z (max_iterations p))%Q in
  let p :=
    if Qltb progress (3 # 10) then
      let p := set_roaming_rate (Qmin (1 # 2) (roaming_rate p * (11 # 10))%Q) p in
      set_exploration_rate (Qmin (1 # 2) (exploration_rate p * (11 # 10))%Q) p
    else if Qltb (7 # 10) progress then
      let p := set_grazing_intensity (Qmin (9 # 10) (grazing_intensity p * (21 # 20))%Q) p in
      set_following_rate (Qmin (9 # 10) (following_rate p * (21 # 20))%Q) p
    else p in
  let p :=
    if Qltb diversity (diversity_threshold p) then
      let p := set_mutation_rate (Qmin (3 # 10) (mutation_rate p * (6 # 5))%Q) p in
      set_replacement_rate (Qmin (1 # 5) (replacement_rate p * (11 # 10))%Q) p
    else if Qltb (1 # 10) diversity then
      set_grazing_intensity (Qmin (9 # 10) (grazing_intensity p * (11 # 10))%Q) p
    else p in
  if stagnation_count >? Z.quot (max_stagnation p) 2 then
    set_mutation_rate (Qmin (3 # 10) (mutation_rate p * (23 # 20))%Q) p
  else p.

(** [HHOA::recordStatistics] *)
Definition recordStatistics (a : HHOA) : result HHOA :=
  best <- getBestSolution (herd_ a);
  '(makespan, _) <- getMakespan best;
  let st := statistics_ a in
  Ok (with_statistics
        (mkStatistics (iterations_executed st) (total_improvements st) (leader_changes st)
           (rejuvenations st) (replacements st)
           (best_makespan_history st ++ [makespan])
           (diversity_history st ++ [diversity_ (herd_ a)])
           (average_fitness_history st ++ [getAverageFitness (herd_ a)]))
        a).

(** [HHOA::initialize]; the herd is initialised with the default
    [random_ratio = 0.8]. *)
Definition HHOA_initialize (a : HHOA) : M HHOA :=
  herd <~ HorseHerd_initialize (4 # 5) (herd_ a);
  M_ret (with_statistics empty_statistics (with_herd herd a)).

(** [herd_->getBestSolution().getMakespan()] *)
Definition herd_best_makespan (herd : HorseHerd) : result Z :=
  best <- getBestSolution herd;
  '(makespan, _) <- getMakespan best;
  Ok makespan.

(** [HHOA::getBestSolution] and [HHOA::getBestMakespan] *)
Definition HHOA_getBestSolution (a : HHOA) : result Solution := getBestSolution (herd_ a).
Definition HHOA_getBestMakespan (a : HHOA) : result Z := herd_best_makespan (herd_ a).

(** The state of the loop of [HHOA::optimize]. *)
Record loop_state : Type := mkLoop {
  algo : HHOA;
  stagnation_count : Z;
  best_makespan : Z
}.

(** The body of the loop of [HHOA::optimize]; the flag tells whether
    the loop is left by [break]. *)
Definition optimize_body (iteration : Z) (ls : loop_state) : M (loop_state * bool) :=
  '(improved, a) <~ executeIteration iteration (algo ls);
  a <~ liftR (recordStatistics a);
  current_makespan <~ liftR (herd_best_makespan (herd_ a));
  let st := statistics_ a in
  let '(best_makespan, stagnation_count, a) :=
    if current_makespan <? best_makespan ls then
      (current_makespan, 0,
       with_statistics
         (mkStatistics (iterations_executed st) (total_improvements st + 1)
            (leader_changes st) (rejuvenations st) (replacements st)
            (best_makespan_history st) (diversity_history st) (average_fitness_history st))
         a)
    else (best_makespan ls, stagnation_count ls + 1, a) in
  let a :=
    if adaptive_parameters (parameters_ a) then
      with_parameters
        (updateAdaptiveParameters iteration (diversity_ (herd_ a)) stagnation_count
           (parameters_ a)) a
    else a in
  stop <~ liftR (shouldTerminate iteration stagnation_count a);
  if stop then M_ret (mkLoop a stagnation_count best_makespan, true)
  else
    let st := statistics_ a in
    let a :=
      with_statistics
        (mkStatistics (iteration + 1) (total_improvements st)
           (leader_changes st) (rejuvenations st) (replacements st)
           (best_makespan_history st) (diversity_history st) (average_fitness_history st))
        (with_herd (nextGeneration (herd_ a)) a) in
    M_ret (mkLoop a stagnation_count best_makespan, false).

(** [for (int iteration = 0; iteration < iterations; ++iteration)] with
    [break]. *)
Fixpoint foldM_break {S I : Type} (body : I -> S -> M (S * bool)) (l : list I) (s : S) : M S :=
  match l with
  | [] => M_ret s
  | i :: l' => '(s', brk) <~ body i s; if brk then M_ret s' else foldM_break body l' s'
  end.

Definition forM_break {S : Type} (lo hi : Z) (body : Z -> S -> M (S * bool)) (s : S) : M S :=
  foldM_break body (seqZ lo (hi - lo)) s.

(** [HHOA::optimize(int iterations)]: the solution returned, and the
    optimiser as the run leaves it. *)
Definition optimize_for (iterations : Z) (a : HHOA) : M (Solution * HHOA) :=
  a <~ HHOA_initialize a;
  best_makespan <~ liftR (herd_best_makespan (herd_ a));
  ls <~ forM_break 0 iterations optimize_body (mkLoop a 0 best_makespan);
  best <~ liftR (HHOA_getBestSolution (algo ls));
  M_ret (best, algo ls).

(** [HHOA::optimize()] *)
Definition optimize (a : HHOA) : M (Solution * HHOA) :=
  optimize_for (max_iterations (parameters_ a)) a.

(** ** Notions used to state the properties of the crossovers *)

(** A permutation of [[0, n)]: [n] distinct job indices. *)
Definition perm_of (n : Z) (l : list Z) : Prop :=
  Z.of_nat (length l) = n /\ Forall (fun job => 0 <= job < n) l /\ NoDup l.

(** The state of [orderCrossover]: [offspring] holds distinct jobs and
    [-1] in its empty slots, and [used] flags exactly the jobs placed. *)
Record ox_inv (n : Z) (o : list Z) (u : list bool) : Prop := {
  ox_len_o : Z.of_nat (length o) = n;
  ox_len_u : Z.of_nat (length u) = n;
  ox_range : Forall (fun x => x = -1 \/ 0 <= x < n) o;
  ox_used : forall job, 0 <= job < n -> (vec_at false u job = true <-> job ∈ o);
  ox_nodup : NoDup (filter (fun x => x <> -1) o)
}.

(** On a one-job instance the mapped crossover draws
    [randInt(1, min(3, 1 / 2))], an empty range. *)
Definition one_job_instance : ProblemInstance := ProblemInstance_of_matrix [[1]].

Definition one_job_solution : Solution :=
  {| job_sequence_ := [0]; instance_ := one_job_instance; makespan_ := -1;
     makespan_calculated_ := false; completion_times_ := [] |}.

(** ** Notions used to state the properties of the searches *)

(** A solution whose cache is empty. *)
Definition fresh_solution (inst : ProblemInstance) (job_sequence : list Z) : Solution :=
  {| job_sequence_ := job_sequence; instance_ := inst; makespan_ := -1;
     makespan_calculated_ := false; completion_times_ := [] |}.

(** The makespan the evaluator computes for a job sequence. *)
Definition makespan_of (inst : ProblemInstance) (job_sequence : list Z) : Z :=
  match calculateMakespan (fresh_solution inst job_sequence) with
  | Ok s => makespan_ s
  | _ => 0
  end.

(** A cached makespan is the makespan of the current order. *)
Definition cache_coherent (s : Solution) : Prop :=
  makespan_calculated_ s = true -> makespan_ s = makespan_of (instance_ s) (job_sequence_ s).

(** A solution of the valid instance [inst]: a permutation of its jobs,
    with a coherent cache. *)
Definition wf_solution (inst : ProblemInstance) (s : Solution) : Prop :=
  instance_ s = inst /\ perm_of (getNumJobs inst) (job_sequence_ s) /\ cache_coherent s.

(** The position pairs [(i, j)], [i < j], in the order the 2-opt
    searches scan them, and the pairs [(i, j)], [i <> j], in the order
    the insertion searches scan them. *)
Definition swap_pairs (n : Z) : list (Z * Z) :=
  flat_map (fun i => map (pair i) (seqZ (i + 1) (n - (i + 1)))) (seqZ 0 (n - 1)).

Definition insertion_pairs (n : Z) : list (Z * Z) :=
  flat_map (fun i => map (pair i) (seqZ 0 n)) (seqZ 0 n).

(** First improvement, in the words of the specification: the
    candidate moves are tried in scan order, the first one that reduces
    the makespan is kept and the search returns [true]; when no move
    reduces the makespan the order is unchanged and the search returns
    [false]. *)
Definition first_improvement (inst : ProblemInstance) (move : list Z -> Z * Z -> list Z)
    (candidates : list (Z * Z)) (job_sequence : list Z) : bool * list Z :=
  match find (fun c => makespan_of inst (move job_sequence c) <? makespan_of inst job_sequence)
             candidates with
  | Some c => (true, move job_sequence c)
  | None => (false, job_sequence)
  end.

Definition swap_move (job_sequence : list Z) (c : Z * Z) : list Z :=
  vec_swap 0 job_sequence c.1 c.2.

Definition insertion_move (job_sequence : list Z) (c : Z * Z) : list Z :=
  if c.1 =? c.2 then job_sequence else relocate job_sequence c.1 c.2.

(** Every improvement, as [Solution::apply2Opt] scans: each candidate
    swap that reduces the current makespan is kept, and the scan goes
    on from the new order. *)
Definition every_improvement_step (inst : ProblemInstance) (st : list Z * Z * bool)
    (c : Z * Z) : list Z * Z * bool :=
  let '(job_sequence, current_makespan, improved) := st in
  let candidate := swap_move job_sequence c in
  if makespan_of inst candidate <? current_makespan
  then (candidate, makespan_of inst candidate, true)
  else st.

Definition every_improvement (inst : ProblemInstance) (job_sequence : list Z)
    : list Z * Z * bool :=
  fold_left (every_improvement_step inst) (swap_pairs (Z.of_nat (length job_sequence)))
            (job_sequence, makespan_of inst job_sequence, false).

(** The states of a first-improvement search: nothing found yet (the
    order is the initial one), and left at the candidate [c]. *)
Definition improves (inst : ProblemInstance) (job_sequence : list Z)
    (move : list Z -> Z * Z -> list Z) (c : Z * Z) : bool :=
  makespan_of inst (move job_sequence c) <? makespan_of inst job_sequence.

Definition searching (inst : ProblemInstance) (job_sequence : list Z)
    (s : Solution) (improved : bool) : Prop :=
  wf_solution inst s /\ job_sequence_ s = job_sequence /\ improved = false.

Definition improved_by (inst : ProblemInstance) (job_sequence : list Z)
    (move : list Z -> Z * Z -> list Z) (c : Z * Z) (s : Solution) (improved : bool) : Prop :=
  wf_solution inst s /\ job_sequence_ s = move job_sequence c /\ improved = true.

(** The state of [Solution::apply2Opt] and the scan of the orders. *)
Definition scanning (inst : ProblemInstance) (st : Solution * Z * bool)
    (a : list Z * Z * bool) : Prop :=
  wf_solution inst st.1.1 /\ job_sequence_ st.1.1 = a.1.1
  /\ st.1.2 = a.1.2 /\ st.2 = a.2.

(** ** Notions used to state the properties of the agent's operators *)

(** The random source after one more draw. *)
Definition advance (g : Random) : Random := {| tape := tape g; cursor := S (cursor g) |}.

(** [k] random neighbour moves in a row. *)
Fixpoint neighbor_moves (k : nat) (s : Solution) : M Solution :=
  match k with
  | O => M_ret s
  | S k' => s' <~ roam_move s; neighbor_moves k' s'
  end.

(** The number of moves in the words of the specification:
    [max(1, round(explorationRate * n * 0.5))], [round] to the nearest
    integer, halves away from zero. *)
Definition round_nearest (x : Q) : Z :=
  if Qltb x 0 then - trunc (- x + (1 # 2))%Q else trunc (x + (1 # 2))%Q.

Definition roam_num_moves_rounded (exploration_rate : Q) (num_jobs : Z) : Z :=
  Z.max 1 (round_nearest (exploration_rate * inject_Z num_jobs * (1 # 2))%Q).

(** A horse on seven jobs, for the examples. *)
Definition seven_jobs_instance : ProblemInstance :=
  ProblemInstance_of_matrix [[1]; [2]; [3]; [4]; [5]; [6]; [7]].

Definition seven_jobs_horse : Horse :=
  let s := fresh_solution seven_jobs_instance [0; 1; 2; 3; 4; 5; 6] in
  mkHorse s s (-28) (-28) 0 (4 # 5) 1 false 0.

(** ** Notions used to state the properties of the herd *)

(** The best fitness of the stored leader. *)
Definition leader_fitness (herd : HorseHerd) : Q := best_fitness_ (leader_ herd).

(** [l] holds what [h] holds: the same orders, fitness values and
    abilities; the caches of the solutions and the leader flag aside. *)
Definition copy_of (h l : Horse) : Prop :=
  job_sequence_ (solution_ l) = job_sequence_ (solution_ h)
  /\ instance_ (solution_ l) = instance_ (solution_ h)
  /\ job_sequence_ (best_solution_ l) = job_sequence_ (best_solution_ h)
  /\ instance_ (best_solution_ l) = instance_ (best_solution_ h)
  /\ fitness_ l = fitness_ h /\ best_fitness_ l = best_fitness_ h
  /\ age_ l = age_ h /\ grazing_ability_ l = grazing_ability_ h /\ stamina_ l = stamina_ h
  /\ stagnation_counter_ l = stagnation_counter_ h.

(** The stored leader of [herd'] is at least as fit as that of [herd]. *)
Definition leader_le (herd herd' : HorseHerd) : Prop :=
  (leader_fitness herd <= leader_fitness herd')%Q.

(** A small run, for the examples: five horses on the example
    instance, with a fixed tape of the random source. *)
Definition example_parameters : HHOAParameters :=
  {| population_size := 5; max_iterations := 3;
     grazing_intensity := 1 # 2; roaming_rate := 3 # 10; exploration_rate := 3 # 10;
     following_rate := 7 # 10; mating_rate := 2 # 5; crossover_rate := 4 # 5;
     mutation_rate := 1 # 10; replacement_rate := 1 # 10;
     max_stagnation := 20; elite_improvement_freq := 10; elite_count := 3;
     diversity_threshold := 1 # 100; adaptive_parameters := true;
     termination_patience := 100 |}.

Definition example_random : Random :=
  {| tape := fun i => (Z.of_nat i * 7919 + 13) * 104729 mod 1000003 * 9007199254;
     cursor := 0 |}.

Definition example_optimizer : result (HHOA * Random) :=
  HHOA_new 100 (Some example_instance) example_parameters example_random.

(** Whether a call returned. *)
Definition returned {A : Type} (r : result A) : bool :=
  match r with Ok _ => true | _ => false end.

(** Construction followed by [optimize]: the usual use of the class. *)
Definition construct_and_optimize (made : result (HHOA * Random)) (iterations : Z)
  : result (Solution * HHOA * Random) :=
  '(a, g) <- made; optimize_for iterations a g.

(** ** Notions used to state the properties of the termination policy *)



(** ** Notions used to state the properties of the parameters *)

(** The parameters of the example run, with a grazing intensity of zero. *)
Definition zero_grazing_parameters : HHOAParameters :=
  set_grazing_intensity 0 example_parameters.

Definition zero_grazing_optimizer : result (HHOA * Random) :=
  HHOA_new 100 (Some example_instance) zero_grazing_parameters example_random.

(** Construction followed by [initialize]. *)
Definition construct_and_initialize (made : result (HHOA * Random))
  : result (HHOA * Random) :=
  '(a, g) <- made; HHOA_initialize a g.

(** The optimiser holds horses, and its grazing intensity is zero. *)
Definition idle_grazers (r : result (HHOA * Random)) : bool :=
  match r with
  | Ok (a, _) =>
      match horses_ (herd_ a) with
      | [] => false
      | _ => Qeq_bool (grazing_intensity (parameters_ a)) 0
             && HHOAParameters_isValid (parameters_ a)
      end
  | _ => false
  end.

(** The validity of a configuration in the words of the specification:
    every rate in [[0, 1]], and every size and count positive, the elite
    count and the elite frequency among them.  It is compared with
    [HHOAParameters_isValid] below. *)
Definition documented_validity (p : HHOAParameters) : bool :=
  Qleb 0 (grazing_intensity p) && Qleb (grazing_intensity p) 1 &&
  Qleb 0 (roaming_rate p) && Qleb (roaming_rate p) 1 &&
  Qleb 0 (exploration_rate p) && Qleb (exploration_rate p) 1 &&
  Qleb 0 (following_rate p) && Qleb (following_rate p) 1 &&
  Qleb 0 (mating_rate p) && Qleb (mating_rate p) 1 &&
  Qleb 0 (crossover_rate p) && Qleb (crossover_rate p) 1 &&
  Qleb 0 (mutation_rate p) && Qleb (mutation_rate p) 1 &&
  Qleb 0 (replacement_rate p) && Qleb (replacement_rate p) 1 &&
  (population_size p >? 0) && (max_iterations p >? 0) &&
  (max_stagnation p >? 0) && (termination_patience p >? 0) &&
  (elite_count p >? 0) && (elite_improvement_freq p >? 0).

(** A rate lies in [[0, 1]]. *)
Definition rate_in_range (r : Q) : Prop := (0 <= r <= 1)%Q.

(** The default parameters, without elite horses. *)
Definition no_elite_parameters : HHOAParameters :=
  mkParameters 30 1000 (1 # 2) (3 # 10) (3 # 10) (7 # 10) (2 # 5) (4 # 5) (1 # 10) (1 # 10)
    20 10 0 (1 # 100) true 100.

(** The parameters of the example run, with an elite frequency of zero. *)
Definition zero_frequency_parameters : HHOAParameters :=
  mkParameters 5 3 (1 # 2) (3 # 10) (3 # 10) (7 # 10) (2 # 5) (4 # 5) (1 # 10) (1 # 10)
    20 0 3 (1 # 100) true 100.

(** ** Notions used to state the properties of a run *)

(** What a run of [optimize] on a freshly constructed optimiser leaves:
    the best makespan of the herd right after [initialize], the
    makespan and the order of the solution returned, and the best
    makespan held by the stored leader at the end. *)
Definition run_summary (made : result (HHOA * Random)) : result (Z * Z * list Z * Z) :=
  '(a, g) <- made;
  '(a0, _) <- HHOA_initialize a g;
  initial <- herd_best_makespan (herd_ a0);
  '(best, a', _) <- optimize a g;
  '(final, _) <- getMakespan best;
  '(kept, _) <- getBestMakespan (leader_ (herd_ a'));
  Ok (initial, final, job_sequence_ best, kept).

(** Two jobs on two machines, and six jobs on four machines. *)
Definition two_jobs_instance : ProblemInstance := ProblemInstance_of_matrix [[1; 2]; [2; 1]].

Definition six_jobs_instance : ProblemInstance :=
  ProblemInstance_of_matrix
    [[54; 83; 15; 71]; [79; 3; 11; 99]; [16; 89; 49; 15];
     [66; 58; 31; 68]; [58; 56; 20; 85]; [7; 96; 43; 29]].

(** The default parameters, for a herd of one horse. *)
Definition one_horse_parameters (iterations : Z) : HHOAParameters :=
  mkParameters 1 iterations (1 # 2) (3 # 10) (3 # 10) (7 # 10) (2 # 5) (4 # 5) (1 # 10)
    (1 # 10) 20 10 3 (1 # 100) true 100.

(** The random source whose raw draws are 0, 1, 2, ... *)
Definition counting_random : Random := {| tape := fun i => Z.of_nat i; cursor := 0 |}.

(** ** Notions used to state the properties of the mutation pass *)

(** A horse of the valid instance [inst]: its current and its best
    solution are solutions of [inst]. *)
Definition wf_horse (inst : ProblemInstance) (h : Horse) : Prop :=
  wf_solution inst (solution_ h) /\ wf_solution inst (best_solution_ h).

Definition wf_herd (herd : HorseHerd) : Prop :=
  ProblemInstance_isValid (herd_instance_ herd) = true
  /\ Forall (wf_horse (herd_instance_ herd)) (horses_ herd)
  /\ wf_horse (herd_instance_ herd) (leader_ herd).

(** The makespan of the current solution of a horse. *)
Definition current_makespan (inst : ProblemInstance) (h : Horse) : Z :=
  makespan_of inst (job_sequence_ (solution_ h)).

(** How many horses have a current makespan strictly below the one they
    had before. *)
Fixpoint improved_horses (inst : ProblemInstance) (before after : list Horse) : Z :=
  match before, after with
  | b :: before', a :: after' =>
      (if current_makespan inst a <? current_makespan inst b then 1 else 0)
      + improved_horses inst before' after'
  | _, _ => 0
  end.

(** The personal best of [h'] is that of [h], or it is the current
    solution of [h'] and strictly fitter than the best of [h]. *)
Definition keeps_or_raises_best (h h' : Horse) : Prop :=
  (best_fitness_ h' = best_fitness_ h
   /\ job_sequence_ (best_solution_ h') = job_sequence_ (best_solution_ h))
  \/ ((best_fitness_ h < best_fitness_ h')%Q
      /\ best_fitness_ h' = fitness_ h'
      /\ job_sequence_ (best_solution_ h') = job_sequence_ (solution_ h')).

(** The body of the loop of [HorseHerd::performMutation]. *)
Definition mutation_step (mutation_rate : Q) (horse : Horse) (count : Z) : M (Horse * Z) :=
  '(old_makespan, horse1) <~ liftR (Horse_getMakespan horse);
  horse2 <~ mutate mutation_rate horse1;
  '(makespan, horse3) <~ liftR (Horse_getMakespan horse2);
  M_ret (horse3, if makespan <? old_makespan then count + 1 else count).

(** A horse on the order [[0; 1]] of the two jobs, and the herd it makes
    alone. *)
Definition two_jobs_horse : Horse :=
  mkHorse (fresh_solution two_jobs_instance [0; 1]) (fresh_solution two_jobs_instance [0; 1])
          (-4) (-4) 0 (4 # 5) 1 false 0.

Definition two_jobs_herd : HorseHerd :=
  mkHerd [two_jobs_horse] two_jobs_instance two_jobs_horse 1 0 0.

(** The count a pass returned and the current orders it left. *)
Definition pass_outcome (r : result (Z * HorseHerd * Random)) : option (Z * list (list Z)) :=
  match r with
  | Ok (count, herd, _) => Some (count, map (fun h => job_sequence_ (solution_ h)) (horses_ herd))
  | _ => None
  end.

(** ** core/ProblemInstance, continued *)

(** [ProblemInstance(num_jobs, num_machines)], for sizes that are not
    negative: a matrix of zeros. *)
Definition ProblemInstance_zeros (num_jobs num_machines : Z) : ProblemInstance :=
  {| num_jobs_ := num_jobs; num_machines_ := num_machines;
     processing_times_ := replicate (Z.to_nat num_jobs) (replicate (Z.to_nat num_machines) 0) |}.

(** [ProblemInstance::setProcessingTime] *)
Definition setProcessingTime (inst : ProblemInstance) (job machine time : Z)
    : result ProblemInstance :=
  if (job <? 0) || (job >=? num_jobs_ inst) || (machine <? 0) || (machine >=? num_machines_ inst)
  then Throw out_of_range
  else if time <? 0 then Throw invalid_argument
  else Ok {| num_jobs_ := num_jobs_ inst; num_machines_ := num_machines_ inst;
             processing_times_ := mat_set (processing_times_ inst) job machine time |}.

(** [ProblemInstance::generateRandom] *)
Definition generateRandom (num_jobs num_machines min_time max_time : Z) : M ProblemInstance :=
  if (num_jobs <=? 0) || (num_machines <=? 0) || (min_time <? 0) || (max_time <? min_time)
  then throwM invalid_argument
  else
    forM 0 num_jobs
      (fun job inst =>
         forM 0 num_machines
           (fun machine inst =>
              time <~ randInt min_time max_time;
              liftR (setProcessingTime inst job machine time))
           inst)
      (ProblemInstance_zeros num_jobs num_machines).

(** ** Notions used to state the properties of the instances *)

(** A matrix of [n] rows of [m] times, none negative. *)
Definition times_matrix (n m : Z) (pt : list (list Z)) : Prop :=
  Z.of_nat (length pt) = n
  /\ Forall (fun row => Z.of_nat (length row) = m /\ Forall (fun time => 0 <= time) row) pt.

(** ** Notions used to state the bounds on the makespan *)

(** [f 0 + ... + f (k - 1)] *)
Fixpoint sum_to (f : Z -> Z) (k : nat) : Z :=
  match k with
  | O => 0
  | S k' => sum_to f k' + f (Z.of_nat k')
  end.

(** The total processing time of a job over the machines, and the
    total load of a machine under a job sequence. *)
Definition job_time (inst : ProblemInstance) (job : Z) : Z :=
  sum_to (ptime inst job) (Z.to_nat (getNumMachines inst)).

Definition machine_load (inst : ProblemInstance) (job_sequence : list Z) (machine : Z) : Z :=
  sum_to (fun p => ptime inst (vec_at 0 job_sequence p) machine) (length job_sequence).

(** The total processing time of a job as [initializeGreedy] adds it up,
    in [int]. *)
Fixpoint int_sum_to (f : Z -> Z) (k : nat) : Z :=
  match k with
  | O => 0
  | S k' => int_add (int_sum_to f k') (f (Z.of_nat k'))
  end.

Definition int_job_time (inst : ProblemInstance) (job : Z) : Z :=
  int_sum_to (ptime inst job) (Z.to_nat (getNumMachines inst)).

(** Two jobs on two machines; the times of the first do not add up in an
    [int]. *)
Definition long_job_instance : ProblemInstance :=
  ProblemInstance_of_matrix [[1500000000; 1500000000]; [2; 3]].

(** The time the jobs of a sequence take one after the other: the sum of
    all their processing times.  No completion time exceeds it; a
    sequence whose time is at most [INT_MAX] is evaluated without
    overflow. *)
Definition sequence_time (inst : ProblemInstance) (job_sequence : list Z) : Z :=
  sum_to (fun p => job_time inst (vec_at 0 job_sequence p)) (length job_sequence).

(** The jobs before position [p], and the job at [p] up to machine [k]. *)
Definition cell_bound (inst : ProblemInstance) (job_sequence : list Z) (p k : Z) : Z :=
  sum_to (fun q => job_time inst (vec_at 0 job_sequence q)) (Z.to_nat p)
  + sum_to (ptime inst (vec_at 0 job_sequence p)) (Z.to_nat (k + 1)).

(** The cells before [(P, K)] are final and within their bounds. *)
Definition filled_within (inst : ProblemInstance) (job_sequence : list Z) (P K : Z)
    (C : list (list Z)) : Prop :=
  filled inst job_sequence P K C /\
  forall p k, 0 <= p < num_jobs_ inst -> 0 <= k < num_machines_ inst ->
    p < P \/ (p = P /\ k < K) ->
    mat_get C p k <= cell_bound inst job_sequence p k.

(** ** utils/Random, continued *)

(** [Random::randPermutation] *)
Definition randPermutation (n : Z) : M (list Z) :=
  if n <? 0 then throwM invalid_argument else shuffle 0 (seqZ 0 n).

(** ** algorithm/HorseHerd, continued *)

(** [std::min_element] with the comparison of the best fitness: the
    first horse of least [best_fitness_]. *)
Fixpoint min_element_from (smallest : Horse) (rest : list Horse) : Horse :=
  match rest with
  | [] => smallest
  | h :: rest' =>
      if Qltb (best_fitness_ h) (best_fitness_ smallest) then min_element_from h rest'
      else min_element_from smallest rest'
  end.

(** [HorseHerd::getWorstFitness] *)
Definition getWorstFitness (herd : HorseHerd) : Q :=
  match horses_ herd with
  | [] => 0%Q
  | h :: rest => best_fitness_ (min_element_from h rest)
  end.

(** The herd [herd'] has as many horses as [herd]. *)
Definition same_count (herd herd' : HorseHerd) : Prop :=
  length (horses_ herd') = length (horses_ herd).

(** A configuration with another elite improvement frequency. *)
Definition with_elite_improvement_freq (freq : Z) (p : HHOAParameters) : HHOAParameters :=
  mkParameters (population_size p) (max_iterations p) (grazing_intensity p) (roaming_rate p)
    (exploration_rate p) (following_rate p) (mating_rate p) (crossover_rate p)
    (mutation_rate p) (replacement_rate p) (max_stagnation p) freq
    (elite_count p) (diversity_threshold p) (adaptive_parameters p) (termination_patience p).



(** ** Notions used to state the properties of the passes over the herd *)

(** The horses of a pass are handled in turn, each by [step], which
    takes the horse and the random source and leaves the horse and the
    random source for the next one. *)
Inductive each_in_turn (step : Horse -> Random -> Horse -> Random -> Prop)
  : list Horse -> Random -> list Horse -> Random -> Prop :=
| each_in_turn_nil (g : Random) : each_in_turn step [] g [] g
| each_in_turn_cons (h : Horse) (hs : list Horse) (g : Random) (h' : Horse) (g1 : Random)
    (hs' : list Horse) (g' : Random) :
    step h g h' g1 -> each_in_turn step hs g1 hs' g' ->
    each_in_turn step (h :: hs) g (h' :: hs') g'.

(** What [performMutation] does to one horse: [mutate], between two
    readings of the makespan. *)
Definition mutation_of (mutation_rate : Q) (h : Horse) (g : Random) (h' : Horse) (g' : Random)
    : Prop :=
  exists makespan h1 h2 makespan',
    Horse_getMakespan h = Ok (makespan, h1)
    /\ mutate mutation_rate h1 g = Ok (h2, g')
    /\ Horse_getMakespan h2 = Ok (makespan', h').

(** What [performGrazing] does to one horse: [graze]. *)
Definition grazing_of (intensity : Q) (h : Horse) (g : Random) (h' : Horse) (g' : Random)
    : Prop :=
  exists improved, graze intensity h g = Ok ((improved, h'), g').

(** The candidate [new_solution] went through the acceptance test of
    the horse [h], which left [h']. *)
Definition tested_on (new_solution : Solution) (h h' : Horse) : Prop :=
  exists count count', accept_if_better new_solution h count = Ok (h', count').

(** What [performRoaming] does to one horse: a draw, and below the
    roaming rate [roam] and the acceptance test. *)
Definition roaming_of (roaming_rate exploration_rate : Q) (h : Horse) (g : Random)
    (h' : Horse) (g' : Random) : Prop :=
  exists u g1,
    randDouble g = Ok (u, g1)
    /\ if Qltb u roaming_rate
       then exists new_solution,
              roam exploration_rate h g1 = Ok (new_solution, g')
              /\ tested_on new_solution h h'
       else h' = h /\ g' = g1.

(** What [performFollowing] does to one horse: unless it is flagged as
    the leader, [followLeader] and the acceptance test. *)
Definition following_of (leader : Horse) (following_rate : Q) (h : Horse) (g : Random)
    (h' : Horse) (g' : Random) : Prop :=
  if negb (is_leader_ h)
  then exists new_solution,
         followLeader leader following_rate h g = Ok (new_solution, g')
         /\ tested_on new_solution h h'
  else h' = h /\ g' = g.

(** The current order of [h'] is that of [h], or its makespan is
    strictly below that of [h]. *)
Definition kept_or_improved (inst : ProblemInstance) (h h' : Horse) : Prop :=
  job_sequence_ (solution_ h') = job_sequence_ (solution_ h)
  \/ current_makespan inst h' < current_makespan inst h.

(** The current makespan of [h'] is not above that of [h]. *)
Definition not_worse (inst : ProblemInstance) (h h' : Horse) : Prop :=
  current_makespan inst h' <= current_makespan inst h.

(** The end of a pass: [updateLeader] is called when the count is
    positive, and only then. *)
Definition leader_refreshed (count : Z) (hs : list Horse) (herd herd' : HorseHerd) : Prop :=
  if count >? 0
  then exists changed, updateLeader (with_horses hs herd) = Ok (changed, herd')
  else herd' = with_horses hs herd.

(** The outcome of a pass that handles every horse by [step]: the
    horses [hs] it leaves before the leader is refreshed, each related
    to the horse it was by [kept]; the count is the number of horses
    whose current makespan went strictly down. *)
Definition pass_outcome_of (step : Horse -> Random -> Horse -> Random -> Prop)
    (kept : Horse -> Horse -> Prop) (herd : HorseHerd) (g : Random)
    (count : Z) (herd' : HorseHerd) (g' : Random) : Prop :=
  exists hs,
    each_in_turn step (horses_ herd) g hs g'
    /\ count = improved_horses (herd_instance_ herd) (horses_ herd) hs
    /\ Forall2 kept (horses_ herd) hs
    /\ leader_refreshed count hs herd herd'
    /\ Forall2 copy_of hs (horses_ herd').

(** * Properties *)

(** ** Rounding to [double] *)

Lemma pow2_pos (e : Z) : (0 < pow2 e)%Q.
Proof. apply Qpower_0_lt. reflexivity. Qed.

Lemma pow2_add (a b : Z) : (pow2 (a + b) == pow2 a * pow2 b)%Q.
Proof. apply Qpower_plus. discriminate. Qed.

Lemma pow2_le (a b : Z) : a <= b -> (pow2 a <= pow2 b)%Q.
Proof. intros H. apply Qpower_le_compat_l; [exact H|]. unfold Qle. simpl. lia. Qed.

Lemma pow2_lt (a b : Z) : a < b -> (pow2 a < pow2 b)%Q.
Proof. intros H. apply Qpower_lt_compat_l; [exact H|]. reflexivity. Qed.

Lemma pow2_lt_inv (a b : Z) : (pow2 a < pow2 b)%Q -> a < b.
Proof. intros H. apply (Qpower_lt_compat_l_inv 2); [exact H | reflexivity]. Qed.

Lemma pow2_nonneg_exp (e : Z) : 0 <= e -> (pow2 e == inject_Z (2 ^ e))%Q.
Proof. intros H. unfold pow2. rewrite Zpower_Qpower by exact H. reflexivity. Qed.

Lemma pow2_sub (a b : Z) : (pow2 (a - b) == pow2 a / pow2 b)%Q.
Proof. apply Qpower_minus. discriminate. Qed.

Lemma Qlog2_spec (x : Q) :
  (0 < x)%Q -> (pow2 (Qlog2 x) <= x)%Q /\ (x < pow2 (Qlog2 x + 1))%Q.
Proof.
  intros Hx. destruct x as [n d]. assert (Hn : 0 < n) by (unfold Qlt in Hx; simpl in Hx; lia).
  unfold Qlog2. cbn [Qnum Qden].
  set (a := Z.log2 n). set (b := Z.log2 (Z.pos d)).
  pose proof (Z.log2_spec n Hn) as [Ha1 Ha2]. fold a in Ha1, Ha2.
  pose proof (Z.log2_spec (Z.pos d) ltac:(lia)) as [Hb1 Hb2]. fold b in Hb1, Hb2.
  pose proof (Z.log2_nonneg n) as Ha0. fold a in Ha0.
  pose proof (Z.log2_nonneg (Z.pos d)) as Hb0. fold b in Hb0.
  assert (HA : 0 < 2 ^ a) by (apply Z.pow_pos_nonneg; lia).
  assert (HB : 0 < 2 ^ b) by (apply Z.pow_pos_nonneg; lia).
  assert (Hup : (n # d < pow2 (a - b + 1))%Q).
  { replace (a - b + 1) with (a + 1 - b) by lia.
    rewrite pow2_sub, (pow2_nonneg_exp (a + 1)), (pow2_nonneg_exp b) by lia.
    apply Qlt_shift_div_l.
    - change 0%Q with (inject_Z 0). rewrite <- Zlt_Qlt. exact HB.
    - unfold Qlt, Qmult, inject_Z. simpl. rewrite Pos.mul_1_r, Z.mul_1_r.
      replace (a + 1) with (Z.succ a) by lia. nia. }
  assert (Hlo : (pow2 (a - b - 1) < n # d)%Q).
  { replace (a - b - 1) with (a - (b + 1)) by lia.
    rewrite pow2_sub, (pow2_nonneg_exp a), (pow2_nonneg_exp (b + 1)) by lia.
    apply Qlt_shift_div_r.
    - change 0%Q with (inject_Z 0). rewrite <- Zlt_Qlt. apply Z.pow_pos_nonneg; lia.
    - unfold Qlt, Qmult, inject_Z. simpl. rewrite ?Pos.mul_1_r, ?Z.mul_1_r.
      replace (b + 1) with (Z.succ b) by lia. nia. }
  destruct (Qle_bool (pow2 (a - b)) (n # d)) eqn:E.
  - apply Qle_bool_iff in E. split; [exact E | exact Hup].
  - split; [apply Qlt_le_weak; exact Hlo|].
    replace (a - b - 1 + 1) with (a - b) by lia.
    apply Qnot_le_lt. intros H. apply Qle_bool_iff in H. congruence.
Qed.

Lemma round_half_even_cases (x : Q) :
  ((x - inject_Z (Qfloor x) < 1 # 2)%Q /\ round_half_even x = Qfloor x)
  \/ ((1 # 2 < x - inject_Z (Qfloor x))%Q /\ round_half_even x = Qfloor x + 1)
  \/ ((x - inject_Z (Qfloor x) == 1 # 2)%Q
      /\ round_half_even x = if Z.even (Qfloor x) then Qfloor x else Qfloor x + 1).
Proof.
  unfold round_half_even.
  destruct (Qcompare (x - inject_Z (Qfloor x)) (1 # 2)) eqn:E.
  - right. right. split; [apply Qeq_alt; exact E | reflexivity].
  - left. split; [apply Qlt_alt; exact E | reflexivity].
  - right. left. split; [apply Qgt_alt; exact E | reflexivity].
Qed.

Lemma Qfloor_bounds (x : Q) :
  (inject_Z (Qfloor x) <= x)%Q /\ (x < inject_Z (Qfloor x) + 1)%Q.
Proof.
  split; [apply Qfloor_le|]. pose proof (Qlt_floor x) as H.
  rewrite inject_Z_plus in H. exact H.
Qed.

Lemma round_half_even_bounds (x : Q) :
  (x - (1 # 2) <= inject_Z (round_half_even x))%Q
  /\ (inject_Z (round_half_even x) <= x + (1 # 2))%Q.
Proof.
  pose proof (Qfloor_bounds x) as [H1 H2].
  destruct (round_half_even_cases x) as [[H ->]|[[H ->]|[H ->]]].
  - split; lra.
  - rewrite inject_Z_plus. change (inject_Z 1) with 1%Q. split; lra.
  - destruct (Z.even (Qfloor x)).
    + split; lra.
    + rewrite inject_Z_plus. change (inject_Z 1) with 1%Q. split; lra.
Qed.

Lemma round_half_even_comp (x y : Q) : (x == y)%Q -> round_half_even x = round_half_even y.
Proof.
  intros H. unfold round_half_even. rewrite (Qfloor_comp x y H).
  assert (E : (x - inject_Z (Qfloor y) == y - inject_Z (Qfloor y))%Q) by (rewrite H; reflexivity).
  rewrite (Qcompare_comp _ _ E (1 # 2) (1 # 2) (Qeq_refl _)). reflexivity.
Qed.

Lemma round_half_even_int (z : Z) : round_half_even (inject_Z z) = z.
Proof.
  destruct (round_half_even_cases (inject_Z z)) as [[H E]|[[H E]|[H E]]];
    rewrite Qfloor_Z in *.
  - exact E.
  - exfalso. lra.
  - exfalso. lra.
Qed.

Lemma inject_Z_le_inv (a b : Z) : (inject_Z a <= inject_Z b)%Q -> a <= b.
Proof. intros H. rewrite Zle_Qle. exact H. Qed.

Lemma inject_Z_lt_inv (a b : Z) : (inject_Z a < inject_Z b)%Q -> a < b.
Proof. intros H. rewrite Zlt_Qlt. exact H. Qed.

Lemma round_half_even_mono (x y : Q) :
  (x <= y)%Q -> round_half_even x <= round_half_even y.
Proof.
  intros Hxy.
  pose proof (Qfloor_resp_le x y Hxy) as Hf.
  pose proof (Qfloor_bounds x) as [Hx1 Hx2]. pose proof (Qfloor_bounds y) as [Hy1 Hy2].
  destruct (Z.eq_dec (Qfloor x) (Qfloor y)) as [E|E].
  - destruct (round_half_even_cases x) as [[H1 ->]|[[H1 ->]|[H1 ->]]];
    destruct (round_half_even_cases y) as [[H2 ->]|[[H2 ->]|[H2 ->]]];
    rewrite <- ?E in *; try lia; try (exfalso; lra);
    destruct (Z.even (Qfloor x)); lia.
  - assert (Hlt : Qfloor x + 1 <= Qfloor y) by lia.
    assert (Hx : round_half_even x <= Qfloor x + 1).
    { destruct (round_half_even_cases x) as [[_ ->]|[[_ ->]|[_ ->]]]; try lia.
      destruct (Z.even (Qfloor x)); lia. }
    assert (Hy : Qfloor y <= round_half_even y).
    { destruct (round_half_even_cases y) as [[_ ->]|[[_ ->]|[_ ->]]]; try lia.
      destruct (Z.even (Qfloor y)); lia. }
    lia.
Qed.

Lemma round_double_pos_eq (x : Q) :
  round_double_pos x = (inject_Z (round_half_even (x / pow2 (last_bit x))) * pow2 (last_bit x))%Q.
Proof. reflexivity. Qed.

Lemma Qlog2_mono (x y : Q) : (0 < x)%Q -> (x <= y)%Q -> Qlog2 x <= Qlog2 y.
Proof.
  intros Hx Hxy. assert (Hy : (0 < y)%Q) by lra.
  destruct (Qlog2_spec x Hx) as [H1 _]. destruct (Qlog2_spec y Hy) as [_ H2].
  assert (H : (pow2 (Qlog2 x) < pow2 (Qlog2 y + 1))%Q) by lra.
  apply pow2_lt_inv in H. lia.
Qed.

Lemma Qdiv_pow2_le (x y : Q) (e : Z) : (x <= y)%Q -> (x / pow2 e <= y / pow2 e)%Q.
Proof.
  intros H. unfold Qdiv. apply Qmult_le_compat_r; [exact H|].
  apply Qlt_le_weak, Qinv_lt_0_compat, pow2_pos.
Qed.

Lemma pow2_div (a b : Z) : (pow2 a / pow2 b == pow2 (a - b))%Q.
Proof. symmetry. apply pow2_sub. Qed.

Lemma round_double_pos_mono (x y : Q) :
  (0 < x)%Q -> (x <= y)%Q -> (round_double_pos x <= round_double_pos y)%Q.
Proof.
  intros Hx Hxy. assert (Hy : (0 < y)%Q) by lra.
  pose proof (Qlog2_mono x y Hx Hxy) as Hl.
  rewrite !round_double_pos_eq.
  set (ex := last_bit x). set (ey := last_bit y).
  assert (He : ex <= ey) by (unfold ex, ey, last_bit; lia).
  destruct (Z.eq_dec ex ey) as [E|E].
  - rewrite <- E. apply Qmult_le_compat_r; [|apply Qlt_le_weak, pow2_pos].
    rewrite <- Zle_Qle. apply round_half_even_mono, Qdiv_pow2_le, Hxy.
  - assert (Hey : ey = Qlog2 y - 52) by (unfold ex, ey, last_bit in *; lia).
    assert (Hex : Qlog2 x - 52 <= ex) by (unfold ex, last_bit; lia).
    destruct (Qlog2_spec x Hx) as [_ Hx2]. destruct (Qlog2_spec y Hy) as [Hy1 _].
    (* x's significand is at most 2^53 *)
    assert (H1 : round_half_even (x / pow2 ex) <= 2 ^ 53).
    { rewrite <- (round_half_even_int (2 ^ 53)). apply round_half_even_mono.
      rewrite <- (pow2_nonneg_exp 53) by lia.
      apply Qle_shift_div_r; [apply pow2_pos|]. rewrite <- pow2_add.
      apply Qlt_le_weak. eapply Qlt_le_trans; [exact Hx2|]. apply pow2_le. lia. }
    (* y's significand is at least 2^52 *)
    assert (H2 : 2 ^ 52 <= round_half_even (y / pow2 ey)).
    { rewrite <- (round_half_even_int (2 ^ 52)). apply round_half_even_mono.
      rewrite <- (pow2_nonneg_exp 52) by lia.
      apply Qle_shift_div_l; [apply pow2_pos|]. rewrite <- pow2_add.
      eapply Qle_trans; [|exact Hy1]. apply pow2_le. lia. }
    apply (Qle_trans _ (inject_Z (2 ^ 53) * pow2 ex)).
    { apply Qmult_le_compat_r; [|apply Qlt_le_weak, pow2_pos]. rewrite <- Zle_Qle. exact H1. }
    apply (Qle_trans _ (inject_Z (2 ^ 52) * pow2 ey)).
    { rewrite <- (pow2_nonneg_exp 53), <- (pow2_nonneg_exp 52) by lia.
      rewrite <- !pow2_add. apply pow2_le. lia. }
    apply Qmult_le_compat_r; [|apply Qlt_le_weak, pow2_pos]. rewrite <- Zle_Qle. exact H2.
Qed.

Lemma round_double_pos_nonneg (x : Q) : (0 < x)%Q -> (0 <= round_double_pos x)%Q.
Proof.
  intros Hx. rewrite round_double_pos_eq.
  apply Qmult_le_0_compat; [|apply Qlt_le_weak, pow2_pos].
  change 0%Q with (inject_Z 0). rewrite <- Zle_Qle.
  rewrite <- (round_half_even_int 0). apply round_half_even_mono.
  apply Qle_shift_div_l; [apply pow2_pos|].
  change (inject_Z 0) with 0%Q. rewrite Qmult_0_l. lra.
Qed.

Lemma round_double_pos_int (k : Z) :
  0 < k < 2 ^ 53 -> (round_double_pos (inject_Z k) == inject_Z k)%Q.
Proof.
  intros Hk. rewrite round_double_pos_eq.
  assert (Hx : (0 < inject_Z k)%Q) by (change 0%Q with (inject_Z 0); rewrite <- Zlt_Qlt; lia).
  destruct (Qlog2_spec _ Hx) as [H1 _].
  assert (Hl : Qlog2 (inject_Z k) < 53).
  { apply pow2_lt_inv. eapply Qle_lt_trans; [exact H1|].
    rewrite (pow2_nonneg_exp 53) by lia. rewrite <- Zlt_Qlt. lia. }
  set (e := last_bit (inject_Z k)).
  assert (He : e <= 0) by (unfold e, last_bit; lia).
  assert (Hq : (inject_Z k / pow2 e == inject_Z (k * 2 ^ (- e)))%Q).
  { rewrite inject_Z_mult, <- (pow2_nonneg_exp (- e)) by lia.
    unfold Qdiv. apply Qmult_comp; [reflexivity|]. unfold pow2.
    rewrite Qpower_opp. reflexivity. }
  rewrite (round_half_even_comp _ _ Hq), round_half_even_int.
  rewrite inject_Z_mult, <- (pow2_nonneg_exp (- e)) by lia.
  rewrite <- Qmult_assoc, <- pow2_add. replace (- e + e) with 0 by lia.
  change (pow2 0) with 1%Q. apply Qmult_1_r.
Qed.

Lemma round_double_pos_upper (x : Q) :
  (1 <= x)%Q -> (round_double_pos x <= x + x * (1 # 9007199254740992))%Q.
Proof.
  intros Hx. assert (Hx0 : (0 < x)%Q) by lra.
  destruct (Qlog2_spec x Hx0) as [H1 H2].
  assert (Hl : 0 <= Qlog2 x).
  { assert (H : (pow2 0 < pow2 (Qlog2 x + 1))%Q) by (change (pow2 0) with 1%Q; lra).
    apply pow2_lt_inv in H. lia. }
  rewrite round_double_pos_eq. set (e := last_bit x).
  assert (He : e = Qlog2 x - 52) by (unfold e, last_bit; lia).
  pose proof (round_half_even_bounds (x / pow2 e)) as [_ Hr].
  pose proof (pow2_pos e) as Hp.
  assert (Hm : (inject_Z (round_half_even (x / pow2 e)) * pow2 e
                <= (x / pow2 e + (1 # 2)) * pow2 e)%Q).
  { apply Qmult_le_compat_r; [exact Hr | lra]. }
  assert (Hd : ((x / pow2 e + (1 # 2)) * pow2 e == x + (1 # 2) * pow2 e)%Q).
  { field. lra. }
  assert (Hu : (pow2 e * inject_Z (2 ^ 52) <= x)%Q).
  { rewrite <- (pow2_nonneg_exp 52), <- pow2_add by lia.
    replace (e + 52) with (Qlog2 x) by lia. exact H1. }
  change (inject_Z (2 ^ 52)) with (4503599627370496 # 1)%Q in Hu.
  lra.
Qed.

Lemma Qlog2_comp (x y : Q) : (0 < x)%Q -> (x == y)%Q -> Qlog2 x = Qlog2 y.
Proof.
  intros Hx E. assert (Hy : (0 < y)%Q) by (rewrite <- E; exact Hx).
  apply Z.le_antisymm; apply Qlog2_mono; try assumption; rewrite E; apply Qle_refl.
Qed.

Lemma round_double_pos_comp (x y : Q) :
  (0 < x)%Q -> (x == y)%Q -> (round_double_pos x == round_double_pos y)%Q.
Proof.
  intros Hx E. rewrite !round_double_pos_eq. unfold last_bit.
  rewrite (Qlog2_comp x y Hx E).
  rewrite (round_half_even_comp (x / pow2 (Z.max (-1074) (Qlog2 y - 52)))
             (y / pow2 (Z.max (-1074) (Qlog2 y - 52)))) by (rewrite E; reflexivity).
  reflexivity.
Qed.

Lemma round_double_of_pos (x : Q) : (0 < x)%Q -> round_double x = round_double_pos x.
Proof.
  intros H. unfold round_double.
  destruct (Qcompare_spec x 0) as [E|E|E]; [exfalso; lra | exfalso; lra | reflexivity].
Qed.

Lemma round_double_of_neg (x : Q) :
  (x < 0)%Q -> round_double x = (- round_double_pos (- x))%Q.
Proof.
  intros H. unfold round_double.
  destruct (Qcompare_spec x 0) as [E|E|E]; [exfalso; lra | reflexivity | exfalso; lra].
Qed.

Lemma round_double_of_zero (x : Q) : (x == 0)%Q -> round_double x = 0%Q.
Proof.
  intros H. unfold round_double.
  destruct (Qcompare_spec x 0) as [E|E|E]; [reflexivity | exfalso; lra | exfalso; lra].
Qed.

#[global] Instance round_double_Proper : Proper (Qeq ==> Qeq) round_double.
Proof.
  intros x y E. destruct (Q_dec x 0) as [[H|H]|H].
  - rewrite (round_double_of_neg x H), (round_double_of_neg y) by (rewrite <- E; exact H).
    apply Qopp_comp. apply round_double_pos_comp; [lra | rewrite E; reflexivity].
  - rewrite (round_double_of_pos x H), (round_double_of_pos y) by (rewrite <- E; exact H).
    apply round_double_pos_comp; assumption.
  - rewrite (round_double_of_zero x H), (round_double_of_zero y) by (rewrite <- E; exact H).
    reflexivity.
Qed.

#[global] Instance dmul_Proper : Proper (Qeq ==> Qeq ==> Qeq) dmul.
Proof. intros a a' Ea b b' Eb. unfold dmul. rewrite Ea, Eb. reflexivity. Qed.

#[global] Instance ddiv_Proper : Proper (Qeq ==> Qeq ==> Qeq) ddiv.
Proof. intros a a' Ea b b' Eb. unfold ddiv. rewrite Ea, Eb. reflexivity. Qed.

Lemma round_double_nonneg (x : Q) : (0 <= x)%Q -> (0 <= round_double x)%Q.
Proof.
  intros H. destruct (Qle_lt_or_eq _ _ H) as [Hp|Hz].
  - rewrite (round_double_of_pos x Hp). apply round_double_pos_nonneg, Hp.
  - rewrite (round_double_of_zero x) by (symmetry; exact Hz). apply Qle_refl.
Qed.

Lemma round_double_mono (x y : Q) :
  (0 <= x)%Q -> (x <= y)%Q -> (round_double x <= round_double y)%Q.
Proof.
  intros H Hxy. destruct (Qle_lt_or_eq _ _ H) as [Hp|Hz].
  - rewrite (round_double_of_pos x Hp), (round_double_of_pos y) by lra.
    apply round_double_pos_mono; assumption.
  - rewrite (round_double_of_zero x) by (symmetry; exact Hz).
    apply round_double_nonneg. lra.
Qed.

Lemma round_double_int (k : Z) :
  0 <= k < 2 ^ 53 -> (round_double (inject_Z k) == inject_Z k)%Q.
Proof.
  intros Hk. destruct (Z.eq_dec k 0) as [->|Hne]; [reflexivity|].
  rewrite round_double_of_pos.
  - apply round_double_pos_int. lia.
  - change 0%Q with (inject_Z 0). rewrite <- Zlt_Qlt. lia.
Qed.

Lemma round_double_upper (x : Q) :
  (1 <= x)%Q -> (round_double x <= x + x * (1 # 9007199254740992))%Q.
Proof.
  intros H. rewrite round_double_of_pos by lra. apply round_double_pos_upper, H.
Qed.

(** [static_cast<int>] of a double that is not negative. *)
Lemma trunc_floor (x : Q) : (0 <= x)%Q -> trunc x = Qfloor x.
Proof.
  intros H. destruct x as [n d]. unfold trunc, Qfloor. cbn [Qnum Qden].
  unfold Qle in H. simpl in H. apply Z.quot_div_nonneg; lia.
Qed.

Lemma trunc_nonneg (x : Q) : (0 <= x)%Q -> 0 <= trunc x.
Proof.
  intros H. rewrite trunc_floor by exact H. rewrite <- (Qfloor_Z 0).
  apply Qfloor_resp_le. exact H.
Qed.

Lemma trunc_mono (x y : Q) : (0 <= x)%Q -> (x <= y)%Q -> trunc x <= trunc y.
Proof.
  intros H Hxy. rewrite !trunc_floor by lra. apply Qfloor_resp_le, Hxy.
Qed.

Lemma trunc_le (x : Q) (k : Z) : (0 <= x)%Q -> (x <= inject_Z k)%Q -> trunc x <= k.
Proof.
  intros H Hk. rewrite trunc_floor by exact H. rewrite <- (Qfloor_Z k).
  apply Qfloor_resp_le, Hk.
Qed.

Lemma trunc_lt (x : Q) (k : Z) : (0 <= x)%Q -> (x < inject_Z k)%Q -> trunc x < k.
Proof.
  intros H Hk. rewrite trunc_floor by exact H.
  rewrite Zlt_Qlt. eapply Qle_lt_trans; [apply Qfloor_le | exact Hk].
Qed.

Lemma trunc_ge (x : Q) (k : Z) : (inject_Z k <= x)%Q -> 0 <= k -> k <= trunc x.
Proof.
  intros Hk H0.
  assert (H : (0 <= x)%Q).
  { eapply Qle_trans; [|exact Hk]. change 0%Q with (inject_Z 0). rewrite <- Zle_Qle. exact H0. }
  rewrite trunc_floor by exact H. rewrite <- (Qfloor_Z k) at 1. apply Qfloor_resp_le, Hk.
Qed.

Lemma dmul_nonneg (a b : Q) : (0 <= a)%Q -> (0 <= b)%Q -> (0 <= dmul a b)%Q.
Proof.
  intros Ha Hb. unfold dmul. apply round_double_nonneg.
  apply Qmult_le_0_compat; apply round_double_nonneg; assumption.
Qed.

Lemma round_double_one : (round_double 1 == 1)%Q.
Proof. exact (round_double_int 1 ltac:(lia)). Qed.

(** A count times a rate of [[0, 1]] stays within the count. *)
Lemma dmul_ratio (n : Z) (ratio : Q) :
  0 <= n < 2 ^ 53 -> (0 <= ratio <= 1)%Q ->
  (0 <= dmul (inject_Z n) ratio <= inject_Z n)%Q.
Proof.
  intros Hn [H0 H1].
  assert (Hq : (0 <= inject_Z n)%Q) by (change 0%Q with (inject_Z 0); rewrite <- Zle_Qle; lia).
  split; [apply dmul_nonneg; assumption|].
  pose proof (round_double_int n Hn) as En.
  unfold dmul. apply Qle_trans with (round_double (inject_Z n)); [|rewrite En; apply Qle_refl].
  pose proof (round_double_nonneg ratio H0) as Hr0.
  pose proof (round_double_mono ratio 1 H0 H1) as Hr1. rewrite round_double_one in Hr1.
  apply round_double_mono.
  - apply Qmult_le_0_compat; [rewrite En; exact Hq | exact Hr0].
  - rewrite En. rewrite <- (Qmult_1_r (inject_Z n)) at 2.
    rewrite !(Qmult_comm (inject_Z n)). apply Qmult_le_compat_r; assumption.
Qed.

Lemma trunc_dmul_ratio (n : Z) (ratio : Q) :
  0 <= n < 2 ^ 53 -> (0 <= ratio <= 1)%Q -> 0 <= trunc (dmul (inject_Z n) ratio) <= n.
Proof.
  intros Hn Hr. destruct (dmul_ratio n ratio Hn Hr) as [H0 H1]. split.
  - apply trunc_nonneg, H0.
  - apply trunc_le; assumption.
Qed.

(** ** Vectors and loops *)

Lemma vec_at_insert_eq {A : Type} (d : A) (v : list A) (i : Z) (x : A) :
  0 <= i < Z.of_nat (length v) -> vec_at d (<[Z.to_nat i := x]> v) i = x.
Proof.
  intros Hi. unfold vec_at. rewrite nth_lookup, list_lookup_insert_eq by lia. reflexivity.
Qed.

Lemma vec_at_insert_ne {A : Type} (d : A) (v : list A) (i j : Z) (x : A) :
  0 <= i -> 0 <= j -> i <> j -> vec_at d (<[Z.to_nat i := x]> v) j = vec_at d v j.
Proof.
  intros Hi Hj Hne. unfold vec_at. rewrite !nth_lookup, list_lookup_insert_ne by lia. reflexivity.
Qed.

Lemma foldR_inv {S I : Type} (P : list I -> S -> Prop) (body : I -> S -> result S) :
  forall (l : list I) (s : S),
    P l s ->
    (forall i l' s, P (i :: l') s -> exists s', body i s = Ok s' /\ P l' s') ->
    exists s', foldR body l s = Ok s' /\ P [] s'.
Proof.
  induction l as [|i l IH]; intros s HP Hstep; simpl.
  - exists s. split; [reflexivity | exact HP].
  - destruct (Hstep i l s HP) as (s1 & Hb & HP1). rewrite Hb. simpl.
    apply IH; assumption.
Qed.

Lemma forZ_inv {S : Type} (P : Z -> S -> Prop) (lo hi : Z) (body : Z -> S -> result S) (s : S) :
  lo <= hi ->
  P lo s ->
  (forall i s, lo <= i < hi -> P i s -> exists s', body i s = Ok s' /\ P (i + 1) s') ->
  exists s', forZ lo hi body s = Ok s' /\ P hi s'.
Proof.
  intros Hle H0 Hstep. unfold forZ.
  remember (Z.to_nat (hi - lo)) as k eqn:Hk.
  revert lo s Hle H0 Hstep Hk.
  induction k as [|k IH]; intros lo s Hle H0 Hstep Hk.
  - assert (hi = lo) by lia. subst hi. rewrite Z.sub_diag. simpl.
    exists s. split; [reflexivity | exact H0].
  - rewrite seqZ_cons by lia. simpl.
    destruct (Hstep lo s ltac:(lia) H0) as (s1 & Hb & H1). rewrite Hb. simpl.
    replace (Z.pred (hi - lo)) with (hi - Z.succ lo) by lia.
    apply IH; try lia.
    + replace (Z.succ lo) with (lo + 1) by lia. exact H1.
    + intros i s2 Hi. apply Hstep. lia.
Qed.

(** ** The evaluator: [Solution::calculateMakespan] *)

Lemma getProcessingTime_in_range (inst : ProblemInstance) (job machine : Z) :
  0 <= job < num_jobs_ inst -> 0 <= machine < num_machines_ inst ->
  getProcessingTime inst job machine = Ok (ptime inst job machine).
Proof.
  intros Hj Hm. unfold getProcessingTime.
  destruct (job <? 0) eqn:E1; [lia|].
  destruct (job >=? num_jobs_ inst) eqn:E2; [lia|].
  destruct (machine <? 0) eqn:E3; [lia|].
  destruct (machine >=? num_machines_ inst) eqn:E4; [lia|].
  reflexivity.
Qed.

Lemma ProblemInstance_isValid_dims (inst : ProblemInstance) :
  ProblemInstance_isValid inst = true ->
  0 < num_jobs_ inst /\ 0 < num_machines_ inst /\
  Z.of_nat (length (processing_times_ inst)) = num_jobs_ inst.
Proof.
  unfold ProblemInstance_isValid. intros H.
  destruct (num_jobs_ inst <=? 0) eqn:E1; [discriminate|].
  destruct (num_machines_ inst <=? 0) eqn:E2; [discriminate|]. simpl in H.
  destruct (Z.of_nat (length (processing_times_ inst)) =? num_jobs_ inst) eqn:E3;
    [|discriminate].
  lia.
Qed.

Lemma ptime_nonneg (inst : ProblemInstance) (job machine : Z) :
  ProblemInstance_isValid inst = true ->
  0 <= job < num_jobs_ inst -> 0 <= machine < num_machines_ inst ->
  0 <= ptime inst job machine.
Proof.
  intros Hv Hj Hm. pose proof (ProblemInstance_isValid_dims inst Hv) as (Hn & Hmm & Hlen).
  unfold ProblemInstance_isValid in Hv.
  destruct (num_jobs_ inst <=? 0) eqn:E1; [discriminate|].
  destruct (num_machines_ inst <=? 0) eqn:E2; [discriminate|]. simpl in Hv.
  destruct (Z.of_nat (length (processing_times_ inst)) =? num_jobs_ inst) eqn:E3;
    [|discriminate]. simpl in Hv.
  rewrite forallb_forall in Hv.
  unfold ptime, vec_at.
  assert (Hin : In (nth (Z.to_nat job) (processing_times_ inst) []) (processing_times_ inst)).
  { apply nth_In. lia. }
  specialize (Hv _ Hin). apply andb_prop in Hv as [Hl Hrow].
  rewrite forallb_forall in Hrow.
  assert (Hin2 : In (nth (Z.to_nat machine) (nth (Z.to_nat job) (processing_times_ inst) []) 0)
                    (nth (Z.to_nat job) (processing_times_ inst) [])).
  { apply nth_In. lia. }
  specialize (Hrow _ Hin2). destruct (Z.ltb_spec (nth (Z.to_nat machine)
      (nth (Z.to_nat job) (processing_times_ inst) []) 0) 0); [discriminate | assumption].
Qed.

Lemma mat_dims_replicate (n m : Z) :
  0 <= n -> 0 <= m ->
  mat_dims n m (replicate (Z.to_nat n) (replicate (Z.to_nat m) 0)).
Proof.
  intros Hn Hm. split.
  - rewrite length_replicate. lia.
  - apply Forall_replicate. rewrite length_replicate. lia.
Qed.

Lemma mat_dims_row (n m : Z) (C : list (list Z)) (p : Z) :
  mat_dims n m C -> 0 <= p < n -> Z.of_nat (length (vec_at [] C p)) = m.
Proof.
  intros [Hl Hr] Hp. rewrite Forall_forall in Hr. apply Hr.
  apply list_elem_of_In. unfold vec_at. apply nth_In. lia.
Qed.

Lemma mat_set_dims (n m : Z) (C : list (list Z)) (p k v : Z) :
  mat_dims n m C -> 0 <= p < n -> 0 <= k < m -> mat_dims n m (mat_set C p k v).
Proof.
  intros HC Hp Hk. pose proof (mat_dims_row n m C p HC Hp) as Hrow.
  destruct HC as [Hl Hr]. unfold mat_set. split.
  - rewrite length_insert. exact Hl.
  - apply Forall_insert; [exact Hr|]. rewrite length_insert. exact Hrow.
Qed.

Lemma mat_get_set (n m : Z) (C : list (list Z)) (p k v p' k' : Z) :
  mat_dims n m C -> 0 <= p < n -> 0 <= k < m -> 0 <= p' -> 0 <= k' ->
  mat_get (mat_set C p k v) p' k' =
    if decide (p' = p /\ k' = k) then v else mat_get C p' k'.
Proof.
  intros HC Hp Hk Hp' Hk'. pose proof (mat_dims_row n m C p HC Hp) as Hrow.
  destruct HC as [Hl Hr]. unfold mat_get, mat_set.
  destruct (decide (p' = p)) as [->|Hne].
  - rewrite vec_at_insert_eq by lia.
    destruct (decide (k' = k)) as [->|Hnk].
    + rewrite vec_at_insert_eq by lia. rewrite decide_True by auto. reflexivity.
    + rewrite vec_at_insert_ne by lia. rewrite decide_False by tauto. reflexivity.
  - rewrite vec_at_insert_ne by lia. rewrite decide_False by tauto. reflexivity.
Qed.

Lemma wrap_int_small (z : Z) : - INT_MAX - 1 <= z <= INT_MAX -> wrap_int z = z.
Proof.
  unfold INT_MAX, wrap_int. intros H. rewrite Z.mod_small by lia. lia.
Qed.

Lemma wrap_int_range (z : Z) : - INT_MAX - 1 <= wrap_int z <= INT_MAX.
Proof.
  unfold INT_MAX, wrap_int.
  pose proof (Z.mod_pos_bound (z + 2147483648) 4294967296 ltac:(lia)). lia.
Qed.

Lemma int_add_small (a b : Z) : 0 <= a -> 0 <= b -> a + b <= INT_MAX -> int_add a b = a + b.
Proof. intros Ha Hb H. unfold int_add. apply wrap_int_small. unfold INT_MAX in *. lia. Qed.

Lemma sum_to_nonneg (f : Z -> Z) (k : nat) :
  (forall i, 0 <= i < Z.of_nat k -> 0 <= f i) -> 0 <= sum_to f k.
Proof.
  induction k as [|k IH]; intros H; simpl; [lia|].
  assert (0 <= sum_to f k) by (apply IH; intros i Hi; apply H; lia).
  assert (0 <= f (Z.of_nat k)) by (apply H; lia). lia.
Qed.

Lemma sum_to_le (f : Z -> Z) (k k' : nat) :
  (forall i, 0 <= i < Z.of_nat k' -> 0 <= f i) -> (k <= k')%nat -> sum_to f k <= sum_to f k'.
Proof.
  intros H. induction k' as [|k' IH]; intros Hk.
  - replace k with O by lia. lia.
  - destruct (Nat.eq_dec k (S k')) as [->|Hne]; [lia|].
    assert (sum_to f k <= sum_to f k') by (apply IH; [intros i Hi; apply H|]; lia).
    assert (0 <= f (Z.of_nat k')) by (apply H; lia). simpl. lia.
Qed.

Lemma sum_to_succ (f : Z -> Z) (k : Z) :
  0 <= k -> sum_to f (Z.to_nat (k + 1)) = sum_to f (Z.to_nat k) + f k.
Proof.
  intros H. replace (Z.to_nat (k + 1)) with (S (Z.to_nat k)) by lia. simpl.
  rewrite Z2Nat.id by lia. reflexivity.
Qed.

Section Evaluator.
Variable inst : ProblemInstance.
Variable job_sequence : list Z.
Hypothesis inst_valid : ProblemInstance_isValid inst = true.
Hypothesis length_ok : Z.of_nat (length job_sequence) = num_jobs_ inst.
Hypothesis jobs_ok : Forall (fun job => 0 <= job < num_jobs_ inst) job_sequence.

#[local] Abbreviation n := (num_jobs_ inst).
#[local] Abbreviation m := (num_machines_ inst).
#[local] Abbreviation filled := (filled inst job_sequence).
#[local] Abbreviation filled_within := (filled_within inst job_sequence).
#[local] Abbreviation bound := (cell_bound inst job_sequence).
#[local] Abbreviation time_of := (fun q => job_time inst (vec_at 0 job_sequence q)).

Lemma job_in_range (p : Z) : 0 <= p < n -> 0 <= vec_at 0 job_sequence p < n.
Proof using length_ok jobs_ok.
  intros Hp. rewrite Forall_forall in jobs_ok. apply jobs_ok.
  apply list_elem_of_In. unfold vec_at. apply nth_In. lia.
Qed.

(** Whatever the processing times, every cell is written and the matrix
    keeps its shape. *)
Lemma calculateMakespan_cell_dims (P K : Z) (C : list (list Z)) :
  0 <= P < n -> 0 <= K < m -> mat_dims n m C ->
  exists C', calculateMakespan_cell inst (vec_at 0 job_sequence P) P K C = Ok C'
             /\ mat_dims n m C'.
Proof using length_ok jobs_ok.
  intros HP HK Hd. pose proof (job_in_range P HP) as Hjob.
  unfold calculateMakespan_cell.
  rewrite (getProcessingTime_in_range inst _ K Hjob HK). simpl.
  destruct ((P =? 0) && (K =? 0)); [|destruct (P =? 0); [|destruct (K =? 0)]];
    eexists; (split; [reflexivity|]); apply mat_set_dims; assumption.
Qed.

Lemma calculateMakespan_row_dims (P : Z) (C : list (list Z)) :
  0 <= P < n -> mat_dims n m C ->
  exists C', calculateMakespan_row inst job_sequence m P C = Ok C' /\ mat_dims n m C'.
Proof using inst_valid length_ok jobs_ok.
  intros HP HC. unfold calculateMakespan_row.
  pose proof (ProblemInstance_isValid_dims inst inst_valid) as (Hn & Hm & _).
  apply (forZ_inv (fun _ C => mat_dims n m C)); [lia | exact HC |].
  intros K C1 HK HC1. apply calculateMakespan_cell_dims; assumption.
Qed.

Lemma calculateMakespan_loop_dims :
  exists C, forZ 0 n (calculateMakespan_row inst job_sequence m)
              (replicate (Z.to_nat n) (replicate (Z.to_nat m) 0)) = Ok C
            /\ mat_dims n m C.
Proof using inst_valid length_ok jobs_ok.
  pose proof (ProblemInstance_isValid_dims inst inst_valid) as (Hn & Hm & _).
  apply (forZ_inv (fun _ C => mat_dims n m C)).
  - lia.
  - apply mat_dims_replicate; lia.
  - intros P C HP HC. apply calculateMakespan_row_dims; assumption.
Qed.

Lemma time_of_nonneg (q : Z) : 0 <= q < n -> 0 <= time_of q.
Proof using inst_valid length_ok jobs_ok.
  intros Hq. pose proof (ProblemInstance_isValid_dims inst inst_valid) as (Hn & Hm & _).
  unfold job_time, getNumMachines. apply sum_to_nonneg. intros k Hk.
  apply ptime_nonneg; [exact inst_valid | apply job_in_range, Hq | lia].
Qed.

Lemma row_sum_le (p k : Z) :
  0 <= p < n -> 0 <= k <= m ->
  0 <= sum_to (ptime inst (vec_at 0 job_sequence p)) (Z.to_nat k) <= time_of p.
Proof using inst_valid length_ok jobs_ok.
  intros Hp Hk.
  assert (Hpt : forall i, 0 <= i < Z.of_nat (Z.to_nat m) ->
                          0 <= ptime inst (vec_at 0 job_sequence p) i).
  { intros i Hi. apply ptime_nonneg; [exact inst_valid | apply job_in_range, Hp | lia]. }
  split.
  - apply sum_to_nonneg. intros i Hi. apply Hpt. lia.
  - unfold job_time, getNumMachines. apply sum_to_le; [exact Hpt | lia].
Qed.

Lemma prefix_time_le (p p' : Z) :
  0 <= p <= p' -> p' <= n ->
  0 <= sum_to time_of (Z.to_nat p) <= sum_to time_of (Z.to_nat p').
Proof using inst_valid length_ok jobs_ok.
  intros Hp Hp'. split.
  - apply sum_to_nonneg. intros i Hi. apply time_of_nonneg. lia.
  - apply sum_to_le; [|lia]. intros i Hi. apply time_of_nonneg. lia.
Qed.

Lemma bound_le_sequence_time (p k : Z) :
  0 <= p < n -> 0 <= k < m -> bound p k <= sequence_time inst job_sequence.
Proof using inst_valid length_ok jobs_ok.
  intros Hp Hk. unfold cell_bound, sequence_time.
  pose proof (row_sum_le p (k + 1) Hp ltac:(lia)) as [_ H1].
  pose proof (prefix_time_le (p + 1) n ltac:(lia) ltac:(lia)) as [_ H2].
  rewrite sum_to_succ in H2 by lia.
  replace (length job_sequence) with (Z.to_nat n) by lia. lia.
Qed.

Hypothesis no_overflow : sequence_time inst job_sequence <= INT_MAX.

Lemma calculateMakespan_cell_filled (P K : Z) (C : list (list Z)) :
  0 <= P < n -> 0 <= K < m -> filled_within P K C ->
  exists C', calculateMakespan_cell inst (vec_at 0 job_sequence P) P K C = Ok C'
             /\ filled_within P (K + 1) C'.
Proof using inst_valid length_ok jobs_ok no_overflow.
  intros HP HK [[Hd Hf] Hb].
  pose proof (job_in_range P HP) as Hjob.
  pose proof (ptime_nonneg inst _ K inst_valid Hjob HK) as Hpt.
  pose proof (bound_le_sequence_time P K HP HK) as Htop.
  unfold calculateMakespan_cell.
  rewrite (getProcessingTime_in_range inst _ K Hjob HK). simpl.
  set (pt := ptime inst (vec_at 0 job_sequence P) K) in *.
  assert (Hgen : forall v,
    0 <= v <= bound P K ->
    v = pt + Z.max (if 0 <? P then mat_get C (P - 1) K else 0)
                   (if 0 <? K then mat_get C P (K - 1) else 0) ->
    filled_within P (K + 1) (mat_set C P K v)).
  { intros v Hv0 Hv.
    assert (Hget : forall p' k', 0 <= p' -> 0 <= k' ->
              (p' < P \/ (p' = P /\ k' < K)) ->
              mat_get (mat_set C P K v) p' k' = mat_get C p' k').
    { intros p' k' Hp' Hk' Hlt. rewrite (mat_get_set n m) by assumption.
      rewrite decide_False by lia. reflexivity. }
    split; [split; [apply mat_set_dims; assumption|]|].
    - intros p k Hp Hk Hlt.
      destruct (decide (p = P /\ k = K)) as [[-> ->]|Hne].
      + unfold recurrence_at. rewrite (mat_get_set n m) by (assumption || lia).
        rewrite decide_True by auto. split; [lia|].
        destruct (Z.ltb_spec 0 P); destruct (Z.ltb_spec 0 K);
          rewrite ?Hget by lia; exact Hv.
      + assert (Hlt' : p < P \/ (p = P /\ k < K)) by lia.
        destruct (Hf p k Hp Hk Hlt') as [H0 Hrec].
        unfold recurrence_at in *. rewrite Hget by lia. split; [exact H0|].
        destruct (Z.ltb_spec 0 p); destruct (Z.ltb_spec 0 k);
          rewrite ?Hget by lia; exact Hrec.
    - intros p k Hp Hk Hlt. rewrite (mat_get_set n m) by (assumption || lia).
      destruct (decide (p = P /\ k = K)) as [[-> ->]|Hne]; [lia|].
      apply Hb; [assumption | assumption | lia]. }
  assert (Hup : 0 < P -> 0 <= mat_get C (P - 1) K <= sum_to time_of (Z.to_nat P)).
  { intros H. split; [apply Hf; lia|].
    eapply Z.le_trans; [apply Hb; lia|]. unfold cell_bound.
    pose proof (row_sum_le (P - 1) (K + 1) ltac:(lia) ltac:(lia)) as [_ H1].
    replace (Z.to_nat P) with (Z.to_nat (P - 1 + 1)) by lia.
    rewrite (sum_to_succ time_of) by lia. lia. }
  assert (Hleft : 0 < K -> 0 <= mat_get C P (K - 1)
                            <= sum_to time_of (Z.to_nat P)
                               + sum_to (ptime inst (vec_at 0 job_sequence P)) (Z.to_nat K)).
  { intros H. split; [apply Hf; lia|].
    eapply Z.le_trans; [apply Hb; lia|]. unfold cell_bound.
    replace (K - 1 + 1) with K by lia. lia. }
  assert (Hbound : bound P K
                   = sum_to time_of (Z.to_nat P)
                     + sum_to (ptime inst (vec_at 0 job_sequence P)) (Z.to_nat K) + pt).
  { unfold cell_bound. rewrite sum_to_succ by lia. fold pt. lia. }
  pose proof (prefix_time_le P P ltac:(lia) ltac:(lia)) as [Hpre _].
  pose proof (row_sum_le P K HP ltac:(lia)) as [Hrow _].
  destruct (Z.eqb_spec P 0) as [HP0|HP0]; destruct (Z.eqb_spec K 0) as [HK0|HK0]; simpl;
    eexists; (split; [reflexivity|]).
  - apply Hgen; [lia|]. subst. simpl. lia.
  - specialize (Hleft ltac:(lia)). rewrite int_add_small by lia.
    apply Hgen; [lia|]. subst P. simpl. destruct (0 <? K) eqn:E; lia.
  - specialize (Hup ltac:(lia)). rewrite int_add_small by lia.
    apply Hgen; [lia|]. subst K. simpl. destruct (0 <? P) eqn:E; lia.
  - specialize (Hup ltac:(lia)). specialize (Hleft ltac:(lia)).
    rewrite int_add_small by lia.
    apply Hgen; [lia|]. destruct (0 <? P) eqn:E1; destruct (0 <? K) eqn:E2; lia.
Qed.

Lemma calculateMakespan_row_filled (P : Z) (C : list (list Z)) :
  0 <= P < n -> filled_within P 0 C ->
  exists C', calculateMakespan_row inst job_sequence m P C = Ok C'
             /\ filled_within (P + 1) 0 C'.
Proof using inst_valid length_ok jobs_ok no_overflow.
  intros HP HC. unfold calculateMakespan_row.
  pose proof (ProblemInstance_isValid_dims inst inst_valid) as (Hn & Hm & _).
  destruct (forZ_inv (fun K C => filled_within P K C) 0 m
              (fun machine C => calculateMakespan_cell inst (vec_at 0 job_sequence P) P machine C)
              C) as (C' & Hrun & HC'); [lia | exact HC | |].
  - intros K C1 HK HC1. apply calculateMakespan_cell_filled; assumption.
  - exists C'. split; [exact Hrun|]. destruct HC' as [[Hd Hf] Hb]. split; [split; [exact Hd|]|].
    + intros p k Hp Hk Hlt. apply Hf; try assumption. lia.
    + intros p k Hp Hk Hlt. apply Hb; try assumption. lia.
Qed.

Lemma calculateMakespan_loop_filled :
  exists C, forZ 0 n (calculateMakespan_row inst job_sequence m)
              (replicate (Z.to_nat n) (replicate (Z.to_nat m) 0)) = Ok C
            /\ filled n 0 C.
Proof using inst_valid length_ok jobs_ok no_overflow.
  pose proof (ProblemInstance_isValid_dims inst inst_valid) as (Hn & Hm & _).
  destruct (forZ_inv (fun P C => filled_within P 0 C) 0 n
              (calculateMakespan_row inst job_sequence m)
              (replicate (Z.to_nat n) (replicate (Z.to_nat m) 0)))
    as (C & Hrun & HC & _).
  - lia.
  - split; [split; [apply mat_dims_replicate; lia|]|]; intros; lia.
  - intros P C HP HC. apply calculateMakespan_row_filled; assumption.
  - exists C. split; [exact Hrun | exact HC].
Qed.
End Evaluator.

(** C1.  On a valid instance, for a job sequence of length [n] whose
    entries are job indices and whose processing times add up to at most
    [INT_MAX], [calculateMakespan] fills the completion times by the
    flow-shop recurrence
    [C[p][k] = processingTime(job at p, k) + max(C[p-1][k] if p>0 else 0, C[p][k-1] if k>0 else 0)],
    and the makespan [getMakespan] returns is [C[n-1][m-1]].  On the
    4-job 3-machine instance [[5,3,4],[4,5,3],[3,4,5],[5,4,3]] the
    identity order gets the matrix computed by hand with the recurrence,
    and the makespan 26.  Beyond [INT_MAX] the sums of the evaluator wrap
    around: on the valid instance [[2000000000],[2000000000]] the
    identity order gets the completion times [2000000000] and
    [-294967296], and the makespan -294967296, where the recurrence
    gives 4000000000. *)
Theorem evaluator_flow_shop_recurrence :
  (forall (inst : ProblemInstance) (job_sequence : list Z),
     ProblemInstance_isValid inst = true ->
     Z.of_nat (length job_sequence) = getNumJobs inst ->
     Forall (fun job => 0 <= job < getNumJobs inst) job_sequence ->
     sequence_time inst job_sequence <= INT_MAX ->
     exists s0 s',
       Solution_of_sequence job_sequence inst = Ok s0 /\
       calculateMakespan s0 = Ok s' /\
       getMakespan s0 = Ok (makespan_ s', s') /\
       job_sequence_ s' = job_sequence /\
       mat_dims (getNumJobs inst) (getNumMachines inst) (completion_times_ s') /\
       (forall p k, 0 <= p < getNumJobs inst -> 0 <= k < getNumMachines inst ->
          getProcessingTime inst (vec_at 0 job_sequence p) k
            = Ok (ptime inst (vec_at 0 job_sequence p) k) /\
          recurrence_at inst job_sequence (completion_times_ s') p k) /\
       makespan_ s' =
         mat_get (completion_times_ s') (getNumJobs inst - 1) (getNumMachines inst - 1))
  /\ (exists s0 s',
        Solution_new example_instance = Ok s0 /\
        job_sequence_ s0 = [0; 1; 2; 3] /\
        getMakespan s0 = Ok (26, s') /\
        completion_times_ s' = [[5; 8; 12]; [9; 14; 17]; [12; 18; 23]; [17; 22; 26]])
  /\ (ProblemInstance_isValid long_jobs_instance = true /\
      sequence_time long_jobs_instance [0; 1] = 4000000000 /\
      exists s0 s',
        Solution_new long_jobs_instance = Ok s0 /\
        job_sequence_ s0 = [0; 1] /\
        getMakespan s0 = Ok (-294967296, s') /\
        completion_times_ s' = [[2000000000]; [-294967296]] /\
        ~ recurrence_at long_jobs_instance [0; 1] (completion_times_ s') 1 0).
Proof.
  split; [|split].
  - intros inst job_sequence Hv Hlen Hjobs Hsum. unfold getNumJobs, getNumMachines in *.
    pose proof (ProblemInstance_isValid_dims inst Hv) as (Hn & Hm & _).
    destruct (calculateMakespan_loop_filled inst job_sequence Hv Hlen Hjobs Hsum)
      as (C & Hrun & Hd & Hf).
    unfold Solution_of_sequence. rewrite Hv. simpl.
    unfold getNumJobs. rewrite Hlen, Z.eqb_refl. simpl.
    eexists. eexists. split; [reflexivity|].
    unfold getMakespan, calculateMakespan, getNumMachines. simpl.
    rewrite Hlen, Hrun. simpl.
    split; [reflexivity|]. split; [reflexivity|]. split; [reflexivity|].
    split; [exact Hd|]. split.
    + intros p k Hp Hk. split.
      * apply getProcessingTime_in_range; [|exact Hk].
        apply job_in_range; assumption.
      * apply Hf; try assumption. lia.
    + destruct (Z.ltb_spec 0 (num_jobs_ inst)); [reflexivity | lia].
  - eexists. eexists. split; [reflexivity|]. split; [reflexivity|].
    split; [vm_compute; reflexivity | reflexivity].
  - split; [reflexivity|]. split; [reflexivity|].
    eexists. eexists. split; [reflexivity|]. split; [reflexivity|].
    split; [vm_compute; reflexivity|]. split; [reflexivity|].
    vm_compute. discriminate.
Qed.

(** The general part of [evaluator_flow_shop_recurrence] at the order
    [[2; 0; 3; 1]] of the example instance. *)
Lemma evaluator_flow_shop_recurrence_witness :
  exists s', getMakespan
      {| job_sequence_ := [2; 0; 3; 1]; instance_ := example_instance; makespan_ := -1;
         makespan_calculated_ := false; completion_times_ := [] |} = Ok (makespan_ s', s')
    /\ recurrence_at example_instance [2; 0; 3; 1] (completion_times_ s') 3 2.
Proof.
  destruct evaluator_flow_shop_recurrence as [H _].
  destruct (H example_instance [2; 0; 3; 1] eq_refl eq_refl)
    as (s0 & s' & H0 & _ & Hg & _ & _ & Hrec & _).
  - repeat (constructor; [unfold getNumJobs; simpl; lia|]). constructor.
  - vm_compute. discriminate.
  - exists s'. injection H0 as <-. split; [exact Hg|].
    apply Hrec; vm_compute; split; congruence.
Defined.

(** ** Valid permutations: [Solution::isValid] *)

Lemma vec_at_lookup {A : Type} (d : A) (v : list A) (i : Z) (x : A) :
  0 <= i -> v !! Z.to_nat i = Some x -> vec_at d v i = x.
Proof. intros Hi H. unfold vec_at. rewrite nth_lookup, H. reflexivity. Qed.

Lemma lookup_vec_at {A : Type} (d : A) (v : list A) (i : Z) :
  0 <= i < Z.of_nat (length v) -> v !! Z.to_nat i = Some (vec_at d v i).
Proof.
  intros Hi. unfold vec_at. rewrite nth_lookup.
  destruct (lookup_lt_is_Some_2 v (Z.to_nat i)) as [x Hx]; [lia|]. rewrite Hx. reflexivity.
Qed.

Lemma vec_at_elem_of {A : Type} (d : A) (v : list A) (i : Z) :
  0 <= i < Z.of_nat (length v) -> vec_at d v i ∈ v.
Proof. intros Hi. apply list_elem_of_lookup. eexists. apply lookup_vec_at, Hi. Qed.

Lemma elem_of_vec_at {A : Type} (d : A) (v : list A) (x : A) :
  x ∈ v -> exists i, 0 <= i < Z.of_nat (length v) /\ vec_at d v i = x.
Proof.
  intros Hx. apply list_elem_of_lookup in Hx as [k Hk].
  exists (Z.of_nat k). pose proof (lookup_lt_Some _ _ _ Hk). split; [lia|].
  apply vec_at_lookup; [lia|]. rewrite Nat2Z.id. exact Hk.
Qed.

Lemma isValid_loop_spec (n : Z) (jobs : list Z) (used : list bool) :
  Z.of_nat (length used) = n ->
  isValid_loop n jobs used = true <->
  Forall (fun job => 0 <= job < n) jobs /\ NoDup jobs /\
  (forall job, job ∈ jobs -> vec_at false used job = false).
Proof.
  revert used. induction jobs as [|job rest IH]; intros used Hlen; simpl.
  - split; [intros _|reflexivity]. repeat split; [constructor|constructor|].
    intros job H. inversion H.
  - destruct (Z.ltb_spec job 0) as [Hneg|Hnn]; simpl.
    { split; [discriminate|]. intros (HF & _ & _). inversion HF; subst. lia. }
    destruct (Z.geb_spec job n) as [Hge|Hlt]; simpl.
    { split; [discriminate|]. intros (HF & _ & _). inversion HF; subst. lia. }
    destruct (vec_at false used job) eqn:Hu.
    { split; [discriminate|]. intros (_ & _ & Hun).
      rewrite Hun in Hu by (left). discriminate. }
    rewrite IH by (rewrite length_insert; exact Hlen). split.
    + intros (HF & HND & Hun). split; [constructor; [lia|exact HF]|]. split.
      * constructor; [|exact HND]. intros Hin. specialize (Hun job Hin).
        rewrite vec_at_insert_eq in Hun by lia. discriminate.
      * intros j Hj. apply elem_of_cons in Hj as [->|Hj]; [exact Hu|].
        specialize (Hun j Hj). destruct (decide (job = j)) as [->|Hne].
        -- rewrite vec_at_insert_eq in Hun by lia. discriminate.
        -- rewrite Forall_forall in HF. specialize (HF j Hj).
           rewrite vec_at_insert_ne in Hun by lia. exact Hun.
    + intros (HF & HND & Hun). inversion HF; subst. inversion HND; subst.
      split; [assumption|]. split; [assumption|].
      intros j Hj. rewrite vec_at_insert_ne.
      * apply Hun. right. exact Hj.
      * lia.
      * rewrite Forall_forall in H2. specialize (H2 j Hj). lia.
      * intros ->. contradiction.
Qed.

Lemma vec_at_replicate {A : Type} (d x : A) (k : nat) (i : Z) :
  0 <= i < Z.of_nat k -> vec_at d (replicate k x) i = x.
Proof.
  intros Hi. apply vec_at_lookup; [lia|]. apply lookup_replicate_2. lia.
Qed.

Lemma Solution_isValid_spec (s : Solution) :
  0 <= getNumJobs (instance_ s) ->
  Solution_isValid s = true <-> perm_of (getNumJobs (instance_ s)) (job_sequence_ s).
Proof.
  intros Hn. unfold Solution_isValid, perm_of.
  destruct (Z.eqb_spec (Z.of_nat (length (job_sequence_ s))) (getNumJobs (instance_ s)))
    as [Heq|Hne]; simpl.
  - rewrite isValid_loop_spec by (rewrite length_replicate; lia). split.
    + intros (HF & HND & _). auto.
    + intros (_ & HF & HND). split; [exact HF|]. split; [exact HND|].
      intros job Hj. rewrite Forall_forall in HF. specialize (HF job Hj).
      apply vec_at_replicate. lia.
  - split; [discriminate|]. intros (H & _). contradiction.
Qed.
(** ** Order crossover *)

(** Loops with [break]: [P] holds while the loop runs, [Q] once it has
    been left early. *)
Lemma forZ_break_inv {S : Type} (P : Z -> S -> Prop) (Q : S -> Prop) (lo hi : Z)
    (body : Z -> S -> result (S * bool)) (s : S) :
  lo <= hi ->
  P lo s ->
  (forall i s, lo <= i < hi -> P i s ->
     exists s' b, body i s = Ok (s', b) /\ (if b : bool then Q s' else P (i + 1) s')) ->
  exists s', forZ_break lo hi body s = Ok s' /\ (Q s' \/ P hi s').
Proof.
  intros Hle H0 Hstep. unfold forZ_break.
  remember (Z.to_nat (hi - lo)) as k eqn:Hk.
  revert lo s Hle H0 Hstep Hk.
  induction k as [|k IH]; intros lo s Hle H0 Hstep Hk.
  - assert (hi = lo) by lia. subst hi. rewrite Z.sub_diag. simpl.
    exists s. split; [reflexivity | right; exact H0].
  - rewrite seqZ_cons by lia. simpl.
    destruct (Hstep lo s ltac:(lia) H0) as (s1 & b & Hb & H1). rewrite Hb. simpl.
    destruct b.
    + exists s1. split; [reflexivity | left; exact H1].
    + replace (Z.pred (hi - lo)) with (hi - Z.succ lo) by lia.
      apply IH; try lia.
      * replace (Z.succ lo) with (lo + 1) by lia. exact H1.
      * intros i s2 Hi. apply Hstep. lia.
Qed.

Lemma ox_inv_init (n : Z) :
  0 <= n -> ox_inv n (replicate (Z.to_nat n) (-1)) (replicate (Z.to_nat n) false).
Proof.
  intros Hn. split.
  - rewrite length_replicate. lia.
  - rewrite length_replicate. lia.
  - apply Forall_replicate. left. reflexivity.
  - intros job Hj. rewrite vec_at_replicate by lia. split; [discriminate|].
    intros Hin. apply elem_of_replicate in Hin as [-> _]. lia.
  - induction (Z.to_nat n) as [|k IH]; simpl; [constructor|].
    rewrite filter_cons_False by (intros H; apply H; reflexivity). exact IH.
Qed.

Lemma ox_place (n : Z) (o : list Z) (u : list bool) (pos job : Z) :
  ox_inv n o u -> 0 <= pos < n -> vec_at 0 o pos = -1 ->
  0 <= job < n -> vec_at false u job = false ->
  ox_inv n (<[Z.to_nat pos := job]> o) (<[Z.to_nat job := true]> u).
Proof.
  intros [Hlo Hlu Hr Hu Hnd] Hpos Hempty Hjob Hfree.
  assert (Hlk : o !! Z.to_nat pos = Some (-1)).
  { rewrite (lookup_vec_at 0) by lia. rewrite Hempty. reflexivity. }
  assert (Hnotin : job ∉ o).
  { intros Hin. apply Hu in Hin; [|exact Hjob]. congruence. }
  apply list_elem_of_split_length in Hlk as (l1 & l2 & -> & Hl1).
  assert (Hins : <[Z.to_nat pos := job]> (l1 ++ -1 :: l2) = l1 ++ job :: l2).
  { rewrite Hl1, insert_app_r_alt, Nat.sub_diag by lia. reflexivity. }
  rewrite Hins. split.
  - rewrite <- Hins, length_insert. exact Hlo.
  - rewrite length_insert. exact Hlu.
  - apply Forall_app in Hr as [Hr1 Hr2]. inversion Hr2; subst.
    apply Forall_app. split; [exact Hr1|]. constructor; [right; exact Hjob | assumption].
  - intros j Hj. destruct (decide (j = job)) as [->|Hne].
    + rewrite vec_at_insert_eq by lia. split; [intros _ | reflexivity].
      apply elem_of_app. right. left.
    + rewrite vec_at_insert_ne by lia. rewrite (Hu j Hj).
      rewrite !elem_of_app, !elem_of_cons. split.
      * intros [H|[H|H]]; [left; exact H | lia | right; right; exact H].
      * intros [H|[H|H]]; [left; exact H | contradiction | right; right; exact H].
  - rewrite filter_app, filter_cons_True by lia.
    rewrite filter_app, filter_cons_False in Hnd by (intros H; apply H; reflexivity).
    apply NoDup_app in Hnd as (Hn1 & Hdisj & Hn2).
    apply NoDup_app. split; [exact Hn1|]. split.
    + intros x Hx1 Hx2. apply elem_of_cons in Hx2 as [->|Hx2].
      * apply Hnotin. apply elem_of_app. left.
        apply list_elem_of_filter in Hx1 as [_ Hx1]. exact Hx1.
      * exact (Hdisj x Hx1 Hx2).
    + constructor; [|exact Hn2]. intros Hin. apply Hnotin.
      apply elem_of_app. right. right.
      apply list_elem_of_filter in Hin as [_ Hin]. exact Hin.
Qed.

Lemma ox_place_used (u : list bool) (job j : Z) :
  0 <= job -> 0 <= j ->
  vec_at false u j = true -> vec_at false (<[Z.to_nat job := true]> u) j = true.
Proof.
  intros Hjob Hj Hu. destruct (decide (job = j)) as [->|Hne].
  - unfold vec_at in *. rewrite nth_lookup in *.
    destruct (u !! Z.to_nat j) eqn:E; [|discriminate].
    rewrite list_lookup_insert_eq; [reflexivity|]. eapply lookup_lt_Some, E.
  - rewrite vec_at_insert_ne by lia. exact Hu.
Qed.

Lemma skip_filled_spec (fuel : nat) (o : list Z) (size pos : Z) :
  size - pos <= Z.of_nat fuel ->
  pos <= skip_filled fuel o size pos /\
  (skip_filled fuel o size pos < size ->
   vec_at 0 o (skip_filled fuel o size pos) = -1).
Proof.
  revert pos. induction fuel as [|fuel IH]; intros pos Hf; simpl.
  - split; lia.
  - destruct (Z.ltb_spec pos size) as [Hlt|Hge]; simpl.
    + destruct (Z.eqb_spec (vec_at 0 o pos) (-1)) as [He|Hne]; simpl.
      * split; [lia | intros _; exact He].
      * destruct (IH (pos + 1) ltac:(lia)) as [H1 H2]. split; [lia | exact H2].
    + split; lia.
Qed.

Lemma next_empty_spec (o : list Z) (size pos : Z) :
  pos <= next_empty o size pos /\
  (next_empty o size pos < size -> vec_at 0 o (next_empty o size pos) = -1).
Proof. unfold next_empty. apply skip_filled_spec. lia. Qed.

(** A slot is still empty as long as some job is unused. *)
Lemma ox_inv_empty_slot (n : Z) (o : list Z) (u : list bool) (job : Z) :
  ox_inv n o u -> 0 <= job < n -> vec_at false u job = false ->
  exists j, 0 <= j < n /\ vec_at 0 o j = -1.
Proof.
  intros [Hlo Hlu Hr Hu Hnd] Hjob Hfree.
  destruct (decide (-1 ∈ o)) as [Hin|Hnin].
  - apply (elem_of_vec_at 0) in Hin as (j & Hj & Hv). exists j. split; [lia | exact Hv].
  - exfalso.
    assert (Hfo : filter (fun x => x <> -1) o = o).
    { clear -Hnin. induction o as [|x o IH]; [reflexivity|].
      rewrite filter_cons_True.
      - f_equal. apply IH. intros H. apply Hnin. right. exact H.
      - intros ->. apply Hnin. left. }
    rewrite Hfo in Hnd.
    assert (Hnotin : job ∉ o). { intros Hin. apply Hu in Hin; [congruence | exact Hjob]. }
    assert (Hnd' : NoDup (job :: o)) by (constructor; assumption).
    assert (Hsub : job :: o ⊆ seqZ 0 n).
    { intros x Hx. apply elem_of_seqZ. apply elem_of_cons in Hx as [->|Hx]; [lia|].
      rewrite Forall_forall in Hr. destruct (Hr x Hx) as [->|H]; [contradiction | lia]. }
    pose proof (submseteq_length _ _ (NoDup_submseteq _ _ Hnd' Hsub)) as Hlen.
    rewrite length_seqZ in Hlen. simpl in Hlen. lia.
Qed.

(** Once every job is used, the offspring is a permutation. *)
Lemma ox_inv_full (n : Z) (o : list Z) (u : list bool) :
  ox_inv n o u -> (forall job, 0 <= job < n -> vec_at false u job = true) -> perm_of n o.
Proof.
  intros [Hlo Hlu Hr Hu Hnd] Hall.
  assert (Hsub : seqZ 0 n ⊆ filter (fun x => x <> -1) o).
  { intros x Hx. apply elem_of_seqZ in Hx. apply list_elem_of_filter. split; [lia|].
    apply Hu; [lia|]. apply Hall. lia. }
  pose proof (submseteq_length _ _ (NoDup_submseteq _ _ (NoDup_seqZ 0 n) Hsub)) as Hlen.
  rewrite length_seqZ in Hlen.
  assert (Hfo : filter (fun x => x <> -1) o = o).
  { pose proof (length_filter (fun x => x <> -1) o) as Hle.
    assert (Heq : length (filter (fun x => x <> -1) o) = length o) by lia.
    clear -Heq. induction o as [|x o IH]; [reflexivity|].
    destruct (decide (x <> -1)) as [Hx|Hx].
    - rewrite filter_cons_True in * by exact Hx. simpl in Heq. f_equal. apply IH. lia.
    - rewrite filter_cons_False in Heq by exact Hx.
      pose proof (length_filter (fun x => x <> -1) o). simpl in Heq. lia. }
  rewrite Hfo in Hnd, Hsub. split; [exact Hlo|]. split; [|exact Hnd].
  rewrite Forall_forall in *. intros x Hx. destruct (Hr x Hx) as [->|H]; [|exact H].
  exfalso. rewrite <- Hfo in Hx. apply list_elem_of_filter in Hx as [Hx _]. apply Hx. reflexivity.
Qed.
Lemma getJobAt_in_range (s : Solution) (position : Z) :
  0 <= position < Z.of_nat (length (job_sequence_ s)) ->
  getJobAt s position = Ok (vec_at 0 (job_sequence_ s) position).
Proof.
  intros H. unfold getJobAt.
  destruct (Z.ltb_spec position 0); [lia|].
  destruct (Z.geb_spec position (Z.of_nat (length (job_sequence_ s)))); [lia|]. reflexivity.
Qed.

Lemma perm_of_vec_at (n : Z) (l : list Z) (i : Z) :
  perm_of n l -> 0 <= i < n -> 0 <= vec_at 0 l i < n.
Proof.
  intros (Hl & HF & _) Hi. rewrite Forall_forall in HF. apply HF.
  apply vec_at_elem_of. lia.
Qed.

Lemma perm_of_vec_at_inj (n : Z) (l : list Z) (i j : Z) :
  perm_of n l -> 0 <= i < n -> 0 <= j < n -> vec_at 0 l i = vec_at 0 l j -> i = j.
Proof.
  intros (Hl & _ & HND) Hi Hj Heq.
  assert (Z.to_nat i = Z.to_nat j); [|lia].
  eapply NoDup_lookup; [exact HND | |].
  - apply (lookup_vec_at 0). lia.
  - rewrite Heq. apply (lookup_vec_at 0). lia.
Qed.

Section OrderCrossover.
Variables parent1 parent2 : Solution.
Variable n : Z.
Hypothesis parent1_perm : perm_of n (job_sequence_ parent1).
Hypothesis parent2_length : Z.of_nat (length (job_sequence_ parent2)) = n.

Lemma orderCrossover_copy_inv (lo hi : Z) :
  0 <= lo -> lo <= hi + 1 -> hi < n ->
  exists st,
    forZ lo (hi + 1) (orderCrossover_copy parent1 n)
      (replicate (Z.to_nat n) (-1), replicate (Z.to_nat n) false) = Ok st
    /\ ox_inv n st.1 st.2.
Proof using All.
  intros Hlo Hle Hhi.
  destruct (forZ_inv
    (fun k (st : list Z * list bool) =>
       ox_inv n st.1 st.2
       /\ (forall pos, k <= pos < n -> vec_at 0 st.1 pos = -1)
       /\ (forall job, 0 <= job < n -> vec_at false st.2 job = true ->
             exists pos, lo <= pos < k /\ vec_at 0 (job_sequence_ parent1) pos = job))
    lo (hi + 1) (orderCrossover_copy parent1 n)
    (replicate (Z.to_nat n) (-1), replicate (Z.to_nat n) false)) as (st & Hrun & Hinv & _).
  - exact Hle.
  - simpl. split; [apply ox_inv_init; lia|]. split.
    + intros pos Hpos. apply vec_at_replicate. lia.
    + intros job Hjob Hu. rewrite vec_at_replicate in Hu by lia. discriminate.
  - intros k [o u] Hk (Hinv & Hempty & Hused). simpl in *.
    pose proof parent1_perm as (Hlen & _ & _).
    unfold orderCrossover_copy. rewrite getJobAt_in_range by lia. simpl.
    pose proof (perm_of_vec_at n _ k parent1_perm ltac:(lia)) as Hjob.
    set (job := vec_at 0 (job_sequence_ parent1) k) in *.
    destruct (Z.geb_spec job 0); [|lia]. destruct (Z.ltb_spec job n); [|lia]. simpl.
    assert (Hfree : vec_at false u job = false).
    { destruct (vec_at false u job) eqn:E; [|reflexivity].
      destruct (Hused job Hjob E) as (pos & Hpos & Heq).
      assert (pos = k); [|lia].
      eapply (perm_of_vec_at_inj n); [exact parent1_perm | lia | lia | exact Heq]. }
    eexists. split; [reflexivity|]. simpl. split; [|split].
    + apply ox_place; [exact Hinv | lia | apply Hempty; lia | exact Hjob | exact Hfree].
    + intros pos Hpos. rewrite vec_at_insert_ne by lia. apply Hempty. lia.
    + intros j Hj Hu. destruct (decide (job = j)) as [<-|Hne].
      * exists k. split; [lia | reflexivity].
      * rewrite vec_at_insert_ne in Hu by lia.
        destruct (Hused j Hj Hu) as (pos & Hpos & Heq). exists pos. split; [lia | exact Heq].
  - exists st. split; [exact Hrun | exact Hinv].
Qed.

Lemma orderCrossover_fill_inv (o : list Z) (u : list bool) :
  0 <= n -> ox_inv n o u ->
  exists st,
    forZ_break 0 n (orderCrossover_fill parent2 n) (o, u, next_empty o n 0) = Ok st
    /\ ox_inv n st.1.1 st.1.2.
Proof using All.
  intros Hn Hinv.
  set (P := fun (st : list Z * list bool * Z) =>
              ox_inv n st.1.1 st.1.2 /\ 0 <= st.2
              /\ (st.2 < n -> vec_at 0 st.1.1 st.2 = -1)).
  destruct (forZ_break_inv (fun _ st => P st) P 0 n (orderCrossover_fill parent2 n)
              (o, u, next_empty o n 0)) as (st & Hrun & Hst).
  - exact Hn.
  - unfold P. simpl. pose proof (next_empty_spec o n 0) as [H1 H2].
    split; [exact Hinv|]. split; [lia | exact H2].
  - intros i [[o1 u1] cur] Hi (Hinv1 & Hcur & Hslot). simpl in *.
    unfold orderCrossover_fill.
    destruct (Z.ltb_spec cur n) as [Hlt|Hge]; simpl.
    + rewrite getJobAt_in_range by lia. simpl.
      set (job := vec_at 0 (job_sequence_ parent2) i).
      destruct ((job >=? 0) && (job <? n) && negb (vec_at false u1 job)) eqn:Hcond.
      * apply andb_prop in Hcond as [Hcond Hfree]. apply andb_prop in Hcond as [Hj0 Hjn].
        apply negb_true_iff in Hfree.
        eexists. exists false. split; [reflexivity|]. unfold P. simpl.
        pose proof (next_empty_spec (<[Z.to_nat cur := job]> o1) n (cur + 1)) as [H1 H2].
        split; [|split; [lia | exact H2]].
        apply ox_place; [exact Hinv1 | lia | apply Hslot; lia | lia | exact Hfree].
      * eexists. exists false. split; [reflexivity|]. unfold P. simpl. auto.
    + eexists. exists true. split; [reflexivity|]. unfold P. simpl. auto.
  - exists st. split; [exact Hrun|]. destruct Hst as [H|H]; apply H.
Qed.

Lemma orderCrossover_gap_inv (i : Z) (o : list Z) (u : list bool) :
  0 <= i < n -> ox_inv n o u ->
  exists st,
    orderCrossover_gap n i (o, u) = Ok st /\ ox_inv n st.1 st.2
    /\ vec_at false st.2 i = true
    /\ (forall job, 0 <= job -> vec_at false u job = true -> vec_at false st.2 job = true).
Proof using All.
  intros Hi Hinv. unfold orderCrossover_gap. simpl.
  destruct (vec_at false u i) eqn:Hu; simpl.
  { eexists. split; [reflexivity|]. simpl. auto. }
  set (Q := fun (st : list Z * list bool) =>
              ox_inv n st.1 st.2 /\ vec_at false st.2 i = true
              /\ (forall job, 0 <= job -> vec_at false u job = true ->
                    vec_at false st.2 job = true)).
  destruct (forZ_break_inv
    (fun j (st : list Z * list bool) =>
       st = (o, u) /\ forall j', 0 <= j' < j -> vec_at 0 o j' <> -1)
    Q 0 n
    (fun j (st : list Z * list bool) =>
       if vec_at 0 st.1 j =? -1
       then Ok ((<[Z.to_nat j := i]> st.1, <[Z.to_nat i := true]> st.2), true)
       else Ok (st, false))
    (o, u)) as (st & Hrun & Hst).
  - lia.
  - split; [reflexivity|]. intros; lia.
  - intros j st Hj [-> Hfull]. simpl.
    destruct (Z.eqb_spec (vec_at 0 o j) (-1)) as [He|Hne].
    + eexists. exists true. split; [reflexivity|]. unfold Q. simpl. split; [|split].
      * apply ox_place; [exact Hinv | lia | exact He | exact Hi | exact Hu].
      * apply vec_at_insert_eq. pose proof (ox_len_u _ _ _ Hinv). lia.
      * intros job Hjob Hj'. apply ox_place_used; [lia | exact Hjob | exact Hj'].
    + eexists. exists false. split; [reflexivity|]. split; [reflexivity|].
      intros j' Hj'. destruct (decide (j' = j)) as [->|]; [exact Hne | apply Hfull; lia].
  - exists st. split; [exact Hrun|]. destruct Hst as [H|[-> Hfull]]; [exact H|].
    exfalso. destruct (ox_inv_empty_slot n o u i Hinv Hi Hu) as (j & Hj & He).
    exact (Hfull j Hj He).
Qed.

Lemma orderCrossover_gaps_inv (o : list Z) (u : list bool) :
  0 <= n -> ox_inv n o u ->
  exists st, forZ 0 n (orderCrossover_gap n) (o, u) = Ok st /\ perm_of n st.1.
Proof using All.
  intros Hn Hinv.
  destruct (forZ_inv
    (fun i (st : list Z * list bool) =>
       ox_inv n st.1 st.2 /\ forall job, 0 <= job < i -> vec_at false st.2 job = true)
    0 n (orderCrossover_gap n) (o, u)) as (st & Hrun & Hst & Hall).
  - exact Hn.
  - simpl. split; [exact Hinv|]. intros; lia.
  - intros i [o1 u1] Hi [Hinv1 Hall]. simpl in *.
    destruct (orderCrossover_gap_inv i o1 u1 Hi Hinv1) as (st & Hrun & Hinv2 & Hui & Hmono).
    exists st. split; [exact Hrun|]. split; [exact Hinv2|].
    intros job Hjob. destruct (decide (job = i)) as [->|]; [exact Hui|].
    apply Hmono; [lia|]. apply Hall. lia.
  - exists st. split; [exact Hrun|]. eapply ox_inv_full; [exact Hst | exact Hall].
Qed.

Lemma orderCrossover_at_perm (point1 point2 : Z) :
  ProblemInstance_isValid (instance_ parent1) = true ->
  getNumJobs (instance_ parent1) = n ->
  0 <= point1 < n -> 0 <= point2 < n ->
  exists child,
    orderCrossover_at parent1 parent2 point1 point2 = Ok child
    /\ instance_ child = instance_ parent1
    /\ perm_of n (job_sequence_ child).
Proof using All.
  intros Hvalid Hnum H1 H2. unfold orderCrossover_at, Solution_getNumJobs.
  pose proof parent1_perm as (Hlen & _ & _). rewrite Hlen.
  assert (Hphase : forall lo hi, 0 <= lo -> lo <= hi -> hi < n ->
    exists child,
      (st1 <- forZ lo (hi + 1) (orderCrossover_copy parent1 n)
                (replicate (Z.to_nat n) (-1), replicate (Z.to_nat n) false);
       st2 <- forZ_break 0 n (orderCrossover_fill parent2 n) (st1, next_empty st1.1 n 0);
       st3 <- forZ 0 n (orderCrossover_gap n) st2.1;
       Solution_of_sequence st3.1 (instance_ parent1)) = Ok child
      /\ instance_ child = instance_ parent1 /\ perm_of n (job_sequence_ child)).
  { intros lo hi Hlo Hle Hhi.
    destruct (orderCrossover_copy_inv lo hi Hlo ltac:(lia) Hhi) as ([o1 u1] & Hr1 & Hi1).
    rewrite Hr1. simpl in *.
    destruct (orderCrossover_fill_inv o1 u1 ltac:(lia) Hi1) as ([[o2 u2] c2] & Hr2 & Hi2).
    rewrite Hr2. simpl in *.
    destruct (orderCrossover_gaps_inv o2 u2 ltac:(lia) Hi2) as ([o3 u3] & Hr3 & Hp3).
    rewrite Hr3. simpl in *.
    unfold Solution_of_sequence. rewrite Hvalid. simpl.
    destruct Hp3 as (Hl3 & HF3 & HN3). rewrite Hl3, Hnum, Z.eqb_refl. simpl.
    eexists. split; [reflexivity|]. simpl. split; [reflexivity|]. repeat split; assumption. }
  destruct (Z.gtb_spec point1 point2) as [Hgt|Hle].
  - apply Hphase; lia.
  - apply Hphase; lia.
Qed.
End OrderCrossover.
(** ** The random source *)

Lemma randInt_range (min max : Z) (g : Random) :
  min <= max ->
  exists v g', randInt min max g = Ok (v, g') /\ min <= v <= max.
Proof.
  intros Hle. unfold randInt. destruct (Z.gtb_spec min max); [lia|].
  unfold M_bind, raw_draw, M_ret. eexists. eexists. split; [reflexivity|].
  pose proof (Z.mod_pos_bound (tape g (cursor g)) (max - min + 1) ltac:(lia)). lia.
Qed.

Lemma randInt_empty (min max : Z) (g : Random) :
  max < min -> randInt min max g = Throw invalid_argument.
Proof. intros H. unfold randInt. destruct (Z.gtb_spec min max); [reflexivity | lia]. Qed.

Lemma randDouble_total (g : Random) :
  exists u g', randDouble g = Ok (u, g').
Proof. unfold randDouble, M_bind, raw_draw, M_ret. eexists. eexists. reflexivity. Qed.

Lemma foldM_inv {S I : Type} (P : list I -> S -> Prop) (body : I -> S -> M S) :
  forall (l : list I) (s : S) (g : Random),
    P l s ->
    (forall i l' s g, P (i :: l') s -> exists s' g', body i s g = Ok (s', g') /\ P l' s') ->
    exists s' g', foldM body l s g = Ok (s', g') /\ P [] s'.
Proof.
  induction l as [|i l IH]; intros s g HP Hstep; simpl.
  - exists s, g. split; [reflexivity | exact HP].
  - destruct (Hstep i l s g HP) as (s1 & g1 & Hb & HP1). unfold M_bind. rewrite Hb.
    apply IH; assumption.
Qed.

Lemma forM_inv {S : Type} (P : S -> Prop) (lo hi : Z) (body : Z -> S -> M S)
    (s : S) (g : Random) :
  P s ->
  (forall i s g, lo <= i < hi -> P s -> exists s' g', body i s g = Ok (s', g') /\ P s') ->
  exists s' g', forM lo hi body s g = Ok (s', g') /\ P s'.
Proof.
  intros H0 Hstep. unfold forM.
  destruct (foldM_inv (fun l s => P s /\ Forall (fun i => lo <= i < hi) l) body
              (seqZ lo (hi - lo)) s g) as (s' & g' & Hrun & HP & _).
  - split; [exact H0|]. apply Forall_forall. intros i Hi. apply elem_of_seqZ in Hi. lia.
  - intros i l' s1 g1 [HP HF]. inversion HF; subst.
    destruct (Hstep i s1 g1 ltac:(assumption) HP) as (s' & g' & Hb & HP').
    exists s', g'. split; [exact Hb|]. split; assumption.
  - exists s', g'. split; assumption.
Qed.

(** ** Moves on a job sequence keep it a permutation *)

Lemma vec_swap_Permutation (v : list Z) (i j : Z) :
  0 <= i < Z.of_nat (length v) -> 0 <= j < Z.of_nat (length v) ->
  vec_swap 0 v i j ≡ₚ v.
Proof.
  intros Hi Hj. unfold vec_swap.
  apply Permutation_insert_swap; apply lookup_vec_at; assumption.
Qed.

Lemma perm_of_Permutation (n : Z) (l l' : list Z) :
  l' ≡ₚ l -> perm_of n l -> perm_of n l'.
Proof.
  intros Hp (Hl & HF & HN). split; [|split].
  - rewrite (Permutation_length Hp). exact Hl.
  - rewrite Hp. exact HF.
  - rewrite Hp. exact HN.
Qed.

(** ** The simplified partially-mapped crossover *)

Lemma find_job_range (offspring : list Z) (job j0 j : Z) :
  find_job offspring job j0 = Some j -> j0 <= j < j0 + Z.of_nat (length offspring).
Proof.
  revert j0. induction offspring as [|x rest IH]; intros j0 H; simpl in *; [discriminate|].
  destruct (x =? job).
  - injection H as <-. lia.
  - apply IH in H. lia.
Qed.

Lemma partiallyMappedCrossover_swap_perm (parent2 : Solution) (n : Z)
    (offspring : list Z) (g : Random) :
  0 < n -> Z.of_nat (length (job_sequence_ parent2)) = n ->
  perm_of n offspring ->
  exists offspring' g',
    partiallyMappedCrossover_swap parent2 n offspring g = Ok (offspring', g')
    /\ perm_of n offspring'.
Proof.
  intros Hn Hlen2 Hperm. unfold partiallyMappedCrossover_swap, M_bind.
  destruct (randInt_range 0 (n - 1) g ltac:(lia)) as (pos1 & g1 & -> & Hp1).
  destruct (randInt_range 0 (n - 1) g1 ltac:(lia)) as (pos2 & g2 & -> & Hp2).
  rewrite getJobAt_in_range by lia. simpl.
  destruct (find_job offspring (vec_at 0 (job_sequence_ parent2) pos1) 0) as [j|] eqn:Hf.
  - apply find_job_range in Hf. pose proof Hperm as (Hl & _ & _).
    eexists. eexists. split; [reflexivity|].
    eapply perm_of_Permutation; [|exact Hperm]. apply vec_swap_Permutation; lia.
  - eexists. eexists. split; [reflexivity | exact Hperm].
Qed.

Lemma Solution_of_sequence_perm (inst : ProblemInstance) (l : list Z) :
  ProblemInstance_isValid inst = true -> perm_of (getNumJobs inst) l ->
  exists child, Solution_of_sequence l inst = Ok child
    /\ job_sequence_ child = l /\ instance_ child = inst
    /\ makespan_calculated_ child = false /\ Solution_isValid child = true.
Proof.
  intros Hv Hp. unfold Solution_of_sequence. rewrite Hv. simpl.
  pose proof Hp as (Hl & _). rewrite Hl, Z.eqb_refl. simpl.
  eexists. split; [reflexivity|]. simpl. repeat split.
  apply Solution_isValid_spec; simpl; [|exact Hp].
  apply ProblemInstance_isValid_dims in Hv. unfold getNumJobs. lia.
Qed.

(** [orderCrossover] on valid permutations of one valid instance. *)
Lemma orderCrossover_valid (parent1 parent2 : Solution) (g : Random) :
  ProblemInstance_isValid (instance_ parent1) = true ->
  instance_ parent2 = instance_ parent1 ->
  Solution_isValid parent1 = true -> Solution_isValid parent2 = true ->
  exists child g',
    orderCrossover parent1 parent2 g = Ok (child, g')
    /\ instance_ child = instance_ parent1 /\ Solution_isValid child = true.
Proof.
  intros Hv Hinst H1 H2.
  pose proof (ProblemInstance_isValid_dims _ Hv) as (Hn & _ & _).
  apply Solution_isValid_spec in H1; [|unfold getNumJobs; lia].
  apply Solution_isValid_spec in H2; [|rewrite Hinst; unfold getNumJobs; lia].
  rewrite Hinst in H2. set (n := getNumJobs (instance_ parent1)) in *.
  unfold orderCrossover, M_bind, Solution_getNumJobs.
  pose proof H1 as (Hl1 & _). pose proof H2 as (Hl2 & _). rewrite Hl1.
  destruct (randInt_range 0 (n - 1) g ltac:(unfold n, getNumJobs; lia))
    as (point1 & g1 & -> & Hp1).
  destruct (randInt_range 0 (n - 1) g1 ltac:(unfold n, getNumJobs; lia))
    as (point2 & g2 & -> & Hp2).
  destruct (orderCrossover_at_perm parent1 parent2 n H1 Hl2 point1 point2 Hv eq_refl
              ltac:(lia) ltac:(lia)) as (child & Hrun & Hci & Hcp).
  rewrite Hrun. simpl. exists child, g2. split; [reflexivity|]. split; [exact Hci|].
  apply Solution_isValid_spec; rewrite Hci; [unfold getNumJobs; lia | exact Hcp].
Qed.

(** [partiallyMappedCrossover] on valid permutations of one valid
    instance with at least two jobs. *)
Lemma partiallyMappedCrossover_valid (parent1 parent2 : Solution) (g : Random) :
  ProblemInstance_isValid (instance_ parent1) = true ->
  instance_ parent2 = instance_ parent1 ->
  Solution_isValid parent1 = true -> Solution_isValid parent2 = true ->
  2 <= getNumJobs (instance_ parent1) ->
  exists child g',
    partiallyMappedCrossover parent1 parent2 g = Ok (child, g')
    /\ instance_ child = instance_ parent1 /\ Solution_isValid child = true.
Proof.
  intros Hv Hinst H1 H2 Hn2.
  apply Solution_isValid_spec in H1; [|lia].
  apply Solution_isValid_spec in H2; [|rewrite Hinst; lia].
  rewrite Hinst in H2. set (n := getNumJobs (instance_ parent1)) in *.
  unfold partiallyMappedCrossover, M_bind, Solution_getNumJobs.
  pose proof H1 as (Hl1 & _). pose proof H2 as (Hl2 & _). rewrite Hl1.
  assert (Hq : 1 <= Z.min 3 (Z.quot n 2)).
  { pose proof (Z.quot_le_lower_bound n 2 1 ltac:(lia) ltac:(lia)). lia. }
  destruct (randInt_range 1 _ g Hq) as (num_swaps & g1 & -> & Hs).
  destruct (forM_inv (perm_of n) 0 num_swaps
              (fun _ offspring => partiallyMappedCrossover_swap parent2 n offspring)
              (job_sequence_ parent1) g1 H1) as (o & g2 & -> & Hperm).
  { intros i s g' _ Hs'. apply partiallyMappedCrossover_swap_perm; [lia | exact Hl2 | exact Hs']. }
  destruct (Solution_of_sequence_perm _ o Hv Hperm) as (child & -> & _ & Hci & _ & Hcv).
  simpl. exists child, g2. auto.
Qed.

(** C2.  On the valid one-job instance [[[1]]], whose only permutation
    [[0]] is a valid solution, [partiallyMappedCrossover] of [[0]] with
    itself throws [invalid_argument] for every state of the random
    source, while [orderCrossover] returns the valid child [[0]]. *)
Theorem partiallyMappedCrossover_one_job (g : Random) :
  ProblemInstance_isValid one_job_instance = true
  /\ Solution_new one_job_instance = Ok one_job_solution
  /\ Solution_isValid one_job_solution = true
  /\ partiallyMappedCrossover one_job_solution one_job_solution g = Throw invalid_argument
  /\ exists child g',
       orderCrossover one_job_solution one_job_solution g = Ok (child, g')
       /\ job_sequence_ child = [0].
Proof.
  repeat split.
  destruct (orderCrossover_valid one_job_solution one_job_solution g eq_refl eq_refl
              eq_refl eq_refl) as (child & g' & Hrun & Hi & Hvalid).
  exists child, g'. split; [exact Hrun|].
  apply Solution_isValid_spec in Hvalid; [|rewrite Hi; vm_compute; discriminate].
  rewrite Hi in Hvalid. destruct Hvalid as (Hl & HF & _).
  change (getNumJobs (instance_ one_job_solution)) with 1 in Hl, HF.
  destruct (job_sequence_ child) as [|x [|y l]]; simpl in Hl; try lia.
  inversion HF; subst. f_equal. lia.
Qed.

(** ** The cache of a solution *)

Lemma calculateMakespan_fresh (s : Solution) :
  calculateMakespan s = calculateMakespan (fresh_solution (instance_ s) (job_sequence_ s)).
Proof. reflexivity. Qed.

Lemma calculateMakespan_total (inst : ProblemInstance) (s : Solution) :
  ProblemInstance_isValid inst = true ->
  instance_ s = inst -> perm_of (getNumJobs inst) (job_sequence_ s) ->
  exists s', calculateMakespan s = Ok s'
    /\ job_sequence_ s' = job_sequence_ s /\ instance_ s' = inst
    /\ makespan_calculated_ s' = true
    /\ makespan_ s' = makespan_of inst (job_sequence_ s).
Proof.
  intros Hv Hi (Hl & HF & _). subst inst.
  destruct (calculateMakespan_loop_dims (instance_ s) (job_sequence_ s) Hv Hl HF)
    as (C & Hrun & _).
  unfold makespan_of. rewrite <- calculateMakespan_fresh.
  unfold calculateMakespan, getNumMachines. unfold getNumJobs in Hl. rewrite Hl, Hrun. simpl.
  eexists. split; [reflexivity|]. simpl. auto.
Qed.

Lemma getMakespan_wf (inst : ProblemInstance) (s : Solution) :
  ProblemInstance_isValid inst = true -> wf_solution inst s ->
  exists s', getMakespan s = Ok (makespan_of inst (job_sequence_ s), s')
    /\ job_sequence_ s' = job_sequence_ s
    /\ makespan_calculated_ s' = true
    /\ wf_solution inst s'.
Proof.
  intros Hv (Hi & Hp & Hc). unfold getMakespan.
  destruct (makespan_calculated_ s) eqn:E; simpl.
  - exists s. rewrite (Hc E), Hi. split; [reflexivity|]. split; [reflexivity|].
    split; [exact E|]. exact (conj Hi (conj Hp Hc)).
  - destruct (calculateMakespan_total inst s Hv Hi Hp) as (s' & -> & Hs & Hi' & Hf & Hm).
    simpl. exists s'. rewrite Hm. split; [reflexivity|]. split; [exact Hs|].
    split; [exact Hf|]. split; [exact Hi'|]. split; [rewrite Hs; exact Hp|].
    intros _. rewrite Hi', Hs. exact Hm.
Qed.

Lemma invalidateCache_wf (inst : ProblemInstance) (s : Solution) (v : list Z) :
  instance_ s = inst -> perm_of (getNumJobs inst) v ->
  wf_solution inst (invalidateCache (set_job_sequence v s)).
Proof. intros Hi Hp. split; [exact Hi|]. split; [exact Hp|]. intros H. discriminate. Qed.

Lemma swapJobs_wf (inst : ProblemInstance) (s : Solution) (pos1 pos2 : Z) :
  wf_solution inst s ->
  0 <= pos1 < getNumJobs inst -> 0 <= pos2 < getNumJobs inst ->
  exists s', swapJobs s pos1 pos2 = Ok s'
    /\ job_sequence_ s' = vec_swap 0 (job_sequence_ s) pos1 pos2
    /\ wf_solution inst s'.
Proof.
  intros (Hi & Hp & Hc) H1 H2. pose proof Hp as (Hl & _). unfold swapJobs. rewrite Hl.
  destruct (Z.ltb_spec pos1 0); [lia|]. destruct (Z.geb_spec pos1 (getNumJobs inst)); [lia|].
  destruct (Z.ltb_spec pos2 0); [lia|]. destruct (Z.geb_spec pos2 (getNumJobs inst)); [lia|].
  simpl. eexists. split; [reflexivity|]. split; [reflexivity|].
  apply invalidateCache_wf; [exact Hi|].
  eapply perm_of_Permutation; [|exact Hp]. apply vec_swap_Permutation; lia.
Qed.

Lemma vec_swap_involutive (v : list Z) (i j : Z) :
  0 <= i < Z.of_nat (length v) -> 0 <= j < Z.of_nat (length v) ->
  vec_swap 0 (vec_swap 0 v i j) i j = v.
Proof.
  intros Hi Hj. apply list_eq. intros k.
  assert (Hlen : length (vec_swap 0 v i j) = length v).
  { unfold vec_swap. rewrite !length_insert. reflexivity. }
  assert (Hget : forall p, 0 <= p < Z.of_nat (length v) ->
            vec_at 0 (vec_swap 0 v i j) p
            = if decide (p = j) then vec_at 0 v i
              else if decide (p = i) then vec_at 0 v j else vec_at 0 v p).
  { intros p Hp. unfold vec_swap. destruct (decide (p = j)) as [->|Hpj].
    - rewrite vec_at_insert_eq by (rewrite length_insert; lia). reflexivity.
    - rewrite vec_at_insert_ne by lia. destruct (decide (p = i)) as [->|Hpi].
      + rewrite vec_at_insert_eq by lia. reflexivity.
      + rewrite vec_at_insert_ne by lia. reflexivity. }
  destruct (decide (k < length v)%nat) as [Hk|Hk].
  - rewrite <- (Nat2Z.id k).
    rewrite (lookup_vec_at 0 v) by lia.
    rewrite (lookup_vec_at 0) by (unfold vec_swap at 1; rewrite !length_insert, Hlen; lia).
    f_equal. unfold vec_swap at 1.
    destruct (decide (Z.of_nat k = j)) as [Hkj|Hkj].
    + rewrite Hkj. rewrite vec_at_insert_eq by (rewrite length_insert, Hlen; lia).
      rewrite Hget by lia. destruct (decide (i = j)) as [->|Hij]; [reflexivity|].
      rewrite decide_True by reflexivity. reflexivity.
    + rewrite vec_at_insert_ne by lia. destruct (decide (Z.of_nat k = i)) as [Hki|Hki].
      * rewrite Hki. rewrite vec_at_insert_eq by (rewrite Hlen; lia).
        rewrite Hget by lia. rewrite decide_True by reflexivity. reflexivity.
      * rewrite vec_at_insert_ne by lia. rewrite Hget by lia.
        rewrite !decide_False by assumption. reflexivity.
  - rewrite !lookup_ge_None_2; [reflexivity | lia |].
    unfold vec_swap at 1. rewrite !length_insert, Hlen. lia.
Qed.
(** ** Searches that stop at the first improvement *)

(** A loop with [break] that is left at the first item passing [test]:
    [R] holds of the state while nothing was found, [Hit i] once the
    loop was left at item [i]. *)
Lemma foldR_break_find {S I : Type} (test : I -> bool) (R : S -> Prop) (Hit : I -> S -> Prop)
    (body : I -> S -> result (S * bool)) (l : list I) :
  (forall i s, i ∈ l -> R s ->
     exists s', if test i then body i s = Ok (s', true) /\ Hit i s'
                else body i s = Ok (s', false) /\ R s') ->
  forall s, R s ->
  exists s', foldR_break body l s = Ok s' /\
    match find test l with Some i => Hit i s' | None => R s' end.
Proof.
  induction l as [|i l IH]; intros Hbody s HR; simpl.
  - exists s. split; [reflexivity | exact HR].
  - destruct (Hbody i s ltac:(left) HR) as (s1 & H1). destruct (test i).
    + destruct H1 as [-> Hhit]. simpl. exists s1. split; [reflexivity | exact Hhit].
    + destruct H1 as [-> HR1]. simpl. apply IH; [|exact HR1].
      intros i' s' Hin. apply Hbody. right. exact Hin.
Qed.

Lemma find_app {A : Type} (f : A -> bool) (l1 l2 : list A) :
  find f (l1 ++ l2) = match find f l1 with Some x => Some x | None => find f l2 end.
Proof.
  induction l1 as [|x l1 IH]; simpl; [reflexivity|]. destruct (f x); [reflexivity | exact IH].
Qed.

Lemma find_map_pair (f : Z * Z -> bool) (i : Z) (l : list Z) :
  find f (map (pair i) l) = option_map (pair i) (find (fun j => f (i, j)) l).
Proof.
  induction l as [|j l IH]; simpl; [reflexivity|]. destruct (f (i, j)); [reflexivity | exact IH].
Qed.

(** The first pair of a nested scan is found in the first row that has one. *)
Lemma find_nested (f : Z * Z -> bool) (row : Z -> list Z) (l : list Z) :
  find f (flat_map (fun i => map (pair i) (row i)) l) =
  match find (fun i => bool_decide (is_Some (find (fun j => f (i, j)) (row i)))) l with
  | Some i => option_map (pair i) (find (fun j => f (i, j)) (row i))
  | None => None
  end.
Proof.
  induction l as [|i l IH]; simpl; [reflexivity|].
  rewrite find_app, find_map_pair.
  destruct (find (fun j => f (i, j)) (row i)) as [j|] eqn:E.
  - rewrite bool_decide_true by (eexists; reflexivity). rewrite E. reflexivity.
  - rewrite bool_decide_false by (intros [x Hx]; discriminate). exact IH.
Qed.

Section Horse2Opt.
Variable inst : ProblemInstance.
Hypothesis inst_valid : ProblemInstance_isValid inst = true.
Variable job_sequence : list Z.
Hypothesis job_sequence_perm : perm_of (getNumJobs inst) job_sequence.

#[local] Abbreviation nj := (getNumJobs inst).
#[local] Abbreviation mk0 := (makespan_of inst job_sequence).
#[local] Abbreviation improving := (improves inst job_sequence).
#[local] Abbreviation searching2 :=
  (fun st : Solution * Z * bool => searching inst job_sequence st.1.1 st.2 /\ st.1.2 = mk0).
#[local] Abbreviation improved_by2 :=
  (fun c (st : Solution * Z * bool) => improved_by inst job_sequence swap_move c st.1.1 st.2).

Lemma apply2OptSearch_step_spec (i j : Z) (st : Solution * Z * bool) :
  0 <= i < nj -> 0 <= j < nj -> searching2 st ->
  exists st',
    if improving swap_move (i, j)
    then apply2OptSearch_step i j st = Ok (st', true) /\ improved_by2 (i, j) st'
    else apply2OptSearch_step i j st = Ok (st', false) /\ searching2 st'.
Proof using All.
  intros Hi Hj ((Hwf & Hseq & Himp) & Hcur). destruct st as [[s cur] imp]. simpl in *.
  subst cur imp. unfold apply2OptSearch_step.
  destruct (swapJobs_wf inst s i j Hwf Hi Hj) as (s1 & -> & Hs1 & Hwf1). simpl.
  destruct (getMakespan_wf inst s1 inst_valid Hwf1) as (s2 & -> & Hs2 & _ & Hwf2). simpl.
  rewrite Hs1, Hseq. unfold improves, swap_move. simpl.
  destruct (makespan_of inst (vec_swap 0 job_sequence i j) <? mk0).
  - eexists. split; [reflexivity|]. split; [exact Hwf2|]. simpl.
    split; [|reflexivity]. rewrite Hs2, Hs1, Hseq. reflexivity.
  - destruct (swapJobs_wf inst s2 i j Hwf2 Hi Hj) as (s3 & -> & Hs3 & Hwf3). simpl.
    eexists. split; [reflexivity|]. split; [|reflexivity]. split; [exact Hwf3|]. simpl.
    split; [|reflexivity]. rewrite Hs3, Hs2, Hs1, Hseq.
    pose proof job_sequence_perm as (Hl & _).
    apply vec_swap_involutive; lia.
Qed.

Lemma apply2OptSearch_row_spec (i : Z) (st : Solution * Z * bool) :
  0 <= i < nj -> searching2 st ->
  exists st',
    forZ_break (i + 1) nj (fun j st => apply2OptSearch_step i j st) st = Ok st' /\
    match find (fun j => improving swap_move (i, j)) (seqZ (i + 1) (nj - (i + 1))) with
    | Some j => improved_by2 (i, j) st'
    | None => searching2 st'
    end.
Proof using All.
  intros Hi Hst. unfold forZ_break.
  apply (foldR_break_find (fun j => improving swap_move (i, j)) searching2
           (fun j => improved_by2 (i, j))); [|exact Hst].
  intros j s Hj Hs. apply elem_of_seqZ in Hj.
  apply apply2OptSearch_step_spec; [lia | lia | exact Hs].
Qed.

Lemma apply2OptSearch_scan_spec (st : Solution * Z * bool) :
  searching2 st ->
  exists st',
    forZ_break 0 (nj - 1)
      (fun i st =>
         st' <- forZ_break (i + 1) nj (fun j st => apply2OptSearch_step i j st) st;
         Ok (st', st'.2)) st = Ok st' /\
    match find (improving swap_move) (swap_pairs nj) with
    | Some c => improved_by2 c st'
    | None => searching2 st'
    end.
Proof using All.
  intros Hst. unfold swap_pairs. rewrite find_nested.
  set (row := fun i => seqZ (i + 1) (nj - (i + 1))).
  set (test := fun i => bool_decide (is_Some (find (fun j => improving swap_move (i, j)) (row i)))).
  destruct (foldR_break_find test searching2
    (fun i st' => match find (fun j => improving swap_move (i, j)) (row i) with
                  | Some j => improved_by2 (i, j) st'
                  | None => False
                  end)
    (fun i st =>
       st' <- forZ_break (i + 1) nj (fun j st => apply2OptSearch_step i j st) st;
       Ok (st', st'.2))
    (seqZ 0 (nj - 1))) with (s := st) as (st' & Hrun & Hres); [|exact Hst|].
  - intros i s Hi Hs. apply elem_of_seqZ in Hi.
    destruct (apply2OptSearch_row_spec i s ltac:(lia) Hs) as (s' & -> & Hrow).
    simpl. exists s'. unfold test, row in *.
    destruct (find (fun j => improving swap_move (i, j)) (seqZ (i + 1) (nj - (i + 1))))
      as [j|] eqn:E.
    + rewrite bool_decide_true by (eexists; reflexivity).
      pose proof Hrow as (H1 & H2 & H3). split; [rewrite H3; reflexivity | exact Hrow].
    + rewrite bool_decide_false by (intros [x Hx]; discriminate).
      pose proof Hrow as ((H1 & H2 & H3) & H4). split; [rewrite H3; reflexivity | exact Hrow].
  - exists st'. split; [unfold forZ_break; rewrite Z.sub_0_r; exact Hrun|].
    change (match
              match find test (seqZ 0 (nj - 1)) with
              | Some i => option_map (pair i) (find (fun j => improving swap_move (i, j)) (row i))
              | None => None
              end
            with
            | Some c => improved_by2 c st'
            | None => searching2 st'
            end).
    destruct (find test (seqZ 0 (nj - 1))) as [i|]; [|exact Hres].
    destruct (find (fun j => improving swap_move (i, j)) (row i)) as [j|];
      [exact Hres | contradiction].
Qed.
End Horse2Opt.

(** [Horse::apply2OptSearch] is a first-improvement search over the
    swaps. *)
Lemma apply2OptSearch_first_improvement (inst : ProblemInstance) (s : Solution) :
  ProblemInstance_isValid inst = true -> wf_solution inst s ->
  exists s',
    apply2OptSearch s = Ok ((first_improvement inst swap_move
                               (swap_pairs (getNumJobs inst)) (job_sequence_ s)).1, s')
    /\ job_sequence_ s' = (first_improvement inst swap_move
                             (swap_pairs (getNumJobs inst)) (job_sequence_ s)).2
    /\ wf_solution inst s'.
Proof.
  intros Hv Hwf. pose proof Hwf as (Hi & Hp & Hc). pose proof Hp as (Hl & _).
  unfold apply2OptSearch, Solution_getNumJobs. rewrite Hl.
  destruct (getMakespan_wf inst s Hv Hwf) as (s0 & -> & Hs0 & _ & Hwf0). simpl.
  destruct (apply2OptSearch_scan_spec inst Hv (job_sequence_ s) Hp
              (s0, makespan_of inst (job_sequence_ s), false)) as (st' & -> & Hres).
  { split; [|reflexivity]. split; [exact Hwf0|]. simpl. auto. }
  simpl. destruct st' as [[s' cur'] imp']. unfold first_improvement.
  fold (improves inst (job_sequence_ s) swap_move).
  destruct (find (improves inst (job_sequence_ s) swap_move) (swap_pairs (getNumJobs inst)))
    as [c|]; simpl in *.
  - destruct Hres as (H1 & H2 & H3). simpl in *. subst imp'. exists s'. auto.
  - destruct Hres as ((H1 & H2 & H3) & H4). simpl in *. subst imp'. exists s'. auto.
Qed.

Lemma relocate_Permutation (v : list Z) (i j : Z) :
  0 <= i < Z.of_nat (length v) -> relocate v i j ≡ₚ v.
Proof.
  intros Hi. unfold relocate, vec_insert, vec_erase.
  set (k := Z.to_nat (if j >? i then j - 1 else j)).
  set (w := take (Z.to_nat i) v ++ drop (S (Z.to_nat i)) v).
  rewrite <- Permutation_middle, take_drop. unfold w.
  rewrite Permutation_middle, take_drop_middle; [reflexivity|].
  apply lookup_vec_at. exact Hi.
Qed.

Section HorseInsertion.
Variable inst : ProblemInstance.
Hypothesis inst_valid : ProblemInstance_isValid inst = true.
Variable job_sequence : list Z.
Hypothesis job_sequence_perm : perm_of (getNumJobs inst) job_sequence.

#[local] Abbreviation nj := (getNumJobs inst).
#[local] Abbreviation mk0 := (makespan_of inst job_sequence).
#[local] Abbreviation improving := (improves inst job_sequence).
#[local] Abbreviation searching1 :=
  (fun st : Solution * bool => searching inst job_sequence st.1 st.2).
#[local] Abbreviation improved_by1 :=
  (fun c (st : Solution * bool) => improved_by inst job_sequence insertion_move c st.1 st.2).

Lemma Horse_applyInsertionSearch_step_spec (i j : Z) (st : Solution * bool) :
  0 <= i < nj -> 0 <= j < nj -> searching1 st ->
  exists st',
    if improving insertion_move (i, j)
    then Horse_applyInsertionSearch_step job_sequence mk0 i j st = Ok (st', true)
         /\ improved_by1 (i, j) st'
    else Horse_applyInsertionSearch_step job_sequence mk0 i j st = Ok (st', false)
         /\ searching1 st'.
Proof using All.
  intros Hi Hj Hst. pose proof Hst as (Hwf & Hseq & Himp).
  unfold Horse_applyInsertionSearch_step, improves, insertion_move. simpl.
  destruct (Z.eqb_spec i j) as [->|Hne].
  - rewrite Z.ltb_irrefl. exists st. split; [reflexivity | exact Hst].
  - pose proof job_sequence_perm as (Hl & _).
    assert (Hperm : perm_of nj (relocate job_sequence i j)).
    { eapply perm_of_Permutation; [|exact job_sequence_perm].
      apply relocate_Permutation. lia. }
    destruct Hwf as (Hinst & _). rewrite Hinst.
    destruct (Solution_of_sequence_perm inst _ inst_valid Hperm)
      as (child & -> & Hcs & Hci & Hcc & _). simpl.
    assert (Hcwf : wf_solution inst child).
    { split; [exact Hci|]. split; [rewrite Hcs; exact Hperm|]. intros H. congruence. }
    destruct (getMakespan_wf inst child inst_valid Hcwf) as (child' & -> & Hcs' & _ & Hwf').
    simpl. rewrite Hcs.
    destruct (makespan_of inst (relocate job_sequence i j) <? mk0).
    + eexists. split; [reflexivity|]. split; [exact Hwf'|]. simpl.
      split; [|reflexivity]. unfold insertion_move. simpl.
      rewrite (proj2 (Z.eqb_neq i j) Hne), Hcs', Hcs. reflexivity.
    + exists st. split; [reflexivity | exact Hst].
Qed.

Lemma Horse_applyInsertionSearch_scan_spec (st : Solution * bool) :
  searching1 st ->
  exists st',
    forZ_break 0 nj
      (fun i st =>
         st' <- forZ_break 0 nj
                  (fun j st => Horse_applyInsertionSearch_step job_sequence mk0 i j st) st;
         Ok (st', st'.2)) st = Ok st' /\
    match find (improving insertion_move) (insertion_pairs nj) with
    | Some c => improved_by1 c st'
    | None => searching1 st'
    end.
Proof using All.
  intros Hst. unfold insertion_pairs. rewrite find_nested.
  set (test := fun i => bool_decide (is_Some (find (fun j => improving insertion_move (i, j))
                                                (seqZ 0 nj)))).
  destruct (foldR_break_find test searching1
    (fun i st' => match find (fun j => improving insertion_move (i, j)) (seqZ 0 nj) with
                  | Some j => improved_by1 (i, j) st'
                  | None => False
                  end)
    (fun i st =>
       st' <- forZ_break 0 nj
                (fun j st => Horse_applyInsertionSearch_step job_sequence mk0 i j st) st;
       Ok (st', st'.2))
    (seqZ 0 nj)) with (s := st) as (st' & Hrun & Hres); [|exact Hst|].
  - intros i s Hi Hs. apply elem_of_seqZ in Hi.
    destruct (foldR_break_find (fun j => improving insertion_move (i, j)) searching1
                (fun j => improved_by1 (i, j))
                (fun j st => Horse_applyInsertionSearch_step job_sequence mk0 i j st)
                (seqZ 0 nj)) with (s := s) as (s' & Hrow & Hfound); [|exact Hs|].
    { intros j s1 Hj Hs1. apply elem_of_seqZ in Hj.
      apply Horse_applyInsertionSearch_step_spec; [lia | lia | exact Hs1]. }
    assert (Hrow' : forZ_break 0 nj
              (fun j st => Horse_applyInsertionSearch_step job_sequence mk0 i j st) s = Ok s')
      by (unfold forZ_break; rewrite Z.sub_0_r; exact Hrow).
    rewrite Hrow'. simpl. exists s'. unfold test.
    destruct (find (fun j => improving insertion_move (i, j)) (seqZ 0 nj)) as [j|] eqn:E.
    + rewrite bool_decide_true by (eexists; reflexivity).
      pose proof Hfound as (H1 & H2 & H3). split; [rewrite H3; reflexivity | exact Hfound].
    + rewrite bool_decide_false by (intros [x Hx]; discriminate).
      pose proof Hfound as (H1 & H2 & H3). split; [rewrite H3; reflexivity | exact Hfound].
  - exists st'. split; [unfold forZ_break at 1; rewrite Z.sub_0_r; exact Hrun|].
    change (match
              match find test (seqZ 0 nj) with
              | Some i => option_map (pair i)
                            (find (fun j => improving insertion_move (i, j)) (seqZ 0 nj))
              | None => None
              end
            with
            | Some c => improved_by1 c st'
            | None => searching1 st'
            end).
    destruct (find test (seqZ 0 nj)) as [i|]; [|exact Hres].
    destruct (find (fun j => improving insertion_move (i, j)) (seqZ 0 nj)) as [j|];
      [exact Hres | contradiction].
Qed.
End HorseInsertion.

(** [Horse::applyInsertionSearch] is a first-improvement search over
    the relocations. *)
Lemma Horse_applyInsertionSearch_first_improvement (inst : ProblemInstance) (s : Solution) :
  ProblemInstance_isValid inst = true -> wf_solution inst s ->
  exists s',
    Horse_applyInsertionSearch s
      = Ok ((first_improvement inst insertion_move
               (insertion_pairs (getNumJobs inst)) (job_sequence_ s)).1, s')
    /\ job_sequence_ s' = (first_improvement inst insertion_move
                             (insertion_pairs (getNumJobs inst)) (job_sequence_ s)).2
    /\ wf_solution inst s'.
Proof.
  intros Hv Hwf. pose proof Hwf as (Hi & Hp & Hc). pose proof Hp as (Hl & _).
  unfold Horse_applyInsertionSearch.
  destruct (getMakespan_wf inst s Hv Hwf) as (s0 & -> & Hs0 & _ & Hwf0). simpl.
  rewrite Hs0, Hl.
  destruct (Horse_applyInsertionSearch_scan_spec inst Hv (job_sequence_ s) Hp (s0, false))
    as (st' & -> & Hres).
  { split; [exact Hwf0|]. simpl. auto. }
  simpl. destruct st' as [s' imp']. unfold first_improvement.
  fold (improves inst (job_sequence_ s) insertion_move).
  destruct (find (improves inst (job_sequence_ s) insertion_move)
              (insertion_pairs (getNumJobs inst))) as [c|]; simpl in *.
  - destruct Hres as (H1 & H2 & H3). simpl in *. subst imp'. exists s'. auto.
  - destruct Hres as (H1 & H2 & H3). simpl in *. subst imp'. exists s'. auto.
Qed.

(** ** Searches that keep every improvement *)

Lemma foldR_sim {S A I : Type} (R : S -> A -> Prop) (body : I -> S -> result S)
    (f : A -> I -> A) (l : list I) :
  (forall i s a, i ∈ l -> R s a -> exists s', body i s = Ok s' /\ R s' (f a i)) ->
  forall s a, R s a -> exists s', foldR body l s = Ok s' /\ R s' (fold_left f l a).
Proof.
  induction l as [|i l IH]; intros Hbody s a HR; simpl.
  - exists s. split; [reflexivity | exact HR].
  - destruct (Hbody i s a ltac:(left) HR) as (s1 & -> & HR1). simpl.
    apply IH; [|exact HR1]. intros i' s' a' Hin. apply Hbody. right. exact Hin.
Qed.

Lemma fold_left_flat_map {A I J : Type} (f : A -> J -> A) (g : I -> list J) (l : list I) (a : A) :
  fold_left f (flat_map g l) a = fold_left (fun a i => fold_left f (g i) a) l a.
Proof.
  revert a. induction l as [|i l IH]; intros a; simpl; [reflexivity|].
  rewrite fold_left_app. apply IH.
Qed.

Lemma fold_left_map_pair {A : Type} (f : A -> Z * Z -> A) (i : Z) (l : list Z) (a : A) :
  fold_left f (map (pair i) l) a = fold_left (fun a j => f a (i, j)) l a.
Proof. revert a. induction l as [|j l IH]; intros a; simpl; [reflexivity | apply IH]. Qed.

Lemma apply2Opt_step_scanning (inst : ProblemInstance) (i j : Z)
    (st : Solution * Z * bool) (a : list Z * Z * bool) :
  ProblemInstance_isValid inst = true ->
  0 <= i < getNumJobs inst -> 0 <= j < getNumJobs inst ->
  scanning inst st a ->
  exists st', apply2Opt_step i j st = Ok st'
              /\ scanning inst st' (every_improvement_step inst a (i, j)).
Proof.
  intros Hv Hi Hj (Hwf & Hseq & Hcur & Himp).
  destruct st as [[s cur] imp]. destruct a as [[seq cur'] imp']. simpl in *. subst.
  unfold apply2Opt_step, swap_move. simpl.
  destruct (swapJobs_wf inst s i j Hwf Hi Hj) as (s1 & -> & Hs1 & Hwf1). simpl.
  destruct (getMakespan_wf inst s1 Hv Hwf1) as (s2 & -> & Hs2 & _ & Hwf2). simpl.
  rewrite Hs1.
  destruct (makespan_of inst (vec_swap 0 (job_sequence_ s) i j) <? cur').
  - eexists. split; [reflexivity|]. split; [exact Hwf2|]. simpl.
    rewrite Hs2, Hs1. auto.
  - destruct (swapJobs_wf inst s2 i j Hwf2 Hi Hj) as (s3 & -> & Hs3 & Hwf3). simpl.
    eexists. split; [reflexivity|]. split; [exact Hwf3|]. simpl.
    split; [|auto]. rewrite Hs3, Hs2, Hs1.
    destruct Hwf as (_ & (Hl & _) & _). apply vec_swap_involutive; lia.
Qed.

(** [Solution::apply2Opt] keeps every improving swap of its scan. *)
Lemma apply2Opt_every_improvement (inst : ProblemInstance) (s : Solution) :
  ProblemInstance_isValid inst = true -> wf_solution inst s ->
  exists s',
    apply2Opt s = Ok ((every_improvement inst (job_sequence_ s)).2, s')
    /\ job_sequence_ s' = (every_improvement inst (job_sequence_ s)).1.1
    /\ wf_solution inst s'.
Proof.
  intros Hv Hwf. pose proof Hwf as (Hi & Hp & Hc). pose proof Hp as (Hl & _).
  unfold apply2Opt.
  destruct (getMakespan_wf inst s Hv Hwf) as (s0 & -> & Hs0 & _ & Hwf0). simpl.
  unfold every_improvement, swap_pairs. rewrite Hl, fold_left_flat_map.
  destruct (foldR_sim (scanning inst)
    (fun i st => forZ (i + 1) (getNumJobs inst) (fun j st => apply2Opt_step i j st) st)
    (fun a i => fold_left (every_improvement_step inst)
                  (map (pair i) (seqZ (i + 1) (getNumJobs inst - (i + 1)))) a)
    (seqZ 0 (getNumJobs inst - 1)))
    with (s := (s0, makespan_of inst (job_sequence_ s), false))
         (a := (job_sequence_ s, makespan_of inst (job_sequence_ s), false))
    as (st' & Hrun & Hres).
  - intros i st a Hin HR. apply elem_of_seqZ in Hin. rewrite fold_left_map_pair.
    unfold forZ. apply (foldR_sim (scanning inst)); [|exact HR].
    intros j st1 a1 Hj HR1. apply elem_of_seqZ in Hj.
    apply apply2Opt_step_scanning; [exact Hv | lia | lia | exact HR1].
  - split; [exact Hwf0|]. simpl. auto.
  - unfold forZ at 1. rewrite Z.sub_0_r, Hrun. simpl.
    destruct st' as [[s' cur'] imp']. destruct Hres as (H1 & H2 & H3 & H4). simpl in *.
    exists s'. rewrite H4. auto.
Qed.

Lemma every_improvement_step_makespan (inst : ProblemInstance) (mk0 : Z)
    (a : list Z * Z * bool) (c : Z * Z) :
  a.1.2 = makespan_of inst a.1.1 /\ (a.2 = true <-> a.1.2 < mk0) /\ a.1.2 <= mk0 ->
  let a' := every_improvement_step inst a c in
  a'.1.2 = makespan_of inst a'.1.1 /\ (a'.2 = true <-> a'.1.2 < mk0) /\ a'.1.2 <= mk0.
Proof.
  destruct a as [[seq cur] imp]. simpl. intros (Hcur & Himp & Hle).
  unfold every_improvement_step.
  destruct (Z.ltb_spec (makespan_of inst (swap_move seq c)) cur); simpl.
  - split; [reflexivity|]. split; [|lia]. split; [intros _; lia | reflexivity].
  - auto.
Qed.

(** The flag of [every_improvement] tells whether the makespan went down. *)
Lemma every_improvement_flag (inst : ProblemInstance) (job_sequence : list Z) :
  let r := every_improvement inst job_sequence in
  (r.2 = true <-> makespan_of inst r.1.1 < makespan_of inst job_sequence)
  /\ makespan_of inst r.1.1 <= makespan_of inst job_sequence.
Proof.
  unfold every_improvement.
  set (mk0 := makespan_of inst job_sequence).
  assert (H : forall l a,
    a.1.2 = makespan_of inst a.1.1 /\ (a.2 = true <-> a.1.2 < mk0) /\ a.1.2 <= mk0 ->
    let r := fold_left (every_improvement_step inst) l a in
    r.1.2 = makespan_of inst r.1.1 /\ (r.2 = true <-> r.1.2 < mk0) /\ r.1.2 <= mk0).
  { induction l as [|c l IH]; intros a Ha; simpl; [exact Ha|].
    apply IH. apply every_improvement_step_makespan. exact Ha. }
  specialize (H (swap_pairs (Z.of_nat (length job_sequence))) (job_sequence, mk0, false)).
  simpl in H. destruct H as (H1 & H2 & H3).
  - split; [reflexivity|]. split; [|lia]. split; [discriminate | lia].
  - rewrite <- H1. auto.
Qed.

(** ** The improvement policies of the neighbourhood searches *)

(** C5, as amended.  On a valid instance, for a solution that is a
    permutation of the jobs: the agent's searches
    [Horse::apply2OptSearch] and [Horse::applyInsertionSearch] scan the
    position pairs in order, keep the first move that reduces the
    makespan and return [true] at once, and otherwise leave the order as
    it was and return [false]; [Solution::apply2Opt] scans all the pairs
    [i < j], keeps every swap that reduces the current makespan, reverts
    the others, goes on scanning after an improvement, and returns
    whether the makespan went down. *)
Theorem search_improvement_policies (inst : ProblemInstance) (s : Solution) :
  ProblemInstance_isValid inst = true -> wf_solution inst s ->
  (exists s',
     let r := first_improvement inst swap_move (swap_pairs (getNumJobs inst))
                (job_sequence_ s) in
     apply2OptSearch s = Ok (r.1, s') /\ job_sequence_ s' = r.2)
  /\ (exists s',
        let r := first_improvement inst insertion_move (insertion_pairs (getNumJobs inst))
                   (job_sequence_ s) in
        Horse_applyInsertionSearch s = Ok (r.1, s') /\ job_sequence_ s' = r.2)
  /\ (exists s',
        let r := every_improvement inst (job_sequence_ s) in
        apply2Opt s = Ok (r.2, s') /\ job_sequence_ s' = r.1.1
        /\ perm_of (getNumJobs inst) (job_sequence_ s')
        /\ (r.2 = true <->
            makespan_of inst (job_sequence_ s') < makespan_of inst (job_sequence_ s))).
Proof.
  intros Hv Hwf. split; [|split].
  - destruct (apply2OptSearch_first_improvement inst s Hv Hwf) as (s' & H1 & H2 & _).
    exists s'. split; assumption.
  - destruct (Horse_applyInsertionSearch_first_improvement inst s Hv Hwf) as (s' & H1 & H2 & _).
    exists s'. split; assumption.
  - destruct (apply2Opt_every_improvement inst s Hv Hwf) as (s' & H1 & H2 & Hwf').
    exists s'. split; [exact H1|]. split; [exact H2|]. split; [apply Hwf'|].
    rewrite H2. apply every_improvement_flag.
Qed.

Lemma example_order_wf :
  wf_solution example_instance (fresh_solution example_instance [1; 0; 3; 2]).
Proof.
  split; [reflexivity|]. split.
  - split; [reflexivity|]. split.
    + repeat (constructor; [unfold getNumJobs; simpl; lia|]). constructor.
    + apply (bool_decide_unpack _). vm_compute. exact I.
  - intros H. discriminate.
Qed.

(** [search_improvement_policies] at the order [[1; 0; 3; 2]] of the
    example instance: the agent's 2-opt stops at the swap of positions
    0 and 3, [Solution::apply2Opt] goes on to a second improvement. *)
Lemma search_improvement_policies_witness :
  (exists s', apply2OptSearch (fresh_solution example_instance [1; 0; 3; 2]) = Ok (true, s')
              /\ job_sequence_ s' = [2; 0; 3; 1])
  /\ (exists s', apply2Opt (fresh_solution example_instance [1; 0; 3; 2]) = Ok (true, s')
                 /\ job_sequence_ s' = [2; 1; 3; 0]).
Proof.
  destruct (search_improvement_policies example_instance
              (fresh_solution example_instance [1; 0; 3; 2]) eq_refl example_order_wf)
    as ((s1 & H1 & H1') & _ & (s3 & H3 & H3' & _)).
  split.
  - exists s1. split; [exact H1 | exact H1'].
  - exists s3. split; [exact H3 | exact H3'].
Defined.

(** C5 as stated fails for [Solution::apply2Opt]: from the order
    [[1; 0; 3; 2]] of the example instance (makespan 27) the first swap
    that reduces the makespan exchanges positions 0 and 3 and gives
    [[2; 0; 3; 1]] (makespan 25); [apply2Opt] does not return there, it
    also keeps the later swap of positions 1 and 3 and leaves
    [[2; 1; 3; 0]] (makespan 24). *)
Lemma apply2Opt_scans_past_first_improvement :
  makespan_of example_instance [1; 0; 3; 2] = 27
  /\ first_improvement example_instance swap_move (swap_pairs 4) [1; 0; 3; 2]
     = (true, [2; 0; 3; 1])
  /\ makespan_of example_instance [2; 0; 3; 1] = 25
  /\ makespan_of example_instance [2; 1; 3; 0] = 24
  /\ exists s', apply2Opt (fresh_solution example_instance [1; 0; 3; 2]) = Ok (true, s')
                /\ job_sequence_ s' = [2; 1; 3; 0]
                /\ job_sequence_ s' <> [2; 0; 3; 1].
Proof.
  split; [vm_compute; reflexivity|]. split; [vm_compute; reflexivity|].
  split; [vm_compute; reflexivity|]. split; [vm_compute; reflexivity|].
  eexists. split; [vm_compute; reflexivity|]. split; [reflexivity | discriminate].
Qed.

(** [Solution::applyInsertionSearch] edits [job_sequence_] without
    invalidating the cache: when the cache is filled, the candidate is
    compared by the cached makespan of the order before the move, and is
    reverted whatever its own makespan is. *)
Lemma applyInsertionSearch_step_stale_cache (i j : Z) (s : Solution) (improved : bool) :
  i <> j -> makespan_calculated_ s = true ->
  exists s', applyInsertionSearch_step i j (s, makespan_ s, improved)
             = Ok (s', makespan_ s, improved)
             /\ makespan_calculated_ s' = false.
Proof.
  intros Hne Hc. unfold applyInsertionSearch_step.
  rewrite (proj2 (Z.eqb_neq i j) Hne). unfold getMakespan. simpl. rewrite Hc. simpl.
  rewrite Z.ltb_irrefl. eexists. split; reflexivity.
Qed.

(** From the order [[1; 3; 2; 0]] of the example instance the insertion
    search of the solution ends on [[3; 2; 1; 0]], of makespan 25. *)
Lemma Solution_applyInsertionSearch_example :
  exists s', Solution_applyInsertionSearch (fresh_solution example_instance [1; 3; 2; 0])
             = Ok (true, s')
             /\ job_sequence_ s' = [3; 2; 1; 0]
             /\ makespan_of example_instance [3; 2; 1; 0] = 25.
Proof. eexists. split; [vm_compute; reflexivity|]. split; [reflexivity | vm_compute; reflexivity]. Qed.

(** ** Random neighbours *)

Lemma randInt_spec (min max : Z) (g : Random) :
  min <= max ->
  exists v, randInt min max g = Ok (v, advance g) /\ min <= v <= max.
Proof.
  intros Hle. unfold randInt. destruct (Z.gtb_spec min max); [lia|].
  unfold M_bind, raw_draw, M_ret. eexists. split; [reflexivity|].
  pose proof (Z.mod_pos_bound (tape g (cursor g)) (max - min + 1) ltac:(lia)). lia.
Qed.

Lemma randBool_half (g : Random) :
  randBool (1 # 2) g = Ok (tape g (cursor g) mod 2 ^ 53 <? 2 ^ 52, advance g).
Proof.
  unfold randBool, randDouble, M_bind, raw_draw, M_ret. simpl. f_equal. f_equal.
  unfold Qltb, Qle_bool. simpl.
  pose proof (Z.mod_pos_bound (tape g (cursor g)) (2 ^ 53) ltac:(lia)) as Hb.
  set (r := tape g (cursor g) mod 2 ^ 53) in *.
  destruct (Z.ltb_spec r (2 ^ 52)) as [H|H];
    destruct (Z.leb_spec (1 * Z.pos (2 ^ 53)) (r * 2)) as [H'|H']; simpl; try reflexivity; lia.
Qed.

Lemma createSwapNeighbor_wf (inst : ProblemInstance) (s : Solution) (g : Random) :
  ProblemInstance_isValid inst = true -> wf_solution inst s ->
  exists s', createSwapNeighbor s g = Ok (s', advance (advance g)) /\ wf_solution inst s'.
Proof.
  intros Hv Hwf. pose proof Hwf as (Hi & (Hl & _) & _).
  pose proof (ProblemInstance_isValid_dims inst Hv) as (Hn & _).
  unfold createSwapNeighbor, M_bind. unfold getNumJobs in *. rewrite Hl.
  destruct (randInt_spec 0 (num_jobs_ inst - 1) g ltac:(lia)) as (pos1 & -> & Hp1).
  destruct (randInt_spec 0 (num_jobs_ inst - 1) (advance g) ltac:(lia)) as (pos2 & -> & Hp2).
  destruct (swapJobs_wf inst s pos1 pos2 Hwf) as (s' & -> & _ & Hwf');
    [unfold getNumJobs; lia | unfold getNumJobs; lia |].
  simpl. exists s'. split; [reflexivity | exact Hwf'].
Qed.

Lemma createInsertNeighbor_wf (inst : ProblemInstance) (s : Solution) (g : Random) :
  ProblemInstance_isValid inst = true -> wf_solution inst s ->
  exists s', createInsertNeighbor s g = Ok (s', advance (advance g)) /\ wf_solution inst s'.
Proof.
  intros Hv Hwf. pose proof Hwf as (Hi & Hp & _). pose proof Hp as (Hl & _).
  pose proof (ProblemInstance_isValid_dims inst Hv) as (Hn & _).
  unfold createInsertNeighbor, M_bind. unfold getNumJobs in *. rewrite Hl.
  destruct (randInt_spec 0 (num_jobs_ inst - 1) g ltac:(lia)) as (from_pos & -> & Hp1).
  destruct (randInt_spec 0 (num_jobs_ inst - 1) (advance g) ltac:(lia)) as (to_pos & -> & Hp2).
  destruct (from_pos =? to_pos); simpl.
  - exists s. split; [reflexivity | exact Hwf].
  - eexists. split; [reflexivity|]. apply invalidateCache_wf; [exact Hi|].
    eapply perm_of_Permutation; [|exact Hp]. apply relocate_Permutation. lia.
Qed.

Lemma roam_move_wf (inst : ProblemInstance) (s : Solution) (g : Random) :
  ProblemInstance_isValid inst = true -> wf_solution inst s ->
  exists s', roam_move s g = Ok (s', advance (advance (advance g))) /\ wf_solution inst s'.
Proof.
  intros Hv Hwf. unfold roam_move, M_bind. rewrite randBool_half.
  destruct (tape g (cursor g) mod 2 ^ 53 <? 2 ^ 52).
  - apply createSwapNeighbor_wf; assumption.
  - apply createInsertNeighbor_wf; assumption.
Qed.

Lemma neighbor_moves_wf (inst : ProblemInstance) (k : nat) (s : Solution) (g : Random) :
  ProblemInstance_isValid inst = true -> wf_solution inst s ->
  exists s' g', neighbor_moves k s g = Ok (s', g') /\ wf_solution inst s'
                /\ tape g' = tape g /\ cursor g' = (cursor g + 3 * k)%nat.
Proof.
  intros Hv. revert s g. induction k as [|k IH]; intros s g Hwf; simpl.
  - exists s, g. unfold M_ret. split; [reflexivity|]. split; [exact Hwf|]. split; [reflexivity | lia].
  - unfold M_bind. destruct (roam_move_wf inst s g Hv Hwf) as (s1 & -> & Hwf1).
    destruct (IH s1 (advance (advance (advance g))) Hwf1) as (s' & g' & Hrun & Hwf' & Ht & Hc).
    exists s', g'. split; [exact Hrun|]. split; [exact Hwf'|]. simpl in *. split; [exact Ht | lia].
Qed.

Lemma forM_neighbor_moves (lo k : Z) (s : Solution) (g : Random) :
  forM lo (lo + k) (fun _ new_solution => roam_move new_solution) s g
  = neighbor_moves (Z.to_nat k) s g.
Proof.
  unfold forM. replace (lo + k - lo) with k by lia.
  remember (Z.to_nat k) as n eqn:Hn. revert lo k s g Hn.
  induction n as [|n IH]; intros lo k s g Hn.
  - rewrite seqZ_nil by lia. reflexivity.
  - rewrite seqZ_cons by lia. simpl. unfold M_bind.
    destruct (roam_move s g) as [[s1 g1]| | |]; try reflexivity.
    rewrite (IH (Z.succ lo) (Z.pred k)) by lia. reflexivity.
Qed.

Lemma Qltb_spec (a b : Q) : reflect (a < b)%Q (Qltb a b).
Proof.
  unfold Qltb. destruct (Qle_bool b a) eqn:E; constructor.
  - apply Qle_bool_iff in E. apply Qle_not_lt. exact E.
  - apply Qnot_le_lt. intros H. apply Qle_bool_iff in H. congruence.
Qed.

(** [Horse::roam]: the rate is checked, then the moves are made from the
    current solution. *)
Lemma roam_spec (exploration_rate : Q) (h : Horse) (g : Random) :
  roam exploration_rate h g =
    if Qltb exploration_rate 0 || Qltb 1 exploration_rate then Throw invalid_argument
    else neighbor_moves
           (Z.to_nat (roam_num_moves exploration_rate (Solution_getNumJobs (solution_ h))))
           (solution_ h) g.
Proof.
  unfold roam. destruct (Qltb exploration_rate 0 || Qltb 1 exploration_rate); [reflexivity|].
  apply (forM_neighbor_moves 0).
Qed.

Lemma roam_total (inst : ProblemInstance) (exploration_rate : Q) (h : Horse) (g : Random) :
  ProblemInstance_isValid inst = true -> wf_solution inst (solution_ h) ->
  (0 <= exploration_rate <= 1)%Q ->
  exists s' g',
    roam exploration_rate h g = Ok (s', g') /\ wf_solution inst s'
    /\ tape g' = tape g
    /\ Z.of_nat (cursor g') = Z.of_nat (cursor g)
         + 3 * roam_num_moves exploration_rate (getNumJobs inst).
Proof.
  intros Hv Hwf [H0 H1]. rewrite roam_spec.
  destruct (Qltb_spec exploration_rate 0) as [H|_]; [exfalso; revert H; apply Qle_not_lt, H0|].
  destruct (Qltb_spec 1 exploration_rate) as [H|_]; [exfalso; revert H; apply Qle_not_lt, H1|].
  simpl. pose proof Hwf as (_ & (Hl & _) & _). unfold Solution_getNumJobs. rewrite Hl.
  destruct (neighbor_moves_wf inst
              (Z.to_nat (roam_num_moves exploration_rate (getNumJobs inst)))
              (solution_ h) g Hv Hwf) as (s' & g' & Hrun & Hwf' & Ht & Hc).
  exists s', g'. split; [exact Hrun|]. split; [exact Hwf'|]. split; [exact Ht|].
  unfold roam_num_moves in *. lia.
Qed.

(** C6, as amended.  On a valid instance, for an agent whose current
    solution is a permutation of the [n] jobs: with [explorationRate] in
    [[0, 1]], [roam] makes exactly
    [max(1, trunc(explorationRate * n * 0.5))] random neighbour moves in
    a row from the current solution, where the two products are taken in
    double precision, each rounded to the nearest double, and the result
    is truncated towards zero, not rounded; each move is a swap
    neighbour when the uniform draw is below one half and an insert
    neighbour otherwise, and [roam] returns the solution reached, a
    permutation again; it throws [invalid_argument] when
    [explorationRate] is outside [[0, 1]].  The agent is not among the
    results of [roam]: the source writes none of its members.  The
    count is 1 for the rate 0.5 on 7 jobs (the product is 1.75), 7 for
    0.7 on 20 jobs (the product is exactly 7.0 in doubles) and 28 for
    0.58 on 100 jobs (the product is 28.999999999999996). *)
Theorem roam_truncated_move_count (inst : ProblemInstance) (exploration_rate : Q)
    (h : Horse) (g : Random) :
  ProblemInstance_isValid inst = true -> wf_solution inst (solution_ h) ->
  ((0 <= exploration_rate <= 1)%Q ->
     let k := Z.max 1 (trunc (dmul (dmul exploration_rate (inject_Z (getNumJobs inst)))
                                   (1 # 2))) in
     roam exploration_rate h g = neighbor_moves (Z.to_nat k) (solution_ h) g
     /\ exists s' g',
          roam exploration_rate h g = Ok (s', g')
          /\ instance_ s' = inst /\ perm_of (getNumJobs inst) (job_sequence_ s')
          /\ Z.of_nat (cursor g') = Z.of_nat (cursor g) + 3 * k)
  /\ ((exploration_rate < 0 \/ 1 < exploration_rate)%Q ->
      roam exploration_rate h g = Throw invalid_argument)
  /\ (forall s g0,
        roam_move s g0 =
          if tape g0 (cursor g0) mod 2 ^ 53 <? 2 ^ 52
          then createSwapNeighbor s (advance g0)
          else createInsertNeighbor s (advance g0))
  /\ (roam_num_moves (1 # 2) 7 = 1
      /\ roam_num_moves (7 # 10) 20 = 7
      /\ roam_num_moves (58 # 100) 100 = 28).
Proof.
  intros Hv Hwf. split; [|split; [|split]].
  - intros Hr. split.
    + rewrite roam_spec. destruct Hr as [H0 H1].
      destruct (Qltb_spec exploration_rate 0) as [H|_];
        [exfalso; revert H; apply Qle_not_lt, H0|].
      destruct (Qltb_spec 1 exploration_rate) as [H|_];
        [exfalso; revert H; apply Qle_not_lt, H1|].
      simpl. destruct Hwf as (_ & (Hl & _) & _). unfold Solution_getNumJobs. rewrite Hl.
      reflexivity.
    + destruct (roam_total inst exploration_rate h g Hv Hwf Hr)
        as (s' & g' & Hrun & (Hi & Hp & _) & _ & Hc).
      exists s', g'. auto.
  - intros Hout. rewrite roam_spec.
    destruct (Qltb_spec exploration_rate 0) as [H|H0]; [reflexivity|].
    destruct (Qltb_spec 1 exploration_rate) as [H|H1]; [reflexivity|].
    destruct Hout; contradiction.
  - intros s g0. unfold roam_move, M_bind. rewrite randBool_half.
    destruct (tape g0 (cursor g0) mod 2 ^ 53 <? 2 ^ 52); reflexivity.
  - repeat split; vm_compute; reflexivity.
Qed.

Lemma seven_jobs_horse_wf : wf_solution seven_jobs_instance (solution_ seven_jobs_horse).
Proof.
  split; [reflexivity|]. split.
  - split; [reflexivity|]. split.
    + repeat (constructor; [unfold getNumJobs; simpl; lia|]). constructor.
    + apply (bool_decide_unpack _). vm_compute. exact I.
  - intros H. discriminate.
Qed.

(** [roam_truncated_move_count] for the rate [1/2] on seven jobs: one
    move, three draws. *)
Lemma roam_truncated_move_count_witness :
  exists s' g',
    roam (1 # 2) seven_jobs_horse (mkRandom (fun _ => 0) 0) = Ok (s', g')
    /\ Z.of_nat (cursor g') = 3.
Proof.
  destruct (roam_truncated_move_count seven_jobs_instance (1 # 2) seven_jobs_horse
              (mkRandom (fun _ => 0) 0) eq_refl seven_jobs_horse_wf) as (H & _).
  destruct H as (_ & s' & g' & Hrun & _ & _ & Hc).
  - split; unfold Qle; simpl; lia.
  - exists s', g'. split; [exact Hrun | exact Hc].
Defined.

(** C6 as stated fails: for the rate [0.5] on seven jobs the product is
    [0.5 * 7 * 0.5 = 1.75], exactly so in doubles, which rounds to 2
    moves, but [roam] makes one move only, from three draws of the random
    source. *)
Lemma roam_truncates_the_move_count :
  roam_num_moves_rounded (1 # 2) 7 = 2
  /\ roam_num_moves (1 # 2) 7 = 1
  /\ forall g, exists s' g',
       roam (1 # 2) seven_jobs_horse g = Ok (s', g')
       /\ roam (1 # 2) seven_jobs_horse g = neighbor_moves 1 (solution_ seven_jobs_horse) g
       /\ cursor g' = (cursor g + 3)%nat.
Proof.
  assert (E : roam_num_moves (1 # 2) 7 = 1) by (vm_compute; reflexivity).
  split; [reflexivity|]. split; [exact E|]. intros g.
  destruct (roam_total seven_jobs_instance (1 # 2) seven_jobs_horse g eq_refl
              seven_jobs_horse_wf) as (s' & g' & Hrun & _ & _ & Hc).
  - split; unfold Qle; simpl; lia.
  - exists s', g'. split; [exact Hrun|].
    change (getNumJobs seven_jobs_instance) with 7 in Hc. rewrite E in Hc.
    split; [|lia]. rewrite roam_spec.
    change (Solution_getNumJobs (solution_ seven_jobs_horse)) with 7. rewrite E. reflexivity.
Qed.

(** ** The leader of the herd *)

(** Inversion of the sequencing of computations. *)
Lemma M_bind_Ok {A B : Type} (m : M A) (f : A -> M B) (g : Random) (r : B * Random) :
  M_bind m f g = Ok r -> exists a g1, m g = Ok (a, g1) /\ f a g1 = Ok r.
Proof.
  unfold M_bind. destruct (m g) as [[a g1]| | |]; try discriminate.
  intros H. exists a, g1. split; [reflexivity | exact H].
Qed.

Lemma liftR_Ok {A : Type} (r : result A) (g : Random) (x : A * Random) :
  liftR r g = Ok x -> r = Ok x.1 /\ x.2 = g.
Proof.
  unfold liftR. destruct r; try discriminate. intros H. injection H as <-. split; reflexivity.
Qed.

Lemma result_bind_Ok {A B : Type} (r : result A) (f : A -> result B) (b : B) :
  result_bind r f = Ok b -> exists a, r = Ok a /\ f a = Ok b.
Proof.
  destruct r; try discriminate. simpl. intros H. eexists. split; [reflexivity | exact H].
Qed.

Ltac inv_M H :=
  lazymatch type of H with
  | M_bind _ _ _ = Ok _ =>
      let a := fresh "a" in let g := fresh "g" in
      let H1 := fresh "Hrun" in let H2 := fresh "Hrun" in
      apply M_bind_Ok in H as (a & g & H1 & H2)
  | liftR _ _ = Ok _ =>
      let H1 := fresh "Hrun" in let H2 := fresh "Hg" in
      apply liftR_Ok in H as (H1 & H2); simpl in H1, H2; subst
  | result_bind _ _ = Ok _ =>
      let a := fresh "a" in
      let H1 := fresh "Hrun" in let H2 := fresh "Hrun" in
      apply result_bind_Ok in H as (a & H1 & H2)
  | M_ret _ _ = Ok _ => unfold M_ret in H; injection H as <- <-
  end.

(** Invert every step of a run that returned. *)
Ltac inv_run :=
  repeat match goal with
  | H : M_bind _ _ _ = Ok _ |- _ => inv_M H
  | H : liftR _ _ = Ok _ |- _ => inv_M H
  | H : M_ret _ _ = Ok _ |- _ => inv_M H
  | H : (let (_, _) := ?a in _) _ = Ok _ |- _ => destruct a eqn:?
  | H : (let (_, _) := ?a in _) = Ok _ |- _ => destruct a eqn:?
  end.

Lemma foldM_Ok_inv {S I : Type} (P : S -> Prop) (body : I -> S -> M S) (l : list I) :
  (forall i s g s' g', body i s g = Ok (s', g') -> P s -> P s') ->
  forall s g s' g', foldM body l s g = Ok (s', g') -> P s -> P s'.
Proof.
  intros Hbody. induction l as [|i l IH]; intros s g s' g' H HP; simpl in H.
  - unfold M_ret in H. injection H as <- <-. exact HP.
  - apply M_bind_Ok in H as (s1 & g1 & H1 & H2).
    eapply IH; [exact H2|]. eapply Hbody; [exact H1 | exact HP].
Qed.

Lemma foldM_break_Ok_inv {S I : Type} (P : S -> Prop) (body : I -> S -> M (S * bool))
    (l : list I) :
  (forall i s g s' b g', body i s g = Ok ((s', b), g') -> P s -> P s') ->
  forall s g s' g', foldM_break body l s g = Ok (s', g') -> P s -> P s'.
Proof.
  intros Hbody. induction l as [|i l IH]; intros s g s' g' H HP; simpl in H.
  - unfold M_ret in H. injection H as <- <-. exact HP.
  - apply M_bind_Ok in H as ([s1 b] & g1 & H1 & H2).
    assert (HP1 : P s1) by (eapply Hbody; [exact H1 | exact HP]).
    destruct b.
    + unfold M_ret in H2. injection H2 as <- <-. exact HP1.
    + eapply IH; [exact H2 | exact HP1].
Qed.

Lemma getMakespan_same (s : Solution) (mk : Z) (s' : Solution) :
  getMakespan s = Ok (mk, s') ->
  job_sequence_ s' = job_sequence_ s /\ instance_ s' = instance_ s.
Proof.
  unfold getMakespan. destruct (makespan_calculated_ s); simpl.
  - intros H. injection H as <- <-. split; reflexivity.
  - intros H. apply result_bind_Ok in H as (s1 & H1 & H2). injection H2 as <- <-.
    unfold calculateMakespan in H1. apply result_bind_Ok in H1 as (C & _ & H1).
    injection H1 as <-. split; reflexivity.
Qed.

Lemma copy_of_refl (h : Horse) : copy_of h h.
Proof. unfold copy_of. repeat split. Qed.

Lemma copy_of_trans (h1 h2 h3 : Horse) : copy_of h1 h2 -> copy_of h2 h3 -> copy_of h1 h3.
Proof.
  unfold copy_of. intros H12 H23. destruct_and!. repeat split; congruence.
Qed.

Lemma getBestMakespan_copy (h : Horse) (mk : Z) (h' : Horse) :
  getBestMakespan h = Ok (mk, h') -> copy_of h h' /\ is_leader_ h' = is_leader_ h.
Proof.
  unfold getBestMakespan. intros H. apply result_bind_Ok in H as ([mk' s'] & H1 & H2).
  injection H2 as <- <-. apply getMakespan_same in H1 as [Hs Hi].
  unfold copy_of. simpl. repeat split; assumption.
Qed.

Lemma mark_leader_copy (hs : list Horse) (leader : Horse) (hs' : list Horse)
    (leader' : Horse) :
  mark_leader hs leader = Ok (hs', leader') ->
  copy_of leader leader' /\ is_leader_ leader' = is_leader_ leader
  /\ Forall2 copy_of hs hs'.
Proof.
  revert leader hs' leader'. induction hs as [|h hs IH]; intros leader hs' leader' H; simpl in H.
  - injection H as <- <-. split; [apply copy_of_refl|]. split; [reflexivity | constructor].
  - apply result_bind_Ok in H as ([mk1 h1] & H1 & H). simpl in H.
    apply result_bind_Ok in H as ([mk2 l1] & H2 & H). simpl in H.
    apply getBestMakespan_copy in H1 as [Hc1 _]. apply getBestMakespan_copy in H2 as [Hc2 Hl2].
    destruct (mk1 =? mk2).
    + injection H as <- <-. split; [exact Hc2|]. split; [exact Hl2|].
      constructor; [exact Hc1|]. apply Forall2_same_length_lookup_2; [reflexivity|].
      intros i x y Hx Hy. rewrite Hx in Hy. injection Hy as <-. apply copy_of_refl.
    + apply result_bind_Ok in H as ([rest' l2] & H3 & H). injection H as <- <-.
      apply IH in H3 as (Hc3 & Hl3 & HF). split; [eapply copy_of_trans; eassumption|].
      split; [congruence|]. constructor; assumption.
Qed.

(** [updateLeader]: the stored leader is replaced only by a horse of
    strictly greater best fitness. *)
Lemma updateLeader_spec (herd : HorseHerd) (changed : bool) (herd' : HorseHerd) :
  updateLeader herd = Ok (changed, herd') ->
  (changed = true ->
     exists best, getBestHorse herd = Ok best
       /\ (best_fitness_ (leader_ herd) < best_fitness_ best)%Q
       /\ copy_of best (leader_ herd') /\ is_leader_ (leader_ herd') = true)
  /\ (changed = false ->
        copy_of (leader_ herd) (leader_ herd')
        /\ is_leader_ (leader_ herd') = is_leader_ (leader_ herd)
        /\ forall best, getBestHorse herd = Ok best ->
             (best_fitness_ best <= best_fitness_ (leader_ herd))%Q)
  /\ Forall2 copy_of (horses_ herd) (horses_ herd').
Proof.
  unfold updateLeader, getBestHorse. destruct (horses_ herd) as [|h rest] eqn:Hhs.
  - intros H. injection H as <- <-. split; [discriminate|]. split.
    + intros _. split; [apply copy_of_refl|]. split; [reflexivity|]. intros best H. discriminate.
    + rewrite Hhs. constructor.
  - set (best := max_element_from h rest). cbv beta iota zeta.
    change (result_bind (Ok best)) with (fun f : Horse -> result (bool * HorseHerd) => f best).
    cbv beta.
    destruct (Qltb_spec (best_fitness_ (leader_ herd)) (best_fitness_ best)) as [Hlt|Hge];
      intros H; apply result_bind_Ok in H as ([hs' l'] & H1 & H); injection H as <- <-;
      apply mark_leader_copy in H1 as (Hc & Hl & HF); simpl.
    + split; [|split; [discriminate|]].
      * intros _. exists best. split; [reflexivity|]. split; [exact Hlt|].
        split; [|rewrite Hl; reflexivity].
        eapply copy_of_trans; [|exact Hc]. unfold copy_of. simpl. repeat split.
      * eapply Forall2_trans; [apply copy_of_trans | | exact HF].
        change (map (setLeader false) (h :: rest)) with (setLeader false <$> (h :: rest)).
        apply Forall2_fmap_r, Forall_Forall2_diag, Forall_forall. intros x _.
        unfold copy_of. simpl. repeat split.
    + split; [discriminate|]. split.
      * intros _. split; [exact Hc|]. split; [exact Hl|].
        intros b Hb. injection Hb as <-. apply Qnot_lt_le. exact Hge.
      * eapply Forall2_trans; [apply copy_of_trans | | exact HF].
        change (map (setLeader false) (h :: rest)) with (setLeader false <$> (h :: rest)).
        apply Forall2_fmap_r, Forall_Forall2_diag, Forall_forall. intros x _.
        unfold copy_of. simpl. repeat split.
Qed.

Lemma leader_le_refl (herd : HorseHerd) : leader_le herd herd.
Proof. apply Qle_refl. Qed.

Lemma leader_le_trans (h1 h2 h3 : HorseHerd) :
  leader_le h1 h2 -> leader_le h2 h3 -> leader_le h1 h3.
Proof. apply Qle_trans. Qed.

Lemma leader_le_same (herd herd' : HorseHerd) :
  leader_ herd' = leader_ herd -> leader_le herd herd'.
Proof. unfold leader_le, leader_fitness. intros ->. apply Qle_refl. Qed.

Lemma updateLeader_leader_le (herd : HorseHerd) (changed : bool) (herd' : HorseHerd) :
  updateLeader herd = Ok (changed, herd') -> leader_le herd herd'.
Proof.
  intros H. apply updateLeader_spec in H as (Ht & Hf & _).
  unfold leader_le, leader_fitness. destruct changed.
  - destruct (Ht eq_refl) as (best & _ & Hlt & Hc & _).
    destruct Hc as (_ & _ & _ & _ & _ & -> & _). apply Qlt_le_weak. exact Hlt.
  - destruct (Hf eq_refl) as (Hc & _). destruct Hc as (_ & _ & _ & _ & _ & -> & _).
    apply Qle_refl.
Qed.

Lemma refresh_leader_leader_le (count : Z) (herd : HorseHerd) (g : Random)
    (r : Z * HorseHerd) (g' : Random) :
  refresh_leader count herd g = Ok (r, g') -> leader_le herd r.2.
Proof.
  unfold refresh_leader. destruct (count >? 0); intros H.
  - inv_M H. destruct a as [c herd1]. inv_M Hrun. inv_M Hrun0. simpl.
    eapply updateLeader_leader_le. exact Hrun1.
  - inv_M H. apply leader_le_refl.
Qed.

Ltac leader_pass H :=
  inv_M H;
  match goal with
  | Hloop : for_each_horse _ _ _ _ = Ok (?a, _) |- _ => destruct a
  end;
  match goal with
  | Hr : refresh_leader _ _ _ = Ok _ |- _ =>
      apply refresh_leader_leader_le in Hr; exact Hr
  end.

Lemma performGrazing_leader_le (intensity : Q) (herd : HorseHerd) (g : Random)
    (r : Z * HorseHerd) (g' : Random) :
  performGrazing intensity herd g = Ok (r, g') -> leader_le herd r.2.
Proof. unfold performGrazing. intros H. leader_pass H. Qed.

Lemma performRoaming_leader_le (roaming_rate exploration_rate : Q) (herd : HorseHerd)
    (g : Random) (r : Z * HorseHerd) (g' : Random) :
  performRoaming roaming_rate exploration_rate herd g = Ok (r, g') -> leader_le herd r.2.
Proof. unfold performRoaming. intros H. leader_pass H. Qed.

Lemma performFollowing_leader_le (following_rate : Q) (herd : HorseHerd) (g : Random)
    (r : Z * HorseHerd) (g' : Random) :
  performFollowing following_rate herd g = Ok (r, g') -> leader_le herd r.2.
Proof. unfold performFollowing. intros H. leader_pass H. Qed.

Lemma performMutation_leader_le (mutation_rate : Q) (herd : HorseHerd) (g : Random)
    (r : Z * HorseHerd) (g' : Random) :
  performMutation mutation_rate herd g = Ok (r, g') -> leader_le herd r.2.
Proof. unfold performMutation. intros H. leader_pass H. Qed.

Lemma rejuvenateStagnantHorses_leader_le (max_stagnation : Z) (herd : HorseHerd) (g : Random)
    (r : Z * HorseHerd) (g' : Random) :
  rejuvenateStagnantHorses max_stagnation herd g = Ok (r, g') -> leader_le herd r.2.
Proof. unfold rejuvenateStagnantHorses. intros H. leader_pass H. Qed.

Lemma improveElite_leader_le (num_horses : Z) (herd : HorseHerd) (g : Random)
    (r : Z * HorseHerd) (g' : Random) :
  improveElite num_horses herd g = Ok (r, g') -> leader_le herd r.2.
Proof. unfold improveElite. intros H. leader_pass H. Qed.

Lemma performMating_event_leader (fuel : nat) (crossover_rate : Q) (st : HorseHerd * Z)
    (g : Random) (st' : HorseHerd * Z) (g' : Random) :
  performMating_event fuel crossover_rate st g = Ok (st', g') -> leader_ st'.1 = leader_ st.1.
Proof.
  unfold performMating_event. destruct st as [herd count]. intros H. inv_run.
  destruct (selectForReplacement 1 herd) as [|weak_idx rest]; inv_run; reflexivity.
Qed.

Lemma performMating_leader_le (fuel : nat) (mating_rate crossover_rate : Q)
    (herd : HorseHerd) (g : Random) (r : Z * HorseHerd) (g' : Random) :
  performMating fuel mating_rate crossover_rate herd g = Ok (r, g') -> leader_le herd r.2.
Proof.
  unfold performMating. intros H. inv_M H. destruct a as [herd1 count].
  apply refresh_leader_leader_le in Hrun0.
  eapply leader_le_trans; [|exact Hrun0]. apply leader_le_same.
  unfold forM in Hrun.
  apply (foldM_Ok_inv (fun st : HorseHerd * Z => leader_ st.1 = leader_ herd)) in Hrun;
    [exact Hrun | | reflexivity].
  intros i st g1 st' g1' Hev HP. apply performMating_event_leader in Hev. congruence.
Qed.

Lemma replaceWeakHorses_leader_le (replacement_rate : Q) (herd : HorseHerd) (g : Random)
    (r : Z * HorseHerd) (g' : Random) :
  replaceWeakHorses replacement_rate herd g = Ok (r, g') -> leader_le herd r.2.
Proof.
  unfold replaceWeakHorses.
  destruct (trunc (dmul (inject_Z (Z.of_nat (length (horses_ herd)))) replacement_rate) =? 0);
    intros H.
  - inv_M H. apply leader_le_refl.
  - inv_run. simpl.
    match goal with H : updateLeader _ = Ok _ |- _ => apply updateLeader_leader_le in H; exact H end.
Qed.

(** Turn the runs of the herd operations into facts on the leader. *)
Ltac leader_facts :=
  repeat match goal with
  | H : performGrazing _ _ _ = Ok _ |- _ => apply performGrazing_leader_le in H; simpl in H
  | H : performRoaming _ _ _ _ = Ok _ |- _ => apply performRoaming_leader_le in H; simpl in H
  | H : performFollowing _ _ _ = Ok _ |- _ =>
      apply performFollowing_leader_le in H; simpl in H
  | H : performMating _ _ _ _ _ = Ok _ |- _ => apply performMating_leader_le in H; simpl in H
  | H : performMutation _ _ _ = Ok _ |- _ => apply performMutation_leader_le in H; simpl in H
  | H : replaceWeakHorses _ _ _ = Ok _ |- _ =>
      apply replaceWeakHorses_leader_le in H; simpl in H
  | H : rejuvenateStagnantHorses _ _ _ = Ok _ |- _ =>
      apply rejuvenateStagnantHorses_leader_le in H; simpl in H
  | H : improveElite _ _ _ = Ok _ |- _ => apply improveElite_leader_le in H; simpl in H
  | H : updateLeader _ = Ok _ |- _ => apply updateLeader_leader_le in H; simpl in H
  end.

Ltac leader_chain :=
  unfold leader_le, leader_fitness in *; simpl in *;
  solve [ repeat first [ eassumption | apply Qle_refl
                       | eapply Qle_trans; [eassumption|] ] ].

Lemma calculateDiversity_leader (herd : HorseHerd) :
  leader_ (calculateDiversity herd).2 = leader_ herd.
Proof.
  unfold calculateDiversity. destruct (Z.of_nat (length (horses_ herd)) <? 2); [reflexivity|].
  destruct (pairwise_distance (horses_ herd) (0%Q, 0)). reflexivity.
Qed.

Lemma applyDiversityPreservation_leader_le (diversity : Q) (a : HHOA) (g : Random)
    (r : bool * HHOA) (g' : Random) :
  applyDiversityPreservation diversity a g = Ok (r, g') -> leader_le (herd_ a) (herd_ r.2).
Proof.
  unfold applyDiversityPreservation.
  destruct (Qleb (diversity_threshold (parameters_ a)) diversity); intros H; inv_run; simpl.
  - apply leader_le_refl.
  - leader_facts. assumption.
Qed.

Lemma executeIteration_leader_le (iteration : Z) (a : HHOA) (g : Random)
    (r : bool * HHOA) (g' : Random) :
  executeIteration iteration a g = Ok (r, g') -> leader_le (herd_ a) (herd_ r.2).
Proof.
  unfold executeIteration. intros H. inv_run.
  repeat match goal with
  | H : (if ?c then _ else _) _ = Ok _ |- _ => destruct c; inv_run
  | H : context [let (_, _) := (if ?c then _ else _) in _] |- _ => destruct c; inv_run
  end;
  repeat match goal with
  | H : applyDiversityPreservation _ _ _ = Ok _ |- _ =>
      apply applyDiversityPreservation_leader_le in H; simpl in H
  | H : calculateDiversity ?h = (_, ?h') |- _ =>
      let E := fresh "E" in
      pose proof (calculateDiversity_leader h) as E; rewrite H in E; simpl in E; clear H
  end;
  leader_facts; unfold ageHorses, leader_le, leader_fitness in *; simpl in *;
  repeat match goal with E : leader_ _ = leader_ _ |- _ => rewrite E in *; clear E end;
  leader_chain.
Qed.

Lemma recordStatistics_herd (a a' : HHOA) :
  recordStatistics a = Ok a' -> herd_ a' = herd_ a.
Proof.
  unfold recordStatistics. intros H.
  apply result_bind_Ok in H as (best & _ & H).
  apply result_bind_Ok in H as ([mk s] & _ & H). injection H as <-. reflexivity.
Qed.

Lemma optimize_body_leader_le (iteration : Z) (ls : loop_state) (g : Random)
    (ls' : loop_state) (brk : bool) (g' : Random) :
  optimize_body iteration ls g = Ok ((ls', brk), g') ->
  leader_le (herd_ (algo ls)) (herd_ (algo ls')).
Proof.
  unfold optimize_body. intros H.
  apply M_bind_Ok in H as ([improved a1] & g1 & Hiter & H).
  apply M_bind_Ok in H as (a2 & g2 & Hrec & H). apply liftR_Ok in Hrec as [Hrec _].
  apply M_bind_Ok in H as (mk & g3 & _ & H). simpl in Hrec.
  apply executeIteration_leader_le in Hiter. simpl in Hiter.
  apply recordStatistics_herd in Hrec. rewrite <- Hrec in Hiter.
  set (st3 := if mk <? best_makespan ls then _ else _) in H.
  assert (Hst3 : herd_ st3.2 = herd_ a2).
  { unfold st3. destruct (mk <? best_makespan ls); reflexivity. }
  destruct st3 as [[bm sc] a3]. simpl in Hst3.
  set (a4 := if adaptive_parameters (parameters_ a3) then _ else _) in H.
  assert (Ha4 : herd_ a4 = herd_ a2).
  { unfold a4. destruct (adaptive_parameters (parameters_ a3)); simpl; exact Hst3. }
  clearbody a4. apply M_bind_Ok in H as (stop & g4 & _ & H).
  destruct stop; unfold M_ret in H; injection H as <- _ _; simpl;
    unfold leader_le, leader_fitness in *; simpl; rewrite ?Ha4; exact Hiter.
Qed.

Lemma HorseHerd_initialize_leader_le (random_ratio : Q) (herd : HorseHerd) (g : Random)
    (herd' : HorseHerd) (g' : Random) :
  HorseHerd_initialize random_ratio herd g = Ok (herd', g') -> leader_le herd herd'.
Proof.
  unfold HorseHerd_initialize.
  destruct (Qltb random_ratio 0 || Qltb 1 random_ratio); [discriminate|].
  intros H. apply M_bind_Ok in H as (hs1 & g1 & _ & H).
  apply M_bind_Ok in H as (hs2 & g2 & _ & H).
  apply M_bind_Ok in H as ([c herd1] & g3 & Hup & H). apply liftR_Ok in Hup as [Hup _].
  unfold M_ret in H. injection H as <- _. simpl in Hup.
  apply updateLeader_leader_le in Hup.
  unfold leader_le, leader_fitness in *. rewrite calculateDiversity_leader. exact Hup.
Qed.

Lemma optimize_for_leader_le (iterations : Z) (a : HHOA) (g : Random)
    (best : Solution) (a' : HHOA) (g' : Random) :
  optimize_for iterations a g = Ok ((best, a'), g') -> leader_le (herd_ a) (herd_ a').
Proof.
  unfold optimize_for, HHOA_initialize. intros H.
  apply M_bind_Ok in H as (a1 & g1 & Hinit & H).
  apply M_bind_Ok in Hinit as (herd1 & g0 & Hinit & Hret).
  unfold M_ret in Hret. injection Hret as <- _.
  apply M_bind_Ok in H as (mk & g2 & _ & H).
  apply M_bind_Ok in H as (ls & g3 & Hloop & H).
  apply M_bind_Ok in H as (b & g4 & _ & H). unfold M_ret in H. injection H as _ <- _.
  apply HorseHerd_initialize_leader_le in Hinit.
  eapply leader_le_trans; [exact Hinit|].
  unfold forM_break in Hloop.
  apply (foldM_break_Ok_inv (fun ls => leader_le herd1 (herd_ (algo ls)))) in Hloop.
  - exact Hloop.
  - intros i s g5 s' b' g5' Hbody HP. apply optimize_body_leader_le in Hbody.
    eapply leader_le_trans; [exact HP | exact Hbody].
  - apply leader_le_refl.
Qed.

(** C3.  [updateLeader] replaces the stored leader only when the best
    horse of the herd has a strictly greater best fitness; it then
    installs a copy of that horse, flagged as leader, and returns
    [true]; otherwise the stored leader is kept and [false] is returned.
    Hence every iteration of the run leaves the leader's best fitness
    at least what it was, and so does the whole run. *)
Theorem leader_fitness_never_regresses :
  (forall herd changed herd',
     updateLeader herd = Ok (changed, herd') ->
     (changed = true ->
        exists best, getBestHorse herd = Ok best
          /\ (best_fitness_ (leader_ herd) < best_fitness_ best)%Q
          /\ copy_of best (leader_ herd') /\ is_leader_ (leader_ herd') = true)
     /\ (changed = false ->
           copy_of (leader_ herd) (leader_ herd')
           /\ forall best, getBestHorse herd = Ok best ->
                (best_fitness_ best <= best_fitness_ (leader_ herd))%Q)
     /\ (leader_fitness herd <= leader_fitness herd')%Q)
  /\ (forall iteration ls g ls' brk g',
        optimize_body iteration ls g = Ok ((ls', brk), g') ->
        (leader_fitness (herd_ (algo ls)) <= leader_fitness (herd_ (algo ls')))%Q)
  /\ (forall iterations a g best a' g',
        optimize_for iterations a g = Ok ((best, a'), g') ->
        (leader_fitness (herd_ a) <= leader_fitness (herd_ a'))%Q).
Proof.
  split; [|split].
  - intros herd changed herd' H. pose proof (updateLeader_leader_le _ _ _ H) as Hle.
    apply updateLeader_spec in H as (Ht & Hf & _). split; [exact Ht|]. split; [|exact Hle].
    intros Hc. destruct (Hf Hc) as (H1 & _ & H2). split; assumption.
  - intros iteration ls g ls' brk g' H. exact (optimize_body_leader_le _ _ _ _ _ _ H).
  - intros iterations a g best a' g' H. exact (optimize_for_leader_le _ _ _ _ _ _ H).
Qed.

Lemma construct_and_optimize_returned made iterations :
  returned (construct_and_optimize made iterations) = true ->
  exists a g best a' g',
    made = Ok (a, g) /\ optimize_for iterations a g = Ok ((best, a'), g').
Proof.
  unfold construct_and_optimize.
  destruct made as [[a g]| | |]; try discriminate.
  cbv beta iota delta [result_bind].
  destruct (optimize_for iterations a g) as [[[best a'] g']| | |] eqn:E; try discriminate.
  intros _. exists a, g, best, a', g'. split; [reflexivity|exact E].
Qed.

Lemma example_run_returned :
  returned (construct_and_optimize example_optimizer 3) = true.
Proof. vm_compute. reflexivity. Qed.

(** [leader_fitness_never_regresses] on the example run of three
    iterations. *)
Lemma leader_fitness_never_regresses_witness :
  exists a g best a' g',
    example_optimizer = Ok (a, g)
    /\ optimize_for 3 a g = Ok ((best, a'), g')
    /\ (leader_fitness (herd_ a) <= leader_fitness (herd_ a'))%Q.
Proof.
  destruct leader_fitness_never_regresses as (_ & _ & H).
  destruct (construct_and_optimize_returned example_optimizer 3 example_run_returned)
    as (a & g & best & a' & g' & E0 & E1).
  exists a, g, best, a', g'. split; [exact E0|]. split; [exact E1|].
  exact (H _ _ _ _ _ _ E1).
Defined.

(** ** The termination policy: [HHOA::shouldTerminate] *)








Lemma getBestSolution_nextGeneration (herd : HorseHerd) :
  getBestSolution (nextGeneration herd) = getBestSolution herd.
Proof. reflexivity. Qed.



Lemma HHOA_new_parameters (fuel : nat) (instance : option ProblemInstance)
    (parameters : HHOAParameters) (g : Random) (a : HHOA) (g' : Random) :
  HHOA_new fuel instance parameters g = Ok (a, g') -> parameters_ a = parameters.
Proof.
  unfold HHOA_new. destruct instance as [inst|]; [|discriminate].
  destruct (negb (ProblemInstance_isValid inst)); [discriminate|].
  destruct (negb (HHOAParameters_isValid parameters)); [discriminate|].
  intros H. apply M_bind_Ok in H as (herd & g1 & _ & H). unfold M_ret in H.
  injection H as <- _. reflexivity.
Qed.

Lemma example_optimizer_parameters (a : HHOA) (g : Random) :
  example_optimizer = Ok (a, g) -> parameters_ a = example_parameters.
Proof. unfold example_optimizer. apply HHOA_new_parameters. Qed.











(** ** Grazing with an intensity of zero *)

Lemma graze_zero (intensity : Q) (h : Horse) (g : Random) :
  (intensity <= 0)%Q -> graze intensity h g = Throw invalid_argument.
Proof.
  intros H. unfold graze, Qleb. apply Qle_bool_iff in H. rewrite H. reflexivity.
Qed.

Lemma graze_out_of_range (intensity : Q) (h : Horse) (g : Random) :
  (intensity <= 0 \/ 1 < intensity)%Q -> graze intensity h g = Throw invalid_argument.
Proof.
  intros [H|H]; [apply graze_zero; exact H|].
  unfold graze, Qltb. destruct (Qle_bool intensity 1) eqn:E.
  - apply Qle_bool_iff in E. exfalso. exact (Qlt_not_le _ _ H E).
  - rewrite orb_true_r. reflexivity.
Qed.

Lemma performGrazing_zero (intensity : Q) (herd : HorseHerd) (g : Random) :
  (intensity <= 0)%Q -> horses_ herd <> [] ->
  performGrazing intensity herd g = Throw invalid_argument.
Proof.
  intros H Hne. unfold performGrazing. destruct (horses_ herd) as [|h rest]; [congruence|].
  unfold M_bind at 1. simpl for_each_horse. unfold M_bind at 1. unfold M_bind at 1.
  rewrite graze_zero by exact H. reflexivity.
Qed.

Lemma executeIteration_zero (iteration : Z) (a : HHOA) (g : Random) :
  (grazing_intensity (parameters_ a) == 0)%Q -> horses_ (herd_ a) <> [] ->
  executeIteration iteration a g = Throw invalid_argument.
Proof.
  intros H Hne. unfold executeIteration. cbv zeta. unfold M_bind at 1.
  rewrite performGrazing_zero; [reflexivity | rewrite H; apply Qle_refl | exact Hne].
Qed.

Lemma isValid_grazing_intensity (p : HHOAParameters) :
  HHOAParameters_isValid p = true -> (0 <= grazing_intensity p <= 1)%Q.
Proof.
  unfold HHOAParameters_isValid, Qleb. intros H.
  repeat (apply andb_true_iff in H as [H ?]).
  split; apply Qle_bool_iff; assumption.
Qed.

Lemma idle_grazers_spec (made : result (HHOA * Random)) :
  idle_grazers (construct_and_initialize made) = true ->
  exists a g a1 g1,
    made = Ok (a, g) /\ HHOA_initialize a g = Ok (a1, g1)
    /\ HHOAParameters_isValid (parameters_ a1) = true
    /\ (grazing_intensity (parameters_ a1) == 0)%Q
    /\ horses_ (herd_ a1) <> [].
Proof.
  unfold construct_and_initialize. destruct made as [[a g]| | |]; try discriminate.
  cbv beta iota delta [result_bind].
  destruct (HHOA_initialize a g) as [[a1 g1]| | |] eqn:E; try discriminate.
  unfold idle_grazers. destruct (horses_ (herd_ a1)) as [|h rest] eqn:Eh; [discriminate|].
  intros H. apply andb_true_iff in H as [H1 H2]. apply Qeq_bool_iff in H1.
  exists a, g, a1, g1. rewrite Eh. repeat (split; [first [reflexivity | assumption]|]).
  discriminate.
Qed.

(** C10. A configuration with a grazing intensity of zero passes the
    validity predicate, which asks of the grazing intensity only that
    it lies in [[0, 1]]; [Horse::graze] throws [invalid_argument] on any
    intensity that is not positive or that exceeds one; so an iteration of an optimiser with
    such a configuration and a herd that is not empty throws
    [invalid_argument] in its grazing phase, and so does the run of the
    example optimiser with this configuration. *)
Theorem zero_grazing_intensity_throws :
  HHOAParameters_isValid zero_grazing_parameters = true
  /\ (forall p, HHOAParameters_isValid p = true -> (0 <= grazing_intensity p <= 1)%Q)
  /\ (forall intensity h g,
        (intensity <= 0 \/ 1 < intensity)%Q -> graze intensity h g = Throw invalid_argument)
  /\ (forall iteration a g,
        HHOAParameters_isValid (parameters_ a) = true ->
        (grazing_intensity (parameters_ a) == 0)%Q ->
        horses_ (herd_ a) <> [] ->
        performGrazing (grazing_intensity (parameters_ a)) (herd_ a) g = Throw invalid_argument
        /\ executeIteration iteration a g = Throw invalid_argument)
  /\ returned zero_grazing_optimizer = true
  /\ construct_and_optimize zero_grazing_optimizer 3 = Throw invalid_argument.
Proof.
  split; [vm_compute; reflexivity|].
  split; [exact isValid_grazing_intensity|].
  split; [exact graze_out_of_range|].
  split.
  - intros iteration a g _ H Hne. split.
    + apply performGrazing_zero; [rewrite H; apply Qle_refl | exact Hne].
    + apply executeIteration_zero; assumption.
  - split; vm_compute; reflexivity.
Qed.

Lemma zero_grazing_ready :
  idle_grazers (construct_and_initialize zero_grazing_optimizer) = true.
Proof. vm_compute. reflexivity. Qed.

(** [zero_grazing_intensity_throws] on the example optimiser, once
    initialised. *)
Lemma zero_grazing_intensity_throws_witness :
  exists a g a1 g1,
    zero_grazing_optimizer = Ok (a, g) /\ HHOA_initialize a g = Ok (a1, g1)
    /\ performGrazing (grazing_intensity (parameters_ a1)) (herd_ a1) g1
       = Throw invalid_argument
    /\ executeIteration 0 a1 g1 = Throw invalid_argument.
Proof.
  destruct zero_grazing_intensity_throws as (_ & _ & _ & H & _).
  destruct (idle_grazers_spec _ zero_grazing_ready)
    as (a & g & a1 & g1 & E0 & E1 & Hv & Hz & Hne).
  exists a, g, a1, g1. split; [exact E0|]. split; [exact E1|].
  exact (H 0 a1 g1 Hv Hz Hne).
Defined.

(** ** The validity of the parameters: [HHOAParameters::isValid] *)

Lemma rate_in_range_spec (r : Q) :
  Qleb 0 r && Qleb r 1 = true <-> rate_in_range r.
Proof.
  unfold rate_in_range, Qleb. rewrite andb_true_iff, !Qle_bool_iff. reflexivity.
Qed.

Lemma HHOAParameters_isValid_spec (p : HHOAParameters) :
  HHOAParameters_isValid p = true <->
  0 < population_size p /\ 0 < max_iterations p
  /\ rate_in_range (grazing_intensity p) /\ rate_in_range (roaming_rate p)
  /\ rate_in_range (exploration_rate p) /\ rate_in_range (following_rate p)
  /\ rate_in_range (mating_rate p) /\ rate_in_range (crossover_rate p)
  /\ rate_in_range (mutation_rate p) /\ rate_in_range (replacement_rate p)
  /\ 0 < max_stagnation p /\ 0 <= elite_count p /\ 0 < termination_patience p.
Proof.
  unfold HHOAParameters_isValid, rate_in_range, Qleb.
  rewrite !andb_true_iff, !Qle_bool_iff, !Z.gtb_lt, Z.geb_le. tauto.
Qed.

Lemma HHOA_new_invalid (fuel : nat) (instance : option ProblemInstance)
    (parameters : HHOAParameters) (g : Random) :
  instance = None
  \/ (exists inst, instance = Some inst /\ ProblemInstance_isValid inst = false)
  \/ HHOAParameters_isValid parameters = false ->
  HHOA_new fuel instance parameters g = Throw invalid_argument.
Proof.
  unfold HHOA_new. intros [-> | [(inst & -> & H) | H]].
  - reflexivity.
  - rewrite H. reflexivity.
  - destruct instance as [inst|]; [|reflexivity].
    destruct (negb (ProblemInstance_isValid inst)); [reflexivity|].
    rewrite H. reflexivity.
Qed.

Lemma documented_validity_sound (p : HHOAParameters) :
  documented_validity p = true -> HHOAParameters_isValid p = true.
Proof.
  unfold documented_validity, HHOAParameters_isValid. rewrite !andb_true_iff.
  rewrite !Z.gtb_lt, Z.geb_le. intuition lia.
Qed.

(** The validity predicate accepts a configuration without elite
    horses, which the documented one refuses. *)
Lemma isValid_accepts_zero_elite_count :
  HHOAParameters_isValid no_elite_parameters = true
  /\ documented_validity no_elite_parameters = false.
Proof. split; vm_compute; reflexivity. Qed.

(** The validity predicate does not look at the elite frequency: a
    frequency of zero is accepted, the optimiser is constructed, and its
    run divides by zero. *)
Lemma isValid_accepts_zero_elite_frequency :
  HHOAParameters_isValid zero_frequency_parameters = true
  /\ documented_validity zero_frequency_parameters = false
  /\ construct_and_optimize
       (HHOA_new 100 (Some example_instance) zero_frequency_parameters example_random) 3
     = Undefined.
Proof. split; [|split]; vm_compute; reflexivity. Qed.

Lemma HHOA_new_valid (fuel : nat) (inst : ProblemInstance) (parameters : HHOAParameters)
    (g : Random) :
  ProblemInstance_isValid inst = true -> HHOAParameters_isValid parameters = true ->
  HHOA_new fuel (Some inst) parameters g
  = (herd <~ HorseHerd_new inst (population_size parameters);
     M_ret (mkHHOA inst parameters empty_statistics herd None fuel)) g.
Proof. unfold HHOA_new. intros -> ->. reflexivity. Qed.

(** ** The solution returned by a run *)

(** C4. A herd of one horse: its diversity is zero, so every iteration
    ends by replacing the horse with a random one, and [optimize]
    returns the best solution of the horses of the last herd, not that of
    the stored leader.  On two jobs, one iteration returns the order
    [[1; 0]] of makespan 5 where the herd held makespan 4 after
    [initialize]; on six jobs and four machines, fifty iterations return
    makespan 613 where the herd held 596 after [initialize] and the
    stored leader holds 513. *)
Theorem optimize_returns_worse_than_initial_best :
  ProblemInstance_isValid two_jobs_instance = true
  /\ HHOAParameters_isValid (one_horse_parameters 1) = true
  /\ run_summary
       (HHOA_new 100 (Some two_jobs_instance) (one_horse_parameters 1) counting_random)
     = Ok (4, 5, [1; 0], 4)
  /\ ProblemInstance_isValid six_jobs_instance = true
  /\ HHOAParameters_isValid (one_horse_parameters 50) = true
  /\ run_summary
       (HHOA_new 100 (Some six_jobs_instance) (one_horse_parameters 50) example_random)
     = Ok (596, 613, [1; 3; 4; 2; 5; 0], 513).
Proof. repeat split; vm_compute; reflexivity. Qed.

(** ** The mutation pass: [HorseHerd::performMutation] *)

Lemma Horse_getMakespan_wf (inst : ProblemInstance) (h : Horse) :
  ProblemInstance_isValid inst = true -> wf_horse inst h ->
  exists h', Horse_getMakespan h = Ok (current_makespan inst h, h')
    /\ copy_of h h' /\ best_solution_ h' = best_solution_ h /\ wf_horse inst h'.
Proof.
  intros Hv [Hs Hb]. unfold Horse_getMakespan.
  destruct (getMakespan_wf inst (solution_ h) Hv Hs) as (s' & -> & Hj & _ & Hwf).
  simpl. eexists. split; [reflexivity|]. split.
  - unfold copy_of. simpl. destruct Hwf as (Hi & _), Hs as (Hi0 & _).
    rewrite Hj, Hi, Hi0. repeat split.
  - split; [reflexivity|]. split; [exact Hwf | exact Hb].
Qed.

Lemma getBestMakespan_wf (inst : ProblemInstance) (h : Horse) :
  ProblemInstance_isValid inst = true -> wf_horse inst h ->
  exists mk h', getBestMakespan h = Ok (mk, h') /\ wf_horse inst h'.
Proof.
  intros Hv [Hs Hb]. unfold getBestMakespan.
  destruct (getMakespan_wf inst (best_solution_ h) Hv Hb) as (s' & -> & Hj & _ & Hwf).
  simpl. eexists. eexists. split; [reflexivity|]. split; [exact Hs | exact Hwf].
Qed.

Lemma updateFitness_wf (inst : ProblemInstance) (h : Horse) :
  ProblemInstance_isValid inst = true -> wf_horse inst h ->
  exists h', updateFitness h = Ok h'
    /\ fitness_ h' = calculateFitness (current_makespan inst h)
    /\ job_sequence_ (solution_ h') = job_sequence_ (solution_ h)
    /\ best_solution_ h' = best_solution_ h /\ best_fitness_ h' = best_fitness_ h
    /\ wf_horse inst h'.
Proof.
  intros Hv [Hs Hb]. unfold updateFitness.
  destruct (getMakespan_wf inst (solution_ h) Hv Hs) as (s' & -> & Hj & _ & Hwf).
  simpl. eexists. split; [reflexivity|]. simpl.
  split; [reflexivity|]. split; [exact Hj|]. split; [reflexivity|]. split; [reflexivity|].
  split; [exact Hwf | exact Hb].
Qed.

Lemma updateBest_spec (inst : ProblemInstance) (h : Horse) :
  wf_horse inst h ->
  wf_horse inst (updateBest h).2
  /\ solution_ (updateBest h).2 = solution_ h
  /\ fitness_ (updateBest h).2 = fitness_ h
  /\ keeps_or_raises_best h (updateBest h).2.
Proof.
  intros [Hs Hb]. unfold updateBest, keeps_or_raises_best.
  destruct (Qltb_spec (best_fitness_ h) (fitness_ h)) as [Hlt|Hge]; simpl.
  - split; [split; exact Hs|]. split; [reflexivity|]. split; [reflexivity|].
    right. split; [exact Hlt|]. split; reflexivity.
  - split; [split; assumption|]. split; [reflexivity|]. split; [reflexivity|].
    left. split; reflexivity.
Qed.

Lemma mutate_draw (mutation_rate : Q) (h : Horse) (g : Random) (u : Q) (g1 : Random) :
  (0 <= mutation_rate <= 1)%Q -> randDouble g = Ok (u, g1) ->
  mutate mutation_rate h g
  = (if Qltb u mutation_rate then
       b <~ randBool (1 # 2);
       s <~ (if b then createSwapNeighbor (solution_ h)
             else createInsertNeighbor (solution_ h));
       h1 <~ liftR (updateFitness (with_solution s h));
       M_ret (updateBest h1).2
     else M_ret h) g1.
Proof.
  intros [H0 H1] Hu. unfold mutate.
  destruct (Qltb_spec mutation_rate 0) as [H|_]; [exfalso; revert H; apply Qle_not_lt, H0|].
  destruct (Qltb_spec 1 mutation_rate) as [H|_]; [exfalso; revert H; apply Qle_not_lt, H1|].
  simpl. unfold M_bind at 1. rewrite Hu. reflexivity.
Qed.

(** [Horse::mutate]: when the draw is below the rate, the current
    solution is replaced by the neighbour drawn, whatever its makespan;
    the personal best is replaced only by a strictly fitter solution. *)
Lemma mutate_spec (inst : ProblemInstance) (mutation_rate : Q) (h : Horse) (g : Random) :
  ProblemInstance_isValid inst = true -> wf_horse inst h ->
  (0 <= mutation_rate <= 1)%Q ->
  exists u g1,
    randDouble g = Ok (u, g1)
    /\ if Qltb u mutation_rate then
         exists s g2 h',
           roam_move (solution_ h) g1 = Ok (s, g2)
           /\ mutate mutation_rate h g = Ok (h', g2)
           /\ job_sequence_ (solution_ h') = job_sequence_ s
           /\ fitness_ h' = calculateFitness (makespan_of inst (job_sequence_ s))
           /\ keeps_or_raises_best h h'
           /\ wf_horse inst h'
       else mutate mutation_rate h g = Ok (h, g1).
Proof.
  intros Hv Hwf Hr.
  destruct (randDouble_total g) as (u & g1 & Hu). exists u, g1. split; [exact Hu|].
  rewrite (mutate_draw mutation_rate h g u g1 Hr Hu).
  destruct (Qltb u mutation_rate); [|reflexivity].
  destruct (roam_move_wf inst (solution_ h) g1 Hv (proj1 Hwf)) as (s & Hmove & Hs).
  exists s, (advance (advance (advance g1))).
  assert (Hwf1 : wf_horse inst (with_solution s h)) by (split; [exact Hs | exact (proj2 Hwf)]).
  destruct (updateFitness_wf inst _ Hv Hwf1) as (h1 & Hfit & Hf & Hj & Hb & Hbf & Hwf2).
  destruct (updateBest_spec inst h1 Hwf2) as (Hwf3 & Hsol & Hfit3 & Hkeep).
  exists (updateBest h1).2. split; [exact Hmove|]. split.
  - unfold roam_move, M_bind in Hmove. unfold M_bind.
    destruct (randBool (1 # 2) g1) as [[b g2]| | |]; try discriminate.
    destruct b; rewrite Hmove; unfold liftR; rewrite Hfit; reflexivity.
  - split; [rewrite Hsol; exact Hj|]. split; [rewrite Hfit3; exact Hf|].
    split; [|exact Hwf3].
    unfold keeps_or_raises_best in *. simpl in Hb, Hbf. rewrite <- Hbf, <- Hb. exact Hkeep.
Qed.

Lemma mutate_total (inst : ProblemInstance) (mutation_rate : Q) (h : Horse) (g : Random) :
  ProblemInstance_isValid inst = true -> wf_horse inst h ->
  (0 <= mutation_rate <= 1)%Q ->
  exists h' g', mutate mutation_rate h g = Ok (h', g')
    /\ wf_horse inst h' /\ keeps_or_raises_best h h'.
Proof.
  intros Hv Hwf Hr.
  destruct (mutate_spec inst mutation_rate h g Hv Hwf Hr) as (u & g1 & _ & H).
  destruct (Qltb u mutation_rate).
  - destruct H as (s & g2 & h' & _ & Hm & _ & _ & Hk & Hwf').
    exists h', g2. split; [exact Hm|]. split; [exact Hwf' | exact Hk].
  - exists h, g1. split; [exact H|]. split; [exact Hwf|]. left. split; reflexivity.
Qed.

Lemma keeps_or_raises_best_copy (h h1 h2 h3 : Horse) :
  copy_of h h1 -> keeps_or_raises_best h1 h2 -> copy_of h2 h3 ->
  keeps_or_raises_best h h3.
Proof.
  unfold copy_of, keeps_or_raises_best.
  intros (_ & _ & Hb1 & _ & _ & Hbf1 & _) H (Hs3 & _ & Hb3 & _ & Hf3 & Hbf3 & _).
  rewrite Hb3, Hbf3, Hf3, Hs3. rewrite <- Hb1, <- Hbf1. exact H.
Qed.

Lemma current_makespan_copy (inst : ProblemInstance) (h h' : Horse) :
  copy_of h h' -> current_makespan inst h' = current_makespan inst h.
Proof. intros (Hs & _). unfold current_makespan. rewrite Hs. reflexivity. Qed.

Lemma mutation_step_spec (inst : ProblemInstance) (mutation_rate : Q) (horse : Horse)
    (count : Z) (g : Random) :
  ProblemInstance_isValid inst = true -> wf_horse inst horse ->
  (0 <= mutation_rate <= 1)%Q ->
  exists horse' g',
    mutation_step mutation_rate horse count g
    = Ok ((horse',
           count + (if current_makespan inst horse' <? current_makespan inst horse
                    then 1 else 0)), g')
    /\ wf_horse inst horse' /\ keeps_or_raises_best horse horse'.
Proof.
  intros Hv Hwf Hr. unfold mutation_step.
  destruct (Horse_getMakespan_wf inst horse Hv Hwf) as (h1 & E1 & Hc1 & _ & Hwf1).
  destruct (mutate_total inst mutation_rate h1 g Hv Hwf1 Hr) as (h2 & g2 & E2 & Hwf2 & Hk).
  destruct (Horse_getMakespan_wf inst h2 Hv Hwf2) as (h3 & E3 & Hc3 & _ & Hwf3).
  exists h3, g2. unfold M_bind, liftR. rewrite E1, E2, E3. unfold M_ret.
  rewrite (current_makespan_copy inst h2 h3 Hc3).
  split; [|split; [exact Hwf3 | exact (keeps_or_raises_best_copy _ _ _ _ Hc1 Hk Hc3)]].
  destruct (current_makespan inst h2 <? current_makespan inst horse);
    [reflexivity | rewrite Z.add_0_r; reflexivity].
Qed.

Lemma for_each_mutation (inst : ProblemInstance) (mutation_rate : Q) (hs : list Horse) :
  ProblemInstance_isValid inst = true -> (0 <= mutation_rate <= 1)%Q ->
  Forall (wf_horse inst) hs ->
  forall (count : Z) (g : Random),
  exists hs' g',
    for_each_horse (mutation_step mutation_rate) hs count g
    = Ok ((hs', count + improved_horses inst hs hs'), g')
    /\ Forall (wf_horse inst) hs' /\ Forall2 keeps_or_raises_best hs hs'.
Proof.
  intros Hv Hr. induction 1 as [|h hs Hh Hhs IH]; intros count g.
  - exists [], g. simpl. unfold M_ret. rewrite Z.add_0_r.
    split; [reflexivity|]. split; constructor.
  - destruct (mutation_step_spec inst mutation_rate h count g Hv Hh Hr)
      as (h' & g1 & E1 & Hwf' & Hk).
    destruct (IH (count + (if current_makespan inst h' <? current_makespan inst h
                           then 1 else 0)) g1) as (hs' & g' & E2 & Hwfs & Hks).
    exists (h' :: hs'), g'. simpl for_each_horse. unfold M_bind. rewrite E1, E2.
    unfold M_ret. simpl improved_horses. rewrite Z.add_assoc.
    split; [reflexivity|]. split; constructor; assumption.
Qed.

Lemma setLeader_wf (inst : ProblemInstance) (b : bool) (h : Horse) :
  wf_horse inst h -> wf_horse inst (setLeader b h).
Proof. intros H. exact H. Qed.

Lemma max_element_from_wf (inst : ProblemInstance) (rest : list Horse) :
  forall largest, wf_horse inst largest -> Forall (wf_horse inst) rest ->
  wf_horse inst (max_element_from largest rest).
Proof.
  induction rest as [|h rest IH]; intros largest Hl Hr; simpl; [exact Hl|].
  apply Forall_cons_1 in Hr as [Hh Hr].
  destruct (Qltb (best_fitness_ largest) (best_fitness_ h)); apply IH; assumption.
Qed.

Lemma mark_leader_total (inst : ProblemInstance) (hs : list Horse) :
  ProblemInstance_isValid inst = true -> Forall (wf_horse inst) hs ->
  forall leader, wf_horse inst leader ->
  exists hs' leader', mark_leader hs leader = Ok (hs', leader').
Proof.
  intros Hv. induction 1 as [|h hs Hh Hhs IH]; intros leader Hl; simpl.
  - eexists. eexists. reflexivity.
  - destruct (getBestMakespan_wf inst h Hv Hh) as (mk1 & h1 & -> & _).
    destruct (getBestMakespan_wf inst leader Hv Hl) as (mk2 & l1 & -> & Hl1).
    simpl. destruct (mk1 =? mk2); [eexists; eexists; reflexivity|].
    destruct (IH l1 Hl1) as (hs' & l' & ->). simpl. eexists. eexists. reflexivity.
Qed.

Lemma updateLeader_total (herd : HorseHerd) :
  wf_herd herd -> exists changed herd', updateLeader herd = Ok (changed, herd').
Proof.
  intros (Hv & Hhs & Hl). unfold updateLeader, getBestHorse.
  destruct (horses_ herd) as [|h rest] eqn:E; [eexists; eexists; reflexivity|].
  cbv beta iota zeta delta [result_bind].
  apply Forall_cons_1 in Hhs as [Hh Hrest].
  pose proof (max_element_from_wf _ rest h Hh Hrest) as Hbest.
  set (best := max_element_from h rest) in *.
  set (hs := map (setLeader false) (h :: rest)).
  assert (Hhs : Forall (wf_horse (herd_instance_ herd)) hs).
  { unfold hs. apply List.Forall_map. constructor; [exact Hh|].
    eapply Forall_impl; [exact Hrest|]. intros x Hx. exact Hx. }
  destruct (Qltb (best_fitness_ (leader_ herd)) (best_fitness_ best)).
  - destruct (mark_leader_total _ hs Hv Hhs (setLeader true best) Hbest) as (hs' & l' & ->).
    eexists. eexists. reflexivity.
  - destruct (mark_leader_total _ hs Hv Hhs (leader_ herd) Hl) as (hs' & l' & ->).
    eexists. eexists. reflexivity.
Qed.

Lemma improved_horses_copy (inst : ProblemInstance) (after after' : list Horse) :
  Forall2 copy_of after after' ->
  forall before, improved_horses inst before after' = improved_horses inst before after.
Proof.
  induction 1 as [|a a' after after' Ha _ IH]; intros before.
  - reflexivity.
  - destruct before as [|b before]; [reflexivity|]. simpl.
    rewrite (current_makespan_copy inst a a' Ha), IH. reflexivity.
Qed.

Lemma keeps_or_raises_best_copies (hs hs' hs'' : list Horse) :
  Forall2 keeps_or_raises_best hs hs' -> Forall2 copy_of hs' hs'' ->
  Forall2 keeps_or_raises_best hs hs''.
Proof.
  intros H. revert hs''. induction H as [|h h' hs hs' Hk _ IH]; intros hs'' Hc.
  - apply Forall2_nil_inv_l in Hc as ->. constructor.
  - apply Forall2_cons_inv_l in Hc as (h'' & hs2 & Hc1 & Hc2 & ->).
    constructor; [|apply IH; exact Hc2].
    exact (keeps_or_raises_best_copy _ _ _ _ (copy_of_refl h) Hk Hc1).
Qed.

Lemma improved_horses_bounds (inst : ProblemInstance) (before : list Horse) :
  forall after, 0 <= improved_horses inst before after <= Z.of_nat (length before).
Proof.
  induction before as [|b before IH]; intros after; simpl; [lia|].
  destruct after as [|a after]; [lia|]. specialize (IH after).
  destruct (current_makespan inst a <? current_makespan inst b); lia.
Qed.

Lemma copy_of_length (hs hs' : list Horse) :
  Forall2 copy_of hs hs' -> length hs' = length hs.
Proof. intros H. symmetry. exact (Forall2_length _ _ _ H). Qed.

Lemma performMutation_spec (mutation_rate : Q) (herd : HorseHerd) (g : Random) :
  wf_herd herd -> (0 <= mutation_rate <= 1)%Q ->
  exists count herd' g',
    performMutation mutation_rate herd g = Ok ((count, herd'), g')
    /\ count = improved_horses (herd_instance_ herd) (horses_ herd) (horses_ herd')
    /\ length (horses_ herd') = length (horses_ herd)
    /\ Forall2 keeps_or_raises_best (horses_ herd) (horses_ herd').
Proof.
  intros (Hv & Hhs & Hl) Hr.
  destruct (for_each_mutation _ mutation_rate (horses_ herd) Hv Hr Hhs 0 g)
    as (hs' & g' & E & Hwf' & Hk).
  change (performMutation mutation_rate herd g)
    with (M_bind (for_each_horse (mutation_step mutation_rate) (horses_ herd) 0)
            (fun x => let '(hs, c) := x in refresh_leader c (with_horses hs herd)) g).
  unfold M_bind at 1. rewrite E. rewrite Z.add_0_l. unfold refresh_leader.
  destruct (improved_horses (herd_instance_ herd) (horses_ herd) hs' >? 0).
  - destruct (updateLeader_total (with_horses hs' herd)) as (c & herd' & Hup).
    { split; [exact Hv|]. split; [exact Hwf' | exact Hl]. }
    unfold M_bind, liftR. rewrite Hup. unfold M_ret.
    apply updateLeader_spec in Hup as (_ & _ & Hc). simpl in Hc.
    exists (improved_horses (herd_instance_ herd) (horses_ herd) hs'), herd', g'.
    split; [reflexivity|]. split; [symmetry; apply improved_horses_copy; exact Hc|].
    split; [|exact (keeps_or_raises_best_copies _ _ _ Hk Hc)].
    rewrite (copy_of_length _ _ Hc). symmetry. exact (Forall2_length _ _ _ Hk).
  - exists (improved_horses (herd_instance_ herd) (horses_ herd) hs'), (with_horses hs' herd), g'.
    split; [reflexivity|]. split; [reflexivity|]. split; [|exact Hk].
    symmetry. exact (Forall2_length _ _ _ Hk).
Qed.

(** The acceptance test of the roaming, following and mating passes: a
    candidate is taken only when its makespan is strictly below the
    current one; otherwise the horse keeps its current solution. *)
Lemma accept_if_better_spec (new_solution : Solution) (horse : Horse) (count : Z)
    (horse' : Horse) (count' : Z) :
  accept_if_better new_solution horse count = Ok (horse', count') ->
  exists new_makespan s makespan h,
    getMakespan new_solution = Ok (new_makespan, s)
    /\ Horse_getMakespan horse = Ok (makespan, h)
    /\ if new_makespan <? makespan
       then count' = count + 1
            /\ job_sequence_ (solution_ horse') = job_sequence_ new_solution
       else count' = count /\ copy_of horse horse'.
Proof.
  unfold accept_if_better. intros H.
  apply result_bind_Ok in H as ([new_makespan s] & E1 & H).
  apply result_bind_Ok in H as ([makespan h] & E2 & H). cbv beta iota in H.
  exists new_makespan, s, makespan, h. split; [exact E1|]. split; [exact E2|].
  destruct (new_makespan <? makespan).
  - apply result_bind_Ok in H as (h2 & E3 & H). injection H as <- <-.
    split; [reflexivity|]. unfold setSolution in E3.
    apply result_bind_Ok in E3 as (h1 & E4 & E3).
    unfold updateFitness in E4. apply result_bind_Ok in E4 as ([mk s1] & E5 & E4).
    injection E4 as <-. apply getMakespan_same in E5 as [E5 _]. simpl in E5.
    apply getMakespan_same in E1 as [E1 _].
    unfold updateBest in E3. simpl in E3.
    destruct (Qltb (best_fitness_ h) (calculateFitness mk)); simpl in E3;
      injection E3 as <-; simpl; rewrite E5, E1; reflexivity.
  - injection H as <- <-. split; [reflexivity|].
    unfold Horse_getMakespan in E2. apply result_bind_Ok in E2 as ([mk s1] & E5 & E2).
    injection E2 as _ <-. apply getMakespan_same in E5 as [E5 E6].
    unfold copy_of. simpl. repeat split; assumption.
Qed.

Lemma two_jobs_herd_wf : wf_herd two_jobs_herd.
Proof.
  assert (Hs : wf_solution two_jobs_instance (fresh_solution two_jobs_instance [0; 1])).
  { split; [reflexivity|]. split.
    - split; [reflexivity|]. split.
      + repeat (constructor; [unfold getNumJobs; simpl; lia|]). constructor.
      + apply (bool_decide_unpack _). vm_compute. exact I.
    - intros H. discriminate. }
  split; [reflexivity|]. split.
  - constructor; [split; exact Hs | constructor].
  - split; exact Hs.
Qed.

(** C7 as stated fails: with a mutation rate of one, the horse on the
    order [[0; 1]], of makespan 4, is left on the order [[1; 0]], of
    makespan 5, and the pass counts no improvement. *)
Lemma performMutation_keeps_a_worse_solution :
  pass_outcome (performMutation 1 two_jobs_herd counting_random) = Some (0, [[1; 0]])
  /\ map (fun h => job_sequence_ (solution_ h)) (horses_ two_jobs_herd) = [[0; 1]]
  /\ makespan_of two_jobs_instance [0; 1] = 4
  /\ makespan_of two_jobs_instance [1; 0] = 5.
Proof. repeat split; vm_compute; reflexivity. Qed.

(** ** Problem instances: [ProblemInstance] *)

Lemma ProblemInstance_isValid_iff (inst : ProblemInstance) :
  ProblemInstance_isValid inst = true <->
  0 < num_jobs_ inst /\ 0 < num_machines_ inst
  /\ times_matrix (num_jobs_ inst) (num_machines_ inst) (processing_times_ inst).
Proof.
  unfold ProblemInstance_isValid, times_matrix.
  destruct (Z.leb_spec (num_jobs_ inst) 0) as [Hn|Hn]; simpl; [split; [discriminate | lia]|].
  destruct (Z.leb_spec (num_machines_ inst) 0) as [Hm|Hm]; simpl; [split; [discriminate | lia]|].
  destruct (Z.eqb_spec (Z.of_nat (length (processing_times_ inst))) (num_jobs_ inst))
    as [Hl|Hl]; simpl; [|split; [discriminate | tauto]].
  rewrite forallb_forall. split.
  - intros H. split; [exact Hn|]. split; [exact Hm|]. split; [exact Hl|].
    apply Forall_forall. intros row Hrow. apply list_elem_of_In in Hrow.
    specialize (H row Hrow). apply andb_prop in H as [H1 H2].
    split; [apply Z.eqb_eq; exact H1|]. rewrite forallb_forall in H2.
    apply Forall_forall. intros t Ht. apply list_elem_of_In in Ht. specialize (H2 t Ht).
    destruct (Z.ltb_spec t 0); [discriminate | assumption].
  - intros (_ & _ & _ & H) row Hrow. rewrite Forall_forall in H.
    apply list_elem_of_In in Hrow. destruct (H row Hrow) as [H1 H2].
    apply andb_true_intro. split; [apply Z.eqb_eq; exact H1|].
    apply forallb_forall. intros t Ht. rewrite Forall_forall in H2.
    apply list_elem_of_In in Ht. specialize (H2 t Ht).
    destruct (Z.ltb_spec t 0); [lia | reflexivity].
Qed.

Lemma times_matrix_dims (n m : Z) (pt : list (list Z)) :
  times_matrix n m pt -> mat_dims n m pt.
Proof.
  intros [Hl HF]. split; [exact Hl|]. eapply Forall_impl; [exact HF|]. intros row [H _]. exact H.
Qed.

Lemma times_matrix_set (n m : Z) (pt : list (list Z)) (job machine time : Z) :
  times_matrix n m pt -> 0 <= job < n -> 0 <= machine < m -> 0 <= time ->
  times_matrix n m (mat_set pt job machine time).
Proof.
  intros Hpt Hj Hk Ht. pose proof (times_matrix_dims n m pt Hpt) as Hd.
  pose proof (mat_dims_row n m pt job Hd Hj) as Hrow.
  destruct Hpt as [Hl HF]. unfold mat_set. split; [rewrite length_insert; exact Hl|].
  apply Forall_insert; [exact HF|]. split; [rewrite length_insert; exact Hrow|].
  apply Forall_insert; [|exact Ht].
  rewrite Forall_forall in HF. apply (HF (vec_at [] pt job)).
  apply vec_at_elem_of. lia.
Qed.

Lemma setProcessingTime_spec (inst : ProblemInstance) (job machine time : Z) :
  times_matrix (num_jobs_ inst) (num_machines_ inst) (processing_times_ inst) ->
  0 <= job < num_jobs_ inst -> 0 <= machine < num_machines_ inst -> 0 <= time ->
  exists inst',
    setProcessingTime inst job machine time = Ok inst'
    /\ num_jobs_ inst' = num_jobs_ inst /\ num_machines_ inst' = num_machines_ inst
    /\ times_matrix (num_jobs_ inst) (num_machines_ inst) (processing_times_ inst')
    /\ ptime inst' job machine = time
    /\ forall j k, 0 <= j -> 0 <= k -> (j, k) <> (job, machine) ->
         ptime inst' j k = ptime inst j k.
Proof.
  intros Hpt Hj Hk Ht. unfold setProcessingTime.
  destruct (Z.ltb_spec job 0); [lia|]. destruct (Z.geb_spec job (num_jobs_ inst)); [lia|].
  destruct (Z.ltb_spec machine 0); [lia|].
  destruct (Z.geb_spec machine (num_machines_ inst)); [lia|].
  destruct (Z.ltb_spec time 0); [lia|]. simpl. eexists. split; [reflexivity|]. simpl.
  split; [reflexivity|]. split; [reflexivity|].
  split; [apply times_matrix_set; assumption|].
  pose proof (times_matrix_dims _ _ _ Hpt) as Hd.
  change (mat_get (mat_set (processing_times_ inst) job machine time) job machine = time
          /\ forall j k, 0 <= j -> 0 <= k -> (j, k) <> (job, machine) ->
               mat_get (mat_set (processing_times_ inst) job machine time) j k
               = mat_get (processing_times_ inst) j k).
  split.
  - rewrite (mat_get_set _ _ _ _ _ _ _ _ Hd) by lia. rewrite decide_True by auto. reflexivity.
  - intros j k Hj0 Hk0 Hne. rewrite (mat_get_set _ _ _ _ _ _ _ _ Hd) by lia.
    rewrite decide_False; [reflexivity|]. intros [-> ->]. apply Hne. reflexivity.
Qed.

Lemma forM_inv_idx {S : Type} (P : Z -> S -> Prop) (lo hi : Z) (body : Z -> S -> M S)
    (s : S) (g : Random) :
  lo <= hi ->
  P lo s ->
  (forall i s g, lo <= i < hi -> P i s ->
     exists s' g', body i s g = Ok (s', g') /\ P (i + 1) s') ->
  exists s' g', forM lo hi body s g = Ok (s', g') /\ P hi s'.
Proof.
  intros Hle H0 Hstep. unfold forM.
  remember (Z.to_nat (hi - lo)) as k eqn:Hk.
  revert lo s g Hle H0 Hstep Hk.
  induction k as [|k IH]; intros lo s g Hle H0 Hstep Hk.
  - assert (hi = lo) by lia. subst hi. rewrite Z.sub_diag. simpl.
    exists s, g. split; [reflexivity | exact H0].
  - rewrite seqZ_cons by lia. simpl.
    destruct (Hstep lo s g ltac:(lia) H0) as (s1 & g1 & Hb & H1). unfold M_bind. rewrite Hb.
    replace (Z.pred (hi - lo)) with (hi - Z.succ lo) by lia.
    apply IH; try lia.
    + replace (Z.succ lo) with (lo + 1) by lia. exact H1.
    + intros i s2 g2 Hi. apply Hstep. lia.
Qed.

Lemma ProblemInstance_zeros_matrix (n m : Z) :
  0 <= n -> 0 <= m ->
  times_matrix n m (processing_times_ (ProblemInstance_zeros n m)).
Proof.
  intros Hn Hm. simpl. split; [rewrite length_replicate; lia|].
  apply Forall_replicate. split; [rewrite length_replicate; lia|].
  apply Forall_replicate. lia.
Qed.

Lemma generateRandom_valid (num_jobs num_machines min_time max_time : Z) (g : Random) :
  0 < num_jobs -> 0 < num_machines -> 0 <= min_time <= max_time ->
  exists inst g',
    generateRandom num_jobs num_machines min_time max_time g = Ok (inst, g')
    /\ ProblemInstance_isValid inst = true
    /\ getNumJobs inst = num_jobs /\ getNumMachines inst = num_machines
    /\ forall job machine, 0 <= job < num_jobs -> 0 <= machine < num_machines ->
         exists time, getProcessingTime inst job machine = Ok time
                      /\ min_time <= time <= max_time.
Proof.
  intros Hn Hm Ht. unfold generateRandom.
  destruct (Z.leb_spec num_jobs 0); [lia|]. destruct (Z.leb_spec num_machines 0); [lia|].
  destruct (Z.ltb_spec min_time 0); [lia|]. destruct (Z.ltb_spec max_time min_time); [lia|].
  simpl.
  set (inv := fun (J K : Z) (inst : ProblemInstance) =>
    num_jobs_ inst = num_jobs /\ num_machines_ inst = num_machines
    /\ times_matrix num_jobs num_machines (processing_times_ inst)
    /\ forall j k, 0 <= j < num_jobs -> 0 <= k < num_machines ->
         j < J \/ (j = J /\ k < K) -> min_time <= ptime inst j k <= max_time).
  destruct (forM_inv_idx (fun J inst => inv J 0 inst) 0 num_jobs
              (fun job inst =>
                 forM 0 num_machines
                   (fun machine inst =>
                      time <~ randInt min_time max_time;
                      liftR (setProcessingTime inst job machine time)) inst)
              (ProblemInstance_zeros num_jobs num_machines) g)
    as (inst & g' & Hrun & Hn' & Hm' & Hpt & Hcells).
  - lia.
  - split; [reflexivity|]. split; [reflexivity|].
    split; [apply ProblemInstance_zeros_matrix; lia|]. intros j k Hj Hk [Hc|[Hc1 Hc2]]; lia.
  - intros J inst1 g1 HJ Hinv.
    destruct (forM_inv_idx (fun K inst => inv J K inst) 0 num_machines
                (fun machine inst =>
                   time <~ randInt min_time max_time;
                   liftR (setProcessingTime inst J machine time)) inst1 g1)
      as (inst2 & g2 & Hrun2 & Hinv2).
    + lia.
    + exact Hinv.
    + intros K inst3 g3 HK (Hn3 & Hm3 & Hpt3 & Hc3).
      destruct (randInt_range min_time max_time g3 ltac:(lia)) as (t & g4 & Hr & Hrange).
      unfold M_bind. rewrite Hr.
      destruct (setProcessingTime_spec inst3 J K t) as (inst4 & Hs & Hn4 & Hm4 & Hpt4 & Hv & Hfr);
        [rewrite Hn3, Hm3; exact Hpt3 | lia | lia | lia |].
      unfold liftR. rewrite Hs. exists inst4, g4. split; [reflexivity|].
      split; [congruence|]. split; [congruence|]. split; [rewrite Hn3, Hm3 in Hpt4; exact Hpt4|].
      intros j k Hj Hk Hlt. destruct (decide (j = J /\ k = K)) as [[-> ->]|Hne].
      * rewrite Hv. exact Hrange.
      * rewrite Hfr; [|lia|lia|intros E; injection E as -> ->; tauto].
        apply Hc3; [lia|lia|]. lia.
    + exists inst2, g2. split; [exact Hrun2|].
      destruct Hinv2 as (Hn2 & Hm2 & Hpt2 & Hc2). split; [exact Hn2|]. split; [exact Hm2|].
      split; [exact Hpt2|]. intros j k Hj Hk Hlt. apply Hc2; [lia|lia|]. lia.
  - exists inst, g'. split; [exact Hrun|].
    split; [apply ProblemInstance_isValid_iff; rewrite Hn', Hm'; repeat split; try lia;
            apply Hpt|].
    split; [exact Hn'|]. split; [exact Hm'|].
    intros job machine Hj Hk. exists (ptime inst job machine).
    split; [apply getProcessingTime_in_range; lia|]. apply Hcells; [lia|lia|]. lia.
Qed.

Lemma generateRandom_invalid (num_jobs num_machines min_time max_time : Z) (g : Random) :
  num_jobs <= 0 \/ num_machines <= 0 \/ min_time < 0 \/ max_time < min_time ->
  generateRandom num_jobs num_machines min_time max_time g = Throw invalid_argument.
Proof.
  intros H. unfold generateRandom.
  destruct (Z.leb_spec num_jobs 0); [reflexivity|].
  destruct (Z.leb_spec num_machines 0); [reflexivity|].
  destruct (Z.ltb_spec min_time 0); [reflexivity|].
  destruct (Z.ltb_spec max_time min_time); [reflexivity|]. lia.
Qed.

(** X1.  [ProblemInstance::isValid] accepts exactly the instances with
    at least one job and one machine whose matrix has one row per job,
    one entry per machine in every row, and no negative time. *)
Theorem ProblemInstance_isValid_characterised (inst : ProblemInstance) :
  ProblemInstance_isValid inst = true <->
  0 < getNumJobs inst /\ 0 < getNumMachines inst
  /\ Z.of_nat (length (processing_times_ inst)) = getNumJobs inst
  /\ Forall (fun row => Z.of_nat (length row) = getNumMachines inst
                        /\ Forall (fun time => 0 <= time) row)
            (processing_times_ inst).
Proof. exact (ProblemInstance_isValid_iff inst). Qed.

(** X2.  [ProblemInstance::setProcessingTime] throws [out_of_range] on
    an index outside the matrix and [invalid_argument] on a negative
    time.  Otherwise, on a valid instance, the instance stays valid,
    [getProcessingTime] reads the time written at the cell written, and
    reads every other cell as before. *)
Theorem setProcessingTime_then_get :
  (forall inst job machine time,
     job < 0 \/ getNumJobs inst <= job \/ machine < 0 \/ getNumMachines inst <= machine ->
     setProcessingTime inst job machine time = Throw out_of_range)
  /\ (forall inst job machine time,
        0 <= job < getNumJobs inst -> 0 <= machine < getNumMachines inst -> time < 0 ->
        setProcessingTime inst job machine time = Throw invalid_argument)
  /\ (forall inst job machine time,
        ProblemInstance_isValid inst = true ->
        0 <= job < getNumJobs inst -> 0 <= machine < getNumMachines inst -> 0 <= time ->
        exists inst',
          setProcessingTime inst job machine time = Ok inst'
          /\ ProblemInstance_isValid inst' = true
          /\ getProcessingTime inst' job machine = Ok time
          /\ forall j k, (j, k) <> (job, machine) ->
               getProcessingTime inst' j k = getProcessingTime inst j k).
Proof.
  unfold getNumJobs, getNumMachines. split; [|split].
  - intros inst job machine time H. unfold setProcessingTime.
    destruct (Z.ltb_spec job 0); [reflexivity|].
    destruct (Z.geb_spec job (num_jobs_ inst)); [reflexivity|].
    destruct (Z.ltb_spec machine 0); [reflexivity|].
    destruct (Z.geb_spec machine (num_machines_ inst)); [reflexivity|]. lia.
  - intros inst job machine time Hj Hk Ht. unfold setProcessingTime.
    destruct (Z.ltb_spec job 0); [lia|].
    destruct (Z.geb_spec job (num_jobs_ inst)); [lia|].
    destruct (Z.ltb_spec machine 0); [lia|].
    destruct (Z.geb_spec machine (num_machines_ inst)); [lia|].
    destruct (Z.ltb_spec time 0); [reflexivity | lia].
  - intros inst job machine time Hv Hj Hk Ht.
    apply ProblemInstance_isValid_iff in Hv as (Hn & Hm & Hpt).
    destruct (setProcessingTime_spec inst job machine time Hpt Hj Hk Ht)
      as (inst' & Hs & Hn' & Hm' & Hpt' & Hval & Hfr).
    exists inst'. split; [exact Hs|].
    split; [apply ProblemInstance_isValid_iff; rewrite Hn', Hm'; auto|].
    split; [rewrite getProcessingTime_in_range by lia; rewrite Hval; reflexivity|].
    intros j k Hne. unfold getProcessingTime. rewrite Hn', Hm'.
    destruct ((j <? 0) || (j >=? num_jobs_ inst) || (k <? 0) || (k >=? num_machines_ inst))
      eqn:E; [reflexivity|].
    apply orb_false_elim in E as [E E4]. apply orb_false_elim in E as [E E3].
    apply orb_false_elim in E as [E1 E2].
    f_equal. apply Hfr; [lia | lia | exact Hne].
Qed.

(** [setProcessingTime_then_get] on the example instance: the time of
    job 1 on machine 2 is set to 9. *)
Lemma setProcessingTime_then_get_witness :
  exists inst',
    setProcessingTime example_instance 1 2 9 = Ok inst'
    /\ ProblemInstance_isValid inst' = true
    /\ getProcessingTime inst' 1 2 = Ok 9.
Proof.
  destruct setProcessingTime_then_get as (_ & _ & H).
  destruct (H example_instance 1 2 9) as (inst' & H1 & H2 & H3 & _).
  - reflexivity.
  - unfold getNumJobs; simpl; lia.
  - unfold getNumMachines; simpl; lia.
  - lia.
  - exists inst'. split; [exact H1|]. split; [exact H2 | exact H3].
Defined.

(** X3.  [ProblemInstance::generateRandom] throws [invalid_argument]
    when a size is not positive, the least time is negative or the
    greatest time is below the least.  Otherwise it returns, whatever
    the random source, a valid instance of the sizes asked for, every
    time of which lies between the least and the greatest time. *)
Theorem generateRandom_valid_instance :
  (forall num_jobs num_machines min_time max_time g,
     num_jobs <= 0 \/ num_machines <= 0 \/ min_time < 0 \/ max_time < min_time ->
     generateRandom num_jobs num_machines min_time max_time g = Throw invalid_argument)
  /\ (forall num_jobs num_machines min_time max_time g,
        0 < num_jobs -> 0 < num_machines -> 0 <= min_time <= max_time ->
        exists inst g',
          generateRandom num_jobs num_machines min_time max_time g = Ok (inst, g')
          /\ ProblemInstance_isValid inst = true
          /\ getNumJobs inst = num_jobs /\ getNumMachines inst = num_machines
          /\ forall job machine, 0 <= job < num_jobs -> 0 <= machine < num_machines ->
               exists time, getProcessingTime inst job machine = Ok time
                            /\ min_time <= time <= max_time).
Proof.
  split.
  - exact generateRandom_invalid.
  - exact generateRandom_valid.
Qed.

(** [generateRandom_valid_instance] for five jobs on three machines
    with times between 1 and 10. *)
Lemma generateRandom_valid_instance_witness :
  exists inst g',
    generateRandom 5 3 1 10 example_random = Ok (inst, g')
    /\ ProblemInstance_isValid inst = true
    /\ getNumJobs inst = 5 /\ getNumMachines inst = 3.
Proof.
  destruct generateRandom_valid_instance as (_ & H).
  destruct (H 5 3 1 10 example_random) as (inst & g' & H1 & H2 & H3 & H4 & _); try lia.
  exists inst, g'. split; [exact H1|]. split; [exact H2|]. split; [exact H3 | exact H4].
Defined.

(** ** Solutions: construction, validity, moves and the makespan cache *)

Lemma perm_of_seqZ (n : Z) : 0 <= n -> perm_of n (seqZ 0 n).
Proof.
  intros Hn. split; [rewrite length_seqZ; lia|]. split.
  - apply Forall_forall. intros j Hj. apply elem_of_seqZ in Hj. lia.
  - apply NoDup_seqZ.
Qed.

Lemma Solution_isValid_iff (s : Solution) :
  Solution_isValid s = true <-> perm_of (getNumJobs (instance_ s)) (job_sequence_ s).
Proof.
  destruct (Z.le_gt_cases 0 (getNumJobs (instance_ s))) as [Hn|Hn].
  - apply Solution_isValid_spec. exact Hn.
  - unfold Solution_isValid, perm_of.
    destruct (Z.eqb_spec (Z.of_nat (length (job_sequence_ s))) (getNumJobs (instance_ s)));
      [lia|]. simpl. split; [discriminate | tauto].
Qed.

(** X4.  The constructors of [Solution] throw [invalid_argument] on an
    invalid instance, and the one that takes a job sequence also on a
    sequence whose length is not the number of jobs.  On a valid
    instance the default constructor gives the identity order, which
    [isValid] accepts; the other one takes any sequence of the right
    length as it is, a permutation or not. *)
Theorem Solution_constructors :
  (forall inst job_sequence,
     ProblemInstance_isValid inst = false ->
     Solution_new inst = Throw invalid_argument
     /\ Solution_of_sequence job_sequence inst = Throw invalid_argument)
  /\ (forall inst,
        ProblemInstance_isValid inst = true ->
        exists s, Solution_new inst = Ok s
          /\ job_sequence_ s = seqZ 0 (getNumJobs inst) /\ instance_ s = inst
          /\ makespan_calculated_ s = false
          /\ Solution_isValid s = true)
  /\ (forall inst job_sequence,
        ProblemInstance_isValid inst = true ->
        Z.of_nat (length job_sequence) <> getNumJobs inst ->
        Solution_of_sequence job_sequence inst = Throw invalid_argument)
  /\ (forall inst job_sequence,
        ProblemInstance_isValid inst = true ->
        Z.of_nat (length job_sequence) = getNumJobs inst ->
        exists s, Solution_of_sequence job_sequence inst = Ok s
          /\ job_sequence_ s = job_sequence /\ instance_ s = inst
          /\ makespan_calculated_ s = false).
Proof.
  split; [|split; [|split]].
  - intros inst job_sequence H. unfold Solution_new, Solution_of_sequence. rewrite H.
    split; reflexivity.
  - intros inst H. unfold Solution_new. rewrite H. simpl. eexists. split; [reflexivity|].
    simpl. split; [reflexivity|]. split; [reflexivity|]. split; [reflexivity|].
    apply Solution_isValid_iff. simpl. apply perm_of_seqZ.
    apply ProblemInstance_isValid_dims in H. unfold getNumJobs. lia.
  - intros inst job_sequence H Hl. unfold Solution_of_sequence. rewrite H. simpl.
    destruct (Z.eqb_spec (Z.of_nat (length job_sequence)) (getNumJobs inst)); [lia|].
    reflexivity.
  - intros inst job_sequence H Hl. unfold Solution_of_sequence. rewrite H. simpl.
    rewrite Hl, Z.eqb_refl. simpl. eexists. split; [reflexivity|]. simpl.
    split; [reflexivity|]. split; reflexivity.
Qed.

(** [Solution_constructors] on the example instance. *)
Lemma Solution_constructors_witness :
  exists s, Solution_new example_instance = Ok s
    /\ job_sequence_ s = [0; 1; 2; 3] /\ Solution_isValid s = true.
Proof.
  destruct Solution_constructors as (_ & H & _).
  destruct (H example_instance eq_refl) as (s & H1 & H2 & _ & _ & H3).
  exists s. split; [exact H1|]. split; [exact H2 | exact H3].
Defined.

(** X5.  [Solution::isValid] returns true exactly when the job sequence
    has one entry per job of the instance, every entry is a job index,
    and no job occurs twice. *)
Theorem Solution_isValid_permutation (s : Solution) :
  Solution_isValid s = true <->
  Z.of_nat (length (job_sequence_ s)) = getNumJobs (instance_ s)
  /\ Forall (fun job => 0 <= job < getNumJobs (instance_ s)) (job_sequence_ s)
  /\ NoDup (job_sequence_ s).
Proof. exact (Solution_isValid_iff s). Qed.

Lemma swapJobs_out_of_range (s : Solution) (pos1 pos2 : Z) :
  pos1 < 0 \/ Solution_getNumJobs s <= pos1 \/ pos2 < 0 \/ Solution_getNumJobs s <= pos2 ->
  swapJobs s pos1 pos2 = Throw out_of_range.
Proof.
  unfold swapJobs, Solution_getNumJobs. intros H.
  destruct (Z.ltb_spec pos1 0); [reflexivity|].
  destruct (Z.geb_spec pos1 (Z.of_nat (length (job_sequence_ s)))); [reflexivity|].
  destruct (Z.ltb_spec pos2 0); [reflexivity|].
  destruct (Z.geb_spec pos2 (Z.of_nat (length (job_sequence_ s)))); [reflexivity|]. lia.
Qed.

Lemma swapJobs_in_range (s : Solution) (pos1 pos2 : Z) :
  0 <= pos1 < Solution_getNumJobs s -> 0 <= pos2 < Solution_getNumJobs s ->
  swapJobs s pos1 pos2
  = Ok (invalidateCache (set_job_sequence (vec_swap 0 (job_sequence_ s) pos1 pos2) s)).
Proof.
  unfold swapJobs, Solution_getNumJobs. intros H1 H2.
  destruct (Z.ltb_spec pos1 0); [lia|].
  destruct (Z.geb_spec pos1 (Z.of_nat (length (job_sequence_ s)))); [lia|].
  destruct (Z.ltb_spec pos2 0); [lia|].
  destruct (Z.geb_spec pos2 (Z.of_nat (length (job_sequence_ s)))); [lia|]. reflexivity.
Qed.

(** X6.  [Solution::swapJobs] throws [out_of_range] when a position is
    outside the sequence.  Otherwise it exchanges the two jobs and drops
    the cached makespan; the sequence keeps its length and stays valid
    when it was; and the same swap made again gives the sequence back. *)
Theorem swapJobs_exchanges :
  (forall s pos1 pos2,
     pos1 < 0 \/ Solution_getNumJobs s <= pos1 \/ pos2 < 0 \/ Solution_getNumJobs s <= pos2 ->
     swapJobs s pos1 pos2 = Throw out_of_range)
  /\ (forall s pos1 pos2,
        0 <= pos1 < Solution_getNumJobs s -> 0 <= pos2 < Solution_getNumJobs s ->
        exists s',
          swapJobs s pos1 pos2 = Ok s'
          /\ getJobAt s' pos1 = getJobAt s pos2 /\ getJobAt s' pos2 = getJobAt s pos1
          /\ (forall p, p <> pos1 -> p <> pos2 -> getJobAt s' p = getJobAt s p)
          /\ makespan_calculated_ s' = false
          /\ (Solution_isValid s = true -> Solution_isValid s' = true)
          /\ exists s'', swapJobs s' pos1 pos2 = Ok s''
                         /\ job_sequence_ s'' = job_sequence_ s).
Proof.
  split; [exact swapJobs_out_of_range|].
  intros s pos1 pos2 H1 H2. rewrite swapJobs_in_range by assumption.
  unfold Solution_getNumJobs in *.
  set (v := job_sequence_ s) in *.
  assert (Hlen : length (vec_swap 0 v pos1 pos2) = length v).
  { unfold vec_swap. rewrite !length_insert. reflexivity. }
  eexists. split; [reflexivity|]. unfold getJobAt. simpl. rewrite Hlen. fold v.
  split; [|split; [|split; [|split; [reflexivity|split]]]].
  - destruct (Z.ltb_spec pos1 0); [lia|]. destruct (Z.geb_spec pos1 (Z.of_nat (length v))); [lia|].
    destruct (Z.ltb_spec pos2 0); [lia|]. destruct (Z.geb_spec pos2 (Z.of_nat (length v))); [lia|].
    simpl. f_equal. unfold vec_swap. destruct (decide (pos1 = pos2)) as [->|Hne].
    + rewrite vec_at_insert_eq by (rewrite length_insert; lia). reflexivity.
    + rewrite vec_at_insert_ne by lia. rewrite vec_at_insert_eq by lia. reflexivity.
  - destruct (Z.ltb_spec pos1 0); [lia|]. destruct (Z.geb_spec pos1 (Z.of_nat (length v))); [lia|].
    destruct (Z.ltb_spec pos2 0); [lia|]. destruct (Z.geb_spec pos2 (Z.of_nat (length v))); [lia|].
    simpl. f_equal. unfold vec_swap.
    rewrite vec_at_insert_eq by (rewrite length_insert; lia). reflexivity.
  - intros p Hp1 Hp2.
    destruct ((p <? 0) || (p >=? Z.of_nat (length v))) eqn:E; [reflexivity|].
    apply orb_false_elim in E as [E1 E2]. f_equal. unfold vec_swap.
    rewrite !vec_at_insert_ne by lia. reflexivity.
  - intros Hv. apply Solution_isValid_iff. apply Solution_isValid_iff in Hv. simpl.
    eapply perm_of_Permutation; [|exact Hv]. apply vec_swap_Permutation; assumption.
  - rewrite swapJobs_in_range by (unfold Solution_getNumJobs; simpl; rewrite Hlen; assumption).
    eexists. split; [reflexivity|]. simpl. apply vec_swap_involutive; assumption.
Qed.

(** [swapJobs_exchanges] on the identity order of the example
    instance, positions 0 and 3. *)
Lemma swapJobs_exchanges_witness :
  exists s', swapJobs (fresh_solution example_instance [0; 1; 2; 3]) 0 3 = Ok s'
    /\ Solution_isValid s' = true
    /\ exists s'', swapJobs s' 0 3 = Ok s'' /\ job_sequence_ s'' = [0; 1; 2; 3].
Proof.
  destruct swapJobs_exchanges as (_ & H).
  destruct (H (fresh_solution example_instance [0; 1; 2; 3]) 0 3)
    as (s' & H1 & _ & _ & _ & _ & H2 & H3).
  - unfold Solution_getNumJobs; simpl; lia.
  - unfold Solution_getNumJobs; simpl; lia.
  - exists s'. split; [exact H1|]. split; [apply H2; reflexivity | exact H3].
Defined.

Lemma getMakespan_again (s : Solution) (mk : Z) (s' : Solution) :
  getMakespan s = Ok (mk, s') ->
  getMakespan s' = Ok (mk, s') /\ makespan_calculated_ s' = true.
Proof.
  unfold getMakespan. destruct (makespan_calculated_ s) eqn:E; simpl.
  - intros H. injection H as <- <-. rewrite E. simpl. split; reflexivity.
  - intros H. apply result_bind_Ok in H as (s1 & H1 & H2). injection H2 as <- <-.
    unfold calculateMakespan in H1. apply result_bind_Ok in H1 as (C & _ & H1).
    injection H1 as <-. simpl. split; reflexivity.
Qed.

(** X7.  [Solution::getMakespan] caches: once it has returned, a second
    call on the solution returns the same makespan and leaves the
    solution as it is, job sequence included.  [swapJobs] invalidates
    the cache: on a solution of a valid instance, the makespan returned
    after a swap is that of the swapped sequence. *)
Theorem getMakespan_cache :
  (forall s mk s',
     getMakespan s = Ok (mk, s') ->
     getMakespan s' = Ok (mk, s')
     /\ job_sequence_ s' = job_sequence_ s /\ instance_ s' = instance_ s)
  /\ (forall inst s pos1 pos2,
        ProblemInstance_isValid inst = true -> wf_solution inst s ->
        0 <= pos1 < getNumJobs inst -> 0 <= pos2 < getNumJobs inst ->
        exists mk0 s0 s1 s2,
          getMakespan s = Ok (mk0, s0)
          /\ swapJobs s0 pos1 pos2 = Ok s1
          /\ getMakespan s1
             = Ok (makespan_of inst (vec_swap 0 (job_sequence_ s) pos1 pos2), s2)).
Proof.
  split.
  - intros s mk s' H. split; [exact (proj1 (getMakespan_again s mk s' H))|].
    exact (getMakespan_same s mk s' H).
  - intros inst s pos1 pos2 Hv Hwf H1 H2.
    destruct (getMakespan_wf inst s Hv Hwf) as (s0 & E0 & Hj0 & _ & Hwf0).
    destruct (swapJobs_wf inst s0 pos1 pos2 Hwf0 H1 H2) as (s1 & E1 & Hj1 & Hwf1).
    destruct (getMakespan_wf inst s1 Hv Hwf1) as (s2 & E2 & _).
    exists (makespan_of inst (job_sequence_ s)), s0, s1, s2.
    split; [exact E0|]. split; [exact E1|]. rewrite E2, Hj1, Hj0. reflexivity.
Qed.

(** [getMakespan_cache] on the order [[1; 0; 3; 2]] of the example
    instance. *)
Lemma getMakespan_cache_witness :
  exists mk0 s0 s1 s2,
    getMakespan (fresh_solution example_instance [1; 0; 3; 2]) = Ok (mk0, s0)
    /\ swapJobs s0 0 3 = Ok s1
    /\ getMakespan s1 = Ok (makespan_of example_instance [2; 0; 3; 1], s2).
Proof.
  destruct getMakespan_cache as (_ & H).
  destruct (H example_instance (fresh_solution example_instance [1; 0; 3; 2]) 0 3
              eq_refl example_order_wf)
    as (mk0 & s0 & s1 & s2 & H0 & H1 & H2).
  - unfold getNumJobs; simpl; lia.
  - unfold getNumJobs; simpl; lia.
  - exists mk0, s0, s1, s2. split; [exact H0|]. split; [exact H1 | exact H2].
Defined.

(** ** Bounds on the makespan *)

Section MakespanBounds.
Variable inst : ProblemInstance.
Variable job_sequence : list Z.
Variable C : list (list Z).
Hypothesis inst_valid : ProblemInstance_isValid inst = true.
Hypothesis length_ok : Z.of_nat (length job_sequence) = num_jobs_ inst.
Hypothesis jobs_ok : Forall (fun job => 0 <= job < num_jobs_ inst) job_sequence.
Hypothesis C_filled : filled inst job_sequence (num_jobs_ inst) 0 C.

#[local] Abbreviation n := (num_jobs_ inst).
#[local] Abbreviation m := (num_machines_ inst).
#[local] Abbreviation pt := (fun p k => ptime inst (vec_at 0 job_sequence p) k).

Lemma cell_facts (p k : Z) :
  0 <= p < n -> 0 <= k < m ->
  0 <= pt p k /\ 0 <= mat_get C p k
  /\ mat_get C p k
     = pt p k + Z.max (if 0 <? p then mat_get C (p - 1) k else 0)
                      (if 0 <? k then mat_get C p (k - 1) else 0).
Proof using All.
  intros Hp Hk. destruct C_filled as [_ Hf].
  destruct (Hf p k Hp Hk ltac:(lia)) as [H0 Hrec]. split; [|split; [exact H0 | exact Hrec]].
  apply ptime_nonneg; [exact inst_valid | | exact Hk].
  rewrite Forall_forall in jobs_ok. apply jobs_ok. apply vec_at_elem_of. lia.
Qed.

Lemma cell_ge_left (p k : Z) :
  0 <= p < n -> 0 < k < m -> mat_get C p (k - 1) + pt p k <= mat_get C p k.
Proof using All.
  intros Hp Hk. destruct (cell_facts p k Hp ltac:(lia)) as (_ & _ & Hrec).
  destruct (Z.ltb_spec 0 k); [|lia]. lia.
Qed.

Lemma cell_ge_up (p k : Z) :
  0 < p < n -> 0 <= k < m -> mat_get C (p - 1) k + pt p k <= mat_get C p k.
Proof using All.
  intros Hp Hk. destruct (cell_facts p k ltac:(lia) Hk) as (_ & _ & Hrec).
  destruct (Z.ltb_spec 0 p); [|lia]. lia.
Qed.

Lemma cell_ge_time (p k : Z) :
  0 <= p < n -> 0 <= k < m -> pt p k <= mat_get C p k.
Proof using All.
  intros Hp Hk. destruct (cell_facts p k Hp Hk) as (_ & _ & Hrec).
  destruct (Z.ltb_spec 0 p) as [Hp0|Hp0]; destruct (Z.ltb_spec 0 k) as [Hk0|Hk0].
  - destruct (cell_facts (p - 1) k ltac:(lia) Hk) as (_ & H & _). lia.
  - destruct (cell_facts (p - 1) k ltac:(lia) Hk) as (_ & H & _). lia.
  - destruct (cell_facts p (k - 1) Hp ltac:(lia)) as (_ & H & _). lia.
  - lia.
Qed.

Lemma row_prefix_le (p : Z) (K : nat) :
  0 <= p < n -> (0 < K)%nat -> Z.of_nat K <= m ->
  sum_to (pt p) K <= mat_get C p (Z.of_nat K - 1).
Proof using All.
  intros Hp. induction K as [|K IH]; intros HK Hm; [lia|].
  destruct K as [|K'].
  - simpl. apply cell_ge_time; lia.
  - specialize (IH ltac:(lia) ltac:(lia)).
    pose proof (cell_ge_left p (Z.of_nat (S K')) Hp ltac:(lia)) as H.
    replace (Z.of_nat (S (S K')) - 1) with (Z.of_nat (S K')) by lia. cbn [sum_to] in *. lia.
Qed.

Lemma column_prefix_le (k : Z) (P : nat) :
  0 <= k < m -> (0 < P)%nat -> Z.of_nat P <= n ->
  sum_to (fun p => pt p k) P <= mat_get C (Z.of_nat P - 1) k.
Proof using All.
  intros Hk. induction P as [|P IH]; intros HP Hn; [lia|].
  destruct P as [|P'].
  - simpl. apply cell_ge_time; lia.
  - specialize (IH ltac:(lia) ltac:(lia)).
    pose proof (cell_ge_up (Z.of_nat (S P')) k ltac:(lia) Hk) as H.
    replace (Z.of_nat (S (S P')) - 1) with (Z.of_nat (S P')) by lia. cbn [sum_to] in *. lia.
Qed.

Lemma cell_le_down (p k : Z) (d : nat) :
  0 <= p -> p + Z.of_nat d < n -> 0 <= k < m ->
  mat_get C p k <= mat_get C (p + Z.of_nat d) k.
Proof using All.
  intros Hp Hd Hk. induction d as [|d IH]; [rewrite Z.add_0_r; lia|].
  specialize (IH ltac:(lia)).
  pose proof (cell_ge_up (p + Z.of_nat (S d)) k ltac:(lia) Hk) as H.
  destruct (cell_facts (p + Z.of_nat (S d)) k ltac:(lia) Hk) as (H0 & _).
  replace (p + Z.of_nat (S d) - 1) with (p + Z.of_nat d) in H by lia. lia.
Qed.

Lemma cell_le_right (p k : Z) (d : nat) :
  0 <= p < n -> 0 <= k -> k + Z.of_nat d < m ->
  mat_get C p k <= mat_get C p (k + Z.of_nat d).
Proof using All.
  intros Hp Hk Hd. induction d as [|d IH]; [rewrite Z.add_0_r; lia|].
  specialize (IH ltac:(lia)).
  pose proof (cell_ge_left p (k + Z.of_nat (S d)) Hp ltac:(lia)) as H.
  destruct (cell_facts p (k + Z.of_nat (S d)) Hp ltac:(lia)) as (H0 & _).
  replace (k + Z.of_nat (S d) - 1) with (k + Z.of_nat d) in H by lia. lia.
Qed.

Lemma last_cell_ge_job (p : Z) :
  0 <= p < n -> job_time inst (vec_at 0 job_sequence p) <= mat_get C (n - 1) (m - 1).
Proof using All.
  intros Hp. pose proof (ProblemInstance_isValid_dims inst inst_valid) as (Hn & Hm & _).
  unfold job_time, getNumMachines.
  pose proof (row_prefix_le p (Z.to_nat m) Hp ltac:(lia) ltac:(lia)) as H1.
  rewrite Z2Nat.id in H1 by lia.
  pose proof (cell_le_down p (m - 1) (Z.to_nat (n - 1 - p)) ltac:(lia) ltac:(lia) ltac:(lia))
    as H2.
  replace (p + Z.of_nat (Z.to_nat (n - 1 - p))) with (n - 1) in H2 by lia.
  exact (Z.le_trans _ _ _ H1 H2).
Qed.

Lemma last_cell_ge_machine (k : Z) :
  0 <= k < m -> machine_load inst job_sequence k <= mat_get C (n - 1) (m - 1).
Proof using All.
  intros Hk. pose proof (ProblemInstance_isValid_dims inst inst_valid) as (Hn & Hm & _).
  unfold machine_load.
  pose proof (column_prefix_le k (length job_sequence) Hk ltac:(lia) ltac:(lia)) as H1.
  rewrite length_ok in H1.
  pose proof (cell_le_right (n - 1) k (Z.to_nat (m - 1 - k)) ltac:(lia) ltac:(lia) ltac:(lia))
    as H2.
  replace (k + Z.of_nat (Z.to_nat (m - 1 - k))) with (m - 1) in H2 by lia.
  exact (Z.le_trans _ _ _ H1 H2).
Qed.
End MakespanBounds.

Lemma makespan_of_last_cell (inst : ProblemInstance) (job_sequence : list Z) :
  ProblemInstance_isValid inst = true ->
  Z.of_nat (length job_sequence) = num_jobs_ inst ->
  Forall (fun job => 0 <= job < num_jobs_ inst) job_sequence ->
  sequence_time inst job_sequence <= INT_MAX ->
  exists C, filled inst job_sequence (num_jobs_ inst) 0 C
    /\ makespan_of inst job_sequence
       = mat_get C (num_jobs_ inst - 1) (num_machines_ inst - 1).
Proof.
  intros Hv Hl HF Hsum. pose proof (ProblemInstance_isValid_dims inst Hv) as (Hn & _).
  destruct (calculateMakespan_loop_filled inst job_sequence Hv Hl HF Hsum) as (C & Hrun & Hf).
  exists C. split; [exact Hf|].
  unfold makespan_of, calculateMakespan, fresh_solution, getNumMachines. simpl.
  rewrite Hl, Hrun. simpl. destruct (Z.ltb_spec 0 (num_jobs_ inst)); [reflexivity | lia].
Qed.

Lemma perm_of_seqZ_Permutation (n : Z) (l : list Z) : perm_of n l -> l ≡ₚ seqZ 0 n.
Proof.
  intros (Hl & HF & HN). apply submseteq_length_Permutation.
  - apply NoDup_submseteq; [exact HN|]. intros x Hx. rewrite Forall_forall in HF.
    specialize (HF x Hx). apply elem_of_seqZ. lia.
  - rewrite length_seqZ. lia.
Qed.

Lemma perm_of_elem_of (n : Z) (l : list Z) (job : Z) :
  perm_of n l -> 0 <= job < n -> job ∈ l.
Proof.
  intros Hp Hj. rewrite (perm_of_seqZ_Permutation n l Hp). apply elem_of_seqZ. lia.
Qed.

(** X8.  On a solution of a valid instance whose processing times add
    up to at most [INT_MAX], so that no sum of the evaluator wraps
    around, the makespan that [getMakespan] returns is at least the
    total processing time of every job over the machines, and at least
    the total load that the jobs put on every machine. *)
Theorem makespan_lower_bounds (inst : ProblemInstance) (s : Solution) :
  ProblemInstance_isValid inst = true -> wf_solution inst s ->
  sequence_time inst (job_sequence_ s) <= INT_MAX ->
  exists mk s',
    getMakespan s = Ok (mk, s')
    /\ (forall job, 0 <= job < getNumJobs inst -> job_time inst job <= mk)
    /\ (forall machine, 0 <= machine < getNumMachines inst ->
          machine_load inst (job_sequence_ s) machine <= mk).
Proof.
  intros Hv Hwf Hsum. destruct (getMakespan_wf inst s Hv Hwf) as (s' & E & _).
  destruct Hwf as (_ & Hp & _). pose proof Hp as (Hl & HF & _).
  destruct (makespan_of_last_cell inst (job_sequence_ s) Hv Hl HF Hsum) as (C & Hf & Hmk).
  exists (makespan_of inst (job_sequence_ s)), s'. split; [exact E|]. rewrite Hmk. split.
  - intros job Hj. pose proof (perm_of_elem_of _ _ job Hp Hj) as Hin.
    apply (elem_of_vec_at 0) in Hin as (p & Hpr & <-).
    apply (last_cell_ge_job inst (job_sequence_ s) C Hv Hl HF Hf). unfold getNumJobs in Hl. lia.
  - intros machine Hk.
    apply (last_cell_ge_machine inst (job_sequence_ s) C Hv Hl HF Hf). exact Hk.
Qed.

(** [makespan_lower_bounds] on the order [[1; 0; 3; 2]] of the example
    instance: every job takes 12, the machines are loaded with 17, 16
    and 15. *)
Lemma makespan_lower_bounds_witness :
  exists mk s',
    getMakespan (fresh_solution example_instance [1; 0; 3; 2]) = Ok (mk, s')
    /\ job_time example_instance 2 <= mk
    /\ machine_load example_instance [1; 0; 3; 2] 0 <= mk.
Proof.
  destruct (makespan_lower_bounds example_instance
              (fresh_solution example_instance [1; 0; 3; 2]) eq_refl example_order_wf
              ltac:(vm_compute; discriminate))
    as (mk & s' & H & Hjobs & Hloads).
  exists mk, s'. split; [exact H|]. split.
  - apply Hjobs. unfold getNumJobs. simpl. lia.
  - apply (Hloads 0). unfold getNumMachines. simpl. lia.
Defined.

(** ** The distance between solutions: [Solution::distanceTo] *)

Lemma count_differ_sym (a : list Z) : forall b, count_differ a b = count_differ b a.
Proof.
  induction a as [|x a IH]; intros [|y b]; simpl; try reflexivity.
  rewrite IH, (Z.eqb_sym x y). reflexivity.
Qed.

Lemma count_differ_bounds (a : list Z) :
  forall b, 0 <= count_differ a b <= Z.of_nat (length a).
Proof.
  induction a as [|x a IH]; intros [|y b]; simpl; try lia.
  specialize (IH b). destruct (x =? y); lia.
Qed.

Lemma count_differ_zero (a : list Z) :
  forall b, length a = length b -> (count_differ a b = 0 <-> a = b).
Proof.
  induction a as [|x a IH]; intros [|y b] Hl; simpl in *; try discriminate.
  - split; reflexivity.
  - injection Hl as Hl. specialize (IH b Hl). pose proof (count_differ_bounds a b).
    destruct (Z.eqb_spec x y) as [->|Hne].
    + rewrite Z.add_0_l, IH. split; [intros ->; reflexivity | intros E; injection E; auto].
    + split; [lia | intros E; injection E; intros; contradiction].
Qed.

(** X9.  [Solution::distanceTo] is symmetric.  It returns [INT_MAX]
    when the two sequences differ in length; otherwise it returns the
    number of positions at which they differ, which lies between zero
    and the common length and is zero exactly when the sequences are
    equal. *)
Theorem distanceTo_counts_differences :
  (forall s other, distanceTo s other = distanceTo other s)
  /\ (forall s other,
        length (job_sequence_ s) <> length (job_sequence_ other) ->
        distanceTo s other = INT_MAX)
  /\ (forall s other,
        length (job_sequence_ s) = length (job_sequence_ other) ->
        0 <= distanceTo s other <= Solution_getNumJobs s
        /\ (distanceTo s other = 0 <-> job_sequence_ s = job_sequence_ other)).
Proof.
  unfold distanceTo, Solution_getNumJobs. split; [|split].
  - intros s other. rewrite (Nat.eqb_sym (length (job_sequence_ other))).
    destruct (length (job_sequence_ s) =? length (job_sequence_ other))%nat; simpl;
      [apply count_differ_sym | reflexivity].
  - intros s other H. apply Nat.eqb_neq in H. rewrite H. reflexivity.
  - intros s other H. rewrite H, Nat.eqb_refl. simpl. rewrite <- H. split.
    + apply count_differ_bounds.
    + apply count_differ_zero. exact H.
Qed.

(** [distanceTo_counts_differences] on two orders of the example
    instance. *)
Lemma distanceTo_counts_differences_witness :
  0 <= distanceTo (fresh_solution example_instance [1; 0; 3; 2])
                  (fresh_solution example_instance [2; 0; 3; 1]) <= 4.
Proof.
  destruct distanceTo_counts_differences as (_ & _ & H).
  exact (proj1 (H (fresh_solution example_instance [1; 0; 3; 2])
                  (fresh_solution example_instance [2; 0; 3; 1]) eq_refl)).
Defined.

(** ** Sorting, and the greedy order: [Solution::initializeGreedy] *)

Lemma sort_insert_Permutation {A : Type} (ltb : A -> A -> bool) (x : A) (l : list A) :
  sort_insert ltb x l ≡ₚ x :: l.
Proof.
  induction l as [|y l IH]; simpl; [reflexivity|].
  destruct (ltb y x); [|reflexivity]. rewrite IH. apply Permutation_swap.
Qed.

Lemma sort_by_Permutation {A : Type} (ltb : A -> A -> bool) (l : list A) :
  sort_by ltb l ≡ₚ l.
Proof.
  unfold sort_by. induction l as [|x l IH]; simpl; [reflexivity|].
  rewrite sort_insert_Permutation, IH. reflexivity.
Qed.

Section Sorted.
Context {A : Type} (ltb : A -> A -> bool).
Hypothesis ltb_asym : forall a b, ltb a b = true -> ltb b a = false.
Hypothesis ltb_trans : forall a b c, ltb b a = false -> ltb c b = false -> ltb c a = false.

(** [a] is not after [b]. *)
#[local] Abbreviation not_after := (fun a b : A => ltb b a = false).

Lemma sort_insert_sorted (x : A) (l : list A) :
  StronglySorted not_after l -> StronglySorted not_after (sort_insert ltb x l).
Proof using All.
  induction 1 as [|y l Hs IH Hy]; simpl; [repeat constructor|].
  destruct (ltb y x) eqn:E.
  - constructor; [exact IH|].
    rewrite sort_insert_Permutation. constructor; [apply ltb_asym; exact E | exact Hy].
  - constructor; [constructor; assumption|].
    constructor; [exact E|].
    eapply Forall_impl; [exact Hy|]. intros z Hz. cbv beta in *.
    exact (ltb_trans x y z E Hz).
Qed.

Lemma sort_by_sorted (l : list A) : StronglySorted not_after (sort_by ltb l).
Proof using All.
  unfold sort_by. induction l as [|x l IH]; simpl; [constructor|].
  apply sort_insert_sorted. exact IH.
Qed.
End Sorted.

Lemma StronglySorted_lookup {A : Type} (R : A -> A -> Prop) (l : list A) :
  StronglySorted R l ->
  forall (i j : nat) (x y : A), (i < j)%nat -> l !! i = Some x -> l !! j = Some y -> R x y.
Proof.
  induction 1 as [|a l Hs IH Ha]; intros i j x y Hij Hi Hj; [discriminate|].
  destruct j as [|j]; [lia|]. simpl in Hj. destruct i as [|i].
  - simpl in Hi. injection Hi as <-. rewrite Forall_forall in Ha. apply Ha.
    eapply list_elem_of_lookup_2. exact Hj.
  - simpl in Hi. apply (IH i j); [lia | assumption | assumption].
Qed.

Lemma pair_ltb_spec (a b : Z * Z) :
  pair_ltb a b = true <-> a.1 < b.1 \/ (a.1 = b.1 /\ a.2 < b.2).
Proof.
  unfold pair_ltb. rewrite orb_true_iff, andb_true_iff, negb_true_iff, !Z.ltb_lt, Z.ltb_ge. lia.
Qed.

Lemma pair_ltb_false (a b : Z * Z) :
  pair_ltb b a = false <-> a.1 < b.1 \/ (a.1 = b.1 /\ a.2 <= b.2).
Proof.
  rewrite <- not_true_iff_false, pair_ltb_spec. lia.
Qed.

Lemma job_total_loop (inst : ProblemInstance) (job : Z) :
  0 <= job < num_jobs_ inst -> 0 <= num_machines_ inst ->
  forZ 0 (getNumMachines inst)
    (fun machine total => t <- getProcessingTime inst job machine; Ok (int_add total t)) 0
  = Ok (int_job_time inst job).
Proof.
  intros Hj Hm. unfold int_job_time, getNumMachines.
  destruct (forZ_inv (fun k total => total = int_sum_to (ptime inst job) (Z.to_nat k))
              0 (num_machines_ inst)
              (fun machine total => t <- getProcessingTime inst job machine; Ok (int_add total t)) 0)
    as (total & Hrun & ->).
  - exact Hm.
  - reflexivity.
  - intros k total Hk ->. rewrite getProcessingTime_in_range by lia. simpl.
    eexists. split; [reflexivity|].
    replace (Z.to_nat (k + 1)) with (S (Z.to_nat k)) by lia. simpl.
    rewrite Z2Nat.id by lia. reflexivity.
  - exact Hrun.
Qed.

Lemma job_totals_loop (inst : ProblemInstance) :
  0 <= num_jobs_ inst -> 0 <= num_machines_ inst ->
  forZ 0 (getNumJobs inst)
    (fun job acc =>
       total_time <- forZ 0 (getNumMachines inst)
                      (fun machine total =>
                         t <- getProcessingTime inst job machine; Ok (int_add total t)) 0;
       Ok (acc ++ [(total_time, job)])) []
  = Ok (map (fun job => (int_job_time inst job, job)) (seqZ 0 (num_jobs_ inst))).
Proof.
  intros Hn Hm. unfold getNumJobs.
  destruct (forZ_inv (fun J acc => acc = map (fun job => (int_job_time inst job, job)) (seqZ 0 J))
              0 (num_jobs_ inst)
              (fun job acc =>
                 total_time <- forZ 0 (getNumMachines inst)
                                (fun machine total =>
                                   t <- getProcessingTime inst job machine; Ok (int_add total t)) 0;
                 Ok (acc ++ [(total_time, job)])) [])
    as (acc & Hrun & ->).
  - exact Hn.
  - reflexivity.
  - intros J acc HJ ->. rewrite job_total_loop by lia. simpl.
    eexists. split; [reflexivity|].
    rewrite seqZ_app by lia. rewrite map_app. simpl. rewrite Z.add_0_l. reflexivity.
  - exact Hrun.
Qed.

(** Without overflow the [int] total is the total. *)
Lemma int_sum_to_small (f : Z -> Z) (k : nat) :
  (forall i, 0 <= i < Z.of_nat k -> 0 <= f i) -> sum_to f k <= INT_MAX ->
  int_sum_to f k = sum_to f k.
Proof.
  induction k as [|k IH]; intros Hf Hs; [reflexivity|]. cbn [int_sum_to sum_to] in *.
  assert (H0 : 0 <= f (Z.of_nat k)) by (apply Hf; lia).
  assert (H1 : 0 <= sum_to f k) by (apply sum_to_nonneg; intros i Hi; apply Hf; lia).
  rewrite IH by (try lia; intros i Hi; apply Hf; lia).
  apply int_add_small; lia.
Qed.

Lemma int_job_time_small (inst : ProblemInstance) (job : Z) :
  ProblemInstance_isValid inst = true -> 0 <= job < num_jobs_ inst ->
  job_time inst job <= INT_MAX -> int_job_time inst job = job_time inst job.
Proof.
  intros Hv Hj Hs. pose proof (ProblemInstance_isValid_dims inst Hv) as (Hn & Hm & _).
  unfold int_job_time, job_time in *. apply int_sum_to_small; [|exact Hs].
  unfold getNumMachines. intros i Hi. apply ptime_nonneg; [exact Hv | exact Hj | lia].
Qed.

Lemma write_back_loop (sorted : list (Z * Z)) (v : list Z) :
  length v = length sorted ->
  forZ 0 (Z.of_nat (length sorted))
    (fun i v => Ok (<[Z.to_nat i := (vec_at (0, 0) sorted i).2]> v)) v
  = Ok (map snd sorted).
Proof.
  intros Hl.
  destruct (forZ_inv
              (fun I w => length w = length sorted
                          /\ take (Z.to_nat I) w = take (Z.to_nat I) (map snd sorted))
              0 (Z.of_nat (length sorted))
              (fun i v => Ok (<[Z.to_nat i := (vec_at (0, 0) sorted i).2]> v)) v)
    as (w & Hrun & Hlw & Hw).
  - lia.
  - split; [exact Hl | reflexivity].
  - intros i w Hi [Hlw Hw]. eexists. split; [reflexivity|].
    split; [rewrite length_insert; exact Hlw|].
    replace (Z.to_nat (i + 1)) with (S (Z.to_nat i)) by lia.
    assert (Hs : map snd sorted !! Z.to_nat i = Some (vec_at (0, 0) sorted i).2).
    { rewrite list_lookup_fmap. rewrite (lookup_vec_at (0, 0)) by lia. reflexivity. }
    rewrite (take_S_r _ _ _ Hs).
    rewrite (take_S_r _ _ (vec_at (0, 0) sorted i).2)
      by (apply list_lookup_insert_eq; lia).
    rewrite take_insert_ge by lia. rewrite Hw. reflexivity.
  - rewrite Hrun. f_equal. rewrite Nat2Z.id in Hw.
    rewrite <- Hlw in Hw at 1. rewrite firstn_all in Hw.
    rewrite Hw. apply take_ge. rewrite length_map. lia.
Qed.

Lemma pair_ltb_asym (a b : Z * Z) : pair_ltb a b = true -> pair_ltb b a = false.
Proof. rewrite pair_ltb_spec, pair_ltb_false. lia. Qed.

Lemma pair_ltb_trans (a b c : Z * Z) :
  pair_ltb b a = false -> pair_ltb c b = false -> pair_ltb c a = false.
Proof. rewrite !pair_ltb_false. lia. Qed.

(** X10.  On a solution of a valid instance, [Solution::initializeGreedy]
    returns; the order it leaves is a permutation of the jobs, which
    [isValid] accepts, in ascending order of the total processing time
    of the jobs as the code adds it up in [int], jobs of equal total by
    ascending index; the cached makespan is dropped.  When no job takes
    more than [INT_MAX] in total, this is the ascending order of the
    total processing times.  On the valid instance
    [[1500000000,1500000000],[2,3]] the total of job 0 wraps around to
    -1294967296 and the order is [0, 1], the longer job first. *)
Theorem initializeGreedy_sorts_by_total_time (inst : ProblemInstance) (s : Solution) :
  ProblemInstance_isValid inst = true ->
  instance_ s = inst ->
  Z.of_nat (length (job_sequence_ s)) = getNumJobs inst ->
  (exists s',
     Solution_initializeGreedy s = Ok s'
     /\ Solution_isValid s' = true
     /\ makespan_calculated_ s' = false
     /\ (forall i j, 0 <= i -> i < j -> j < getNumJobs inst ->
           int_job_time inst (vec_at 0 (job_sequence_ s') i)
           < int_job_time inst (vec_at 0 (job_sequence_ s') j)
           \/ (int_job_time inst (vec_at 0 (job_sequence_ s') i)
               = int_job_time inst (vec_at 0 (job_sequence_ s') j)
               /\ vec_at 0 (job_sequence_ s') i < vec_at 0 (job_sequence_ s') j))
     /\ ((forall job, 0 <= job < getNumJobs inst -> job_time inst job <= INT_MAX) ->
         forall i j, 0 <= i -> i < j -> j < getNumJobs inst ->
           job_time inst (vec_at 0 (job_sequence_ s') i)
           < job_time inst (vec_at 0 (job_sequence_ s') j)
           \/ (job_time inst (vec_at 0 (job_sequence_ s') i)
               = job_time inst (vec_at 0 (job_sequence_ s') j)
               /\ vec_at 0 (job_sequence_ s') i < vec_at 0 (job_sequence_ s') j)))
  /\ (ProblemInstance_isValid long_job_instance = true
      /\ int_job_time long_job_instance 0 = -1294967296
      /\ exists s',
           Solution_initializeGreedy (fresh_solution long_job_instance [0; 1]) = Ok s'
           /\ job_sequence_ s' = [0; 1]).
Proof.
  intros Hv Hi Hl. split; [|split; [reflexivity|split; [vm_compute; reflexivity|]]].
  2: { eexists. split; [vm_compute; reflexivity | reflexivity]. }
  pose proof (ProblemInstance_isValid_dims inst Hv) as (Hn & Hm & _).
  unfold Solution_initializeGreedy. rewrite Hi. rewrite job_totals_loop by lia.
  cbv beta iota zeta delta [result_bind].
  set (totals := map (fun job => (int_job_time inst job, job)) (seqZ 0 (num_jobs_ inst))).
  set (sorted := sort_by pair_ltb totals).
  assert (Hperm : sorted ≡ₚ totals) by apply sort_by_Permutation.
  assert (Hlen : length sorted = Z.to_nat (num_jobs_ inst)).
  { rewrite (Permutation_length Hperm). unfold totals. rewrite length_map, length_seqZ.
    reflexivity. }
  rewrite write_back_loop by (unfold getNumJobs in Hl; lia).
  eexists. split; [reflexivity|]. simpl.
  assert (Hsnd : map snd sorted ≡ₚ seqZ 0 (num_jobs_ inst)).
  { change (map snd sorted) with (snd <$> sorted). rewrite Hperm. unfold totals.
    change (snd <$> map (fun job => (int_job_time inst job, job)) (seqZ 0 (num_jobs_ inst)))
      with (map snd (map (fun job => (int_job_time inst job, job)) (seqZ 0 (num_jobs_ inst)))).
    rewrite map_map. simpl. rewrite map_id. reflexivity. }
  assert (Hvalid : perm_of (getNumJobs inst) (map snd sorted)).
  { eapply perm_of_Permutation; [exact Hsnd|]. apply perm_of_seqZ. unfold getNumJobs. lia. }
  assert (Hsorted : forall i j, 0 <= i -> i < j -> j < getNumJobs inst ->
            int_job_time inst (vec_at 0 (map snd sorted) i)
            < int_job_time inst (vec_at 0 (map snd sorted) j)
            \/ (int_job_time inst (vec_at 0 (map snd sorted) i)
                = int_job_time inst (vec_at 0 (map snd sorted) j)
                /\ vec_at 0 (map snd sorted) i < vec_at 0 (map snd sorted) j)).
  { intros i j H0 Hij Hj. unfold getNumJobs in Hj.
    assert (Hx : sorted !! Z.to_nat i = Some (vec_at (0, 0) sorted i))
      by (apply lookup_vec_at; lia).
    assert (Hy : sorted !! Z.to_nat j = Some (vec_at (0, 0) sorted j))
      by (apply lookup_vec_at; lia).
    pose proof (StronglySorted_lookup _ sorted
                  (sort_by_sorted pair_ltb pair_ltb_asym pair_ltb_trans totals)
                  (Z.to_nat i) (Z.to_nat j) _ _ ltac:(lia) Hx Hy) as Hle.
    cbv beta in Hle. apply pair_ltb_false in Hle.
    assert (Hpair : forall k, 0 <= k < num_jobs_ inst ->
              vec_at 0 (map snd sorted) k = (vec_at (0, 0) sorted k).2
              /\ (vec_at (0, 0) sorted k).1 = int_job_time inst (vec_at (0, 0) sorted k).2).
    { intros k Hk. split.
      - apply vec_at_lookup; [lia|]. change (map snd sorted) with (snd <$> sorted).
        rewrite list_lookup_fmap, (lookup_vec_at (0, 0)) by lia. reflexivity.
      - assert (Hin : vec_at (0, 0) sorted k ∈ totals).
        { rewrite <- Hperm. apply vec_at_elem_of. lia. }
        unfold totals in Hin. apply list_elem_of_In, in_map_iff in Hin as (job & <- & _).
        reflexivity. }
    destruct (Hpair i ltac:(lia)) as [-> Hti]. destruct (Hpair j ltac:(lia)) as [-> Htj].
    rewrite <- Hti, <- Htj. destruct Hle as [Hlt|[Heq Hle]]; [left; exact Hlt|].
    right. split; [exact Heq|].
    assert (Hne : (vec_at (0, 0) sorted i).2 <> (vec_at (0, 0) sorted j).2).
    { assert (HND : NoDup (map snd sorted)).
      { change (map snd sorted) with (snd <$> sorted). rewrite Hsnd. apply NoDup_seqZ. }
      intros E. rewrite <- (proj1 (Hpair i ltac:(lia))), <- (proj1 (Hpair j ltac:(lia))) in E.
      assert (Hli : map snd sorted !! Z.to_nat i = Some (vec_at 0 (map snd sorted) i))
        by (apply lookup_vec_at; rewrite length_map; lia).
      assert (Hlj : map snd sorted !! Z.to_nat j = Some (vec_at 0 (map snd sorted) j))
        by (apply lookup_vec_at; rewrite length_map; lia).
      rewrite E in Hli.
      pose proof (NoDup_lookup _ _ _ _ HND Hli Hlj). lia. }
    lia. }
  split; [|split; [reflexivity|split; [exact Hsorted|]]].
  - apply Solution_isValid_iff. simpl. rewrite Hi. exact Hvalid.
  - intros Hsmall i j H0 Hij Hj.
    assert (Hjob : forall k, 0 <= k < getNumJobs inst ->
              int_job_time inst (vec_at 0 (map snd sorted) k)
              = job_time inst (vec_at 0 (map snd sorted) k)).
    { intros k Hk. destruct Hvalid as (Hlv & HFv & _).
      assert (Hr : 0 <= vec_at 0 (map snd sorted) k < getNumJobs inst).
      { rewrite Forall_forall in HFv. apply HFv. apply vec_at_elem_of. lia. }
      apply int_job_time_small; [exact Hv | exact Hr | apply Hsmall, Hr]. }
    rewrite <- !Hjob by lia. apply Hsorted; assumption.
Qed.

(** [initializeGreedy_sorts_by_total_time] on the example instance,
    whose jobs all take 12: the greedy order is the identity. *)
Lemma initializeGreedy_sorts_by_total_time_witness :
  exists s',
    Solution_initializeGreedy (fresh_solution example_instance [3; 2; 1; 0]) = Ok s'
    /\ Solution_isValid s' = true.
Proof.
  destruct (initializeGreedy_sorts_by_total_time example_instance
              (fresh_solution example_instance [3; 2; 1; 0]) eq_refl eq_refl eq_refl)
    as ((s' & H1 & H2 & _) & _).
  exists s'. split; [exact H1 | exact H2].
Defined.

(** ** The random source: [Random] *)

Lemma randDouble_range (g : Random) :
  exists u g', randDouble g = Ok (u, g') /\ (0 <= u)%Q /\ (u < 1)%Q.
Proof.
  unfold randDouble, M_bind, raw_draw, M_ret. eexists. eexists. split; [reflexivity|].
  pose proof (Z.mod_pos_bound (tape g (cursor g)) (2 ^ 53) ltac:(lia)) as Hb.
  unfold Qle, Qlt. simpl. lia.
Qed.

Lemma randBool_out_of_range (probability : Q) (g : Random) :
  (probability < 0 \/ 1 < probability)%Q -> randBool probability g = Throw invalid_argument.
Proof.
  intros H. unfold randBool.
  destruct (Qltb_spec probability 0) as [_|H0]; [reflexivity|].
  destruct (Qltb_spec 1 probability) as [_|H1]; [reflexivity|]. tauto.
Qed.

Lemma randBool_in_range (probability : Q) (g : Random) :
  (0 <= probability <= 1)%Q ->
  exists u g', randDouble g = Ok (u, g')
    /\ randBool probability g = Ok (Qltb u probability, g').
Proof.
  intros [H0 H1]. unfold randBool.
  destruct (Qltb_spec probability 0) as [H|_]; [exfalso; revert H; apply Qle_not_lt, H0|].
  destruct (Qltb_spec 1 probability) as [H|_]; [exfalso; revert H; apply Qle_not_lt, H1|].
  simpl. destruct (randDouble_range g) as (u & g' & E & _). exists u, g'.
  split; [exact E|]. unfold M_bind. rewrite E. reflexivity.
Qed.

(** X11.  [Random::randInt] throws [invalid_argument] when [min > max]
    and otherwise returns a value of [[min, max]]; [randDouble] returns a
    value of [[0, 1)]; [randBool] throws [invalid_argument] on a
    probability outside [[0, 1]], never returns true for the
    probability 0 and always returns true for the probability 1. *)
Theorem random_draws_in_range :
  (forall min max g, max < min -> randInt min max g = Throw invalid_argument)
  /\ (forall min max g, min <= max ->
        exists v g', randInt min max g = Ok (v, g') /\ min <= v <= max)
  /\ (forall g, exists u g', randDouble g = Ok (u, g') /\ (0 <= u)%Q /\ (u < 1)%Q)
  /\ (forall probability g, (probability < 0 \/ 1 < probability)%Q ->
        randBool probability g = Throw invalid_argument)
  /\ (forall g, exists g', randBool 0 g = Ok (false, g'))
  /\ (forall g, exists g', randBool 1 g = Ok (true, g')).
Proof.
  split; [exact randInt_empty|]. split; [intros min max g H; exact (randInt_range min max g H)|].
  split; [exact randDouble_range|]. split; [exact randBool_out_of_range|]. split.
  - intros g. destruct (randBool_in_range 0 g) as (u & g' & E & ->).
    { split; unfold Qle; simpl; lia. }
    destruct (randDouble_range g) as (u' & g'' & E' & H0 & _). rewrite E in E'.
    injection E' as <- <-. exists g'. f_equal. f_equal.
    destruct (Qltb_spec u 0) as [H|_]; [|reflexivity].
    exfalso. revert H. apply Qle_not_lt. exact H0.
  - intros g. destruct (randBool_in_range 1 g) as (u & g' & E & ->).
    { split; unfold Qle; simpl; lia. }
    destruct (randDouble_range g) as (u' & g'' & E' & _ & H1). rewrite E in E'.
    injection E' as <- <-. exists g'. f_equal. f_equal.
    destruct (Qltb_spec u 1) as [_|H]; [reflexivity | contradiction].
Qed.

(** [random_draws_in_range] for a die. *)
Lemma random_draws_in_range_witness :
  exists v g', randInt 1 6 example_random = Ok (v, g') /\ 1 <= v <= 6.
Proof.
  destruct random_draws_in_range as (_ & H & _).
  exact (H 1 6 example_random ltac:(lia)).
Defined.

Lemma shuffle_Permutation (vec : list Z) (g : Random) :
  exists v g', shuffle 0 vec g = Ok (v, g') /\ v ≡ₚ vec.
Proof.
  unfold shuffle. apply (forM_inv (fun v => v ≡ₚ vec)); [reflexivity|].
  intros i v g1 Hi Hv.
  destruct (randInt_range 0 i g1 ltac:(lia)) as (k & g2 & E & Hk).
  unfold M_bind. rewrite E. unfold M_ret. eexists. eexists. split; [reflexivity|].
  etransitivity; [|exact Hv].
  apply vec_swap_Permutation; rewrite (Permutation_length Hv); lia.
Qed.

(** X12.  [Random::shuffle] returns, whatever the random source, a
    permutation of the vector it is given.  So [Solution::initializeRandom]
    keeps a valid solution valid, and [Random::randPermutation], which
    throws [invalid_argument] on a negative size, returns a permutation
    of [0 .. n-1]. *)
Theorem shuffle_permutes :
  (forall vec g, exists v g', shuffle 0 vec g = Ok (v, g') /\ v ≡ₚ vec)
  /\ (forall s g, exists s' g',
        Solution_initializeRandom s g = Ok (s', g')
        /\ job_sequence_ s' ≡ₚ job_sequence_ s
        /\ makespan_calculated_ s' = false
        /\ (Solution_isValid s = true -> Solution_isValid s' = true))
  /\ (forall n g, n < 0 -> randPermutation n g = Throw invalid_argument)
  /\ (forall n g, 0 <= n ->
        exists v g', randPermutation n g = Ok (v, g') /\ v ≡ₚ seqZ 0 n).
Proof.
  split; [exact shuffle_Permutation|]. split; [|split].
  - intros s g. unfold Solution_initializeRandom, M_bind.
    destruct (shuffle_Permutation (job_sequence_ s) g) as (v & g' & -> & Hv).
    unfold M_ret. eexists. eexists. split; [reflexivity|]. simpl.
    split; [exact Hv|]. split; [reflexivity|].
    intros H. apply Solution_isValid_iff. apply Solution_isValid_iff in H. simpl.
    eapply perm_of_Permutation; [exact Hv | exact H].
  - intros n g Hn. unfold randPermutation. destruct (Z.ltb_spec n 0); [reflexivity | lia].
  - intros n g Hn. unfold randPermutation. destruct (Z.ltb_spec n 0); [lia|].
    apply shuffle_Permutation.
Qed.

(** [shuffle_permutes] for a permutation of five elements. *)
Lemma shuffle_permutes_witness :
  exists v g', randPermutation 5 example_random = Ok (v, g') /\ v ≡ₚ [0; 1; 2; 3; 4].
Proof.
  destruct shuffle_permutes as (_ & _ & _ & H).
  exact (H 5 example_random ltac:(lia)).
Defined.

(** X13.  [Random::sample] throws [invalid_argument] when a size is
    negative or the sample is larger than the population; otherwise it
    returns, whatever the random source, [sample_size] distinct indices
    of [[0, population_size)]. *)
Theorem sample_without_replacement :
  (forall population_size sample_size g,
     population_size < 0 \/ sample_size < 0 \/ population_size < sample_size ->
     sample population_size sample_size g = Throw invalid_argument)
  /\ (forall population_size sample_size g,
        0 <= sample_size <= population_size ->
        exists v g',
          sample population_size sample_size g = Ok (v, g')
          /\ Z.of_nat (length v) = sample_size
          /\ NoDup v
          /\ Forall (fun i => 0 <= i < population_size) v).
Proof.
  split.
  - intros population_size sample_size g H. unfold sample.
    destruct (Z.ltb_spec population_size 0); [reflexivity|].
    destruct (Z.ltb_spec sample_size 0); [reflexivity|]. simpl.
    destruct (Z.gtb_spec sample_size population_size); [reflexivity | lia].
  - intros population_size sample_size g H. unfold sample.
    destruct (Z.ltb_spec population_size 0); [lia|].
    destruct (Z.ltb_spec sample_size 0); [lia|]. simpl.
    destruct (Z.gtb_spec sample_size population_size); [lia|].
    destruct (shuffle_Permutation (seqZ 0 population_size) g) as (v & g' & E & Hv).
    unfold M_bind. rewrite E. unfold M_ret. eexists. eexists. split; [reflexivity|].
    assert (Hl : length v = Z.to_nat population_size)
      by (rewrite (Permutation_length Hv), length_seqZ; reflexivity).
    split; [rewrite length_take; lia|]. split.
    + assert (HND : NoDup v) by (rewrite Hv; apply NoDup_seqZ).
      rewrite <- (take_drop (Z.to_nat sample_size) v) in HND.
      apply NoDup_app in HND as [HND _]. exact HND.
    + apply Forall_take. rewrite Hv. apply Forall_forall. intros i Hi.
      apply elem_of_seqZ in Hi. lia.
Qed.

(** [sample_without_replacement] for a tournament of three among five. *)
Lemma sample_without_replacement_witness :
  exists v g', sample 5 3 example_random = Ok (v, g')
    /\ Z.of_nat (length v) = 3 /\ NoDup v.
Proof.
  destruct sample_without_replacement as (_ & H).
  destruct (H 5 3 example_random ltac:(lia)) as (v & g' & H1 & H2 & H3 & _).
  exists v, g'. split; [exact H1|]. split; [exact H2 | exact H3].
Defined.

(** ** The operators of a horse *)

Lemma calculateFitness_positive (makespan : Z) :
  0 < makespan -> calculateFitness makespan = inject_Z (- makespan).
Proof. intros H. unfold calculateFitness. destruct (Z.gtb_spec makespan 0); [reflexivity | lia]. Qed.

(** X14.  [Horse::calculateFitness] is negative on every makespan; on
    positive makespans it reverses the order, so that a strictly
    smaller makespan is a strictly greater fitness; a makespan that is
    not positive gets the penalty [-1000000]. *)
Theorem calculateFitness_reverses_order :
  (forall makespan, (calculateFitness makespan < 0)%Q)
  /\ (forall m1 m2, 0 < m1 -> 0 < m2 ->
        (m1 < m2 <-> (calculateFitness m2 < calculateFitness m1)%Q))
  /\ (forall makespan, makespan <= 0 -> calculateFitness makespan = inject_Z (-1000000)).
Proof.
  split; [|split].
  - intros makespan. unfold calculateFitness.
    destruct (Z.gtb_spec makespan 0); unfold Qlt; simpl; lia.
  - intros m1 m2 H1 H2. rewrite !calculateFitness_positive by assumption.
    unfold Qlt. simpl. lia.
  - intros makespan H. unfold calculateFitness.
    destruct (Z.gtb_spec makespan 0); [lia | reflexivity].
Qed.

(** [calculateFitness_reverses_order] on the makespans 24 and 27. *)
Lemma calculateFitness_reverses_order_witness :
  (calculateFitness 27 < calculateFitness 24)%Q.
Proof.
  destruct calculateFitness_reverses_order as (_ & H & _).
  exact (proj1 (H 24 27 ltac:(lia) ltac:(lia)) ltac:(lia)).
Defined.

Lemma updateFitness_counter (h h' : Horse) :
  updateFitness h = Ok h' -> stagnation_counter_ h' = stagnation_counter_ h.
Proof.
  unfold updateFitness. intros H. apply result_bind_Ok in H as ([mk s] & _ & H).
  injection H as <-. reflexivity.
Qed.

(** X15.  [Horse::setSolution], on a horse and a solution of a valid
    instance: the solution becomes the current one and the fitness is
    that of its makespan; the personal best is replaced, and the
    stagnation counter reset to zero, exactly when the new fitness is
    strictly above the best fitness; otherwise the personal best is kept
    and the counter goes up by one. *)
Theorem setSolution_tracks_best (inst : ProblemInstance) (solution : Solution) (h : Horse) :
  ProblemInstance_isValid inst = true ->
  wf_solution inst solution -> wf_horse inst h ->
  exists h',
    setSolution solution h = Ok h'
    /\ job_sequence_ (solution_ h') = job_sequence_ solution
    /\ fitness_ h' = calculateFitness (makespan_of inst (job_sequence_ solution))
    /\ (if Qltb (best_fitness_ h) (fitness_ h')
        then best_fitness_ h' = fitness_ h'
             /\ job_sequence_ (best_solution_ h') = job_sequence_ solution
             /\ stagnation_counter_ h' = 0
        else best_fitness_ h' = best_fitness_ h
             /\ best_solution_ h' = best_solution_ h
             /\ stagnation_counter_ h' = stagnation_counter_ h + 1)
    /\ wf_horse inst h'.
Proof.
  intros Hv Hs [_ Hb]. unfold setSolution.
  assert (Hwf1 : wf_horse inst (with_solution solution h)) by (split; assumption).
  destruct (updateFitness_wf inst _ Hv Hwf1) as (h1 & E1 & Hf & Hj & Hbs & Hbf & Hwf2).
  pose proof (updateFitness_counter _ _ E1) as Hc. rewrite E1.
  simpl in Hf, Hj, Hbs, Hbf, Hc. cbv beta iota delta [result_bind].
  unfold updateBest. rewrite Hbf.
  destruct (Qltb (best_fitness_ h) (fitness_ h1)) eqn:E.
  - eexists. split; [reflexivity|]. simpl. rewrite E.
    split; [exact Hj|]. split; [exact Hf|]. split; [auto|].
    destruct Hwf2 as [Hs1 _]. split; exact Hs1.
  - eexists. split; [reflexivity|]. simpl. rewrite E.
    split; [exact Hj|]. split; [exact Hf|]. split; [|exact Hwf2].
    split; [exact Hbf|]. split; [exact Hbs|]. rewrite Hc. reflexivity.
Qed.

Lemma two_jobs_reversed_wf :
  wf_solution two_jobs_instance (fresh_solution two_jobs_instance [1; 0]).
Proof.
  split; [reflexivity|]. split.
  - split; [reflexivity|]. split.
    + repeat (constructor; [unfold getNumJobs; simpl; lia|]). constructor.
    + apply (bool_decide_unpack _). vm_compute. exact I.
  - intros H. discriminate.
Qed.

Lemma two_jobs_horse_wf : wf_horse two_jobs_instance two_jobs_horse.
Proof. exact (proj2 (proj2 two_jobs_herd_wf)). Qed.

(** [setSolution_tracks_best] on the horse on [[0; 1]], of makespan 4,
    given the order [[1; 0]], of makespan 5: the personal best is kept. *)
Lemma setSolution_tracks_best_witness :
  exists h',
    setSolution (fresh_solution two_jobs_instance [1; 0]) two_jobs_horse = Ok h'
    /\ job_sequence_ (solution_ h') = [1; 0]
    /\ fitness_ h' = calculateFitness (makespan_of two_jobs_instance [1; 0]).
Proof.
  destruct (setSolution_tracks_best two_jobs_instance
              (fresh_solution two_jobs_instance [1; 0]) two_jobs_horse
              eq_refl two_jobs_reversed_wf two_jobs_horse_wf)
    as (h' & H1 & H2 & H3 & _).
  exists h'. split; [exact H1|]. split; [exact H2 | exact H3].
Defined.

Lemma Qmax_spec (a b : Q) : (a <= Qmax a b)%Q /\ (b <= Qmax a b)%Q
                            /\ (Qmax a b = a \/ Qmax a b = b).
Proof.
  unfold Qmax. destruct (Qltb_spec a b) as [H|H].
  - split; [apply Qlt_le_weak; exact H|]. split; [apply Qle_refl | right; reflexivity].
  - split; [apply Qle_refl|]. split; [apply Qnot_lt_le; exact H | left; reflexivity].
Qed.

(** X16.  [Horse::increaseAge] adds one to the age and wears the two
    abilities down: each stays at least [0.1], and does not grow when it
    was at least [0.1]; the solutions, the fitness values and the
    stagnation counter are untouched.  [Horse::rejuvenate] sets the age
    and the stagnation counter to zero and draws both abilities in
    [[0.8, 1]], so that the horse is not stagnant for any positive
    bound; it leaves the solutions and the fitness values as they are. *)
Theorem ageing_and_rejuvenation :
  (forall h,
     age_ (increaseAge h) = (age_ h + 1)%Q
     /\ (1 # 10 <= grazing_ability_ (increaseAge h))%Q
     /\ (1 # 10 <= stamina_ (increaseAge h))%Q
     /\ ((1 # 10 <= grazing_ability_ h)%Q ->
         (grazing_ability_ (increaseAge h) <= grazing_ability_ h)%Q)
     /\ ((1 # 10 <= stamina_ h)%Q -> (stamina_ (increaseAge h) <= stamina_ h)%Q)
     /\ solution_ (increaseAge h) = solution_ h
     /\ best_solution_ (increaseAge h) = best_solution_ h
     /\ fitness_ (increaseAge h) = fitness_ h
     /\ best_fitness_ (increaseAge h) = best_fitness_ h
     /\ stagnation_counter_ (increaseAge h) = stagnation_counter_ h)
  /\ (forall h g,
        exists h' g',
          rejuvenate h g = Ok (h', g')
          /\ age_ h' = 0%Q /\ stagnation_counter_ h' = 0
          /\ (4 # 5 <= grazing_ability_ h' <= 1)%Q
          /\ (4 # 5 <= stamina_ h' <= 1)%Q
          /\ solution_ h' = solution_ h /\ best_solution_ h' = best_solution_ h
          /\ fitness_ h' = fitness_ h /\ best_fitness_ h' = best_fitness_ h
          /\ forall max_stagnation, 0 < max_stagnation ->
               isStagnant max_stagnation h' = false).
Proof.
  split.
  - intros h. unfold increaseAge. simpl.
    destruct (Qmax_spec (1 # 10) (grazing_ability_ h * (199 # 200))) as (G1 & G2 & G3).
    destruct (Qmax_spec (1 # 10) (stamina_ h * (499 # 500))) as (S1 & S2 & S3).
    split; [reflexivity|]. split; [exact G1|]. split; [exact S1|].
    split; [|split; [|repeat split]].
    + intros H. destruct G3 as [->| ->]; [exact H | lra].
    + intros H. destruct S3 as [->| ->]; [exact H | lra].
  - intros h g. unfold rejuvenate, M_bind.
    destruct (randDouble_range g) as (u1 & g1 & -> & H10 & H11).
    destruct (randDouble_range g1) as (u2 & g2 & -> & H20 & H21).
    unfold M_ret. eexists. eexists. split; [reflexivity|]. simpl.
    split; [reflexivity|]. split; [reflexivity|].
    split; [split; lra|]. split; [split; lra|].
    split; [reflexivity|]. split; [reflexivity|]. split; [reflexivity|].
    split; [reflexivity|]. intros max_stagnation H. unfold isStagnant. simpl.
    destruct (Z.geb_spec 0 max_stagnation); [lia | reflexivity].
Qed.

(** [ageing_and_rejuvenation] on a horse of grazing ability [0.8]. *)
Lemma ageing_and_rejuvenation_witness :
  (grazing_ability_ (increaseAge two_jobs_horse) <= 4 # 5)%Q.
Proof.
  destruct ageing_and_rejuvenation as [H _].
  destruct (H two_jobs_horse) as (_ & _ & _ & H1 & _).
  apply H1. unfold Qle. simpl. lia.
Defined.

Lemma first_improvement_outcome (inst : ProblemInstance) (move : list Z -> Z * Z -> list Z)
    (candidates : list (Z * Z)) (job_sequence : list Z) :
  let r := first_improvement inst move candidates job_sequence in
  (r.1 = true /\ makespan_of inst r.2 < makespan_of inst job_sequence)
  \/ (r.1 = false /\ r.2 = job_sequence).
Proof.
  unfold first_improvement.
  destruct (find _ candidates) as [c|] eqn:E; simpl.
  - left. split; [reflexivity|]. apply find_some in E as [_ E]. apply Z.ltb_lt. exact E.
  - right. split; reflexivity.
Qed.

(** What [graze] needs of a local search. *)
Lemma apply2OptSearch_outcome (inst : ProblemInstance) (s : Solution) :
  ProblemInstance_isValid inst = true -> wf_solution inst s ->
  exists found s',
    apply2OptSearch s = Ok (found, s') /\ wf_solution inst s'
    /\ makespan_of inst (job_sequence_ s') <= makespan_of inst (job_sequence_ s)
    /\ (found = true
        <-> makespan_of inst (job_sequence_ s') < makespan_of inst (job_sequence_ s)).
Proof.
  intros Hv Hwf.
  destruct (apply2OptSearch_first_improvement inst s Hv Hwf) as (s' & E & Hj & Hwf').
  pose proof (first_improvement_outcome inst swap_move (swap_pairs (getNumJobs inst))
                (job_sequence_ s)) as Hr. cbv zeta in Hr.
  eexists. exists s'. split; [exact E|]. split; [exact Hwf'|]. rewrite Hj.
  destruct Hr as [[-> Hlt]|[-> ->]].
  - split; [lia|]. split; [intros _; exact Hlt | reflexivity].
  - split; [lia|]. split; [discriminate | lia].
Qed.

Lemma Horse_applyInsertionSearch_outcome (inst : ProblemInstance) (s : Solution) :
  ProblemInstance_isValid inst = true -> wf_solution inst s ->
  exists found s',
    Horse_applyInsertionSearch s = Ok (found, s') /\ wf_solution inst s'
    /\ makespan_of inst (job_sequence_ s') <= makespan_of inst (job_sequence_ s)
    /\ (found = true
        <-> makespan_of inst (job_sequence_ s') < makespan_of inst (job_sequence_ s)).
Proof.
  intros Hv Hwf.
  destruct (Horse_applyInsertionSearch_first_improvement inst s Hv Hwf)
    as (s' & E & Hj & Hwf').
  pose proof (first_improvement_outcome inst insertion_move
                (insertion_pairs (getNumJobs inst)) (job_sequence_ s)) as Hr. cbv zeta in Hr.
  eexists. exists s'. split; [exact E|]. split; [exact Hwf'|]. rewrite Hj.
  destruct Hr as [[-> Hlt]|[-> ->]].
  - split; [lia|]. split; [intros _; exact Hlt | reflexivity].
  - split; [lia|]. split; [discriminate | lia].
Qed.

Lemma graze_stage (inst : ProblemInstance) (search : Solution -> result (bool * Solution))
    (c : bool -> bool) (b : bool) (h : Horse) (g : Random) :
  (forall s, wf_solution inst s ->
     exists found s',
       search s = Ok (found, s') /\ wf_solution inst s'
       /\ makespan_of inst (job_sequence_ s') <= makespan_of inst (job_sequence_ s)
       /\ (found = true
           <-> makespan_of inst (job_sequence_ s') < makespan_of inst (job_sequence_ s))) ->
  wf_horse inst h ->
  exists found h1,
    (if b then
       '(found, s) <~ liftR (search (solution_ h)); M_ret (c found, with_solution s h)
     else M_ret (c false, h)) g = Ok ((c found, h1), g)
    /\ wf_horse inst h1
    /\ current_makespan inst h1 <= current_makespan inst h
    /\ (found = true <-> current_makespan inst h1 < current_makespan inst h)
    /\ best_solution_ h1 = best_solution_ h /\ best_fitness_ h1 = best_fitness_ h
    /\ fitness_ h1 = fitness_ h.
Proof.
  intros Hsearch [Hs Hb]. destruct b.
  - destruct (Hsearch (solution_ h) Hs) as (found & s' & E & Hwf' & Hle & Hiff).
    exists found, (with_solution s' h). unfold M_bind, liftR. rewrite E. unfold M_ret.
    split; [reflexivity|]. split; [split; assumption|]. unfold current_makespan. simpl.
    split; [exact Hle|]. split; [exact Hiff|]. repeat split.
  - exists false, h. unfold M_ret. split; [reflexivity|]. split; [split; assumption|].
    split; [lia|]. split; [split; [discriminate | lia]|]. repeat split.
Qed.

(** [Horse::graze] on a horse of a valid instance: the outcome. *)
Lemma graze_outcome (inst : ProblemInstance) (intensity : Q) (h : Horse)
    (g : Random) :
  ProblemInstance_isValid inst = true -> wf_horse inst h ->
  (0 < intensity)%Q -> (intensity <= 1)%Q ->
  exists improved h' g',
    graze intensity h g = Ok ((improved, h'), g')
    /\ wf_horse inst h'
    /\ current_makespan inst h' <= current_makespan inst h
    /\ (improved = true <-> current_makespan inst h' < current_makespan inst h)
    /\ keeps_or_raises_best h h'.
Proof.
  intros Hv Hwf H0 H1. unfold graze.
  assert (E0 : Qleb intensity 0 = false).
  { unfold Qleb. destruct (Qle_bool intensity 0) eqn:E; [|reflexivity].
    apply Qle_bool_iff in E. exfalso. exact (Qlt_not_le _ _ H0 E). }
  destruct (Qltb_spec 1 intensity) as [H|_]; [exfalso; exact (Qlt_not_le _ _ H H1)|].
  rewrite E0. simpl. cbv zeta.
  destruct (randDouble_range g) as (u1 & g1 & Eu1 & _).
  unfold M_bind at 1. rewrite Eu1.
  destruct (graze_stage inst apply2OptSearch (fun f => f)
              (Qltb u1 (intensity * grazing_ability_ h * stamina_ h)) h g1
              (fun s Hs => apply2OptSearch_outcome inst s Hv Hs) Hwf)
    as (found1 & h1 & E1 & Hwf1 & Hle1 & Hiff1 & Hbs1 & Hbf1 & Hf1).
  unfold M_bind at 1. cbv beta in E1. rewrite E1. cbv beta iota.
  destruct (randDouble_range g1) as (u2 & g2 & Eu2 & _).
  unfold M_bind at 1. rewrite Eu2.
  destruct (graze_stage inst Horse_applyInsertionSearch (fun f => f || found1)
              (Qltb u2 (intensity * grazing_ability_ h * stamina_ h * (7 # 10))) h1 g2
              (fun s Hs => Horse_applyInsertionSearch_outcome inst s Hv Hs) Hwf1)
    as (found2 & h2 & E2 & Hwf2 & Hle2 & Hiff2 & Hbs2 & Hbf2 & Hf2).
  lazymatch goal with
  | |- context [M_bind ?m ?k g2] =>
      assert (E2' : m g2 = Ok ((found2 || found1, h2), g2)) by exact E2
  end.
  unfold M_bind at 1. rewrite E2'. cbv beta iota.
  assert (Hflag : found2 || found1 = true
                  <-> current_makespan inst h2 < current_makespan inst h).
  { rewrite orb_true_iff, Hiff2, Hiff1. lia. }
  destruct (found2 || found1) eqn:Eflag.
  - destruct (updateFitness_wf inst h2 Hv Hwf2) as (h3 & E3 & Hf3 & Hj3 & Hbs3 & Hbf3 & Hwf3).
    unfold M_bind, liftR. rewrite E3. unfold M_ret.
    destruct (updateBest_spec inst h3 Hwf3) as (Hwf4 & Hsol4 & Hfit4 & Hkeep).
    eexists. eexists. eexists. split; [reflexivity|]. split; [exact Hwf4|].
    assert (Hmk : current_makespan inst (updateBest h3).2 = current_makespan inst h2).
    { unfold current_makespan. rewrite Hsol4, Hj3. reflexivity. }
    rewrite Hmk. split; [lia|]. split; [exact Hflag|].
    unfold keeps_or_raises_best in *. rewrite Hbf3, Hbs3, Hbf2, Hbs2, Hbf1, Hbs1 in Hkeep.
    exact Hkeep.
  - unfold M_ret. eexists. eexists. eexists. split; [reflexivity|]. split; [exact Hwf2|].
    split; [lia|]. split; [exact Hflag|]. left. split; [congruence|].
    rewrite Hbs2, Hbs1. reflexivity.
Qed.

(** X17.  [Horse::graze], on a horse of a valid instance and for an
    intensity in [(0, 1]]: it returns; the current makespan of the horse
    does not grow; the flag returned is true exactly when the current
    makespan went strictly down; and the personal best is kept, or
    replaced by the new current solution when that one is strictly
    fitter. *)
Theorem graze_never_worsens (inst : ProblemInstance) (intensity : Q) (h : Horse)
    (g : Random) :
  ProblemInstance_isValid inst = true -> wf_horse inst h ->
  (0 < intensity)%Q -> (intensity <= 1)%Q ->
  exists improved h' g',
    graze intensity h g = Ok ((improved, h'), g')
    /\ wf_horse inst h'
    /\ current_makespan inst h' <= current_makespan inst h
    /\ (improved = true <-> current_makespan inst h' < current_makespan inst h)
    /\ keeps_or_raises_best h h'.
Proof. exact (graze_outcome inst intensity h g). Qed.

(** [graze_never_worsens] on the horse on the order [[0; 1]] of two
    jobs, with the intensity one. *)
Lemma graze_never_worsens_witness :
  exists improved h' g',
    graze 1 two_jobs_horse counting_random = Ok ((improved, h'), g')
    /\ current_makespan two_jobs_instance h' <= current_makespan two_jobs_instance two_jobs_horse.
Proof.
  assert (H0 : (0 < 1)%Q) by reflexivity.
  assert (H1 : (1 <= 1)%Q) by (unfold Qle; simpl; lia).
  destruct (graze_never_worsens two_jobs_instance 1 two_jobs_horse counting_random
              eq_refl two_jobs_horse_wf H0 H1)
    as (improved & h' & g' & E & _ & Hle & _).
  exists improved, h', g'. split; [exact E | exact Hle].
Defined.

Lemma wf_solution_isValid (inst : ProblemInstance) (s : Solution) :
  wf_solution inst s -> instance_ s = inst /\ Solution_isValid s = true.
Proof.
  intros (Hi & Hp & _). split; [exact Hi|]. apply Solution_isValid_iff. rewrite Hi. exact Hp.
Qed.

Lemma rate_check (rate : Q) :
  (0 <= rate <= 1)%Q -> Qltb rate 0 || Qltb 1 rate = false.
Proof.
  intros [H0 H1].
  destruct (Qltb_spec rate 0) as [H|_]; [exfalso; exact (Qlt_not_le _ _ H H0)|].
  destruct (Qltb_spec 1 rate) as [H|_]; [exfalso; exact (Qlt_not_le _ _ H H1)|]. reflexivity.
Qed.

Lemma rate_check_fails (rate : Q) :
  (rate < 0 \/ 1 < rate)%Q -> Qltb rate 0 || Qltb 1 rate = true.
Proof.
  intros H. destruct (Qltb_spec rate 0) as [_|H0]; [reflexivity|].
  destruct (Qltb_spec 1 rate) as [_|H1]; [reflexivity|]. tauto.
Qed.

(** X18.  [Horse::followLeader] and [Horse::mateWith] throw
    [invalid_argument] on a rate outside [[0, 1]].  On horses of a valid
    instance of at least two jobs and for a rate in [[0, 1]] they return,
    whatever the random source, a solution of the instance that
    [isValid] accepts. *)
Theorem followLeader_mateWith_valid :
  (forall other rate h g,
     (rate < 0 \/ 1 < rate)%Q ->
     followLeader other rate h g = Throw invalid_argument
     /\ mateWith other rate h g = Throw invalid_argument)
  /\ (forall inst other rate h g,
        ProblemInstance_isValid inst = true ->
        wf_horse inst h -> wf_horse inst other ->
        2 <= getNumJobs inst -> (0 <= rate <= 1)%Q ->
        (exists s g', followLeader other rate h g = Ok (s, g')
                      /\ instance_ s = inst /\ Solution_isValid s = true)
        /\ (exists s g', mateWith other rate h g = Ok (s, g')
                         /\ instance_ s = inst /\ Solution_isValid s = true)).
Proof.
  split.
  - intros other rate h g H. unfold followLeader, mateWith.
    rewrite (rate_check_fails rate H). split; reflexivity.
  - intros inst other rate h g Hv [Hs Hb] [Hos Hob] Hn Hr.
    apply wf_solution_isValid in Hs as [Hsi Hsv]. apply wf_solution_isValid in Hb as [Hbi Hbv].
    apply wf_solution_isValid in Hob as [Hobi Hobv]. clear Hos.
    unfold followLeader, mateWith. rewrite (rate_check rate Hr).
    destruct (randDouble_range g) as (u & g1 & Eu & _). unfold M_bind at 1 2. rewrite Eu.
    split.
    + destruct (Qltb u rate).
      * destruct (orderCrossover_valid (solution_ h) (best_solution_ other) g1)
          as (c & g' & E & Hci & Hcv); try congruence.
        exists c, g'. split; [exact E|]. split; [congruence | exact Hcv].
      * destruct (partiallyMappedCrossover_valid (solution_ h) (best_solution_ other) g1)
          as (c & g' & E & Hci & Hcv); try congruence.
        exists c, g'. split; [exact E|]. split; [congruence | exact Hcv].
    + destruct (Qltb u rate); unfold M_bind; rewrite randBool_half;
        destruct (tape g1 (cursor g1) mod 2 ^ 53 <? 2 ^ 52).
      * destruct (orderCrossover_valid (best_solution_ h) (best_solution_ other) (advance g1))
          as (c & g' & E & Hci & Hcv); try congruence.
        exists c, g'. split; [exact E|]. split; [congruence | exact Hcv].
      * destruct (partiallyMappedCrossover_valid (best_solution_ h) (best_solution_ other)
                    (advance g1)) as (c & g' & E & Hci & Hcv); try congruence.
        exists c, g'. split; [exact E|]. split; [congruence | exact Hcv].
      * unfold M_ret. eexists. eexists. split; [reflexivity|]. split; assumption.
      * unfold M_ret. eexists. eexists. split; [reflexivity|]. split; assumption.
Qed.

(** [followLeader_mateWith_valid] on the horse on two jobs, following
    and mating with itself at the rate one half. *)
Lemma followLeader_mateWith_valid_witness :
  (exists s g', followLeader two_jobs_horse (1 # 2) two_jobs_horse counting_random = Ok (s, g')
                /\ Solution_isValid s = true)
  /\ (exists s g', mateWith two_jobs_horse (1 # 2) two_jobs_horse counting_random = Ok (s, g')
                   /\ Solution_isValid s = true).
Proof.
  destruct followLeader_mateWith_valid as (_ & H).
  assert (Hr : (0 <= 1 # 2 <= 1)%Q) by (split; unfold Qle; simpl; lia).
  assert (Hn : 2 <= getNumJobs two_jobs_instance) by (unfold getNumJobs; simpl; lia).
  destruct (H two_jobs_instance two_jobs_horse (1 # 2) two_jobs_horse counting_random
              eq_refl two_jobs_horse_wf two_jobs_horse_wf Hn Hr)
    as ((s1 & g1 & E1 & _ & V1) & (s2 & g2 & E2 & _ & V2)).
  split; [exists s1, g1 | exists s2, g2]; split; assumption.
Defined.

(** ** The herd: best and worst horse, order by fitness *)

Lemma max_element_from_spec (rest : list Horse) :
  forall largest,
    let best := max_element_from largest rest in
    best ∈ largest :: rest
    /\ (best_fitness_ largest <= best_fitness_ best)%Q
    /\ Forall (fun h => (best_fitness_ h <= best_fitness_ best)%Q) rest.
Proof.
  induction rest as [|h rest IH]; intros largest; simpl.
  - split; [left|]. split; [apply Qle_refl | constructor].
  - destruct (Qltb_spec (best_fitness_ largest) (best_fitness_ h)) as [Hlt|Hge].
    + destruct (IH h) as (Hin & Hle & HF). split; [right; exact Hin|].
      split; [eapply Qle_trans; [apply Qlt_le_weak; exact Hlt | exact Hle]|].
      constructor; assumption.
    + destruct (IH largest) as (Hin & Hle & HF).
      split; [apply elem_of_cons in Hin as [->|Hin]; [left | right; right; exact Hin]|].
      split; [exact Hle|]. constructor; [|exact HF].
      eapply Qle_trans; [apply Qnot_lt_le; exact Hge | exact Hle].
Qed.

Lemma min_element_from_spec (rest : list Horse) :
  forall smallest,
    let worst := min_element_from smallest rest in
    worst ∈ smallest :: rest
    /\ (best_fitness_ worst <= best_fitness_ smallest)%Q
    /\ Forall (fun h => (best_fitness_ worst <= best_fitness_ h)%Q) rest.
Proof.
  induction rest as [|h rest IH]; intros smallest; simpl.
  - split; [left|]. split; [apply Qle_refl | constructor].
  - destruct (Qltb_spec (best_fitness_ h) (best_fitness_ smallest)) as [Hlt|Hge].
    + destruct (IH h) as (Hin & Hle & HF). split; [right; exact Hin|].
      split; [eapply Qle_trans; [exact Hle | apply Qlt_le_weak; exact Hlt]|].
      constructor; assumption.
    + destruct (IH smallest) as (Hin & Hle & HF).
      split; [apply elem_of_cons in Hin as [->|Hin]; [left | right; right; exact Hin]|].
      split; [exact Hle|]. constructor; [|exact HF].
      eapply Qle_trans; [exact Hle | apply Qnot_lt_le; exact Hge].
Qed.

(** X19.  [HorseHerd::getBestHorse] and [getBestSolution] throw
    [runtime_error] on a herd without horses.  Otherwise [getBestHorse]
    returns a horse of the herd whose best fitness is at least that of
    every horse, [getBestSolution] returns the best solution of that
    horse, and [getWorstFitness], which is zero on a herd without
    horses, is the best fitness of a horse of the herd and at most that
    of every horse. *)
Theorem getBestHorse_is_fittest :
  (forall herd, horses_ herd = [] ->
     getBestHorse herd = Throw runtime_error
     /\ getBestSolution herd = Throw runtime_error
     /\ getWorstFitness herd = 0%Q)
  /\ (forall herd, horses_ herd <> [] ->
        exists best,
          getBestHorse herd = Ok best
          /\ getBestSolution herd = Ok (best_solution_ best)
          /\ best ∈ horses_ herd
          /\ Forall (fun h => (best_fitness_ h <= best_fitness_ best)%Q) (horses_ herd)
          /\ exists worst,
               worst ∈ horses_ herd
               /\ getWorstFitness herd = best_fitness_ worst
               /\ Forall (fun h => (best_fitness_ worst <= best_fitness_ h)%Q) (horses_ herd)).
Proof.
  split.
  - intros herd H. unfold getBestSolution, getBestHorse, getWorstFitness. rewrite H.
    repeat split.
  - intros herd H. unfold getBestSolution, getBestHorse, getWorstFitness.
    destruct (horses_ herd) as [|h rest]; [congruence|].
    destruct (max_element_from_spec rest h) as (Hin & Hle & HF).
    destruct (min_element_from_spec rest h) as (Hin' & Hle' & HF').
    eexists. split; [reflexivity|]. split; [reflexivity|]. split; [exact Hin|].
    split; [constructor; assumption|].
    eexists. split; [exact Hin'|]. split; [reflexivity|]. constructor; assumption.
Qed.

(** [getBestHorse_is_fittest] on the herd of one horse on two jobs. *)
Lemma getBestHorse_is_fittest_witness :
  exists best, getBestHorse two_jobs_herd = Ok best /\ best ∈ horses_ two_jobs_herd.
Proof.
  destruct getBestHorse_is_fittest as (_ & H).
  destruct (H two_jobs_herd) as (best & H1 & _ & H2 & _).
  - discriminate.
  - exists best. split; [exact H1 | exact H2].
Defined.

Lemma fitness_gtb_asym (a b : Horse) :
  Qltb (fitness_ b) (fitness_ a) = true -> Qltb (fitness_ a) (fitness_ b) = false.
Proof.
  destruct (Qltb_spec (fitness_ b) (fitness_ a)) as [H|H]; [|discriminate]. intros _.
  destruct (Qltb_spec (fitness_ a) (fitness_ b)) as [H'|H']; [|reflexivity].
  exfalso. exact (Qlt_irrefl _ (Qlt_trans _ _ _ H H')).
Qed.

Lemma fitness_gtb_trans (a b c : Horse) :
  Qltb (fitness_ a) (fitness_ b) = false -> Qltb (fitness_ b) (fitness_ c) = false ->
  Qltb (fitness_ a) (fitness_ c) = false.
Proof.
  destruct (Qltb_spec (fitness_ a) (fitness_ b)) as [|H1]; [discriminate|].
  destruct (Qltb_spec (fitness_ b) (fitness_ c)) as [|H2]; [discriminate|]. intros _ _.
  destruct (Qltb_spec (fitness_ a) (fitness_ c)) as [H|H]; [|reflexivity].
  exfalso. apply Qnot_lt_le in H1, H2. exact (Qlt_not_le _ _ H (Qle_trans _ _ _ H2 H1)).
Qed.

Lemma StronglySorted_impl {A : Type} (R R' : A -> A -> Prop) (l : list A) :
  (forall a b, R a b -> R' a b) -> StronglySorted R l -> StronglySorted R' l.
Proof.
  intros HR. induction 1 as [|a l Hs IH Ha]; constructor; [exact IH|].
  eapply Forall_impl; [exact Ha|]. intros b. apply HR.
Qed.

(** X20.  [HorseHerd::sortByFitness] rearranges the horses of the herd,
    none lost and none added, so that every horse has a current fitness
    at least that of every horse after it, and touches nothing else of
    the herd. *)
Theorem sortByFitness_descending (herd : HorseHerd) :
  horses_ (sortByFitness herd) ≡ₚ horses_ herd
  /\ StronglySorted (fun a b => (fitness_ b <= fitness_ a)%Q) (horses_ (sortByFitness herd))
  /\ leader_ (sortByFitness herd) = leader_ herd
  /\ herd_size_ (sortByFitness herd) = herd_size_ herd
  /\ herd_instance_ (sortByFitness herd) = herd_instance_ herd.
Proof.
  unfold sortByFitness. simpl. split; [apply sort_by_Permutation|].
  split; [|repeat split].
  eapply StronglySorted_impl;
    [|exact (sort_by_sorted (fun a b => Qltb (fitness_ b) (fitness_ a))
               fitness_gtb_asym fitness_gtb_trans (horses_ herd))].
  intros a b H. cbv beta in H.
  destruct (Qltb_spec (fitness_ a) (fitness_ b)) as [|Hge]; [discriminate|].
  apply Qnot_lt_le. exact Hge.
Qed.

(** ** The parameters stay valid *)

Lemma Qmin_spec (a b : Q) :
  (Qmin a b <= a)%Q /\ (Qmin a b <= b)%Q /\ (Qmin a b = a \/ Qmin a b = b).
Proof.
  unfold Qmin. destruct (Qltb_spec b a) as [H|H].
  - split; [apply Qlt_le_weak; exact H|]. split; [apply Qle_refl | right; reflexivity].
  - split; [apply Qle_refl|]. split; [apply Qnot_lt_le; exact H | left; reflexivity].
Qed.

Lemma capped_rate (cap factor r : Q) :
  (0 <= cap <= 1)%Q -> (0 <= factor)%Q -> rate_in_range r ->
  rate_in_range (Qmin cap (r * factor)).
Proof.
  unfold rate_in_range. intros [Hc0 Hc1] Hf [Hr0 Hr1].
  destruct (Qmin_spec cap (r * factor)) as (H1 & _ & [E | E]).
  - rewrite E. split; assumption.
  - split; [rewrite E; apply Qmult_le_0_compat; assumption|].
    eapply Qle_trans; [exact H1 | exact Hc1].
Qed.

Ltac valid_setter :=
  intros Hv Hr; apply HHOAParameters_isValid_spec;
  apply HHOAParameters_isValid_spec in Hv; simpl; tauto.

Lemma set_mutation_rate_valid (r : Q) (p : HHOAParameters) :
  HHOAParameters_isValid p = true -> rate_in_range r ->
  HHOAParameters_isValid (set_mutation_rate r p) = true.
Proof. valid_setter. Qed.

Lemma set_replacement_rate_valid (r : Q) (p : HHOAParameters) :
  HHOAParameters_isValid p = true -> rate_in_range r ->
  HHOAParameters_isValid (set_replacement_rate r p) = true.
Proof. valid_setter. Qed.

Lemma set_roaming_rate_valid (r : Q) (p : HHOAParameters) :
  HHOAParameters_isValid p = true -> rate_in_range r ->
  HHOAParameters_isValid (set_roaming_rate r p) = true.
Proof. valid_setter. Qed.

Lemma set_exploration_rate_valid (r : Q) (p : HHOAParameters) :
  HHOAParameters_isValid p = true -> rate_in_range r ->
  HHOAParameters_isValid (set_exploration_rate r p) = true.
Proof. valid_setter. Qed.

Lemma set_grazing_intensity_valid (r : Q) (p : HHOAParameters) :
  HHOAParameters_isValid p = true -> rate_in_range r ->
  HHOAParameters_isValid (set_grazing_intensity r p) = true.
Proof. valid_setter. Qed.

Lemma set_following_rate_valid (r : Q) (p : HHOAParameters) :
  HHOAParameters_isValid p = true -> rate_in_range r ->
  HHOAParameters_isValid (set_following_rate r p) = true.
Proof. valid_setter. Qed.

Lemma isValid_rates (p : HHOAParameters) :
  HHOAParameters_isValid p = true ->
  rate_in_range (grazing_intensity p) /\ rate_in_range (roaming_rate p)
  /\ rate_in_range (exploration_rate p) /\ rate_in_range (following_rate p)
  /\ rate_in_range (mutation_rate p) /\ rate_in_range (replacement_rate p).
Proof. intros H. apply HHOAParameters_isValid_spec in H. tauto. Qed.

Ltac cap_rate :=
  apply capped_rate;
  [ split; unfold Qle; simpl; lia | unfold Qle; simpl; lia | ].

Lemma updateAdaptiveParameters_valid (iteration : Z) (diversity : Q) (stagnation_count : Z)
    (p : HHOAParameters) :
  HHOAParameters_isValid p = true ->
  HHOAParameters_isValid (updateAdaptiveParameters iteration diversity stagnation_count p)
  = true.
Proof.
  intros Hv. unfold updateAdaptiveParameters.
  set (p1 := if Qltb (inject_Z iteration / inject_Z (max_iterations p)) (3 # 10) then _
             else _).
  assert (H1 : HHOAParameters_isValid p1 = true).
  { unfold p1. destruct (Qltb _ (3 # 10)); [|destruct (Qltb (7 # 10) _); [|exact Hv]].
    - apply set_exploration_rate_valid.
      + apply set_roaming_rate_valid; [exact Hv|]. cap_rate. apply (isValid_rates p Hv).
      + cap_rate. simpl. apply (isValid_rates p Hv).
    - apply set_following_rate_valid.
      + apply set_grazing_intensity_valid; [exact Hv|]. cap_rate. apply (isValid_rates p Hv).
      + cap_rate. simpl. apply (isValid_rates p Hv). }
  clearbody p1. cbv zeta.
  set (p2 := if Qltb diversity (diversity_threshold p1) then _ else _).
  assert (H2 : HHOAParameters_isValid p2 = true).
  { unfold p2. destruct (Qltb diversity _); [|destruct (Qltb (1 # 10) diversity); [|exact H1]].
    - apply set_replacement_rate_valid.
      + apply set_mutation_rate_valid; [exact H1|]. cap_rate. apply (isValid_rates p1 H1).
      + cap_rate. simpl. apply (isValid_rates p1 H1).
    - apply set_grazing_intensity_valid; [exact H1|]. cap_rate. apply (isValid_rates p1 H1). }
  clearbody p2.
  destruct (stagnation_count >? Z.quot (max_stagnation p2) 2); [|exact H2].
  apply set_mutation_rate_valid; [exact H2|]. cap_rate. apply (isValid_rates p2 H2).
Qed.

Lemma applyDiversityPreservation_valid (diversity : Q) (a : HHOA) (g : Random)
    (r : bool * HHOA) (g' : Random) :
  applyDiversityPreservation diversity a g = Ok (r, g') ->
  HHOAParameters_isValid (parameters_ a) = true ->
  HHOAParameters_isValid (parameters_ r.2) = true.
Proof.
  unfold applyDiversityPreservation.
  destruct (Qleb (diversity_threshold (parameters_ a)) diversity); intros H Hv; inv_run; simpl.
  - exact Hv.
  - apply set_mutation_rate_valid; [exact Hv|]. cap_rate. apply (isValid_rates _ Hv).
Qed.

Lemma executeIteration_valid (iteration : Z) (a : HHOA) (g : Random)
    (r : bool * HHOA) (g' : Random) :
  executeIteration iteration a g = Ok (r, g') ->
  HHOAParameters_isValid (parameters_ a) = true ->
  HHOAParameters_isValid (parameters_ r.2) = true.
Proof.
  unfold executeIteration. intros H Hv. inv_run.
  repeat match goal with
  | H : (if ?c then _ else _) _ = Ok _ |- _ => destruct c; inv_run
  | H : context [let (_, _) := (if ?c then _ else _) in _] |- _ => destruct c; inv_run
  end;
  repeat match goal with
  | H : applyDiversityPreservation _ _ _ = Ok _ |- _ =>
      apply applyDiversityPreservation_valid in H; [|exact Hv]
  end;
  simpl; assumption.
Qed.

Lemma recordStatistics_parameters (a a' : HHOA) :
  recordStatistics a = Ok a' -> parameters_ a' = parameters_ a.
Proof.
  unfold recordStatistics. intros H.
  apply result_bind_Ok in H as (best & _ & H).
  apply result_bind_Ok in H as ([mk s] & _ & H). injection H as <-. reflexivity.
Qed.

Lemma optimize_body_valid (iteration : Z) (ls : loop_state) (g : Random)
    (ls' : loop_state) (brk : bool) (g' : Random) :
  optimize_body iteration ls g = Ok ((ls', brk), g') ->
  HHOAParameters_isValid (parameters_ (algo ls)) = true ->
  HHOAParameters_isValid (parameters_ (algo ls')) = true.
Proof.
  unfold optimize_body. intros H Hv.
  apply M_bind_Ok in H as ([improved a1] & g1 & Hiter & H).
  apply M_bind_Ok in H as (a2 & g2 & Hrec & H). apply liftR_Ok in Hrec as [Hrec _].
  apply M_bind_Ok in H as (mk & g3 & _ & H). simpl in Hrec.
  apply executeIteration_valid in Hiter; [|exact Hv]. simpl in Hiter.
  apply recordStatistics_parameters in Hrec. rewrite <- Hrec in Hiter.
  set (st3 := if mk <? best_makespan ls then _ else _) in H.
  assert (Hst3 : HHOAParameters_isValid (parameters_ st3.2) = true).
  { unfold st3. destruct (mk <? best_makespan ls); exact Hiter. }
  destruct st3 as [[bm sc] a3]. simpl in Hst3.
  set (a4 := if adaptive_parameters (parameters_ a3) then _ else _) in H.
  assert (Ha4 : HHOAParameters_isValid (parameters_ a4) = true).
  { unfold a4. destruct (adaptive_parameters (parameters_ a3)); simpl; [|exact Hst3].
    apply updateAdaptiveParameters_valid. exact Hst3. }
  clearbody a4. apply M_bind_Ok in H as (stop & g4 & _ & H).
  destruct stop; unfold M_ret in H; injection H as <- _ _; simpl; exact Ha4.
Qed.

Lemma optimize_for_valid (iterations : Z) (a : HHOA) (g : Random)
    (best : Solution) (a' : HHOA) (g' : Random) :
  optimize_for iterations a g = Ok ((best, a'), g') ->
  HHOAParameters_isValid (parameters_ a) = true ->
  HHOAParameters_isValid (parameters_ a') = true.
Proof.
  unfold optimize_for, HHOA_initialize. intros H Hv.
  apply M_bind_Ok in H as (a1 & g1 & Hinit & H).
  apply M_bind_Ok in Hinit as (herd1 & g0 & _ & Hret).
  unfold M_ret in Hret. injection Hret as <- _.
  apply M_bind_Ok in H as (mk & g2 & _ & H).
  apply M_bind_Ok in H as (ls & g3 & Hloop & H).
  apply M_bind_Ok in H as (b & g4 & _ & H). unfold M_ret in H. injection H as _ <- _.
  unfold forM_break in Hloop.
  apply (foldM_break_Ok_inv
           (fun ls => HHOAParameters_isValid (parameters_ (algo ls)) = true)) in Hloop.
  - exact Hloop.
  - intros i s g5 s' b' g6 Hb Hs. exact (optimize_body_valid i s g5 s' b' g6 Hb Hs).
  - exact Hv.
Qed.

(** X21.  The adaptive update of the parameters and the diversity
    preservation keep valid parameters valid: every rate they raise is
    capped inside [[0, 1]].  So the parameters of an optimiser that
    [isValid] accepts are still accepted after every iteration and at the
    end of every run of [optimize] that returns. *)
Theorem parameters_stay_valid :
  (forall iteration diversity stagnation_count p,
     HHOAParameters_isValid p = true ->
     HHOAParameters_isValid (updateAdaptiveParameters iteration diversity stagnation_count p)
     = true)
  /\ (forall iteration a g r g',
        HHOAParameters_isValid (parameters_ a) = true ->
        executeIteration iteration a g = Ok (r, g') ->
        HHOAParameters_isValid (parameters_ r.2) = true)
  /\ (forall iterations a g best a' g',
        HHOAParameters_isValid (parameters_ a) = true ->
        optimize_for iterations a g = Ok ((best, a'), g') ->
        HHOAParameters_isValid (parameters_ a') = true).
Proof.
  split; [exact updateAdaptiveParameters_valid|]. split.
  - intros iteration a g r g' Hv H. exact (executeIteration_valid iteration a g r g' H Hv).
  - intros iterations a g best a' g' Hv H.
    exact (optimize_for_valid iterations a g best a' g' H Hv).
Qed.

Lemma example_optimizer_valid (a : HHOA) (g : Random) :
  example_optimizer = Ok (a, g) -> HHOAParameters_isValid (parameters_ a) = true.
Proof. intros H. rewrite (example_optimizer_parameters a g H). reflexivity. Qed.

(** [parameters_stay_valid] on the example run of three iterations. *)
Lemma parameters_stay_valid_witness :
  exists a g best a' g',
    example_optimizer = Ok (a, g)
    /\ optimize_for 3 a g = Ok ((best, a'), g')
    /\ HHOAParameters_isValid (parameters_ a') = true.
Proof.
  destruct parameters_stay_valid as (_ & _ & H).
  destruct (construct_and_optimize_returned example_optimizer 3 example_run_returned)
    as (a & g & best & a' & g' & E0 & E1).
  exists a, g, best, a', g'. split; [exact E0|]. split; [exact E1|].
  exact (H 3 a g best a' g' (example_optimizer_valid a g E0) E1).
Defined.

(** ** Construction and initialisation *)

Lemma Solution_new_wf (inst : ProblemInstance) :
  ProblemInstance_isValid inst = true ->
  exists s, Solution_new inst = Ok s /\ wf_solution inst s.
Proof.
  intros Hv. unfold Solution_new. rewrite Hv. simpl. eexists. split; [reflexivity|].
  split; [reflexivity|]. split; [|intros H; discriminate]. simpl.
  apply perm_of_seqZ. apply ProblemInstance_isValid_dims in Hv. unfold getNumJobs. lia.
Qed.

Lemma Solution_initializeRandom_wf (inst : ProblemInstance) (s : Solution) (g : Random) :
  wf_solution inst s ->
  exists s' g', Solution_initializeRandom s g = Ok (s', g') /\ wf_solution inst s'.
Proof.
  intros (Hi & Hp & _). unfold Solution_initializeRandom, M_bind.
  destruct (shuffle_Permutation (job_sequence_ s) g) as (v & g' & -> & Hv).
  unfold M_ret. eexists. eexists. split; [reflexivity|].
  apply invalidateCache_wf; [exact Hi|]. eapply perm_of_Permutation; [exact Hv | exact Hp].
Qed.

Lemma Solution_initializeGreedy_wf (inst : ProblemInstance) (s : Solution) :
  ProblemInstance_isValid inst = true -> wf_solution inst s ->
  exists s', Solution_initializeGreedy s = Ok s' /\ wf_solution inst s'.
Proof.
  intros Hv (Hi & (Hl & _) & _).
  pose proof (ProblemInstance_isValid_dims inst Hv) as (Hn & Hm & _).
  unfold Solution_initializeGreedy. rewrite Hi. rewrite job_totals_loop by lia.
  cbv beta iota zeta delta [result_bind].
  set (totals := map (fun job => (int_job_time inst job, job)) (seqZ 0 (num_jobs_ inst))).
  assert (Hperm : sort_by pair_ltb totals ≡ₚ totals) by apply sort_by_Permutation.
  assert (Hlen : length (sort_by pair_ltb totals) = Z.to_nat (num_jobs_ inst)).
  { rewrite (Permutation_length Hperm). unfold totals. rewrite length_map, length_seqZ.
    reflexivity. }
  rewrite write_back_loop by (unfold getNumJobs in Hl; lia).
  eexists. split; [reflexivity|]. apply invalidateCache_wf; [exact Hi|].
  eapply perm_of_Permutation; [|apply (perm_of_seqZ (getNumJobs inst)); unfold getNumJobs; lia].
  change (map snd (sort_by pair_ltb totals)) with (snd <$> sort_by pair_ltb totals).
  rewrite Hperm. unfold totals.
  change (snd <$> map (fun job => (int_job_time inst job, job)) (seqZ 0 (num_jobs_ inst)))
    with (map snd (map (fun job => (int_job_time inst job, job)) (seqZ 0 (num_jobs_ inst)))).
  rewrite map_map. simpl. rewrite map_id. reflexivity.
Qed.

Lemma fresh_best_wf (inst : ProblemInstance) (h : Horse) :
  wf_horse inst h ->
  wf_horse inst (with_best_fitness (fitness_ h) (with_best_solution (solution_ h) h)).
Proof. intros [Hs _]. split; exact Hs. Qed.

Lemma Horse_initializeRandom_wf (inst : ProblemInstance) (h : Horse) (g : Random) :
  ProblemInstance_isValid inst = true -> wf_horse inst h ->
  exists h' g', Horse_initializeRandom h g = Ok (h', g') /\ wf_horse inst h'.
Proof.
  intros Hv [Hs Hb]. unfold Horse_initializeRandom, M_bind.
  destruct (Solution_initializeRandom_wf inst (solution_ h) g Hs) as (s & g' & -> & Hs').
  destruct (updateFitness_wf inst (with_solution s h) Hv) as (h1 & E & _ & _ & _ & _ & Hwf1).
  { split; assumption. }
  unfold liftR. rewrite E. unfold M_ret. eexists. eexists. split; [reflexivity|].
  apply fresh_best_wf. exact Hwf1.
Qed.

Lemma Horse_initializeGreedy_wf (inst : ProblemInstance) (h : Horse) :
  ProblemInstance_isValid inst = true -> wf_horse inst h ->
  exists h', Horse_initializeGreedy h = Ok h' /\ wf_horse inst h'.
Proof.
  intros Hv [Hs Hb]. unfold Horse_initializeGreedy.
  destruct (Solution_initializeGreedy_wf inst (solution_ h) Hv Hs) as (s & -> & Hs').
  simpl.
  destruct (updateFitness_wf inst (with_solution s h) Hv) as (h1 & E & _ & _ & _ & _ & Hwf1).
  { split; assumption. }
  rewrite E. simpl. eexists. split; [reflexivity|]. apply fresh_best_wf. exact Hwf1.
Qed.

Lemma Horse_new_wf (inst : ProblemInstance) (g : Random) :
  ProblemInstance_isValid inst = true ->
  exists h g', Horse_new inst g = Ok (h, g') /\ wf_horse inst h.
Proof.
  intros Hv. unfold Horse_new, M_bind, liftR.
  destruct (Solution_new_wf inst Hv) as (s & -> & Hs).
  apply Horse_initializeRandom_wf; [exact Hv|]. split; exact Hs.
Qed.

Lemma HorseHerd_new_spec (inst : ProblemInstance) (herd_size : Z) (g : Random) :
  ProblemInstance_isValid inst = true ->
  exists leader g',
    Horse_new inst g = Ok (leader, g') /\ wf_horse inst leader
    /\ HorseHerd_new inst herd_size g
       = if herd_size <=? 0 then Throw invalid_argument
         else Ok (mkHerd [] inst leader herd_size 0 0, g').
Proof.
  intros Hv. destruct (Horse_new_wf inst g Hv) as (leader & g' & E & Hwf).
  exists leader, g'. split; [exact E|]. split; [exact Hwf|].
  unfold HorseHerd_new, M_bind. rewrite E. destruct (herd_size <=? 0); reflexivity.
Qed.

(** X22.  Constructing the optimiser on a valid instance with valid
    parameters returns; the optimiser holds the parameters given, empty
    statistics, no termination predicate, and a herd of the population
    size asked for that has its leader but no horse yet; so
    [getBestSolution] and [getBestMakespan] throw [runtime_error] until
    the herd is initialised. *)
Theorem HHOA_new_starts_without_horses (fuel : nat) (inst : ProblemInstance)
    (p : HHOAParameters) (g : Random) :
  ProblemInstance_isValid inst = true -> HHOAParameters_isValid p = true ->
  exists a g',
    HHOA_new fuel (Some inst) p g = Ok (a, g')
    /\ hhoa_instance_ a = inst /\ parameters_ a = p
    /\ statistics_ a = empty_statistics /\ termination_callback_ a = None
    /\ horses_ (herd_ a) = [] /\ herd_size_ (herd_ a) = population_size p
    /\ wf_horse inst (leader_ (herd_ a))
    /\ HHOA_getBestSolution a = Throw runtime_error
    /\ HHOA_getBestMakespan a = Throw runtime_error.
Proof.
  intros Hv Hp. rewrite HHOA_new_valid by assumption.
  destruct (HorseHerd_new_spec inst (population_size p) g Hv) as (leader & g' & _ & Hwf & E).
  apply HHOAParameters_isValid_spec in Hp as (Hpop & _).
  destruct (Z.leb_spec (population_size p) 0); [lia|].
  unfold M_bind. rewrite E. unfold M_ret. eexists. eexists. split; [reflexivity|]. simpl.
  repeat (split; [reflexivity|]). split; [exact Hwf|]. split; reflexivity.
Qed.

(** [HHOA_new_starts_without_horses] on the example instance. *)
Lemma HHOA_new_starts_without_horses_witness :
  exists a g',
    HHOA_new 100 (Some example_instance) example_parameters example_random = Ok (a, g')
    /\ horses_ (herd_ a) = []
    /\ HHOA_getBestSolution a = Throw runtime_error.
Proof.
  destruct (HHOA_new_starts_without_horses 100 example_instance example_parameters
              example_random eq_refl eq_refl)
    as (a & g' & E & _ & _ & _ & _ & H1 & _ & _ & H2 & _).
  exists a, g'. split; [exact E|]. split; [exact H1 | exact H2].
Defined.

(** ** [HorseHerd::initialize] *)

Lemma forM_throws {S : Type} (P : Z -> S -> Prop) (lo k hi : Z) (body : Z -> S -> M S)
    (e : exn) :
  lo <= k < hi ->
  (forall i s g, lo <= i < k -> P i s ->
     exists s' g', body i s g = Ok (s', g') /\ P (i + 1) s') ->
  (forall s g, P k s -> body k s g = Throw e) ->
  forall s g, P lo s -> forM lo hi body s g = Throw e.
Proof.
  intros Hk Hstep Hthrow. unfold forM.
  remember (Z.to_nat (k - lo)) as n eqn:Hn. revert lo Hk Hstep Hn.
  induction n as [|n IH]; intros lo Hk Hstep Hn s g H0.
  - assert (k = lo) by lia. subst k. rewrite seqZ_cons by lia. simpl.
    unfold M_bind. rewrite (Hthrow s g H0). reflexivity.
  - rewrite seqZ_cons by lia. simpl.
    destruct (Hstep lo s g ltac:(lia) H0) as (s1 & g1 & Hb & H1). unfold M_bind. rewrite Hb.
    replace (Z.pred (hi - lo)) with (hi - Z.succ lo) by lia.
    apply IH; [lia | | lia | exact H1].
    intros i s2 g2 Hi. apply Hstep. lia.
Qed.

Lemma trunc_ratio (n : Z) (ratio : Q) :
  0 <= n <= INT_MAX -> (0 <= ratio <= 1)%Q -> 0 <= trunc (dmul (inject_Z n) ratio) <= n.
Proof. intros Hn. apply trunc_dmul_ratio. unfold INT_MAX in Hn. lia. Qed.

Lemma trunc_ratio_nonneg (n : Z) (ratio : Q) :
  0 <= n -> (0 <= ratio)%Q -> 0 <= trunc (dmul (inject_Z n) ratio).
Proof.
  intros Hn Hr. apply trunc_nonneg, dmul_nonneg; [|exact Hr].
  change 0%Q with (inject_Z 0). rewrite <- Zle_Qle. exact Hn.
Qed.

(** The rates [0.1 * i] of the greedy loop: within [[0, 1]] up to the
    eleventh horse ([0.1 * 10] is [1.0] in doubles), above for the
    twelfth. *)
Lemma greedy_rate_in_range (i : Z) :
  1 <= i <= 10 -> (0 <= dmul (1 # 10) (inject_Z i) <= 1)%Q.
Proof.
  intros Hi.
  assert (Hall : forallb (fun i => Qle_bool 0 (dmul (1 # 10) (inject_Z i))
                                   && Qle_bool (dmul (1 # 10) (inject_Z i)) 1)
                   (seqZ 1 10) = true) by (vm_compute; reflexivity).
  rewrite forallb_forall in Hall. specialize (Hall i).
  rewrite andb_true_iff, !Qle_bool_iff in Hall. apply Hall.
  apply list_elem_of_In, elem_of_seqZ. lia.
Qed.

Lemma greedy_rate_above_one : (1 < dmul (1 # 10) (inject_Z 11))%Q.
Proof. vm_compute. reflexivity. Qed.

Lemma mutate_rate_above_one (mutation_rate : Q) (h : Horse) (g : Random) :
  (1 < mutation_rate)%Q -> mutate mutation_rate h g = Throw invalid_argument.
Proof.
  intros H. unfold mutate. rewrite rate_check_fails by (right; exact H). reflexivity.
Qed.

Lemma mark_leader_wf (inst : ProblemInstance) (hs : list Horse) :
  ProblemInstance_isValid inst = true -> Forall (wf_horse inst) hs ->
  forall leader, wf_horse inst leader ->
  exists hs' leader', mark_leader hs leader = Ok (hs', leader')
    /\ Forall (wf_horse inst) hs' /\ wf_horse inst leader' /\ length hs' = length hs.
Proof.
  intros Hv. induction 1 as [|h hs Hh Hhs IH]; intros leader Hl; simpl.
  - eexists. eexists. split; [reflexivity|]. split; [constructor|]. split; [exact Hl|reflexivity].
  - destruct (getBestMakespan_wf inst h Hv Hh) as (mk1 & h1 & -> & Hh1).
    destruct (getBestMakespan_wf inst leader Hv Hl) as (mk2 & l1 & -> & Hl1).
    simpl. destruct (mk1 =? mk2).
    + eexists. eexists. split; [reflexivity|]. split.
      * constructor; [exact Hh1 | exact Hhs].
      * split; [exact Hl1 | reflexivity].
    + destruct (IH l1 Hl1) as (hs' & l' & -> & HF & Hl' & Hlen). simpl.
      eexists. eexists. split; [reflexivity|]. split.
      * constructor; assumption.
      * split; [exact Hl'|]. simpl. rewrite Hlen. reflexivity.
Qed.

Lemma updateLeader_wf (herd : HorseHerd) :
  wf_herd herd ->
  exists changed herd', updateLeader herd = Ok (changed, herd')
    /\ wf_herd herd' /\ length (horses_ herd') = length (horses_ herd)
    /\ herd_instance_ herd' = herd_instance_ herd /\ herd_size_ herd' = herd_size_ herd.
Proof.
  intros (Hv & Hhs & Hl). unfold updateLeader, getBestHorse.
  destruct (horses_ herd) as [|h rest] eqn:E.
  { eexists. eexists. split; [reflexivity|]. split.
    - split; [exact Hv|]. split; [rewrite E; constructor | exact Hl].
    - rewrite E. repeat split. }
  cbv beta iota zeta delta [result_bind].
  pose proof Hhs as Hall.
  apply Forall_cons_1 in Hhs as [Hh Hrest].
  pose proof (max_element_from_wf _ rest h Hh Hrest) as Hbest.
  set (best := max_element_from h rest) in *.
  set (hs := map (setLeader false) (h :: rest)).
  assert (Hhs : Forall (wf_horse (herd_instance_ herd)) hs).
  { unfold hs. apply List.Forall_map. eapply Forall_impl; [exact Hall|].
    intros x Hx. exact Hx. }
  assert (Hlen : length hs = length (h :: rest)) by (unfold hs; apply length_map).
  destruct (Qltb (best_fitness_ (leader_ herd)) (best_fitness_ best)).
  - destruct (mark_leader_wf _ hs Hv Hhs (setLeader true best) Hbest)
      as (hs' & l' & -> & HF & Hl' & Hlen').
    eexists. eexists. split; [reflexivity|]. simpl. split.
    + split; [exact Hv|]. split; assumption.
    + split; [rewrite ?E; simpl in *; lia|]. split; reflexivity.
  - destruct (mark_leader_wf _ hs Hv Hhs (leader_ herd) Hl)
      as (hs' & l' & -> & HF & Hl' & Hlen').
    eexists. eexists. split; [reflexivity|]. simpl. split.
    + split; [exact Hv|]. split; assumption.
    + split; [rewrite ?E; simpl in *; lia|]. split; reflexivity.
Qed.

Lemma calculateDiversity_herd (herd : HorseHerd) :
  horses_ (calculateDiversity herd).2 = horses_ herd
  /\ herd_instance_ (calculateDiversity herd).2 = herd_instance_ herd
  /\ leader_ (calculateDiversity herd).2 = leader_ herd
  /\ herd_size_ (calculateDiversity herd).2 = herd_size_ herd
  /\ diversity_ (calculateDiversity herd).2 = (calculateDiversity herd).1.
Proof.
  unfold calculateDiversity. destruct (Z.of_nat (length (horses_ herd)) <? 2).
  - repeat split.
  - destruct (pairwise_distance (horses_ herd) (0%Q, 0)). repeat split.
Qed.


Lemma greedy_horse_wf (inst : ProblemInstance) (g : Random) :
  ProblemInstance_isValid inst = true ->
  exists h g', (horse <~ Horse_new inst; liftR (Horse_initializeGreedy horse)) g = Ok (h, g')
    /\ wf_horse inst h.
Proof.
  intros Hv. destruct (Horse_new_wf inst g Hv) as (h0 & g0 & E0 & Hwf0).
  destruct (Horse_initializeGreedy_wf inst h0 Hv Hwf0) as (h1 & E1 & Hwf1).
  exists h1, g0. unfold M_bind. rewrite E0. unfold liftR. rewrite E1.
  split; [reflexivity | exact Hwf1].
Qed.

Section Initialize.

Variable random_ratio : Q.
Variable herd : HorseHerd.
Hypothesis Hvalid : ProblemInstance_isValid (herd_instance_ herd) = true.
Hypothesis Hleader : wf_horse (herd_instance_ herd) (leader_ herd).
Hypothesis Hsize : 0 < herd_size_ herd.
Hypothesis Hratio : (0 <= random_ratio <= 1)%Q.

Let inst := herd_instance_ herd.
Let num_random := trunc (dmul (inject_Z (herd_size_ herd)) random_ratio).
Let num_greedy := herd_size_ herd - num_random.

Let random_body := fun (_ : Z) (hs : list Horse) =>
  horse <~ Horse_new (herd_instance_ herd);
  horse' <~ Horse_initializeRandom horse;
  M_ret (hs ++ [horse']).

Let greedy_body := fun (i : Z) (hs : list Horse) =>
  horse <~ Horse_new (herd_instance_ herd);
  horse1 <~ liftR (Horse_initializeGreedy horse);
  horse2 <~ (if i >? 0 then mutate (dmul (1 # 10) (inject_Z i)) horse1 else M_ret horse1);
  M_ret (hs ++ [horse2]).

Let grown (base i : Z) (hs : list Horse) : Prop :=
  Forall (wf_horse inst) hs /\ Z.of_nat (length hs) = base + i.

Lemma random_loop (g : Random) :
  exists hs g', forM 0 num_random random_body [] g = Ok (hs, g') /\ grown 0 num_random hs.
Proof.
  pose proof (trunc_ratio_nonneg (herd_size_ herd) random_ratio ltac:(lia) (proj1 Hratio))
    as Hn.
  apply (forM_inv_idx (grown 0)); [unfold num_random; lia | split; [constructor | reflexivity] |].
  intros i hs g1 Hi [HF Hlen]. unfold random_body.
  destruct (Horse_new_wf inst g1 Hvalid) as (h0 & g2 & E0 & Hwf0).
  destruct (Horse_initializeRandom_wf inst h0 g2 Hvalid Hwf0) as (h1 & g3 & E1 & Hwf1).
  unfold M_bind. fold inst. rewrite E0, E1. unfold M_ret. eexists. eexists.
  split; [reflexivity|]. split.
  - apply Forall_app. split; [exact HF|]. constructor; [exact Hwf1 | constructor].
  - rewrite length_app. simpl. lia.
Qed.

Lemma greedy_step (i : Z) (hs : list Horse) (g : Random) :
  0 <= i <= 10 -> grown num_random i hs ->
  exists hs' g', greedy_body i hs g = Ok (hs', g') /\ grown num_random (i + 1) hs'.
Proof.
  intros Hi [HF Hlen]. unfold greedy_body.
  destruct (Horse_new_wf inst g Hvalid) as (h0 & g0 & E0 & Hwf0).
  destruct (Horse_initializeGreedy_wf inst h0 Hvalid Hwf0) as (h1 & E1 & Hwf1).
  assert (Hm : exists h2 g2,
             (if i >? 0 then mutate (dmul (1 # 10) (inject_Z i)) h1 else M_ret h1) g0
             = Ok (h2, g2) /\ wf_horse inst h2).
  { destruct (Z.gtb_spec i 0).
    - destruct (mutate_total inst (dmul (1 # 10) (inject_Z i)) h1 g0 Hvalid Hwf1)
        as (h2 & g2 & E2 & Hwf2 & _).
      + apply greedy_rate_in_range. lia.
      + exists h2, g2. split; assumption.
    - exists h1, g0. split; [reflexivity | exact Hwf1]. }
  destruct Hm as (h2 & g2 & E2 & Hwf2).
  unfold M_bind. fold inst. rewrite E0. unfold liftR. rewrite E1, E2. unfold M_ret.
  eexists. eexists. split; [reflexivity|]. split.
  - apply Forall_app. split; [exact HF|]. constructor; [exact Hwf2 | constructor].
  - rewrite length_app. simpl. lia.
Qed.

Lemma greedy_step_throws (hs : list Horse) (g : Random) :
  greedy_body 11 hs g = Throw invalid_argument.
Proof.
  unfold greedy_body.
  destruct (Horse_new_wf inst g Hvalid) as (h0 & g0 & E0 & Hwf0).
  destruct (Horse_initializeGreedy_wf inst h0 Hvalid Hwf0) as (h1 & E1 & Hwf1).
  unfold M_bind. fold inst. rewrite E0. unfold liftR. rewrite E1.
  change (11 >? 0) with true. cbv iota.
  rewrite mutate_rate_above_one; [reflexivity|]. exact greedy_rate_above_one.
Qed.

Lemma HorseHerd_initialize_few_greedy (g : Random) :
  0 <= num_greedy <= 11 ->
  exists herd' g',
    HorseHerd_initialize random_ratio herd g = Ok (herd', g')
    /\ Z.of_nat (length (horses_ herd')) = herd_size_ herd
    /\ herd_size_ herd' = herd_size_ herd
    /\ wf_herd herd'.
Proof.
  intros Hfew.
  pose proof (trunc_ratio_nonneg (herd_size_ herd) random_ratio ltac:(lia) (proj1 Hratio))
    as Hn.
  unfold HorseHerd_initialize. rewrite rate_check by exact Hratio.
  fold num_random. fold num_greedy. fold random_body. fold greedy_body.
  destruct (random_loop g) as (hs1 & g1 & E1 & Hg1).
  assert (H2 : exists hs2 g2, forM 0 num_greedy greedy_body hs1 g1 = Ok (hs2, g2)
                              /\ grown num_random num_greedy hs2).
  { apply (forM_inv_idx (grown num_random)).
    - unfold num_greedy, num_random. lia.
    - destruct Hg1 as [HF Hlen]. split; [exact HF | lia].
    - intros i hs g0 Hi Hgr. apply greedy_step; [lia | exact Hgr]. }
  destruct H2 as (hs2 & g2 & E2 & HF2 & Hlen2).
  unfold M_bind at 1. rewrite E1. unfold M_bind at 1. rewrite E2.
  destruct (updateLeader_wf (with_horses hs2 herd)) as (c & herd1 & E3 & Hwf & Hl & Hi & Hs).
  { split; [exact Hvalid|]. split; [exact HF2 | exact Hleader]. }
  unfold M_bind, liftR. rewrite E3. unfold M_ret.
  destruct (calculateDiversity_herd herd1) as (Hh & Hinst & Hlead & Hsz & _).
  eexists. eexists. split; [reflexivity|]. rewrite Hh, Hsz, Hl, Hs. simpl.
  split; [unfold num_greedy in Hlen2; lia|]. split; [reflexivity|].
  unfold wf_herd. rewrite Hh, Hinst, Hlead. exact Hwf.
Qed.

Lemma HorseHerd_initialize_many_greedy (g : Random) :
  12 <= num_greedy ->
  HorseHerd_initialize random_ratio herd g = Throw invalid_argument.
Proof.
  intros Hmany.
  unfold HorseHerd_initialize. rewrite rate_check by exact Hratio.
  fold num_random. fold num_greedy. fold random_body. fold greedy_body.
  destruct (random_loop g) as (hs1 & g1 & E1 & Hg1).
  unfold M_bind at 1. rewrite E1. unfold M_bind at 1.
  rewrite (forM_throws (grown num_random) 0 11 num_greedy greedy_body invalid_argument).
  - reflexivity.
  - lia.
  - intros i hs g0 Hi Hgr. apply greedy_step; [lia | exact Hgr].
  - intros hs g0 _. apply greedy_step_throws.
  - destruct Hg1 as [HF Hlen]. split; [exact HF | lia].
Qed.

End Initialize.

Lemma HorseHerd_initialize_bad_ratio (random_ratio : Q) (herd : HorseHerd) (g : Random) :
  (random_ratio < 0 \/ 1 < random_ratio)%Q ->
  HorseHerd_initialize random_ratio herd g = Throw invalid_argument.
Proof.
  intros H. unfold HorseHerd_initialize. rewrite rate_check_fails by exact H. reflexivity.
Qed.

(** X23.  [HorseHerd::initialize] on a herd of positive size, an [int],
    over a valid instance, with a ratio in [[0, 1]]: the herd gets
    [trunc (herd_size * ratio)] random horses, the product taken in
    double precision, and the rest greedy ones.  With at most 11 greedy
    horses the call returns, and the herd then holds exactly [herd_size]
    horses, all of them solutions of the instance.  With 12 greedy
    horses or more it throws [invalid_argument]: the twelfth greedy
    horse is mutated at rate [0.1 * 11], which [Horse::mutate] refuses.
    For 40 horses and the ratio 0.725 the product 29.0 is exact in
    doubles and gives 29 random horses and 11 greedy ones; for 20 horses
    and the ratio 0.3 the product is 6.0 in doubles and gives 6 random
    horses. *)
Theorem HorseHerd_initialize_outcome (random_ratio : Q) (herd : HorseHerd) (g : Random) :
  ProblemInstance_isValid (herd_instance_ herd) = true ->
  wf_horse (herd_instance_ herd) (leader_ herd) ->
  0 < herd_size_ herd <= INT_MAX ->
  (0 <= random_ratio <= 1)%Q ->
  let num_random := trunc (dmul (inject_Z (herd_size_ herd)) random_ratio) in
  let num_greedy := herd_size_ herd - num_random in
  0 <= num_greedy <= herd_size_ herd
  /\ (num_greedy <= 11 ->
        exists herd' g',
          HorseHerd_initialize random_ratio herd g = Ok (herd', g')
          /\ Z.of_nat (length (horses_ herd')) = herd_size_ herd
          /\ herd_size_ herd' = herd_size_ herd
          /\ wf_herd herd')
  /\ (12 <= num_greedy ->
        HorseHerd_initialize random_ratio herd g = Throw invalid_argument)
  /\ trunc (dmul (inject_Z 40) (725 # 1000)) = 29
  /\ trunc (dmul (inject_Z 20) (3 # 10)) = 6.
Proof.
  intros Hv Hl Hs Hr num_random num_greedy.
  pose proof (trunc_ratio (herd_size_ herd) random_ratio ltac:(lia) Hr) as Hn.
  fold num_random in Hn. split; [unfold num_greedy; lia|].
  split; [|split; [|split; vm_compute; reflexivity]].
  - intros Hfew. apply HorseHerd_initialize_few_greedy; try assumption; [lia|].
    fold num_random. fold num_greedy. lia.
  - apply HorseHerd_initialize_many_greedy; try assumption. lia.
Qed.

(** [HorseHerd_initialize_outcome] on herds of forty horses with the
    ratio 0.725 and of sixty horses with the default ratio 0.8: the
    first is initialised, the second throws. *)
Lemma HorseHerd_initialize_outcome_witness :
  (exists herd' g',
     HorseHerd_initialize (725 # 1000) (mkHerd [] two_jobs_instance two_jobs_horse 40 0 0)
       counting_random = Ok (herd', g')
     /\ Z.of_nat (length (horses_ herd')) = 40)
  /\ HorseHerd_initialize (4 # 5) (mkHerd [] two_jobs_instance two_jobs_horse 60 0 0)
       counting_random = Throw invalid_argument.
Proof.
  split.
  - destruct (HorseHerd_initialize_outcome (725 # 1000)
                (mkHerd [] two_jobs_instance two_jobs_horse 40 0 0) counting_random
                eq_refl two_jobs_horse_wf ltac:(unfold INT_MAX; simpl; lia)
                ltac:(split; unfold Qle; simpl; lia)) as (_ & H & _).
    destruct (H ltac:(vm_compute; discriminate)) as (herd' & g' & E & Hlen & _).
    exists herd', g'. split; [exact E | exact Hlen].
  - apply (HorseHerd_initialize_outcome (4 # 5)
             (mkHerd [] two_jobs_instance two_jobs_horse 60 0 0) counting_random
             eq_refl two_jobs_horse_wf ltac:(unfold INT_MAX; simpl; lia)
             ltac:(split; unfold Qle; simpl; lia)).
    vm_compute. discriminate.
Defined.

(** ** [HHOA::initialize] *)

Lemma HHOA_new_fresh (fuel : nat) (inst : ProblemInstance) (p : HHOAParameters) (g : Random) :
  ProblemInstance_isValid inst = true -> HHOAParameters_isValid p = true ->
  exists leader g',
    wf_horse inst leader
    /\ HHOA_new fuel (Some inst) p g
       = Ok (mkHHOA inst p empty_statistics (mkHerd [] inst leader (population_size p) 0 0)
               None fuel, g').
Proof.
  intros Hv Hp. rewrite HHOA_new_valid by assumption.
  destruct (HorseHerd_new_spec inst (population_size p) g Hv) as (leader & g' & _ & Hwf & E).
  apply HHOAParameters_isValid_spec in Hp as (Hpop & _).
  destruct (Z.leb_spec (population_size p) 0); [lia|].
  exists leader, g'. split; [exact Hwf|]. unfold M_bind. rewrite E. reflexivity.
Qed.

Lemma dmul_four_fifths_upper (n : Z) :
  64 <= n -> 0 <= trunc (dmul (inject_Z n) (4 # 5)) <= n - 12.
Proof.
  intros Hn.
  assert (Hq : (64 <= inject_Z n)%Q).
  { change 64%Q with (inject_Z 64). rewrite <- Zle_Qle. exact Hn. }
  unfold dmul. set (X := round_double (inject_Z n)). set (c := round_double (4 # 5)).
  assert (HX1 : (X <= inject_Z n + inject_Z n * (1 # 9007199254740992))%Q)
    by (apply round_double_upper; lra).
  assert (HX0 : (2 <= X)%Q).
  { apply Qle_trans with (round_double (inject_Z 2)).
    - rewrite round_double_int by lia. apply Qle_refl.
    - apply round_double_mono; [discriminate | change (inject_Z 2) with 2%Q; lra]. }
  assert (Hc0 : (4 # 5 <= c)%Q) by (vm_compute; discriminate).
  assert (Hc1 : (c <= 81 # 100)%Q) by (vm_compute; discriminate).
  assert (HP0 : (X * (4 # 5) <= X * c)%Q) by (apply Qmult_le_l; [lra | exact Hc0]).
  assert (HP1 : (X * c <= X * (81 # 100))%Q) by (apply Qmult_le_l; [lra | exact Hc1]).
  assert (Hr : (round_double (X * c) <= X * c + X * c * (1 # 9007199254740992))%Q)
    by (apply round_double_upper; lra).
  assert (H0 : (0 <= round_double (X * c))%Q) by (apply round_double_nonneg; lra).
  split; [apply trunc_nonneg, H0|].
  apply trunc_le; [exact H0|].
  replace (n - 12) with (n + -12) by lia. rewrite inject_Z_plus.
  change (inject_Z (-12)) with (-12 # 1)%Q. lra.
Qed.

Lemma default_ratio_greedy (n : Z) :
  0 < n ->
  let num_greedy := n - trunc (dmul (inject_Z n) (4 # 5)) in
  0 <= n - num_greedy
  /\ (n <= 55 -> 0 <= num_greedy <= 11) /\ (56 <= n -> 12 <= num_greedy).
Proof.
  intros Hn. cbv zeta. destruct (Z_lt_le_dec n 64) as [Hs|Hb].
  - assert (Hall : forallb (fun n =>
                      let num_random := trunc (dmul (inject_Z n) (4 # 5)) in
                      (0 <=? num_random)
                      && (if n <=? 55 then (0 <=? n - num_random) && (n - num_random <=? 11)
                          else 12 <=? n - num_random))
                     (seqZ 1 63) = true) by (vm_compute; reflexivity).
    rewrite forallb_forall in Hall. specialize (Hall n).
    cbv zeta in Hall. rewrite andb_true_iff in Hall. destruct Hall as [H1 H2].
    { apply list_elem_of_In, elem_of_seqZ. lia. }
    destruct (Z.leb_spec n 55).
    + rewrite andb_true_iff in H2. lia.
    + lia.
  - pose proof (dmul_four_fifths_upper n Hb). lia.
Qed.

Lemma getBestSolution_wf (herd : HorseHerd) :
  wf_herd herd -> 0 < Z.of_nat (length (horses_ herd)) ->
  exists best, getBestSolution herd = Ok best /\ wf_solution (herd_instance_ herd) best.
Proof.
  intros (Hv & Hhs & _) Hlen. unfold getBestSolution, getBestHorse.
  destruct (horses_ herd) as [|h rest]; [simpl in Hlen; lia|].
  apply Forall_cons_1 in Hhs as [Hh Hrest]. simpl. eexists. split; [reflexivity|].
  exact (proj2 (max_element_from_wf _ rest h Hh Hrest)).
Qed.

(** X24.  An optimiser built on a valid instance with valid parameters:
    [HHOA::initialize] uses the default ratio 0.8, so the herd gets
    [population_size - trunc (0.8 * population_size)] greedy horses.  Up
    to a population of 55 the call returns with empty statistics and a
    herd of exactly [population_size] horses, and [getBestSolution] then
    returns a permutation of the jobs.  From a population of 56 on,
    although the parameters are valid, [initialize] throws
    [invalid_argument], and so does [optimize] for every number of
    iterations. *)
Theorem HHOA_initialize_population (fuel : nat) (inst : ProblemInstance)
    (p : HHOAParameters) (g : Random) :
  ProblemInstance_isValid inst = true -> HHOAParameters_isValid p = true ->
  exists a g',
    HHOA_new fuel (Some inst) p g = Ok (a, g')
    /\ (population_size p <= 55 ->
          exists a' g'' best,
            HHOA_initialize a g' = Ok (a', g'')
            /\ statistics_ a' = empty_statistics
            /\ parameters_ a' = p
            /\ Z.of_nat (length (horses_ (herd_ a'))) = population_size p
            /\ wf_herd (herd_ a')
            /\ HHOA_getBestSolution a' = Ok best /\ wf_solution inst best)
    /\ (56 <= population_size p ->
          HHOA_initialize a g' = Throw invalid_argument
          /\ forall iterations, optimize_for iterations a g' = Throw invalid_argument).
Proof.
  intros Hv Hp. destruct (HHOA_new_fresh fuel inst p g Hv Hp) as (leader & g' & Hl & E).
  pose proof Hp as Hpop. apply HHOAParameters_isValid_spec in Hpop as (Hpop & _).
  eexists. exists g'. split; [exact E|].
  set (herd := mkHerd [] inst leader (population_size p) 0 0).
  pose proof (HorseHerd_initialize_few_greedy (4 # 5) herd Hv Hl Hpop
              ltac:(split; unfold Qle; simpl; lia) g') as Hfew. cbv zeta in Hfew.
  pose proof (HorseHerd_initialize_many_greedy (4 # 5) herd Hv Hpop
                ltac:(split; unfold Qle; simpl; lia) g') as Hmany. cbv zeta in Hmany.
  pose proof (default_ratio_greedy (population_size p) Hpop) as (_ & Hle & Hge).
  split.
  - intros Hsmall. destruct (Hfew (Hle Hsmall)) as (herd' & g'' & E1 & Hlen & Hsz & Hwf).
    destruct (getBestSolution_wf herd' Hwf) as (best & Hb & Hbwf).
    { rewrite Hlen. exact Hpop. }
    assert (Hinst : herd_instance_ herd' = inst).
    { clear - E1. unfold HorseHerd_initialize in E1.
      destruct (Qltb (4 # 5) 0 || Qltb 1 (4 # 5)); [discriminate|].
      apply M_bind_Ok in E1 as (hs1 & g1 & _ & E1).
      apply M_bind_Ok in E1 as (hs2 & g2 & _ & E1).
      apply M_bind_Ok in E1 as ([c herd1] & g3 & E3 & E1).
      unfold M_ret in E1. injection E1 as <- _.
      apply liftR_Ok in E3 as [E3 _].
      destruct (calculateDiversity_herd herd1) as (_ & -> & _).
      unfold updateLeader in E3. simpl in E3.
      destruct hs2 as [|h rest]; [injection E3 as _ <-; reflexivity|].
      apply result_bind_Ok in E3 as (bh & _ & E3).
      destruct (if Qltb (best_fitness_ leader) (best_fitness_ bh)
                then (true, setLeader true bh) else (false, leader)) as [lc l].
      apply result_bind_Ok in E3 as ([hs' l'] & _ & E3). injection E3 as _ <-. reflexivity. }
    exists (with_statistics empty_statistics
              (with_herd herd' (mkHHOA inst p empty_statistics herd None fuel))), g'', best.
    unfold HHOA_initialize, M_bind. simpl. fold herd. rewrite E1. unfold M_ret.
    split; [reflexivity|]. simpl. repeat (split; [reflexivity|]).
    split; [exact Hlen|]. split; [exact Hwf|]. split; [exact Hb|].
    rewrite <- Hinst. exact Hbwf.
  - intros Hbig. pose proof (Hmany (Hge Hbig)) as E1.
    assert (E2 : HHOA_initialize (mkHHOA inst p empty_statistics herd None fuel) g'
                 = Throw invalid_argument).
    { unfold HHOA_initialize, M_bind. simpl. fold herd. rewrite E1. reflexivity. }
    split; [exact E2|]. intros iterations. unfold optimize_for, M_bind. rewrite E2.
    reflexivity.
Qed.

(** [HHOA_initialize_population] on the example instance with five
    horses, and with the default parameters raised to sixty horses. *)
Lemma HHOA_initialize_population_witness :
  (exists a g' a' g'',
     HHOA_new 100 (Some example_instance) example_parameters example_random = Ok (a, g')
     /\ HHOA_initialize a g' = Ok (a', g'')
     /\ Z.of_nat (length (horses_ (herd_ a'))) = 5)
  /\ (exists a g',
        HHOA_new 100 (Some example_instance)
          (mkParameters 60 1000 (1 # 2) (3 # 10) (3 # 10) (7 # 10) (2 # 5) (4 # 5) (1 # 10)
             (1 # 10) 20 10 3 (1 # 100) true 100) example_random = Ok (a, g')
        /\ optimize_for 1000 a g' = Throw invalid_argument).
Proof.
  split.
  - destruct (HHOA_initialize_population 100 example_instance example_parameters
                example_random eq_refl eq_refl) as (a & g' & E & H & _).
    destruct (H ltac:(simpl; lia)) as (a' & g'' & _ & E1 & _ & _ & Hlen & _).
    exists a, g', a', g''. split; [exact E|]. split; [exact E1 | exact Hlen].
  - destruct (HHOA_initialize_population 100 example_instance
                (mkParameters 60 1000 (1 # 2) (3 # 10) (3 # 10) (7 # 10) (2 # 5) (4 # 5)
                   (1 # 10) (1 # 10) 20 10 3 (1 # 100) true 100)
                example_random eq_refl eq_refl) as (a & g' & E & _ & H).
    destruct (H ltac:(simpl; lia)) as [_ H2].
    exists a, g'. split; [exact E | exact (H2 1000)].
Defined.

(** ** Replacement of the weakest horses *)











(** ** Tournament selection *)

Lemma sample_take (population_size sample_size : Z) (g : Random) :
  0 <= sample_size <= population_size ->
  exists population g',
    sample population_size sample_size g = Ok (take (Z.to_nat sample_size) population, g')
    /\ population ≡ₚ seqZ 0 population_size.
Proof.
  intros H. unfold sample.
  destruct (Z.ltb_spec population_size 0); [lia|].
  destruct (Z.ltb_spec sample_size 0); [lia|]. simpl.
  destruct (Z.gtb_spec sample_size population_size); [lia|].
  destruct (shuffle_Permutation (seqZ 0 population_size) g) as (v & g' & E & Hv).
  unfold M_bind. rewrite E. unfold M_ret. exists v, g'. split; [reflexivity | exact Hv].
Qed.

(** The scan of the candidates of [tournamentSelection]: the running
    best is a candidate (or the start), and no candidate scanned has a
    greater best fitness. *)
Lemma tournament_scan (fitness_at : Z -> Q) :
  forall (candidates : list Z) (best : Z * Q),
    best.2 = fitness_at best.1 ->
    let r := fold_left (fun best idx =>
                          if Qltb best.2 (fitness_at idx) then (idx, fitness_at idx) else best)
                       candidates best in
    r.2 = fitness_at r.1 /\ (r.1 = best.1 \/ r.1 ∈ candidates)
    /\ (best.2 <= r.2)%Q /\ Forall (fun c => (fitness_at c <= r.2)%Q) candidates.
Proof.
  induction candidates as [|idx rest IH]; intros best Hb; simpl.
  - split; [exact Hb|]. split; [left; reflexivity|]. split; [lra | constructor].
  - set (best' := if Qltb best.2 (fitness_at idx) then (idx, fitness_at idx) else best).
    assert (Hb' : best'.2 = fitness_at best'.1
                  /\ (best'.1 = best.1 \/ best'.1 = idx)
                  /\ (best.2 <= best'.2)%Q /\ (fitness_at idx <= best'.2)%Q).
    { unfold best'. destruct (Qltb_spec best.2 (fitness_at idx)) as [H|H]; simpl.
      - split; [reflexivity|]. split; [right; reflexivity|]. split; lra.
      - split; [exact Hb|]. split; [left; reflexivity|]. split; lra. }
    destruct Hb' as (H1 & H2 & H3 & H4).
    destruct (IH best' H1) as (R1 & R2 & R3 & R4). cbv zeta in *.
    split; [exact R1|]. split.
    + destruct R2 as [R2|R2]; [|right; right; exact R2]. rewrite R2.
      destruct H2 as [->| ->]; [left; reflexivity | right; left].
    + split; [lra|]. constructor; [lra | exact R4].
Qed.

(** X26.  [HorseHerd::tournamentSelection]: a negative tournament size
    throws [invalid_argument]; a size of zero, or an empty herd, reads
    the first element of an empty sample, which is undefined; otherwise
    the call returns the position of a horse of the herd, which is a
    horse of greatest best fitness of the whole herd as soon as the
    tournament size is at least the herd's. *)
Theorem tournamentSelection_outcome (tournament_size : Z) (herd : HorseHerd) (g : Random) :
  let size := Z.of_nat (length (horses_ herd)) in
  (tournament_size < 0 -> tournamentSelection tournament_size herd g = Throw invalid_argument)
  /\ (0 <= tournament_size -> Z.min tournament_size size = 0 ->
        tournamentSelection tournament_size herd g = Undefined)
  /\ (1 <= tournament_size -> 1 <= size ->
        exists idx g' winner,
          tournamentSelection tournament_size herd g = Ok (idx, g')
          /\ 0 <= idx < size
          /\ horses_ herd !! Z.to_nat idx = Some winner
          /\ (size <= tournament_size ->
                Forall (fun h => (best_fitness_ h <= best_fitness_ winner)%Q) (horses_ herd))).
Proof.
  intros size. unfold tournamentSelection. fold size. split; [|split].
  - intros Hneg. unfold M_bind, sample.
    destruct (Z.ltb_spec size 0); [reflexivity|].
    destruct (Z.ltb_spec (Z.min tournament_size size) 0); [reflexivity | lia].
  - intros Hpos Hmin. rewrite Hmin.
    destruct (sample_take size 0 g ltac:(unfold size; lia)) as (pop & g' & E & _).
    unfold M_bind. rewrite E. reflexivity.
  - intros Hts Hsize.
    destruct (sample_take size (Z.min tournament_size size) g ltac:(lia))
      as (pop & g' & E & Hpop).
    unfold M_bind. rewrite E.
    assert (Hlen : length pop = Z.to_nat size).
    { rewrite (Permutation_length Hpop). apply length_seqZ. }
    set (k := Z.to_nat (Z.min tournament_size size)).
    assert (Hk : (1 <= k <= length pop)%nat) by (unfold k; lia).
    destruct (take k pop) as [|first rest] eqn:Et.
    { apply (f_equal length) in Et. rewrite length_take in Et. simpl in Et. lia. }
    set (fitness_at := fun idx => best_fitness_ (vec_at (leader_ herd) (horses_ herd) idx)).
    destruct (tournament_scan fitness_at (first :: rest) (first, fitness_at first) eq_refl)
      as (R1 & R2 & _ & R4).
    cbv zeta in R1, R2, R4. unfold fitness_at in R1, R2, R4 at 1 2.
    set (r := fold_left _ (first :: rest) _) in *.
    assert (Hin : r.1 ∈ first :: rest).
    { destruct R2 as [R2|R2]; [rewrite R2; left | exact R2]. }
    assert (Hrange : forall c, c ∈ first :: rest -> 0 <= c < size).
    { intros c Hc. rewrite <- Et in Hc.
      apply list_elem_of_lookup in Hc as (a & Ha). apply lookup_take_Some in Ha as [Ha _].
      apply list_elem_of_lookup_2 in Ha. rewrite Hpop in Ha. apply elem_of_seqZ in Ha. lia. }
    pose proof (Hrange _ Hin) as Hr.
    assert (Hw : horses_ herd !! Z.to_nat r.1
                 = Some (vec_at (leader_ herd) (horses_ herd) r.1)).
    { apply lookup_vec_at. unfold size in Hr. exact Hr. }
    unfold M_ret. eexists. eexists. eexists. split; [reflexivity|].
    split; [exact Hr|]. split; [exact Hw|].
    intros Hall. apply Forall_forall. intros h Hh.
    apply list_elem_of_lookup in Hh as (j & Hj).
    assert (Hjlt : (j < length (horses_ herd))%nat) by (eapply lookup_lt_Some; exact Hj).
    assert (Hc : Z.of_nat j ∈ first :: rest).
    { rewrite <- Et. unfold k. rewrite take_ge by lia. rewrite Hpop.
      apply elem_of_seqZ. unfold size. lia. }
    rewrite Forall_forall in R4. pose proof (R4 _ Hc) as Hle.
    unfold fitness_at in Hle.
    rewrite (vec_at_lookup _ _ (Z.of_nat j) h) in Hle by (try lia; rewrite Nat2Z.id; exact Hj).
    rewrite R1 in Hle. exact Hle.
Qed.

(** [tournamentSelection_outcome] on the herd of one horse with a
    tournament of three: the horse is selected. *)
Lemma tournamentSelection_outcome_witness :
  exists idx g' winner,
    tournamentSelection 3 two_jobs_herd counting_random = Ok (idx, g')
    /\ 0 <= idx < 1
    /\ horses_ two_jobs_herd !! Z.to_nat idx = Some winner.
Proof.
  destruct (tournamentSelection_outcome 3 two_jobs_herd counting_random) as (_ & _ & H).
  destruct (H ltac:(lia) ltac:(simpl; lia)) as (idx & g' & winner & E & Hr & Hw & _).
  exists idx, g', winner. split; [exact E|]. split; [exact Hr | exact Hw].
Defined.

(** ** Diversity of the herd *)

Lemma calculateDistance_range (inst : ProblemInstance) (s1 s2 : Solution) :
  ProblemInstance_isValid inst = true -> wf_solution inst s1 -> wf_solution inst s2 ->
  (0 <= calculateDistance s1 s2 <= 1)%Q
  /\ (job_sequence_ s1 = job_sequence_ s2 -> calculateDistance s1 s2 == 0)%Q.
Proof.
  intros Hv (_ & (Hl1 & _) & _) (_ & (Hl2 & _) & _).
  apply ProblemInstance_isValid_dims in Hv as (Hn & _).
  assert (Hlen : length (job_sequence_ s1) = length (job_sequence_ s2)) by lia.
  unfold calculateDistance, distanceTo, Solution_getNumJobs.
  rewrite Hlen, Nat.eqb_refl. simpl.
  pose proof (count_differ_bounds (job_sequence_ s1) (job_sequence_ s2)) as Hc.
  rewrite <- Hlen.
  assert (Hpos : (0 < inject_Z (Z.of_nat (length (job_sequence_ s1))))%Q).
  { change 0%Q with (inject_Z 0). rewrite <- Zlt_Qlt. unfold getNumJobs in Hl1. lia. }
  split; [split|].
  - apply Qle_shift_div_l; [exact Hpos|]. rewrite Qmult_0_l.
    change 0%Q with (inject_Z 0). rewrite <- Zle_Qle. lia.
  - apply Qle_shift_div_r; [exact Hpos|]. rewrite Qmult_1_l. rewrite <- Zle_Qle. lia.
  - intros Heq. apply (count_differ_zero _ _ Hlen) in Heq. rewrite Heq.
    unfold Qdiv. apply Qmult_0_l.
Qed.

Section Diversity.

Variable inst : ProblemInstance.
Hypothesis Hvalid : ProblemInstance_isValid inst = true.

(** The running sum is between zero and the number of comparisons; it
    is zero while the solutions compared are equal. *)
Let bounded (acc : Q * Z) : Prop := (0 <= acc.1 <= inject_Z acc.2)%Q /\ 0 <= acc.2.

Lemma pairwise_row (h : Horse) (rest : list Horse) :
  wf_horse inst h -> Forall (wf_horse inst) rest ->
  forall acc, bounded acc ->
    let acc' := fold_left (fun acc h' =>
                             ((acc.1 + calculateDistance (solution_ h) (solution_ h'))%Q,
                              acc.2 + 1)) rest acc in
    bounded acc'
    /\ (Forall (fun h' => job_sequence_ (solution_ h') = job_sequence_ (solution_ h)) rest ->
        acc'.1 == acc.1)%Q.
Proof.
  intros Hh. induction 1 as [|h' rest Hh' Hrest IH]; intros acc Hacc; simpl.
  - split; [exact Hacc|]. intros _. reflexivity.
  - destruct (calculateDistance_range inst (solution_ h) (solution_ h') Hvalid
                (proj1 Hh) (proj1 Hh')) as [Hd Hz].
    destruct Hacc as [Ha Hn].
    destruct (IH ((acc.1 + calculateDistance (solution_ h) (solution_ h'))%Q, acc.2 + 1))
      as [Hb Hs].
    { split; simpl; [|lia]. rewrite inject_Z_plus.
      change (inject_Z 1) with 1%Q. split; lra. }
    cbv zeta in Hb, Hs. split; [exact Hb|].
    intros Hall. apply Forall_cons_1 in Hall as [He Hall].
    rewrite (Hs Hall). simpl. rewrite (Hz (eq_sym He)). lra.
Qed.

Lemma pairwise_distance_bounded (hs : list Horse) :
  Forall (wf_horse inst) hs ->
  forall acc, bounded acc ->
    bounded (pairwise_distance hs acc)
    /\ (forall seq, Forall (fun h => job_sequence_ (solution_ h) = seq) hs ->
        (pairwise_distance hs acc).1 == acc.1)%Q.
Proof.
  induction 1 as [|h rest Hh Hrest IH]; intros acc Hacc; simpl.
  - split; [exact Hacc|]. intros _ _. reflexivity.
  - destruct (pairwise_row h rest Hh Hrest acc Hacc) as [Hb Hs]. cbv zeta in Hb, Hs.
    destruct (IH _ Hb) as [Hb' Hs']. split; [exact Hb'|].
    intros seq Hall. apply Forall_cons_1 in Hall as [He Hall].
    rewrite (Hs' seq Hall). apply Hs.
    eapply Forall_impl; [exact Hall|]. intros h' Hh'. simpl in Hh'. congruence.
Qed.

End Diversity.

(** X27.  [HorseHerd::calculateDiversity] on a herd of a valid instance:
    the diversity, the mean over the pairs of horses of the share of
    positions at which their current orders differ, lies in [[0, 1]]; it
    is zero for fewer than two horses and when all current orders are
    equal.  The value is stored in the herd, whose horses and leader are
    untouched. *)
Theorem calculateDiversity_range (herd : HorseHerd) :
  wf_herd herd ->
  let d := (calculateDiversity herd).1 in
  let herd' := (calculateDiversity herd).2 in
  (0 <= d <= 1)%Q
  /\ ((length (horses_ herd) < 2)%nat -> d = 0%Q)
  /\ (forall seq, Forall (fun h => job_sequence_ (solution_ h) = seq) (horses_ herd) ->
        (d == 0)%Q)
  /\ diversity_ herd' = d /\ horses_ herd' = horses_ herd /\ leader_ herd' = leader_ herd.
Proof.
  intros (Hv & Hhs & _) d herd'.
  destruct (calculateDiversity_herd herd) as (Hh & _ & Hl & _ & Hd).
  fold herd' in Hh, Hl, Hd. fold d in Hd.
  assert (Hmain : (0 <= d <= 1)%Q
                  /\ ((length (horses_ herd) < 2)%nat -> d = 0%Q)
                  /\ (forall seq,
                        Forall (fun h => job_sequence_ (solution_ h) = seq) (horses_ herd) ->
                        (d == 0)%Q)).
  { unfold d, calculateDiversity.
    destruct (Z.ltb_spec (Z.of_nat (length (horses_ herd))) 2) as [Hlt|Hge]; simpl.
    - split; [split; lra|]. split; [reflexivity|]. intros _ _. reflexivity.
    - destruct (pairwise_distance_bounded (herd_instance_ herd) Hv (horses_ herd) Hhs
                  (0%Q, 0)) as [[[Hb0 Hb1] Hb2] Hs].
      { split; simpl; [|lia]. change (inject_Z 0) with 0%Q. split; lra. }
      destruct (pairwise_distance (horses_ herd) (0%Q, 0)) as [total comparisons].
      simpl in *. split; [|split; [lia|]].
      + destruct (Z.gtb_spec comparisons 0) as [Hc|Hc]; [|split; lra].
        assert (Hpos : (0 < inject_Z comparisons)%Q).
        { change 0%Q with (inject_Z 0). rewrite <- Zlt_Qlt. lia. }
        split.
        * apply Qle_shift_div_l; [exact Hpos|]. lra.
        * apply Qle_shift_div_r; [exact Hpos|]. lra.
      + intros seq Hall. destruct (Z.gtb_spec comparisons 0) as [Hc|Hc]; [|reflexivity].
        rewrite (Hs seq Hall). unfold Qdiv. apply Qmult_0_l. }
  destruct Hmain as (H1 & H2 & H3).
  split; [exact H1|]. split; [exact H2|]. split; [exact H3|].
  split; [exact Hd|]. split; [exact Hh | exact Hl].
Qed.

(** [calculateDiversity_range] on the herd of one horse. *)
Lemma calculateDiversity_range_witness :
  ((calculateDiversity two_jobs_herd).1 <= 1)%Q
  /\ diversity_ (calculateDiversity two_jobs_herd).2 = (calculateDiversity two_jobs_herd).1.
Proof.
  destruct (calculateDiversity_range two_jobs_herd two_jobs_herd_wf)
    as ((_ & H1) & _ & _ & H2 & _).
  split; [exact H1 | exact H2].
Defined.

(** ** The number of horses *)

Lemma for_each_horse_length (body : Horse -> Z -> M (Horse * Z)) (hs : list Horse) :
  forall (count : Z) (g : Random) (hs' : list Horse) (count' : Z) (g' : Random),
    for_each_horse body hs count g = Ok ((hs', count'), g') -> length hs' = length hs.
Proof.
  induction hs as [|h rest IH]; intros count g hs' count' g' H; simpl in H.
  - inv_M H. reflexivity.
  - apply M_bind_Ok in H as ([h1 c1] & g1 & _ & H).
    apply M_bind_Ok in H as ([rest1 c2] & g2 & Hrest & H).
    unfold M_ret in H. injection H as <- _ _. simpl. f_equal. eapply IH. exact Hrest.
Qed.

Lemma updateLeader_same_count (herd : HorseHerd) (changed : bool) (herd' : HorseHerd) :
  updateLeader herd = Ok (changed, herd') -> same_count herd herd'.
Proof.
  intros H. apply updateLeader_spec in H as (_ & _ & HF). apply copy_of_length. exact HF.
Qed.

Lemma refresh_leader_same_count (count : Z) (herd : HorseHerd) (g : Random)
    (r : Z * HorseHerd) (g' : Random) :
  refresh_leader count herd g = Ok (r, g') -> same_count herd r.2.
Proof.
  unfold refresh_leader. destruct (count >? 0); intros H.
  - inv_M H. destruct a as [c herd1]. inv_M Hrun. inv_M Hrun0. simpl.
    eapply updateLeader_same_count. exact Hrun1.
  - inv_M H. reflexivity.
Qed.

Ltac count_pass H :=
  inv_M H;
  match goal with
  | Hloop : for_each_horse _ _ _ _ = Ok (?a, _) |- _ =>
      destruct a; apply for_each_horse_length in Hloop
  end;
  match goal with
  | Hr : refresh_leader _ _ _ = Ok _ |- _ =>
      apply refresh_leader_same_count in Hr; unfold same_count in *; simpl in *
  end.

Lemma performGrazing_same_count (intensity : Q) (herd : HorseHerd) (g : Random)
    (r : Z * HorseHerd) (g' : Random) :
  performGrazing intensity herd g = Ok (r, g') -> same_count herd r.2.
Proof. unfold performGrazing. intros H. count_pass H. congruence. Qed.

Lemma performRoaming_same_count (roaming_rate exploration_rate : Q) (herd : HorseHerd)
    (g : Random) (r : Z * HorseHerd) (g' : Random) :
  performRoaming roaming_rate exploration_rate herd g = Ok (r, g') -> same_count herd r.2.
Proof. unfold performRoaming. intros H. count_pass H. congruence. Qed.

Lemma performFollowing_same_count (following_rate : Q) (herd : HorseHerd) (g : Random)
    (r : Z * HorseHerd) (g' : Random) :
  performFollowing following_rate herd g = Ok (r, g') -> same_count herd r.2.
Proof. unfold performFollowing. intros H. count_pass H. congruence. Qed.

Lemma performMutation_same_count (mutation_rate : Q) (herd : HorseHerd) (g : Random)
    (r : Z * HorseHerd) (g' : Random) :
  performMutation mutation_rate herd g = Ok (r, g') -> same_count herd r.2.
Proof. unfold performMutation. intros H. count_pass H. congruence. Qed.

Lemma rejuvenateStagnantHorses_same_count (max_stagnation : Z) (herd : HorseHerd)
    (g : Random) (r : Z * HorseHerd) (g' : Random) :
  rejuvenateStagnantHorses max_stagnation herd g = Ok (r, g') -> same_count herd r.2.
Proof. unfold rejuvenateStagnantHorses. intros H. count_pass H. congruence. Qed.

Lemma improveElite_same_count (num_horses : Z) (herd : HorseHerd) (g : Random)
    (r : Z * HorseHerd) (g' : Random) :
  improveElite num_horses herd g = Ok (r, g') -> same_count herd r.2.
Proof.
  unfold improveElite. intros H. count_pass H. rewrite Hrun0.
  rewrite length_app, Hrun, <- length_app, take_drop.
  apply Permutation_length, sort_by_Permutation.
Qed.

Lemma performMating_event_same_count (fuel : nat) (crossover_rate : Q)
    (st : HorseHerd * Z) (g : Random) (st' : HorseHerd * Z) (g' : Random) :
  performMating_event fuel crossover_rate st g = Ok (st', g') -> same_count st.1 st'.1.
Proof.
  unfold performMating_event, same_count. destruct st as [herd count]. intros H. inv_run.
  destruct (selectForReplacement 1 herd) as [|weak_idx rest]; inv_run; simpl;
    [reflexivity | apply length_insert].
Qed.

Lemma performMating_same_count (fuel : nat) (mating_rate crossover_rate : Q)
    (herd : HorseHerd) (g : Random) (r : Z * HorseHerd) (g' : Random) :
  performMating fuel mating_rate crossover_rate herd g = Ok (r, g') -> same_count herd r.2.
Proof.
  unfold performMating. intros H. inv_M H. destruct a as [herd1 count].
  apply refresh_leader_same_count in Hrun0. unfold same_count in *. rewrite Hrun0.
  unfold forM in Hrun.
  apply (foldM_Ok_inv (fun st : HorseHerd * Z => length (horses_ st.1) = length (horses_ herd)))
    in Hrun; [exact Hrun | | reflexivity].
  intros i st g1 st' g1' Hev HP. apply performMating_event_same_count in Hev.
  unfold same_count in Hev. congruence.
Qed.

Lemma replaceWeakHorses_same_count (replacement_rate : Q) (herd : HorseHerd) (g : Random)
    (r : Z * HorseHerd) (g' : Random) :
  replaceWeakHorses replacement_rate herd g = Ok (r, g') -> same_count herd r.2.
Proof.
  unfold replaceWeakHorses, same_count.
  destruct (trunc (dmul (inject_Z (Z.of_nat (length (horses_ herd)))) replacement_rate) =? 0);
    intros H.
  - inv_M H. reflexivity.
  - apply M_bind_Ok in H as (hs & g1 & Hloop & H).
    apply M_bind_Ok in H as ([c herd1] & g2 & Hup & H). apply liftR_Ok in Hup as [Hup _].
    unfold M_ret in H. injection H as <- _. simpl.
    apply updateLeader_same_count in Hup. unfold same_count in Hup. simpl in Hup.
    rewrite Hup.
    apply (foldM_Ok_inv (fun hs : list Horse => length hs = length (horses_ herd)))
      in Hloop; [exact Hloop | | reflexivity].
    intros i s g3 s' g3' Hb HP. apply M_bind_Ok in Hb as (h & g4 & _ & Hb).
    unfold M_ret in Hb. injection Hb as <- _. rewrite length_insert. exact HP.
Qed.

Lemma applyDiversityPreservation_same_count (diversity : Q) (a : HHOA) (g : Random)
    (r : bool * HHOA) (g' : Random) :
  applyDiversityPreservation diversity a g = Ok (r, g') -> same_count (herd_ a) (herd_ r.2).
Proof.
  unfold applyDiversityPreservation, same_count.
  destruct (Qleb (diversity_threshold (parameters_ a)) diversity); intros H; inv_run; simpl.
  - reflexivity.
  - match goal with
    | H : replaceWeakHorses _ _ _ = Ok _ |- _ =>
        apply replaceWeakHorses_same_count in H; exact H
    end.
Qed.

Ltac count_facts :=
  repeat match goal with
  | H : performGrazing _ _ _ = Ok _ |- _ => apply performGrazing_same_count in H; simpl in H
  | H : performRoaming _ _ _ _ = Ok _ |- _ => apply performRoaming_same_count in H; simpl in H
  | H : performFollowing _ _ _ = Ok _ |- _ =>
      apply performFollowing_same_count in H; simpl in H
  | H : performMating _ _ _ _ _ = Ok _ |- _ => apply performMating_same_count in H; simpl in H
  | H : performMutation _ _ _ = Ok _ |- _ => apply performMutation_same_count in H; simpl in H
  | H : replaceWeakHorses _ _ _ = Ok _ |- _ =>
      apply replaceWeakHorses_same_count in H; simpl in H
  | H : rejuvenateStagnantHorses _ _ _ = Ok _ |- _ =>
      apply rejuvenateStagnantHorses_same_count in H; simpl in H
  | H : improveElite _ _ _ = Ok _ |- _ => apply improveElite_same_count in H; simpl in H
  | H : updateLeader _ = Ok _ |- _ => apply updateLeader_same_count in H; simpl in H
  | H : applyDiversityPreservation _ _ _ = Ok _ |- _ =>
      apply applyDiversityPreservation_same_count in H; simpl in H
  | H : calculateDiversity ?h = (_, ?h') |- _ =>
      let E := fresh "E" in
      pose proof (proj1 (calculateDiversity_herd h)) as E; rewrite H in E; simpl in E; clear H
  end.

Lemma executeIteration_same_count (iteration : Z) (a : HHOA) (g : Random)
    (r : bool * HHOA) (g' : Random) :
  executeIteration iteration a g = Ok (r, g') -> same_count (herd_ a) (herd_ r.2).
Proof.
  unfold executeIteration. intros H. inv_run.
  repeat match goal with
  | H : (if ?c then _ else _) _ = Ok _ |- _ => destruct c; inv_run
  | H : context [let (_, _) := (if ?c then _ else _) in _] |- _ => destruct c; inv_run
  end;
  count_facts; unfold ageHorses, same_count in *; simpl in *;
  rewrite ?length_map in *; congruence.
Qed.

Lemma optimize_body_same_count (iteration : Z) (ls : loop_state) (g : Random)
    (ls' : loop_state) (brk : bool) (g' : Random) :
  optimize_body iteration ls g = Ok ((ls', brk), g') ->
  same_count (herd_ (algo ls)) (herd_ (algo ls')).
Proof.
  unfold optimize_body. intros H.
  apply M_bind_Ok in H as ([improved a1] & g1 & Hiter & H).
  apply M_bind_Ok in H as (a2 & g2 & Hrec & H). apply liftR_Ok in Hrec as [Hrec _].
  apply M_bind_Ok in H as (mk & g3 & _ & H). simpl in Hrec.
  apply executeIteration_same_count in Hiter. simpl in Hiter.
  apply recordStatistics_herd in Hrec. rewrite <- Hrec in Hiter.
  set (st3 := if mk <? best_makespan ls then _ else _) in H.
  assert (Hst3 : herd_ st3.2 = herd_ a2).
  { unfold st3. destruct (mk <? best_makespan ls); reflexivity. }
  destruct st3 as [[bm sc] a3]. simpl in Hst3.
  set (a4 := if adaptive_parameters (parameters_ a3) then _ else _) in H.
  assert (Ha4 : herd_ a4 = herd_ a2).
  { unfold a4. destruct (adaptive_parameters (parameters_ a3)); simpl; exact Hst3. }
  clearbody a4. apply M_bind_Ok in H as (stop & g4 & _ & H).
  destruct stop; unfold M_ret in H; injection H as <- _ _; simpl;
    unfold same_count in *; simpl; rewrite ?Ha4; exact Hiter.
Qed.

Lemma HHOA_new_inv (fuel : nat) (instance : option ProblemInstance) (p : HHOAParameters)
    (g : Random) (a : HHOA) (g' : Random) :
  HHOA_new fuel instance p g = Ok (a, g') ->
  exists inst, instance = Some inst
    /\ ProblemInstance_isValid inst = true /\ HHOAParameters_isValid p = true.
Proof.
  unfold HHOA_new. destruct instance as [inst|]; [|discriminate].
  destruct (ProblemInstance_isValid inst) eqn:Hv; cbn [negb]; [|discriminate].
  destruct (HHOAParameters_isValid p) eqn:Hp; cbn [negb]; [|discriminate].
  intros _. exists inst. split; [reflexivity|]. split; [exact Hv | reflexivity].
Qed.

(** X28.  The number of horses is an invariant of the search: an
    iteration that returns leaves as many horses in the herd as it
    found, whatever it grazed, mated, replaced or rejuvenated; and when
    [optimize], called on a freshly constructed optimiser, returns, the
    herd holds exactly [population_size] horses. *)
Theorem herd_count_invariant :
  (forall iteration a g r g',
     executeIteration iteration a g = Ok (r, g') ->
     length (horses_ (herd_ r.2)) = length (horses_ (herd_ a)))
  /\ (forall fuel instance p g a g1 iterations best a' g',
        HHOA_new fuel instance p g = Ok (a, g1) ->
        optimize_for iterations a g1 = Ok ((best, a'), g') ->
        Z.of_nat (length (horses_ (herd_ a'))) = population_size p).
Proof.
  split.
  - intros iteration a g r g' H. apply executeIteration_same_count in H. exact H.
  - intros fuel instance p g a g1 iterations best a' g' Hnew Hrun.
    destruct (HHOA_new_inv _ _ _ _ _ _ Hnew) as (inst & -> & Hv & Hp).
    destruct (HHOA_new_fresh fuel inst p g Hv Hp) as (leader & g0 & Hl & E).
    rewrite E in Hnew. injection Hnew as <- <-.
    pose proof Hp as Hpop. apply HHOAParameters_isValid_spec in Hpop as (Hpop & _).
    set (herd := mkHerd [] inst leader (population_size p) 0 0) in *.
    pose proof (HorseHerd_initialize_few_greedy (4 # 5) herd Hv Hl Hpop
                  ltac:(split; unfold Qle; simpl; lia) g0) as Hfew. cbv zeta in Hfew.
    pose proof (HorseHerd_initialize_many_greedy (4 # 5) herd Hv Hpop
                  ltac:(split; unfold Qle; simpl; lia) g0) as Hmany. cbv zeta in Hmany.
    pose proof (default_ratio_greedy (population_size p) Hpop) as (_ & Hle & Hge).
    unfold optimize_for, HHOA_initialize in Hrun.
    apply M_bind_Ok in Hrun as (a1 & g2 & Hinit & H).
    apply M_bind_Ok in Hinit as (herd1 & g3 & Hinit & Hret).
    unfold M_ret in Hret. injection Hret as <- _.
    apply M_bind_Ok in H as (mk & g4 & _ & H).
    apply M_bind_Ok in H as (ls & g5 & Hloop & H).
    apply M_bind_Ok in H as (b & g6 & _ & H). unfold M_ret in H. injection H as _ <- _.
    simpl in Hinit. fold herd in Hinit.
    assert (Hlen1 : Z.of_nat (length (horses_ herd1)) = population_size p).
    { destruct (Z.le_gt_cases (population_size p) 55) as [Hs|Hb].
      - destruct (Hfew (Hle Hs)) as (herd' & g8 & E1 & Hlen & _).
        rewrite E1 in Hinit. injection Hinit as <- _. exact Hlen.
      - rewrite (Hmany (Hge ltac:(lia))) in Hinit. discriminate. }
    rewrite <- Hlen1. f_equal.
    unfold forM_break in Hloop.
    apply (foldM_break_Ok_inv
             (fun ls => length (horses_ (herd_ (algo ls))) = length (horses_ herd1)))
      in Hloop.
    + exact Hloop.
    + intros i s g7 s' b' g7' Hbody HP. apply optimize_body_same_count in Hbody.
      unfold same_count in Hbody. congruence.
    + reflexivity.
Qed.

Lemma example_optimizer_new (a : HHOA) (g : Random) :
  example_optimizer = Ok (a, g) ->
  HHOA_new 100 (Some example_instance) example_parameters example_random = Ok (a, g).
Proof. unfold example_optimizer. intros H. exact H. Qed.

(** [herd_count_invariant] on the example run: five horses are left. *)
Lemma herd_count_invariant_witness :
  exists a g best a' g',
    example_optimizer = Ok (a, g)
    /\ optimize_for 3 a g = Ok ((best, a'), g')
    /\ Z.of_nat (length (horses_ (herd_ a'))) = 5.
Proof.
  destruct (construct_and_optimize_returned example_optimizer 3 example_run_returned)
    as (a & g & best & a' & g' & Hnew & Hrun).
  exists a, g, best, a', g'. split; [exact Hnew|]. split; [exact Hrun|].
  exact (proj2 herd_count_invariant 100%nat (Some example_instance) example_parameters
           example_random a g 3 best a' g' (example_optimizer_new a g Hnew) Hrun).
Defined.

(** ** Random neighbours *)

Lemma count_differ_insert (l : list Z) :
  forall (l' : list Z) (i : nat) (x : Z),
    count_differ l (<[i := x]> l') <= count_differ l l' + 1.
Proof.
  induction l as [|a l IH]; intros [|b l'] i x; simpl; try lia.
  destruct i as [|i]; simpl.
  - destruct (a =? x), (a =? b); lia.
  - specialize (IH l' i x). lia.
Qed.

Lemma count_differ_swap (v : list Z) (i j : Z) :
  0 <= count_differ v (vec_swap 0 v i j) <= 2.
Proof.
  unfold vec_swap. split; [apply count_differ_bounds|].
  pose proof (count_differ_insert v (<[Z.to_nat i := vec_at 0 v j]> v) (Z.to_nat j)
                (vec_at 0 v i)).
  pose proof (count_differ_insert v v (Z.to_nat i) (vec_at 0 v j)).
  pose proof (proj2 (count_differ_zero v v eq_refl) eq_refl). lia.
Qed.

(** Moving a job one place to the right is no move: the job is erased
    and inserted again where it was. *)
Lemma relocate_next (v : list Z) (i : Z) :
  0 <= i < Z.of_nat (length v) -> relocate v i (i + 1) = v.
Proof.
  intros Hi. unfold relocate, vec_insert, vec_erase.
  destruct (Z.gtb_spec (i + 1) i); [|lia].
  replace (i + 1 - 1) with i by lia.
  assert (Hlt : Z.to_nat i = length (take (Z.to_nat i) v)) by (rewrite length_take; lia).
  rewrite take_app_length' by exact Hlt. rewrite drop_app_length' by exact Hlt.
  apply take_drop_middle, lookup_vec_at. exact Hi.
Qed.

(** The job at the end after a move is the one that was there, or the
    one before it when the last job itself was moved. *)
Lemma relocate_last (v : list Z) (i j : Z) :
  0 <= i < Z.of_nat (length v) -> 0 <= j < Z.of_nat (length v) -> i <> j ->
  length (relocate v i j) = length v
  /\ relocate v i j !! (length v - 1)%nat
     = v !! (if (i =? Z.of_nat (length v) - 1)%Z then length v - 2 else length v - 1)%nat.
Proof.
  intros Hi Hj Hne. unfold relocate, vec_insert, vec_erase.
  set (k := Z.to_nat (if j >? i then j - 1 else j)).
  set (w := take (Z.to_nat i) v ++ drop (S (Z.to_nat i)) v).
  assert (Hw : length w = (length v - 1)%nat).
  { unfold w. rewrite length_app, length_take, length_drop. lia. }
  assert (Hk : (k < length w)%nat).
  { unfold k. destruct (Z.gtb_spec j i); lia. }
  split.
  - rewrite length_app, length_take. simpl. rewrite length_drop. lia.
  - rewrite lookup_app_r by (rewrite length_take; lia).
    rewrite length_take, Nat.min_l by lia.
    replace (length v - 1 - k)%nat with (S (length v - 2 - k)) by lia. simpl.
    rewrite lookup_drop. replace (k + (length v - 2 - k))%nat with (length v - 2)%nat by lia.
    unfold w. destruct (Z.eqb_spec i (Z.of_nat (length v) - 1)) as [E|E].
    + rewrite lookup_app_l by (rewrite length_take; lia).
      apply lookup_take_lt. lia.
    + rewrite lookup_app_r by (rewrite length_take; lia).
      rewrite length_take, Nat.min_l by lia. rewrite lookup_drop. f_equal. lia.
Qed.

(** X29.  The random neighbours of a solution.  On an empty job order
    both [createSwapNeighbor] and [createInsertNeighbor] throw
    [invalid_argument], from [randInt (0, -1)].  On a solution of a
    valid instance both return a permutation of the jobs and leave the
    solution itself alone; the swap neighbour differs from it at two
    positions at most.  The insert neighbour never brings a job from
    elsewhere to the end of the order: its last job is the last job of
    the solution, or the one before it; and a move from a position to
    the next one changes nothing. *)
Theorem random_neighbours :
  (forall s g,
     job_sequence_ s = [] ->
     createSwapNeighbor s g = Throw invalid_argument
     /\ createInsertNeighbor s g = Throw invalid_argument)
  /\ (forall inst s g,
        ProblemInstance_isValid inst = true -> wf_solution inst s ->
        exists s1 s2 g',
          createSwapNeighbor s g = Ok (s1, g') /\ createInsertNeighbor s g = Ok (s2, g')
          /\ wf_solution inst s1 /\ wf_solution inst s2
          /\ 0 <= distanceTo s s1 <= 2
          /\ exists k : nat,
               (length (job_sequence_ s) - 2 <= k <= length (job_sequence_ s) - 1)%nat
               /\ job_sequence_ s2 !! (length (job_sequence_ s) - 1)%nat
                  = job_sequence_ s !! k)
  /\ (forall v i, 0 <= i < Z.of_nat (length v) -> relocate v i (i + 1) = v).
Proof.
  split; [|split].
  - intros s g Hs. unfold createSwapNeighbor, createInsertNeighbor, M_bind. rewrite Hs.
    rewrite randInt_empty by (simpl; lia). split; reflexivity.
  - intros inst s g Hv Hwf. pose proof Hwf as (Hi & Hp & _). pose proof Hp as (Hl & _).
    pose proof (ProblemInstance_isValid_dims inst Hv) as (Hn & _).
    unfold createSwapNeighbor, createInsertNeighbor, M_bind. unfold getNumJobs in *.
    rewrite Hl.
    destruct (randInt_spec 0 (num_jobs_ inst - 1) g ltac:(lia)) as (p1 & -> & Hp1).
    destruct (randInt_spec 0 (num_jobs_ inst - 1) (advance g) ltac:(lia)) as (p2 & -> & Hp2).
    destruct (swapJobs_wf inst s p1 p2 Hwf) as (s1 & E1 & Hseq & Hwf1);
      [unfold getNumJobs; lia | unfold getNumJobs; lia |].
    unfold liftR. rewrite E1.
    assert (Hd : 0 <= distanceTo s s1 <= 2).
    { assert (Hlen : length (vec_swap 0 (job_sequence_ s) p1 p2) = length (job_sequence_ s))
        by (unfold vec_swap; rewrite !length_insert; reflexivity).
      unfold distanceTo. rewrite Hseq, Hlen, Nat.eqb_refl. simpl. apply count_differ_swap. }
    destruct (Z.eqb_spec p1 p2) as [Heq|Hne]; simpl.
    + exists s1, s, (advance (advance g)). split; [reflexivity|]. split; [reflexivity|].
      split; [exact Hwf1|]. split; [exact Hwf|]. split; [exact Hd|].
      exists (length (job_sequence_ s) - 1)%nat. split; [lia | reflexivity].
    + eexists s1, _, (advance (advance g)). split; [reflexivity|]. split; [reflexivity|].
      split; [exact Hwf1|]. split.
      { apply invalidateCache_wf; [exact Hi|].
        eapply perm_of_Permutation; [|exact Hp]. apply relocate_Permutation. lia. }
      split; [exact Hd|]. simpl.
      destruct (relocate_last (job_sequence_ s) p1 p2 ltac:(lia) ltac:(lia) Hne) as [_ Hlast].
      eexists. split; [|exact Hlast].
      destruct (p1 =? Z.of_nat (length (job_sequence_ s)) - 1); lia.
  - exact relocate_next.
Qed.

(** [random_neighbours] on the order [[0; 1]] of the instance of two
    jobs. *)
Lemma random_neighbours_witness :
  exists s1 s2 g',
    createSwapNeighbor (solution_ two_jobs_horse) counting_random = Ok (s1, g')
    /\ createInsertNeighbor (solution_ two_jobs_horse) counting_random = Ok (s2, g')
    /\ wf_solution two_jobs_instance s1 /\ wf_solution two_jobs_instance s2.
Proof.
  destruct (proj1 (proj2 random_neighbours) two_jobs_instance (solution_ two_jobs_horse)
              counting_random eq_refl (proj1 two_jobs_horse_wf))
    as (s1 & s2 & g' & E1 & E2 & H1 & H2 & _).
  exists s1, s2, g'. split; [exact E1|]. split; [exact E2|]. split; [exact H1 | exact H2].
Defined.

(** ** Setters of the job order *)

Lemma setJobAt_spec (s : Solution) (position job : Z) :
  0 <= position < Solution_getNumJobs s ->
  exists s',
    setJobAt s position job = Ok s'
    /\ job_sequence_ s' = <[Z.to_nat position := job]> (job_sequence_ s)
    /\ instance_ s' = instance_ s /\ makespan_calculated_ s' = false.
Proof.
  unfold Solution_getNumJobs, setJobAt. intros Hp.
  destruct (Z.ltb_spec position 0); [lia|].
  destruct (Z.geb_spec position (Z.of_nat (length (job_sequence_ s)))); [lia|]. simpl.
  eexists. split; [reflexivity|]. repeat split.
Qed.

(** Writing a job over a position of a permutation leaves a permutation
    only if the job is the one that was there. *)
Lemma insert_perm_of (n : Z) (l : list Z) (p : nat) (job : Z) :
  perm_of n l -> (p < length l)%nat ->
  (perm_of n (<[p := job]> l) <-> l !! p = Some job).
Proof.
  intros Hp Hlt. split.
  - intros (Hl' & HF' & HN').
    destruct (lookup_lt_is_Some_2 l p Hlt) as [old Hold].
    destruct (Z.eq_dec old job) as [->|Hne]; [exact Hold|]. exfalso.
    assert (Hin : job ∈ l).
    { apply (perm_of_elem_of n l job Hp). rewrite Forall_forall in HF'. apply HF'.
      eapply list_elem_of_lookup_2. apply list_lookup_insert_eq. exact Hlt. }
    apply list_elem_of_lookup in Hin as (q & Hq).
    assert (Hqp : q <> p) by (intros ->; congruence).
    assert (Hq' : <[p := job]> l !! q = Some job)
      by (rewrite list_lookup_insert_ne by congruence; exact Hq).
    assert (Hp' : <[p := job]> l !! p = Some job) by (apply list_lookup_insert_eq; exact Hlt).
    apply Hqp. exact (NoDup_lookup _ _ _ _ HN' Hq' Hp').
  - intros Hold. rewrite list_insert_id by exact Hold. exact Hp.
Qed.

(** X30.  The setters of a solution check sizes and positions, not the
    jobs.  [setJobSequence] throws [invalid_argument] on an order whose
    length is not the number of jobs and otherwise stores the order
    given, permutation or not, and drops the cached makespan.
    [setJobAt] throws [out_of_range] on a position outside the order
    and otherwise writes the job there, so that [getJobAt] reads it back
    and the other positions are as before; on a valid solution the
    result is valid only when the job written is the one that was
    there. *)
Theorem setters_check_sizes_only :
  (forall s sequence,
     Z.of_nat (length sequence) <> getNumJobs (instance_ s) ->
     setJobSequence s sequence = Throw invalid_argument)
  /\ (forall s sequence,
        Z.of_nat (length sequence) = getNumJobs (instance_ s) ->
        exists s',
          setJobSequence s sequence = Ok s'
          /\ job_sequence_ s' = sequence /\ instance_ s' = instance_ s
          /\ makespan_calculated_ s' = false
          /\ (Solution_isValid s' = true <-> perm_of (getNumJobs (instance_ s)) sequence))
  /\ (forall s position job,
        position < 0 \/ Solution_getNumJobs s <= position ->
        setJobAt s position job = Throw out_of_range)
  /\ (forall s position job,
        0 <= position < Solution_getNumJobs s ->
        exists s',
          setJobAt s position job = Ok s'
          /\ getJobAt s' position = Ok job
          /\ (forall q, q <> position -> getJobAt s' q = getJobAt s q)
          /\ makespan_calculated_ s' = false
          /\ (Solution_isValid s = true ->
                (Solution_isValid s' = true <-> getJobAt s position = Ok job))).
Proof.
  split; [|split; [|split]].
  - intros s sequence H. unfold setJobSequence.
    destruct (Z.eqb_spec (Z.of_nat (length sequence)) (getNumJobs (instance_ s))); [lia|].
    reflexivity.
  - intros s sequence H. unfold setJobSequence.
    destruct (Z.eqb_spec (Z.of_nat (length sequence)) (getNumJobs (instance_ s))); [|lia].
    simpl. eexists. split; [reflexivity|]. repeat (split; [reflexivity|]).
    apply Solution_isValid_iff.
  - intros s position job H. unfold Solution_getNumJobs in H. unfold setJobAt.
    destruct (Z.ltb_spec position 0); [reflexivity|].
    destruct (Z.geb_spec position (Z.of_nat (length (job_sequence_ s)))); [reflexivity | lia].
  - intros s position job Hp.
    destruct (setJobAt_spec s position job Hp) as (s' & E & Hseq & Hinst & Hc).
    unfold Solution_getNumJobs in Hp.
    exists s'. split; [exact E|].
    assert (Hlen : length (job_sequence_ s') = length (job_sequence_ s))
      by (rewrite Hseq; apply length_insert).
    split; [|split; [|split; [exact Hc|]]].
    + unfold getJobAt. rewrite Hlen.
      destruct (Z.ltb_spec position 0); [lia|].
      destruct (Z.geb_spec position (Z.of_nat (length (job_sequence_ s)))); [lia|]. simpl.
      rewrite Hseq, vec_at_insert_eq by lia. reflexivity.
    + intros q Hq. unfold getJobAt. rewrite Hlen.
      destruct (Z.ltb_spec q 0); [reflexivity|].
      destruct (Z.geb_spec q (Z.of_nat (length (job_sequence_ s)))); [reflexivity|]. simpl.
      rewrite Hseq, vec_at_insert_ne by lia. reflexivity.
    + intros Hvalid. apply Solution_isValid_iff in Hvalid.
      rewrite Solution_isValid_iff, Hinst, Hseq.
      rewrite (insert_perm_of _ _ (Z.to_nat position) job Hvalid) by lia.
      unfold getJobAt.
      destruct (Z.ltb_spec position 0); [lia|].
      destruct (Z.geb_spec position (Z.of_nat (length (job_sequence_ s)))); [lia|]. simpl.
      rewrite (lookup_vec_at 0 (job_sequence_ s) position) by lia.
      split; intros H1; injection H1 as H1; rewrite H1; reflexivity.
Qed.

(** [setters_check_sizes_only] on the order [[0; 1]]: writing job 1 at
    position 0 returns, and leaves an invalid solution. *)
Lemma setters_check_sizes_only_witness :
  exists s',
    setJobAt (fresh_solution two_jobs_instance [0; 1]) 0 1 = Ok s'
    /\ getJobAt s' 0 = Ok 1 /\ Solution_isValid s' = false.
Proof.
  destruct (proj2 (proj2 (proj2 setters_check_sizes_only))
              (fresh_solution two_jobs_instance [0; 1]) 0 1 ltac:(vm_compute; split; congruence))
    as (s' & E & Hget & _ & _ & Hvalid).
  exists s'. split; [exact E|]. split; [exact Hget|].
  apply not_true_iff_false. intros Hs'.
  apply (Hvalid eq_refl) in Hs'. discriminate Hs'.
Defined.

(** ** The elite frequency is not validated *)

Lemma executeIteration_zero_frequency (iteration : Z) (a : HHOA) (g : Random)
    (r : bool * HHOA * Random) :
  elite_improvement_freq (parameters_ a) = 0 -> executeIteration iteration a g <> Ok r.
Proof.
  intros Hz H. destruct r as [r g']. unfold executeIteration in H. rewrite Hz in H. inv_run.
  repeat match goal with
  | H : (if ?c then _ else _) _ = Ok _ |- _ => destruct c; inv_run
  | H : context [let (_, _) := (if ?c then _ else _) in _] |- _ => destruct c; inv_run
  end;
  match goal with
  | H : int_rem _ 0 = Ok _ |- _ => discriminate H
  end.
Qed.

Lemma HHOA_initialize_parameters (a : HHOA) (g : Random) (a' : HHOA) (g' : Random) :
  HHOA_initialize a g = Ok (a', g') -> parameters_ a' = parameters_ a.
Proof.
  unfold HHOA_initialize. intros H. apply M_bind_Ok in H as (herd & g1 & _ & H).
  unfold M_ret in H. injection H as <- _. reflexivity.
Qed.

Lemma optimize_for_zero_frequency (iterations : Z) (a : HHOA) (g : Random)
    (r : Solution * HHOA * Random) :
  0 < iterations -> elite_improvement_freq (parameters_ a) = 0 ->
  optimize_for iterations a g <> Ok r.
Proof.
  intros Hpos Hz H. unfold optimize_for in H.
  apply M_bind_Ok in H as (a0 & g0 & Hinit & H).
  apply HHOA_initialize_parameters in Hinit.
  apply M_bind_Ok in H as (mk & g1 & _ & H).
  apply M_bind_Ok in H as (ls & g2 & Hloop & _).
  unfold forM_break in Hloop. rewrite seqZ_cons in Hloop by lia. cbn [foldM_break] in Hloop.
  apply M_bind_Ok in Hloop as ([ls1 brk] & g3 & Hbody & _).
  unfold optimize_body in Hbody. apply M_bind_Ok in Hbody as (x & g4 & Hiter & _).
  revert Hiter. apply executeIteration_zero_frequency. simpl. congruence.
Qed.

(** C9.  [HHOAParameters::isValid] holds exactly when the population
    size, the iteration bound, the stagnation bound and the termination
    patience are positive, every rate lies in [[0, 1]] and the elite
    count is not negative; it never reads the elite improvement
    frequency.  The constructor throws [invalid_argument] on a null
    instance, on an invalid instance and on parameters the predicate
    refuses.  But a configuration whose elite improvement frequency is
    zero passes the predicate whenever its other fields do, although its
    counts are not all positive; on a valid instance the constructor
    then returns an optimiser that holds it, and no iteration of this
    optimiser returns: [executeIteration] evaluates
    [iteration % elite_improvement_freq], a division by zero, so that
    [optimize] returns no solution for any positive number of
    iterations.  On the example instance, with the parameters of the
    example run and the frequency zero, the behaviour of the run is
    undefined. *)
Theorem isValid_misses_elite_frequency :
  (forall p,
     HHOAParameters_isValid p = true <->
     0 < population_size p /\ 0 < max_iterations p
     /\ rate_in_range (grazing_intensity p) /\ rate_in_range (roaming_rate p)
     /\ rate_in_range (exploration_rate p) /\ rate_in_range (following_rate p)
     /\ rate_in_range (mating_rate p) /\ rate_in_range (crossover_rate p)
     /\ rate_in_range (mutation_rate p) /\ rate_in_range (replacement_rate p)
     /\ 0 < max_stagnation p /\ 0 <= elite_count p /\ 0 < termination_patience p)
  /\ (forall fuel instance parameters g,
        instance = None
        \/ (exists inst, instance = Some inst /\ ProblemInstance_isValid inst = false)
        \/ HHOAParameters_isValid parameters = false ->
        HHOA_new fuel instance parameters g = Throw invalid_argument)
  /\ (forall p freq,
        HHOAParameters_isValid (with_elite_improvement_freq freq p) = HHOAParameters_isValid p)
  /\ (forall p, documented_validity (with_elite_improvement_freq 0 p) = false)
  /\ (forall fuel inst p g,
        ProblemInstance_isValid inst = true -> HHOAParameters_isValid p = true ->
        elite_improvement_freq p = 0 ->
        exists a g',
          HHOA_new fuel (Some inst) p g = Ok (a, g')
          /\ parameters_ a = p
          /\ (forall iteration g1 r, executeIteration iteration a g1 <> Ok r)
          /\ (forall iterations g1 r, 0 < iterations -> optimize_for iterations a g1 <> Ok r))
  /\ (HHOAParameters_isValid zero_frequency_parameters = true
      /\ elite_improvement_freq zero_frequency_parameters = 0
      /\ construct_and_optimize
           (HHOA_new 100 (Some example_instance) zero_frequency_parameters example_random) 3
         = Undefined).
Proof.
  split; [exact HHOAParameters_isValid_spec|].
  split; [exact HHOA_new_invalid|].
  split; [intros p freq; reflexivity|].
  split.
  { intros p. unfold documented_validity.
    change (elite_improvement_freq (with_elite_improvement_freq 0 p) >? 0) with false.
    apply andb_false_r. }
  split.
  - intros fuel inst p g Hv Hp Hz.
    destruct (HHOA_new_fresh fuel inst p g Hv Hp) as (leader & g' & _ & E).
    eexists. exists g'. split; [exact E|]. split; [reflexivity|]. split.
    + intros iteration g1 r. apply executeIteration_zero_frequency. exact Hz.
    + intros iterations g1 r Hpos. apply optimize_for_zero_frequency; [exact Hpos | exact Hz].
  - split; [reflexivity|]. split; [reflexivity|]. vm_compute. reflexivity.
Qed.

(** [isValid_misses_elite_frequency] on the example instance: the
    optimiser is constructed with an elite frequency of zero, and its
    first iteration does not return. *)
Lemma isValid_misses_elite_frequency_witness :
  exists a g',
    HHOA_new 100 (Some example_instance) zero_frequency_parameters example_random = Ok (a, g')
    /\ forall r, executeIteration 0 a g' <> Ok r.
Proof.
  destruct isValid_misses_elite_frequency as (_ & _ & _ & _ & H & _).
  destruct (H 100%nat example_instance zero_frequency_parameters example_random
              eq_refl eq_refl eq_refl) as (a & g' & E & _ & Hit & _).
  exists a, g'. split; [exact E|]. intros r. apply Hit.
Defined.

(** ** The passes over the herd *)

Section Pass.
Variable inst : ProblemInstance.
Variable body : Horse -> Z -> M (Horse * Z).
Variable step : Horse -> Random -> Horse -> Random -> Prop.
Variable kept : Horse -> Horse -> Prop.
Hypothesis body_spec :
  forall (horse : Horse) (count : Z) (g : Random),
    wf_horse inst horse ->
    exists horse' g',
      body horse count g
      = Ok ((horse',
             count + (if current_makespan inst horse' <? current_makespan inst horse
                      then 1 else 0)), g')
      /\ wf_horse inst horse' /\ step horse g horse' g' /\ kept horse horse'.

Lemma for_each_horse_in_turn (hs : list Horse) :
  Forall (wf_horse inst) hs ->
  forall (count : Z) (g : Random),
  exists hs' g',
    for_each_horse body hs count g = Ok ((hs', count + improved_horses inst hs hs'), g')
    /\ Forall (wf_horse inst) hs' /\ each_in_turn step hs g hs' g' /\ Forall2 kept hs hs'.
Proof using body_spec.
  induction 1 as [|h hs Hh Hhs IH]; intros count g.
  - exists [], g. simpl. unfold M_ret. rewrite Z.add_0_r.
    split; [reflexivity|]. split; [constructor|]. split; constructor.
  - destruct (body_spec h count g Hh) as (h' & g1 & E1 & Hwf' & Hstep & Hk).
    destruct (IH (count + (if current_makespan inst h' <? current_makespan inst h
                           then 1 else 0)) g1) as (hs' & g' & E2 & Hwfs & Hturn & Hks).
    exists (h' :: hs'), g'. simpl for_each_horse. unfold M_bind. rewrite E1, E2.
    unfold M_ret. simpl improved_horses. rewrite Z.add_assoc.
    split; [reflexivity|]. split; [constructor; assumption|].
    split; [econstructor; eassumption | constructor; assumption].
Qed.

Lemma pass_in_turn (herd : HorseHerd) (g : Random) :
  wf_herd herd -> herd_instance_ herd = inst ->
  exists count herd' g',
    ('(hs, count) <~ for_each_horse body (horses_ herd) 0;
     refresh_leader count (with_horses hs herd)) g = Ok ((count, herd'), g')
    /\ pass_outcome_of step kept herd g count herd' g'
    /\ wf_herd herd'
    /\ length (horses_ herd') = length (horses_ herd)
    /\ count = improved_horses inst (horses_ herd) (horses_ herd').
Proof using body_spec.
  intros (Hv & Hhs & Hl) Hi. rewrite Hi in Hhs, Hl.
  destruct (for_each_horse_in_turn (horses_ herd) Hhs 0 g)
    as (hs & g' & E & Hwf & Hturn & Hk).
  unfold M_bind at 1. rewrite E. rewrite Z.add_0_l. cbv beta iota.
  set (count := improved_horses inst (horses_ herd) hs).
  assert (Hwf1 : wf_herd (with_horses hs herd)).
  { split; [exact Hv|]. simpl. rewrite Hi. split; assumption. }
  assert (Hlen : length hs = length (horses_ herd)).
  { symmetry. exact (Forall2_length _ _ _ Hk). }
  unfold refresh_leader. destruct (count >? 0) eqn:Ec.
  - destruct (updateLeader_wf (with_horses hs herd) Hwf1)
      as (c & herd' & Hup & Hwf' & Hlen' & _).
    unfold M_bind, liftR. rewrite Hup. unfold M_ret.
    pose proof (updateLeader_spec _ _ _ Hup) as (_ & _ & Hc). simpl in Hc.
    exists count, herd', g'. split; [reflexivity|]. split.
    + exists hs. rewrite Hi. split; [exact Hturn|]. split; [reflexivity|].
      split; [exact Hk|]. split; [|exact Hc]. unfold leader_refreshed. rewrite Ec.
      exists c. exact Hup.
    + split; [exact Hwf'|]. split; [simpl in Hlen'; congruence|].
      symmetry. apply improved_horses_copy. exact Hc.
  - unfold M_ret. exists count, (with_horses hs herd), g'. split; [reflexivity|]. split.
    + exists hs. rewrite Hi. split; [exact Hturn|]. split; [reflexivity|].
      split; [exact Hk|]. split.
      * unfold leader_refreshed. rewrite Ec. reflexivity.
      * simpl. clear. induction hs; constructor; [apply copy_of_refl | assumption].
    + split; [exact Hwf1|]. split; [exact Hlen | reflexivity].
Qed.
End Pass.

Lemma mutation_body_spec (inst : ProblemInstance) (mutation_rate : Q) (horse : Horse)
    (count : Z) (g : Random) :
  ProblemInstance_isValid inst = true -> (0 <= mutation_rate <= 1)%Q ->
  wf_horse inst horse ->
  exists horse' g',
    mutation_step mutation_rate horse count g
    = Ok ((horse',
           count + (if current_makespan inst horse' <? current_makespan inst horse
                    then 1 else 0)), g')
    /\ wf_horse inst horse' /\ mutation_of mutation_rate horse g horse' g'
    /\ keeps_or_raises_best horse horse'.
Proof.
  intros Hv Hr Hwf. unfold mutation_step.
  destruct (Horse_getMakespan_wf inst horse Hv Hwf) as (h1 & E1 & Hc1 & _ & Hwf1).
  destruct (mutate_total inst mutation_rate h1 g Hv Hwf1 Hr) as (h2 & g2 & E2 & Hwf2 & Hk).
  destruct (Horse_getMakespan_wf inst h2 Hv Hwf2) as (h3 & E3 & Hc3 & _ & Hwf3).
  exists h3, g2. unfold M_bind, liftR. rewrite E1, E2, E3. unfold M_ret.
  rewrite (current_makespan_copy inst h2 h3 Hc3).
  split; [|split; [exact Hwf3|split]].
  - destruct (current_makespan inst h2 <? current_makespan inst horse);
      [reflexivity | rewrite Z.add_0_r; reflexivity].
  - exists (current_makespan inst horse), h1, h2, (current_makespan inst h2).
    split; [exact E1|]. split; [exact E2 | exact E3].
  - exact (keeps_or_raises_best_copy _ _ _ _ Hc1 Hk Hc3).
Qed.

(** The acceptance test on a candidate and a horse of a valid instance:
    the candidate is taken exactly when its makespan is strictly below
    the current one. *)
Lemma accept_if_better_wf (inst : ProblemInstance) (new_solution : Solution) (horse : Horse)
    (count : Z) :
  ProblemInstance_isValid inst = true -> wf_solution inst new_solution ->
  wf_horse inst horse ->
  exists horse',
    accept_if_better new_solution horse count
    = Ok (horse',
          count + (if current_makespan inst horse' <? current_makespan inst horse
                   then 1 else 0))
    /\ wf_horse inst horse'
    /\ (if makespan_of inst (job_sequence_ new_solution) <? current_makespan inst horse
        then job_sequence_ (solution_ horse') = job_sequence_ new_solution
        else copy_of horse horse').
Proof.
  intros Hv Hnew Hwf. unfold accept_if_better.
  destruct (getMakespan_wf inst new_solution Hv Hnew) as (s' & E1 & Hj & _ & Hwfs).
  destruct (Horse_getMakespan_wf inst horse Hv Hwf) as (h1 & E2 & Hc & _ & Hwf1).
  rewrite E1, E2. cbv beta iota delta [result_bind].
  destruct (makespan_of inst (job_sequence_ new_solution) <? current_makespan inst horse)
    eqn:E.
  - unfold setSolution.
    assert (Hwf2 : wf_horse inst (with_solution s' h1)) by (split; [exact Hwfs | exact (proj2 Hwf1)]).
    destruct (updateFitness_wf inst _ Hv Hwf2) as (h2 & E3 & _ & Hj2 & _ & _ & Hwf3).
    rewrite E3. cbv beta iota delta [result_bind].
    destruct (updateBest_spec inst h2 Hwf3) as (Hwf4 & Hsol & _ & _).
    destruct (updateBest h2) as [updated h3]. simpl in Hwf4, Hsol.
    assert (Hseq : job_sequence_ (solution_ h3) = job_sequence_ new_solution).
    { rewrite Hsol, Hj2. simpl. exact Hj. }
    assert (Hgen : forall c,
              (current_makespan inst (with_stagnation_counter c h3)
               <? current_makespan inst horse) = true).
    { intros c. unfold current_makespan. simpl. rewrite Hseq. exact E. }
    destruct updated;
      [exists (with_stagnation_counter 0 h3)
      |exists (with_stagnation_counter (stagnation_counter_ h3 + 1) h3)];
      rewrite Hgen; (split; [reflexivity|]); (split; [exact Hwf4 | exact Hseq]).
  - exists h1. rewrite (current_makespan_copy inst horse h1 Hc), Z.ltb_irrefl, Z.add_0_r.
    split; [reflexivity|]. split; [exact Hwf1 | exact Hc].
Qed.

Lemma accept_if_better_kept (inst : ProblemInstance) (new_solution : Solution) (horse : Horse)
    (count : Z) :
  ProblemInstance_isValid inst = true -> wf_solution inst new_solution ->
  wf_horse inst horse ->
  exists horse',
    accept_if_better new_solution horse count
    = Ok (horse',
          count + (if current_makespan inst horse' <? current_makespan inst horse
                   then 1 else 0))
    /\ wf_horse inst horse' /\ tested_on new_solution horse horse'
    /\ kept_or_improved inst horse horse'.
Proof.
  intros Hv Hnew Hwf.
  destruct (accept_if_better_wf inst new_solution horse count Hv Hnew Hwf)
    as (horse' & E & Hwf' & Hcase).
  exists horse'. split; [exact E|]. split; [exact Hwf'|]. split.
  - eexists. eexists. exact E.
  - unfold kept_or_improved.
    destruct (makespan_of inst (job_sequence_ new_solution) <? current_makespan inst horse)
      eqn:Et.
    + right. unfold current_makespan at 1. rewrite Hcase. apply Z.ltb_lt. exact Et.
    + left. exact (proj1 Hcase).
Qed.

Lemma roaming_body_spec (inst : ProblemInstance) (roaming_rate exploration_rate : Q)
    (horse : Horse) (count : Z) (g : Random) :
  ProblemInstance_isValid inst = true -> (0 <= exploration_rate <= 1)%Q ->
  wf_horse inst horse ->
  exists horse' g',
    (u <~ randDouble;
     if Qltb u roaming_rate then
       new_solution <~ roam exploration_rate horse;
       liftR (accept_if_better new_solution horse count)
     else M_ret (horse, count)) g
    = Ok ((horse',
           count + (if current_makespan inst horse' <? current_makespan inst horse
                    then 1 else 0)), g')
    /\ wf_horse inst horse'
    /\ roaming_of roaming_rate exploration_rate horse g horse' g'
    /\ kept_or_improved inst horse horse'.
Proof.
  intros Hv Hr Hwf. destruct (randDouble_total g) as (u & g1 & Eu).
  unfold M_bind at 1. rewrite Eu. unfold roaming_of.
  destruct (Qltb u roaming_rate) eqn:Edraw.
  - destruct (roam_total inst exploration_rate horse g1 Hv (proj1 Hwf) Hr)
      as (s & g' & Erun & Hs & _).
    destruct (accept_if_better_kept inst s horse count Hv Hs Hwf)
      as (horse' & E & Hwf' & Ht & Hk).
    exists horse', g'. split; [unfold M_bind, liftR; rewrite Erun, E; reflexivity|].
    split; [exact Hwf'|]. split; [|exact Hk].
    exists u, g1. split; [exact Eu|]. rewrite Edraw. exists s. split; [exact Erun | exact Ht].
  - exists horse, g1. unfold M_ret. rewrite Z.ltb_irrefl, Z.add_0_r.
    split; [reflexivity|]. split; [exact Hwf|]. split; [|left; reflexivity].
    exists u, g1. split; [exact Eu|]. rewrite Edraw. split; reflexivity.
Qed.

Lemma Solution_of_sequence_fresh (job_sequence : list Z) (inst : ProblemInstance)
    (s : Solution) :
  Solution_of_sequence job_sequence inst = Ok s -> makespan_calculated_ s = false.
Proof.
  unfold Solution_of_sequence.
  destruct (negb (ProblemInstance_isValid inst)); [discriminate|].
  destruct (negb (Z.of_nat (length job_sequence) =? getNumJobs inst)); [discriminate|].
  intros H. injection H as <-. reflexivity.
Qed.

Lemma orderCrossover_fresh (parent1 parent2 : Solution) (g : Random) (child : Solution)
    (g' : Random) :
  orderCrossover parent1 parent2 g = Ok (child, g') -> makespan_calculated_ child = false.
Proof.
  unfold orderCrossover. intros H.
  apply M_bind_Ok in H as (point1 & g1 & _ & H).
  apply M_bind_Ok in H as (point2 & g2 & _ & H).
  apply liftR_Ok in H as [H _]. simpl in H. unfold orderCrossover_at in H.
  destruct (if point1 >? point2 then (point2, point1) else (point1, point2)) as [p1 p2].
  apply result_bind_Ok in H as (st1 & _ & H).
  apply result_bind_Ok in H as (st2 & _ & H).
  apply result_bind_Ok in H as (st3 & _ & H).
  exact (Solution_of_sequence_fresh _ _ _ H).
Qed.

Lemma partiallyMappedCrossover_fresh (parent1 parent2 : Solution) (g : Random)
    (child : Solution) (g' : Random) :
  partiallyMappedCrossover parent1 parent2 g = Ok (child, g') ->
  makespan_calculated_ child = false.
Proof.
  unfold partiallyMappedCrossover. intros H.
  apply M_bind_Ok in H as (num_swaps & g1 & _ & H).
  apply M_bind_Ok in H as (offspring & g2 & _ & H).
  apply liftR_Ok in H as [H _]. simpl in H.
  exact (Solution_of_sequence_fresh _ _ _ H).
Qed.

Lemma followLeader_wf (inst : ProblemInstance) (leader : Horse) (following_rate : Q)
    (h : Horse) (g : Random) :
  ProblemInstance_isValid inst = true -> wf_horse inst h -> wf_horse inst leader ->
  2 <= getNumJobs inst -> (0 <= following_rate <= 1)%Q ->
  exists s g', followLeader leader following_rate h g = Ok (s, g') /\ wf_solution inst s.
Proof.
  intros Hv [Hs _] [_ Hlb] Hn Hr.
  apply wf_solution_isValid in Hs as [Hsi Hsv]. apply wf_solution_isValid in Hlb as [Hli Hlv].
  unfold followLeader. rewrite (rate_check following_rate Hr).
  destruct (randDouble_total g) as (u & g1 & Eu). unfold M_bind at 1. rewrite Eu.
  assert (Hfresh : forall c, instance_ c = instance_ (solution_ h) ->
            Solution_isValid c = true -> makespan_calculated_ c = false ->
            wf_solution inst c).
  { intros c Hci Hcv Hcf. split; [congruence|]. split.
    - apply Solution_isValid_iff in Hcv. rewrite Hci, Hsi in Hcv. exact Hcv.
    - intros Hcalc. congruence. }
  destruct (Qltb u following_rate).
  - destruct (orderCrossover_valid (solution_ h) (best_solution_ leader) g1)
      as (c & g' & E & Hci & Hcv); try congruence.
    exists c, g'. split; [exact E|].
    exact (Hfresh c Hci Hcv (orderCrossover_fresh _ _ _ _ _ E)).
  - destruct (partiallyMappedCrossover_valid (solution_ h) (best_solution_ leader) g1)
      as (c & g' & E & Hci & Hcv); try congruence.
    exists c, g'. split; [exact E|].
    exact (Hfresh c Hci Hcv (partiallyMappedCrossover_fresh _ _ _ _ _ E)).
Qed.

Lemma following_body_spec (inst : ProblemInstance) (leader : Horse) (following_rate : Q)
    (horse : Horse) (count : Z) (g : Random) :
  ProblemInstance_isValid inst = true -> wf_horse inst leader ->
  2 <= getNumJobs inst -> (0 <= following_rate <= 1)%Q ->
  wf_horse inst horse ->
  exists horse' g',
    (if negb (is_leader_ horse) then
       new_solution <~ followLeader leader following_rate horse;
       liftR (accept_if_better new_solution horse count)
     else M_ret (horse, count)) g
    = Ok ((horse',
           count + (if current_makespan inst horse' <? current_makespan inst horse
                    then 1 else 0)), g')
    /\ wf_horse inst horse'
    /\ following_of leader following_rate horse g horse' g'
    /\ kept_or_improved inst horse horse'.
Proof.
  intros Hv Hl Hn Hr Hwf. unfold following_of.
  destruct (negb (is_leader_ horse)).
  - destruct (followLeader_wf inst leader following_rate horse g Hv Hwf Hl Hn Hr)
      as (s & g' & Erun & Hs).
    destruct (accept_if_better_kept inst s horse count Hv Hs Hwf)
      as (horse' & E & Hwf' & Ht & Hk).
    exists horse', g'. split; [unfold M_bind, liftR; rewrite Erun, E; reflexivity|].
    split; [exact Hwf'|]. split; [|exact Hk].
    exists s. split; [exact Erun | exact Ht].
  - exists horse, g. unfold M_ret. rewrite Z.ltb_irrefl, Z.add_0_r.
    split; [reflexivity|]. split; [exact Hwf|]. split; [|left; reflexivity].
    split; reflexivity.
Qed.

Lemma grazing_body_spec (inst : ProblemInstance) (intensity : Q) (horse : Horse)
    (count : Z) (g : Random) :
  ProblemInstance_isValid inst = true -> (0 < intensity)%Q -> (intensity <= 1)%Q ->
  wf_horse inst horse ->
  exists horse' g',
    ('(improved, horse') <~ graze intensity horse;
     M_ret (horse', if improved : bool then count + 1 else count)) g
    = Ok ((horse',
           count + (if current_makespan inst horse' <? current_makespan inst horse
                    then 1 else 0)), g')
    /\ wf_horse inst horse' /\ grazing_of intensity horse g horse' g'
    /\ not_worse inst horse horse'.
Proof.
  intros Hv H0 H1 Hwf.
  destruct (graze_outcome inst intensity horse g Hv Hwf H0 H1)
    as (improved & h' & g' & E & Hwf' & Hle & Hiff & _).
  exists h', g'. split; [|split; [exact Hwf'|split; [exists improved; exact E | exact Hle]]].
  unfold M_bind. rewrite E. unfold M_ret.
  destruct improved.
  - rewrite (proj2 (Z.ltb_lt _ _) (proj1 Hiff eq_refl)). reflexivity.
  - destruct (Z.ltb_spec (current_makespan inst h') (current_makespan inst horse)) as [Hlt|_].
    + apply Hiff in Hlt. discriminate.
    + rewrite Z.add_0_r. reflexivity.
Qed.

(** C7, amended.  On a herd of solutions of a valid instance, each of
    the four passes returns (for a grazing intensity in [(0, 1]], an
    exploration, following or mutation rate in [[0, 1]], and at least
    two jobs for the following pass); it handles the horses one after
    the other, each with the operator of the pass: [graze];  a draw,
    and below the roaming rate [roam] and the acceptance test;
    [followLeader] and the acceptance test for every horse not flagged
    as the leader; [mutate].  The count it returns is the number of
    horses whose current makespan is strictly below the one they had
    before the pass; [updateLeader] is called exactly when this count
    is positive; the herd keeps its size.  After grazing no horse has a
    greater makespan than before; after roaming and following every
    horse has the order it had or a strictly smaller makespan, the
    acceptance test taking a candidate exactly when its makespan is
    strictly below the current one.  [performMutation] does not test:
    [mutate] replaces the current solution by the random neighbour
    whenever its draw is below the rate, whatever the makespan, and
    leaves the horse as it was otherwise; only the personal best is
    guarded, being replaced by the new current solution when that one is
    strictly fitter. *)
Theorem performMutation_counts_improved :
  (forall mutation_rate herd g,
     wf_herd herd -> (0 <= mutation_rate <= 1)%Q ->
     exists count herd' g',
       performMutation mutation_rate herd g = Ok ((count, herd'), g')
       /\ pass_outcome_of (mutation_of mutation_rate) keeps_or_raises_best
            herd g count herd' g'
       /\ length (horses_ herd') = length (horses_ herd)
       /\ count = improved_horses (herd_instance_ herd) (horses_ herd) (horses_ herd')
       /\ Forall2 keeps_or_raises_best (horses_ herd) (horses_ herd'))
  /\ (forall inst mutation_rate h g,
        ProblemInstance_isValid inst = true -> wf_horse inst h ->
        (0 <= mutation_rate <= 1)%Q ->
        exists u g1,
          randDouble g = Ok (u, g1)
          /\ if Qltb u mutation_rate then
               exists s g2 h',
                 roam_move (solution_ h) g1 = Ok (s, g2)
                 /\ mutate mutation_rate h g = Ok (h', g2)
                 /\ job_sequence_ (solution_ h') = job_sequence_ s
                 /\ fitness_ h' = calculateFitness (makespan_of inst (job_sequence_ s))
                 /\ keeps_or_raises_best h h'
                 /\ wf_horse inst h'
             else mutate mutation_rate h g = Ok (h, g1))
  /\ (forall intensity herd g,
        wf_herd herd -> (0 < intensity)%Q -> (intensity <= 1)%Q ->
        exists count herd' g',
          performGrazing intensity herd g = Ok ((count, herd'), g')
          /\ pass_outcome_of (grazing_of intensity) (not_worse (herd_instance_ herd))
               herd g count herd' g'
          /\ length (horses_ herd') = length (horses_ herd)
          /\ count = improved_horses (herd_instance_ herd) (horses_ herd) (horses_ herd'))
  /\ (forall roaming_rate exploration_rate herd g,
        wf_herd herd -> (0 <= exploration_rate <= 1)%Q ->
        exists count herd' g',
          performRoaming roaming_rate exploration_rate herd g = Ok ((count, herd'), g')
          /\ pass_outcome_of (roaming_of roaming_rate exploration_rate)
               (kept_or_improved (herd_instance_ herd)) herd g count herd' g'
          /\ length (horses_ herd') = length (horses_ herd)
          /\ count = improved_horses (herd_instance_ herd) (horses_ herd) (horses_ herd'))
  /\ (forall following_rate herd g,
        wf_herd herd -> 2 <= getNumJobs (herd_instance_ herd) ->
        (0 <= following_rate <= 1)%Q ->
        exists count herd' g',
          performFollowing following_rate herd g = Ok ((count, herd'), g')
          /\ pass_outcome_of (following_of (leader_ herd) following_rate)
               (kept_or_improved (herd_instance_ herd)) herd g count herd' g'
          /\ length (horses_ herd') = length (horses_ herd)
          /\ count = improved_horses (herd_instance_ herd) (horses_ herd) (horses_ herd'))
  /\ (forall inst new_solution horse count,
        ProblemInstance_isValid inst = true -> wf_solution inst new_solution ->
        wf_horse inst horse ->
        exists horse',
          accept_if_better new_solution horse count
          = Ok (horse',
                count + (if current_makespan inst horse' <? current_makespan inst horse
                         then 1 else 0))
          /\ if makespan_of inst (job_sequence_ new_solution) <? current_makespan inst horse
             then job_sequence_ (solution_ horse') = job_sequence_ new_solution
             else copy_of horse horse').
Proof.
  split; [|split; [|split; [|split; [|split]]]].
  - intros mutation_rate herd g Hwf Hr. pose proof Hwf as (Hv & _).
    destruct (pass_in_turn (herd_instance_ herd) (mutation_step mutation_rate)
                (mutation_of mutation_rate) keeps_or_raises_best
                (fun horse count g0 Hh =>
                   mutation_body_spec _ mutation_rate horse count g0 Hv Hr Hh)
                herd g Hwf eq_refl)
      as (count & herd' & g' & E & Hout & _ & Hlen & Hcount).
    exists count, herd', g'. split; [exact E|]. split; [exact Hout|].
    split; [exact Hlen|]. split; [exact Hcount|].
    destruct Hout as (hs & _ & _ & Hk & _ & Hc).
    exact (keeps_or_raises_best_copies _ _ _ Hk Hc).
  - intros inst mutation_rate h g Hv Hwf Hr. exact (mutate_spec inst mutation_rate h g Hv Hwf Hr).
  - intros intensity herd g Hwf H0 H1. pose proof Hwf as (Hv & _).
    destruct (pass_in_turn (herd_instance_ herd) _
                (grazing_of intensity) (not_worse (herd_instance_ herd))
                (fun horse count g0 Hh =>
                   grazing_body_spec _ intensity horse count g0 Hv H0 H1 Hh)
                herd g Hwf eq_refl)
      as (count & herd' & g' & E & Hout & _ & Hlen & Hcount).
    exists count, herd', g'. split; [exact E|]. split; [exact Hout|].
    split; [exact Hlen | exact Hcount].
  - intros roaming_rate exploration_rate herd g Hwf Hr. pose proof Hwf as (Hv & _).
    destruct (pass_in_turn (herd_instance_ herd) _
                (roaming_of roaming_rate exploration_rate)
                (kept_or_improved (herd_instance_ herd))
                (fun horse count g0 Hh =>
                   roaming_body_spec _ roaming_rate exploration_rate horse count g0 Hv Hr Hh)
                herd g Hwf eq_refl)
      as (count & herd' & g' & E & Hout & _ & Hlen & Hcount).
    exists count, herd', g'. split; [exact E|]. split; [exact Hout|].
    split; [exact Hlen | exact Hcount].
  - intros following_rate herd g Hwf Hn Hr. pose proof Hwf as (Hv & _ & Hl).
    destruct (pass_in_turn (herd_instance_ herd) _
                (following_of (leader_ herd) following_rate)
                (kept_or_improved (herd_instance_ herd))
                (fun horse count g0 Hh =>
                   following_body_spec _ (leader_ herd) following_rate horse count g0
                     Hv Hl Hn Hr Hh)
                herd g Hwf eq_refl)
      as (count & herd' & g' & E & Hout & _ & Hlen & Hcount).
    exists count, herd', g'. split; [exact E|]. split; [exact Hout|].
    split; [exact Hlen | exact Hcount].
  - intros inst new_solution horse count Hv Hnew Hwf.
    destruct (accept_if_better_wf inst new_solution horse count Hv Hnew Hwf)
      as (horse' & E & _ & Hcase).
    exists horse'. split; [exact E | exact Hcase].
Qed.

(** [performMutation_counts_improved] on the herd of one horse on two
    jobs: the mutation pass at the rate one, and the roaming pass at the
    rates one and one half. *)
Lemma performMutation_counts_improved_witness :
  (exists count herd' g',
     performMutation 1 two_jobs_herd counting_random = Ok ((count, herd'), g')
     /\ count = improved_horses (herd_instance_ two_jobs_herd) (horses_ two_jobs_herd)
                  (horses_ herd')
     /\ length (horses_ herd') = length (horses_ two_jobs_herd))
  /\ (exists count herd' g',
        performRoaming 1 (1 # 2) two_jobs_herd counting_random = Ok ((count, herd'), g')
        /\ count = improved_horses (herd_instance_ two_jobs_herd) (horses_ two_jobs_herd)
                     (horses_ herd')).
Proof.
  destruct performMutation_counts_improved as (Hm & _ & _ & Hroam & _).
  split.
  - assert (Hr : (0 <= 1 <= 1)%Q) by (split; unfold Qle; simpl; lia).
    destruct (Hm 1%Q two_jobs_herd counting_random two_jobs_herd_wf Hr)
      as (count & herd' & g' & E & _ & Hl & Hc & _).
    exists count, herd', g'. split; [exact E|]. split; [exact Hc | exact Hl].
  - assert (Hr : (0 <= 1 # 2 <= 1)%Q) by (split; unfold Qle; simpl; lia).
    destruct (Hroam 1%Q (1 # 2) two_jobs_herd counting_random two_jobs_herd_wf Hr)
      as (count & herd' & g' & E & _ & _ & Hc).
    exists count, herd', g'. split; [exact E | exact Hc].
Defined.
